(** * Email-base analysis: batch script [analise.py] and interactive
      application [sistema_analise_app.py]

    A shallow embedding of the two programs and the properties their
    specification states about them.

    Conventions of the embedding.
    - A Python [str] is a [string] whose characters are the code points
      U+0000..U+00FF (Latin-1), the range the Portuguese input of the
      programs lives in.  The character tables of the Python library
      ([str.isspace], [str.lower], the classes [\s], [\d], [\w] of [re],
      NFKD decomposition followed by [encode("ascii", "ignore")]) are
      written out on that range.
    - A [dict] or [Counter] whose iteration order is observable is an
      association list in insertion order; a [set] is a [gset].
    - The tokenisation of a CSV file into records (module [csv]) and the
      rendering of numbers into cells ([str(count)]) are not modelled: a
      file is the list of its records, a count cell is the number. *)

From Stdlib Require Import ZArith QArith Lia Ascii String Bool DecimalString
  DecimalNat DecimalN DecimalFacts.
From stdpp Require Import base list strings gmap sorting.

#[local] Open Scope nat_scope.

(** ** Python strings *)

Module Text.

Definition code (c : ascii) : nat := nat_of_ascii c.

Definition between (lo hi : nat) (c : ascii) : bool :=
  (lo <=? code c) && (code c <=? hi).

Definition is_upper_az : ascii → bool := between 65 90.
Definition is_lower_az : ascii → bool := between 97 122.
Definition is_digit : ascii → bool := between 48 57.
Definition is_alpha_az (c : ascii) : bool := is_upper_az c || is_lower_az c.
Definition is_alnum_az (c : ascii) : bool := is_alpha_az c || is_digit c.

(** [str.isspace] and the class [\s] of [re] on Latin-1. *)
Definition isspace (c : ascii) : bool :=
  between 9 13 c || between 28 32 c || (code c =? 133) || (code c =? 160).

(** The class [\w] of [re] (alphanumeric or underscore) on Latin-1. *)
Definition is_word (c : ascii) : bool :=
  is_alnum_az c || (code c =? 95)
  || (code c =? 170) || (code c =? 178) || (code c =? 179) || (code c =? 181)
  || (code c =? 185) || (code c =? 186) || between 188 190 c
  || between 192 214 c || between 216 246 c || between 248 255 c.

(** [str.lower] on one character: A-Z and the accented capitals
    U+00C0..U+00DE (the multiplication sign U+00D7 apart) move up by 32. *)
Definition lower_chr (c : ascii) : ascii :=
  if is_upper_az c || (between 192 222 c && negb (code c =? 215))
  then ascii_of_nat (code c + 32) else c.

Fixpoint smap (f : ascii → ascii) (s : string) : string :=
  match s with
  | EmptyString => EmptyString
  | String c s' => String (f c) (smap f s')
  end.

Fixpoint sall (p : ascii → bool) (s : string) : bool :=
  match s with
  | EmptyString => true
  | String c s' => p c && sall p s'
  end.

Fixpoint sfilter (p : ascii → bool) (s : string) : string :=
  match s with
  | EmptyString => EmptyString
  | String c s' => if p c then String c (sfilter p s') else sfilter p s'
  end.

Definition is_empty (s : string) : bool :=
  match s with EmptyString => true | _ => false end.

Definition shead (s : string) : option ascii :=
  match s with EmptyString => None | String c _ => Some c end.

Definition lower (s : string) : string := smap lower_chr s.

Fixpoint lstrip_by (p : ascii → bool) (s : string) : string :=
  match s with
  | EmptyString => EmptyString
  | String c s' => if p c then lstrip_by p s' else s
  end.

Fixpoint rstrip_by (p : ascii → bool) (s : string) : string :=
  match s with
  | EmptyString => EmptyString
  | String c s' =>
      match rstrip_by p s' with
      | EmptyString => if p c then EmptyString else String c EmptyString
      | r => String c r
      end
  end.

Definition strip_by (p : ascii → bool) (s : string) : string :=
  rstrip_by p (lstrip_by p s).

(** [s.strip()] *)
Definition strip : string → string := strip_by isspace.

(** [s.rstrip(",")] and [s.strip("_")] *)
Definition rstrip_chr (c : ascii) : string → string := rstrip_by (Ascii.eqb c).
Definition strip_chr (c : ascii) : string → string := strip_by (Ascii.eqb c).

(** [c in s] for a one-character needle *)
Fixpoint contains_chr (c : ascii) (s : string) : bool :=
  match s with
  | EmptyString => false
  | String d s' => Ascii.eqb c d || contains_chr c s'
  end.

(** [s.split(c, 1)] when [c] occurs in [s]: the text before the first
    occurrence and the text after it. *)
Fixpoint split_once (c : ascii) (s : string) : option (string * string) :=
  match s with
  | EmptyString => None
  | String d s' =>
      if Ascii.eqb c d then Some (EmptyString, s')
      else match split_once c s' with
           | Some (a, b) => Some (String d a, b)
           | None => None
           end
  end.

(** Comparison of two [str], by code points. *)
Definition str_leb (a b : string) : bool := String.leb a b.

End Text.

(** ** The fragment of [re] the programs use

    Every quantifier of the patterns in the two programs applies to a
    character class, so the syntax has classes, bounded and unbounded
    greedy repetition of a class, the anchors, the word boundary, one
    capture group and concatenation.  The matcher is the backtracking one:
    it lists the ways a pattern matches at a position in the order [re]
    tries them, and [re] reports the first. *)

Module Regex.
Import Text.

Inductive regex : Type :=
| Bol                                   (* ^ *)
| Eol                                   (* $ *)
| Wordb                                 (* \b *)
| Cls (p : ascii → bool)                (* [...] *)
| Rep (p : ascii → bool) (lo : nat) (hi : option nat)   (* [...]{lo,hi} *)
| Grp (r : regex)                       (* ( r ) *)
| Cat (r1 r2 : regex).

Record mres : Type := MRes { taken : string; group : option string; rest : string }.

Definition newline : ascii := ascii_of_nat 10.

Fixpoint last_chr (prev : option ascii) (t : string) : option ascii :=
  match t with
  | EmptyString => prev
  | String c t' => last_chr (Some c) t'
  end.

Definition word_opt (c : option ascii) : bool :=
  match c with Some c => is_word c | None => false end.

Definition hi_allows (hi : option nat) : bool :=
  match hi with Some 0 => false | _ => true end.

Definition hi_pred (hi : option nat) : option nat :=
  match hi with Some n => Some (pred n) | None => None end.

(** [n] repetitions are within the upper bound. *)
Definition within (hi : option nat) (n : nat) : Prop :=
  match hi with Some h => n ≤ h | None => True end.

(** The splits of [s] into a run of the class and the remainder, the
    longest run first. *)
Fixpoint rep_greedy (p : ascii → bool) (lo : nat) (hi : option nat) (s : string)
  : list (string * string) :=
  let stop := match lo with 0 => [(EmptyString, s)] | _ => [] end in
  match s with
  | EmptyString => stop
  | String c s' =>
      if p c && hi_allows hi
      then map (λ tr, (String c tr.1, tr.2)) (rep_greedy p (pred lo) (hi_pred hi) s') ++ stop
      else stop
  end.

Definition at_eol (s : string) : bool :=
  match s with
  | EmptyString => true
  | String c EmptyString => Ascii.eqb c newline
  | _ => false
  end.

Definition or_group (g2 g1 : option string) : option string :=
  match g2 with Some g => Some g | None => g1 end.

(** [rmatch r prev s]: the matches of [r] at the position whose previous
    character is [prev] ([None] at the start of the text) and whose
    remaining text is [s]. *)
Fixpoint rmatch (r : regex) (prev : option ascii) (s : string) : list mres :=
  match r with
  | Bol => match prev with None => [MRes EmptyString None s] | Some _ => [] end
  | Eol => if at_eol s then [MRes EmptyString None s] else []
  | Wordb =>
      if xorb (word_opt prev) (word_opt (shead s))
      then [MRes EmptyString None s] else []
  | Cls p =>
      match s with
      | String c s' => if p c then [MRes (String c EmptyString) None s'] else []
      | EmptyString => []
      end
  | Rep p lo hi => map (λ tr, MRes tr.1 None tr.2) (rep_greedy p lo hi s)
  | Grp r1 => map (λ m, MRes (taken m) (Some (taken m)) (rest m)) (rmatch r1 prev s)
  | Cat r1 r2 =>
      flat_map
        (λ m1, map (λ m2, MRes (taken m1 +:+ taken m2)
                               (or_group (group m2) (group m1)) (rest m2))
                   (rmatch r2 (last_chr prev (taken m1)) (rest m1)))
        (rmatch r1 prev s)
  end.

(** [pattern.match(s)]: the first match at the start of the text. *)
Definition re_match (r : regex) (s : string) : option mres :=
  head (rmatch r None s).

(** [pattern.search(s)]: the first match at the leftmost position that
    has one. *)
Fixpoint search_from (r : regex) (prev : option ascii) (s : string) : option mres :=
  match rmatch r prev s with
  | m :: _ => Some m
  | [] => match s with
          | EmptyString => None
          | String c s' => search_from r (Some c) s'
          end
  end.

Definition re_search (r : regex) (s : string) : option mres := search_from r None s.

(** [pattern.findall(s)] for a pattern with one group: the group of every
    match, scanning left to right and resuming after each match.  [skip]
    counts the characters of the last match still to step over. *)
Fixpoint findall_from (r : regex) (skip : nat) (prev : option ascii) (s : string)
  : list string :=
  match skip with
  | S k =>
      match s with
      | EmptyString => []
      | String c s' => findall_from r k (Some c) s'
      end
  | 0 =>
      match rmatch r prev s with
      | m :: _ =>
          default EmptyString (group m) ::
            match s with
            | EmptyString => []
            | String c s' => findall_from r (pred (String.length (taken m))) (Some c) s'
            end
      | [] =>
          match s with
          | EmptyString => []
          | String c s' => findall_from r 0 (Some c) s'
          end
      end
  end.

Definition re_findall (r : regex) (s : string) : list string := findall_from r 0 None s.

(** [pattern.sub(repl, s)], for a pattern that matches no empty text. *)
Fixpoint sub_from (r : regex) (repl : string) (skip : nat) (prev : option ascii)
  (s : string) : string :=
  match s with
  | EmptyString => EmptyString
  | String c s' =>
      match skip with
      | S k => sub_from r repl k (Some c) s'
      | 0 =>
          match rmatch r prev s with
          | m :: _ => repl +:+ sub_from r repl (pred (String.length (taken m))) (Some c) s'
          | [] => String c (sub_from r repl 0 (Some c) s')
          end
      end
  end.

Definition re_sub (r : regex) (repl s : string) : string := sub_from r repl 0 None s.

End Regex.

(** ** Ordered dictionaries, counters and rankings *)

Module Ranking.

Section sorting.
Context {A : Type} (stays_before : A → A → bool).

Fixpoint insert_by (x : A) (l : list A) : list A :=
  match l with
  | [] => [x]
  | y :: l' => if stays_before x y then x :: l else y :: insert_by x l'
  end.

(** A stable sort: an element passes only the later elements it may not
    stay before. *)
Definition sort_by (l : list A) : list A := foldr insert_by [] l.
End sorting.

(** [sorted(l, key=key, reverse=True)]: by key descending; Python keeps
    the original order of elements with equal keys, also when reversed. *)
Definition sorted_desc {A : Type} (key : A → nat) : list A → list A :=
  sort_by (λ x y, key y <=? key x).

Section dict.
Context {V : Type}.

(** [d[k] = f(d[k])] on a dictionary whose missing entries default to
    [dflt] ([Counter], [defaultdict]): an existing key keeps its place, a
    new key goes to the end. *)
Fixpoint dict_update (k : string) (f : V → V) (dflt : V) (d : list (string * V))
  : list (string * V) :=
  match d with
  | [] => [(k, f dflt)]
  | (k', v) :: d' =>
      if decide (k = k') then (k', f v) :: d'
      else (k', v) :: dict_update k f dflt d'
  end.

Fixpoint dict_lookup (k : string) (d : list (string * V)) : option V :=
  match d with
  | [] => None
  | (k', v) :: d' => if decide (k = k') then Some v else dict_lookup k d'
  end.
End dict.

(** A dictionary filled with one update per item, in order. *)
Definition fill {V X : Type} (key : X → string) (upd : X → V → V) (dflt : V)
  (d : list (string * V)) (xs : list X) : list (string * V) :=
  foldl (λ d x, dict_update (key x) (upd x) dflt d) d xs.

Definition Counter : Type := list (string * nat).

(** [c[k] += 1] *)
Definition counter_incr (k : string) (c : Counter) : Counter := dict_update k S 0 c.

(** [Counter(keys)], one increment per key, in order. *)
Definition counter_of (keys : list string) : Counter :=
  foldl (λ c k, counter_incr k c) [] keys.

(** [c.most_common(n)] is [heapq.nlargest(n, c.items(), key=itemgetter(1))],
    that is [sorted(c.items(), key=itemgetter(1), reverse=True)[:n]]. *)
Definition most_common (n : nat) (c : Counter) : list (string * nat) :=
  take n (sorted_desc snd c).

(** [d[k].add(v)] on a [defaultdict(set)] *)
Definition dd_add (k v : string) (d : list (string * gset string))
  : list (string * gset string) :=
  dict_update k (λ s, s ∪ {[v]}) ∅ d.

Definition total (c : list (string * nat)) : nat := foldr (λ kv n, kv.2 + n) 0 c.

(** Position of the first occurrence of [k] in [l] ([length l] if none). *)
Fixpoint first_index (k : string) (l : list string) : nat :=
  match l with
  | [] => 0
  | k' :: l' => if decide (k = k') then 0 else S (first_index k l')
  end.

(** [x] stands at an earlier position of [l] than [y]. *)
Definition before {A : Type} (x y : A) (l : list A) : Prop :=
  ∃ i j, i < j ∧ l !! i = Some x ∧ l !! j = Some y.




(** The number of occurrences of [x] in [l]. *)
Definition occurrences `{EqDecision A} (x : A) (l : list A) : nat :=
  length (filter (λ y, y = x) l).

End Ranking.

(** ** The email pattern, the same in both programs *)

Module Email.
Import Text Regex.

Definition chr_in (cs : string) (c : ascii) : bool := contains_chr c cs.

Definition local_chr (c : ascii) : bool := is_alnum_az c || chr_in "._%+-" c.
Definition domain_chr (c : ascii) : bool := is_alnum_az c || chr_in ".-" c.

(** [^[A-Za-z0-9._%+\-]+@[A-Za-z0-9.\-]+\.[A-Za-z]{2,}$] *)
Definition EMAIL_REGEX : regex :=
  Cat Bol
    (Cat (Rep local_chr 1 None)
       (Cat (Cls (Ascii.eqb "@"))
          (Cat (Rep domain_chr 1 None)
             (Cat (Cls (Ascii.eqb "."))
                (Cat (Rep is_alpha_az 2 None) Eol))))).

(** [bool(EMAIL_REGEX.match(email))] *)
Definition regex_valid (email : string) : bool :=
  match re_match EMAIL_REGEX email with Some _ => true | None => false end.



End Email.

(** ** Exceptions *)

Inductive exn : Type :=
| FileNotFoundError
| ValueError (msg : string)
| KeyError (key : string)
| AttributeError (msg : string)
| ReaderError (msg : string).        (* raised inside the dataframe library *)

(** [str(exc)] *)
Definition exn_message (e : exn) : string :=
  match e with
  | FileNotFoundError => "[Errno 2] No such file or directory"
  | ValueError msg => msg
  | KeyError key => "'" +:+ key +:+ "'"
  | AttributeError msg => msg
  | ReaderError msg => msg
  end.

Inductive result (A : Type) : Type :=
| Ok (a : A)
| Raise (e : exn).
Arguments Ok {A} a.
Arguments Raise {A} e.

Definition rbind {A B : Type} (m : result A) (k : A → result B) : result B :=
  match m with
  | Ok a => k a
  | Raise e => Raise e
  end.

Notation "x ←r m ; k" := (rbind m (λ x, k))
  (at level 100, m at next level, right associativity).

(** ** The batch script, [analise.py] *)

Module Batch.
Import Text Regex Ranking.

Record AnalysisSummary : Type := {
  total_rows : nat;
  unique_emails : nat;
  invalid_emails : nat;
  missing_emails : nat;
  rows_with_trimmed_email : nat;
  duplicate_exact_rows : nat
}.

(** [(value or "").strip()] *)
Definition normalize_text (value : option string) : string :=
  strip (default "" value).

Definition normalize_email (value : option string) : string :=
  lower (normalize_text value).

Definition is_valid_email (email : string) : bool := Email.regex_valid email.

(** *** Rows of [csv.DictReader] *)

(** A record as [csv.reader] yields it, and the dictionary [DictReader]
    builds from it: a value is [None] where the record is shorter than the
    header; the later of two equal header names wins. *)
Definition record : Type := list string.
Definition dict : Type := list (string * option string).

Record csv_row : Type := {
  row_dict : dict;
  row_extra : bool      (* the record is longer than the header: key [None] *)
}.

Definition reader_row (fieldnames : list string) (r : record) : csv_row :=
  {| row_dict :=
       zip fieldnames
         (map Some r ++ replicate (length fieldnames - length r) None);
     row_extra := length fieldnames <? length r |}.

(** [row.get(k)] *)
Definition dict_get (k : string) (d : dict) : option string :=
  foldl (λ acc kv, if decide (kv.1 = k) then kv.2 else acc) None d.

(** [DictReader] takes the first record as the header and skips the empty
    records after it. *)
Definition reader_rows (fieldnames : list string) (body : list record) : list csv_row :=
  map (reader_row fieldnames) (filter (λ r : record, r ≠ []) body).

(** *** The loop of [analyze] *)

Definition identity : Type := string * string * string * string.

(** What [analyze] passes to [treated_writer.writerow] is [{**row, ...}]:
    the dictionary of the input row with the three appended keys set last.
    [tr_row] is the dictionary of the input row, the three values stand
    beside it, and [written_cells] below merges them as the writer does. *)
Record treated_row : Type := {
  tr_row : dict;
  tr_EMAIL_TRATADO : string;
  tr_EMAIL_VALIDO : bool;              (* "SIM" / "NAO" *)
  tr_LINHA_DUPLICADA_EXATA : bool      (* "SIM" / "NAO" *)
}.

Definition sim_nao (b : bool) : string := if b then "SIM" else "NAO".

Definition treated_fieldnames (original_fieldnames : list string) : list string :=
  original_fieldnames ++ ["EMAIL_TRATADO"; "EMAIL_VALIDO"; "LINHA_DUPLICADA_EXATA"].

(** The cells [DictWriter] writes for a treated row: for each name of
    [treated_fieldnames] the value of the merged dictionary, [None] being
    written as the empty text.  A column of the input that bears one of the
    three appended names is overwritten. *)
Definition written_cells (original_fieldnames : list string) (t : treated_row)
  : list string :=
  map (λ k, if String.eqb k "EMAIL_TRATADO" then tr_EMAIL_TRATADO t
            else if String.eqb k "EMAIL_VALIDO" then sim_nao (tr_EMAIL_VALIDO t)
            else if String.eqb k "LINHA_DUPLICADA_EXATA"
                 then sim_nao (tr_LINHA_DUPLICADA_EXATA t)
            else default "" (dict_get k (tr_row t)))
    (treated_fieldnames original_fieldnames).

Record invalid_row : Type := {
  iv_LINHA_CSV : nat;
  iv_NOME_CREDOR : string;
  iv_CPF_CNPJ : string;
  iv_NOME_CONTRIBUINTE : string;
  iv_E_MAIL_ORIGINAL : string;
  iv_E_MAIL_TRATADO : string
}.

Record duplicate_row : Type := {
  dp_LINHA_CSV : nat;
  dp_NOME_CREDOR : string;
  dp_CPF_CNPJ : string;
  dp_NOME_CONTRIBUINTE : string;
  dp_E_MAIL_TRATADO : string
}.

Record state : Type := {
  st_total_rows : nat;
  st_missing_emails : nat;
  st_invalid_emails : nat;
  st_rows_with_trimmed_email : nat;
  st_duplicate_exact_rows : nat;
  st_unique_emails : gset string;
  st_domain_counter : Counter;
  st_repeated_email_counter : Counter;
  st_row_count_by_document : Counter;
  st_unique_email_count_by_document : list (string * gset string);
  st_unique_email_count_by_taxpayer : list (string * gset string);
  st_invalid_rows : list invalid_row;
  st_duplicate_rows : list duplicate_row;
  st_seen_exact_rows : gset identity;
  st_treated : list treated_row
}.

Definition init : state := {|
  st_total_rows := 0;
  st_missing_emails := 0;
  st_invalid_emails := 0;
  st_rows_with_trimmed_email := 0;
  st_duplicate_exact_rows := 0;
  st_unique_emails := ∅;
  st_domain_counter := [];
  st_repeated_email_counter := [];
  st_row_count_by_document := [];
  st_unique_email_count_by_document := [];
  st_unique_email_count_by_taxpayer := [];
  st_invalid_rows := [];
  st_duplicate_rows := [];
  st_seen_exact_rows := ∅;
  st_treated := []
|}.

Definition creditor_of (row : csv_row) : string :=
  normalize_text (dict_get "NOME_CREDOR" (row_dict row)).
Definition document_of (row : csv_row) : string :=
  normalize_text (dict_get "CPF_CNPJ" (row_dict row)).
Definition taxpayer_of (row : csv_row) : string :=
  normalize_text (dict_get "NOME_CONTRIBUINTE" (row_dict row)).
(** [row.get("E-MAIL") or ""] *)
Definition raw_email_of (row : csv_row) : string :=
  default "" (dict_get "E-MAIL" (row_dict row)).
Definition clean_email_of (row : csv_row) : string :=
  normalize_email (Some (raw_email_of row)).

Definition row_identity (row : csv_row) : identity :=
  (creditor_of row, document_of row, taxpayer_of row, clean_email_of row).

(** [clean_email.split("@", 1)[1]] *)
Definition domain_of (email : string) : string :=
  match split_once "@" email with Some (_, d) => d | None => "" end.

(** [email_is_valid] of a row: a non-empty normalised email that matches
    the pattern. *)
Definition valid_row (row : csv_row) : bool :=
  negb (is_empty (clean_email_of row)) && is_valid_email (clean_email_of row).

(** The row [analyze] appends to [invalid_rows]. *)
Definition invalid_record (line_number : nat) (row : csv_row) : invalid_row :=
  {| iv_LINHA_CSV := line_number; iv_NOME_CREDOR := creditor_of row;
     iv_CPF_CNPJ := document_of row; iv_NOME_CONTRIBUINTE := taxpayer_of row;
     iv_E_MAIL_ORIGINAL := raw_email_of row; iv_E_MAIL_TRATADO := clean_email_of row |}.

(** The row [analyze] appends to [duplicate_rows]. *)
Definition duplicate_record (line_number : nat) (row : csv_row) : duplicate_row :=
  {| dp_LINHA_CSV := line_number; dp_NOME_CREDOR := creditor_of row;
     dp_CPF_CNPJ := document_of row; dp_NOME_CONTRIBUINTE := taxpayer_of row;
     dp_E_MAIL_TRATADO := clean_email_of row |}.

(** What one iteration of the loop over the reader does to the
    accumulators. *)
Definition update (st : state) (line_number : nat) (row : csv_row) : state :=
  let document := document_of row in
  let taxpayer := taxpayer_of row in
  let raw_email := raw_email_of row in
  let clean_email := clean_email_of row in
  let trimmed := negb (String.eqb raw_email (strip raw_email)) in
  let email_is_valid := valid_row row in
  let rejected := negb (is_empty clean_email) && negb (is_valid_email clean_email) in
  let is_duplicate_exact := bool_decide (row_identity row ∈ st_seen_exact_rows st) in
  {|
    st_total_rows := st_total_rows st + 1;
    st_missing_emails :=
      if is_empty clean_email then st_missing_emails st + 1 else st_missing_emails st;
    st_invalid_emails :=
      if rejected then st_invalid_emails st + 1 else st_invalid_emails st;
    st_rows_with_trimmed_email :=
      if trimmed then st_rows_with_trimmed_email st + 1
      else st_rows_with_trimmed_email st;
    st_duplicate_exact_rows :=
      if is_duplicate_exact then st_duplicate_exact_rows st + 1
      else st_duplicate_exact_rows st;
    st_unique_emails :=
      if is_empty clean_email then st_unique_emails st
      else st_unique_emails st ∪ {[clean_email]};
    st_domain_counter :=
      if email_is_valid && contains_chr "@" clean_email
      then counter_incr (domain_of clean_email) (st_domain_counter st)
      else st_domain_counter st;
    st_repeated_email_counter := counter_incr clean_email (st_repeated_email_counter st);
    st_row_count_by_document := counter_incr document (st_row_count_by_document st);
    st_unique_email_count_by_document :=
      if email_is_valid
      then dd_add document clean_email (st_unique_email_count_by_document st)
      else st_unique_email_count_by_document st;
    st_unique_email_count_by_taxpayer :=
      if email_is_valid
      then dd_add taxpayer clean_email (st_unique_email_count_by_taxpayer st)
      else st_unique_email_count_by_taxpayer st;
    st_invalid_rows :=
      if rejected then st_invalid_rows st ++ [invalid_record line_number row]
      else st_invalid_rows st;
    st_duplicate_rows :=
      if is_duplicate_exact
      then st_duplicate_rows st ++ [duplicate_record line_number row]
      else st_duplicate_rows st;
    st_seen_exact_rows :=
      if is_duplicate_exact then st_seen_exact_rows st
      else st_seen_exact_rows st ∪ {[row_identity row]};
    st_treated :=
      st_treated st ++
      [{| tr_row := row_dict row; tr_EMAIL_TRATADO := clean_email;
          tr_EMAIL_VALIDO := email_is_valid;
          tr_LINHA_DUPLICADA_EXATA := is_duplicate_exact |}]
  |}.

(** One iteration.  Its last statement, [treated_writer.writerow], raises
    on a row that carries the key [None]. *)
Definition step (st : state) (line_number : nat) (row : csv_row) : result state :=
  if row_extra row
  then Raise (ValueError "dict contains fields not in fieldnames: None")
  else Ok (update st line_number row).

(** [for line_number, row in enumerate(reader, start=2)] *)
Fixpoint run (st : state) (line_number : nat) (rows : list csv_row) : result state :=
  match rows with
  | [] => Ok st
  | row :: rows' =>
      st' ←r step st line_number row ; run st' (S line_number) rows'
  end.

(** The accumulators after the loop, when no iteration raises. *)
Fixpoint accumulate (st : state) (line_number : nat) (rows : list csv_row) : state :=
  match rows with
  | [] => st
  | row :: rows' => accumulate (update st line_number row) (S line_number) rows'
  end.

(** *** The reports *)

Definition non_empty_key {V : Type} (kv : string * V) : bool := negb (is_empty kv.1).

Definition top_domains (st : state) : list (string * nat) :=
  most_common 20 (st_domain_counter st).

Definition top_repeated_emails (st : state) : list (string * nat) :=
  List.filter non_empty_key (most_common 20 (st_repeated_email_counter st)).

Definition top_documents_by_rows (st : state) : list (string * nat) :=
  List.filter non_empty_key (most_common 20 (st_row_count_by_document st)).

(** [sorted(d.items(), key=lambda item: len(item[1]), reverse=True)[:20]],
    filtered on a non-empty key, each set replaced by its size. *)
Definition top_by_unique_emails (d : list (string * gset string)) : list (string * nat) :=
  map (λ kv, (kv.1, size kv.2))
    (List.filter non_empty_key (take 20 (sorted_desc (λ kv, size kv.2) d))).

Definition top_documents_by_unique_emails (st : state) : list (string * nat) :=
  top_by_unique_emails (st_unique_email_count_by_document st).

Definition top_taxpayer_by_unique_emails (st : state) : list (string * nat) :=
  top_by_unique_emails (st_unique_email_count_by_taxpayer st).

Record output : Type := {
  dados_tratados : list treated_row;
  top_dominios : list (string * nat);
  top_emails_repetidos : list (string * nat);
  top_documentos_por_linhas : list (string * nat);
  top_documentos_por_emails_unicos : list (string * nat);
  top_contribuintes_por_emails_unicos : list (string * nat);
  emails_invalidos : list invalid_row;
  linhas_duplicadas_exatas : list duplicate_row;
  summary : AnalysisSummary
}.

Definition finish (st : state) : output := {|
  dados_tratados := st_treated st;
  top_dominios := top_domains st;
  top_emails_repetidos := top_repeated_emails st;
  top_documentos_por_linhas := top_documents_by_rows st;
  top_documentos_por_emails_unicos := top_documents_by_unique_emails st;
  top_contribuintes_por_emails_unicos := top_taxpayer_by_unique_emails st;
  emails_invalidos := st_invalid_rows st;
  linhas_duplicadas_exatas := st_duplicate_rows st;
  summary := {|
    total_rows := st_total_rows st;
    unique_emails := size (st_unique_emails st);
    invalid_emails := st_invalid_emails st;
    missing_emails := st_missing_emails st;
    rows_with_trimmed_email := st_rows_with_trimmed_email st;
    duplicate_exact_rows := st_duplicate_exact_rows st
  |}
|}.

(** [analyze(input_path, output_dir)].  The input file is absent ([None])
    or the reader yields a list of records from it and ends.
    [input_path.open] raises on an absent file; [reader.fieldnames] is
    [None] when the reader yields no record at all, and the function raises
    [ValueError].  A reading that an exception ends (bytes that are not
    UTF-8, a field that csv rejects) is the matter of [Reading.analyze]
    below; the output directory is taken to be writable. *)
Definition analyze (input : option (list record)) : result output :=
  match input with
  | None => Raise FileNotFoundError
  | Some [] => Raise (ValueError "Arquivo CSV sem cabecalho.")
  | Some (fieldnames :: body) =>
      st ←r run init 2 (reader_rows fieldnames body) ; Ok (finish st)
  end.

End Batch.

(** ** The reading of the input by the batch script *)

Module Reading.
Import Text Ranking.

(** What [csv.DictReader] gets from the input file while [analyze] runs:
    the records it yields and the exception, if any, that ends the reading
    (bytes that are not UTF-8, a field that csv rejects).  The file is read
    after [dados_tratados.csv] of the output directory is opened for
    writing: an input that is that very file is empty when it is read, it
    yields no record. *)
Record reading : Type := {
  yielded : list Batch.record;
  failure : option exn
}.

(** [analyze(input_path, output_dir)] with the reading of the input: the
    header is asked for first, and an exception of the reader comes out of
    [reader.fieldnames] when no record was yielded; the loop handles every
    record that is yielded, then the exception of the reader, if any, ends
    it; the reports are written after the loop.  The output directory is
    taken to be writable. *)
Definition analyze (src : option reading) : result Batch.output :=
  match src with
  | None => Raise FileNotFoundError
  | Some rd =>
      match yielded rd with
      | [] =>
          match failure rd with
          | Some e => Raise e
          | None => Raise (ValueError "Arquivo CSV sem cabecalho.")
          end
      | fieldnames :: body =>
          st ←r Batch.run Batch.init 2 (Batch.reader_rows fieldnames body) ;
          match failure rd with
          | Some e => Raise e
          | None => Ok (Batch.finish st)
          end
      end
  end.

End Reading.

(** ** The interactive application, [sistema_analise_app.py] *)

Module App.
Import Text Regex Ranking.

Definition mem (x : string) (l : list string) : bool := bool_decide (x ∈ l).

Definition PLACEHOLDER_LOCALS : list string :=
  ["0"; "00"; "000"; "x"; "xx"; "xxx"; "xxxx"; "teste"; "test"; "email";
   "naotem"; "sem"; "sememail"; "naoconsta"; "null"; "none"; "desconhecido"].

Definition PLACEHOLDER_DOMAINS : list string :=
  ["desconhecido.com"; "sem.email"; "naotem.com"; "naotem.com.br";
   "naoconsta.com.br"; "email.com"; "teste.com"; "test.com"].

Definition COMMON_TYPO_DOMAINS : list string :=
  ["gamil.com"; "gmial.com"; "gmail.con"; "gmai.com"; "hotnail.com";
   "hotmai.com"; "hotmal.com"; "yaho.com"; "yhoo.com"; "yahool.com";
   "outlok.com"; "outllok.com"; "otlook.com"].

Definition BRAZIL_UFS : list string :=
  ["AC"; "AL"; "AP"; "AM"; "BA"; "CE"; "DF"; "ES"; "GO"; "MA"; "MT"; "MS";
   "MG"; "PA"; "PB"; "PR"; "PE"; "PI"; "RJ"; "RN"; "RS"; "RO"; "RR"; "SC";
   "SP"; "SE"; "TO"].

Inductive field : Type := source | document | name | email | region.

Definition HEADER_ALIASES (f : field) : list string :=
  match f with
  | source => ["origem"; "nome_credor"; "credor"; "fonte"; "orgao"]
  | document => ["cpf_cnpj"; "cpfcnpj"; "cpf"; "cnpj"; "documento"; "doc"]
  | name => ["nome"; "nome_contribuinte"; "cliente"; "nome_cliente"]
  | email => ["email"; "e_mail"; "e-mail"; "mail"; "correio_eletronico"]
  | region => ["regiao"; "regiao_creci"; "regional"; "creci"; "regiao_uf"]
  end.

(** [str(value).strip()] on a cell or a header, which is a [str]. *)
Definition normalize_text (value : string) : string := strip value.

(** *** Unicode tables *)

Definition chr1 (c : ascii) : string := String c EmptyString.

Fixpoint sconcat_map (f : ascii → string) (s : string) : string :=
  match s with
  | EmptyString => EmptyString
  | String c s' => f c +:+ sconcat_map f s'
  end.

(** One character through
    [unicodedata.normalize("NFKD", _).encode("ascii", "ignore").decode("ascii")]:
    an ASCII character stays, an accented letter keeps its base letter, a
    spacing accent or the no-break space leaves a space, superscripts,
    ordinals and fractions leave their digits or letter, the rest is
    dropped. *)
Definition nfkd_ascii (c : ascii) : string :=
  let n := code c in
  if n <? 128 then chr1 c
  else if (n =? 160) || (n =? 168) || (n =? 175) || (n =? 180) || (n =? 184) then " "
  else if n =? 170 then "a"
  else if n =? 186 then "o"
  else if n =? 178 then "2"
  else if n =? 179 then "3"
  else if n =? 185 then "1"
  else if n =? 188 then "14"
  else if n =? 189 then "12"
  else if n =? 190 then "34"
  else if between 192 197 c then "A"
  else if n =? 199 then "C"
  else if between 200 203 c then "E"
  else if between 204 207 c then "I"
  else if n =? 209 then "N"
  else if between 210 214 c then "O"
  else if between 217 220 c then "U"
  else if n =? 221 then "Y"
  else if between 224 229 c then "a"
  else if n =? 231 then "c"
  else if between 232 235 c then "e"
  else if between 236 239 c then "i"
  else if n =? 241 then "n"
  else if between 242 246 c then "o"
  else if between 249 252 c then "u"
  else if (n =? 253) || (n =? 255) then "y"
  else "".

(** One character through [str.upper] and then the decomposition above.
    [upper] sends the sharp s to "SS", the y with diaeresis to U+0178
    (base letter Y) and the micro sign to a Greek capital (dropped). *)
Definition upper_nfkd_ascii (c : ascii) : string :=
  let n := code c in
  if n <? 128 then chr1 (if is_lower_az c then ascii_of_nat (n - 32) else c)
  else if n =? 223 then "SS"
  else if n =? 255 then "Y"
  else if between 224 254 c then nfkd_ascii (ascii_of_nat (n - 32))
  else nfkd_ascii c.

(** *** Headers *)

Definition slug_chr (c : ascii) : bool := is_lower_az c || is_digit c.

(** [re.sub(r"[^a-z0-9]+", "_", ascii_text.lower()).strip("_")] of the
    decomposed header *)
Definition normalize_header (value : string) : string :=
  let text := normalize_text value in
  let ascii_text := sconcat_map nfkd_ascii text in
  strip_chr "_"
    (re_sub (Rep (λ c, negb (slug_chr c)) 1 None) "_" (lower ascii_text)).

Record guess : Type := {
  g_source : option string;
  g_document : option string;
  g_name : option string;
  g_email : option string;
  g_region : option string
}.

Definition alias_of (f : field) (columns : list string) : option string :=
  List.find (λ col, mem (normalize_header col) (HEADER_ALIASES f)) columns.

(** For every field, the first column whose normalised header is one of
    the field's aliases. *)
Definition guess_by_alias (columns : list string) : guess := {|
  g_source := alias_of source columns;
  g_document := alias_of document columns;
  g_name := alias_of name columns;
  g_email := alias_of email columns;
  g_region := alias_of region columns
|}.

(** *** Column scores *)

(** A table of [str] cells, as [read_table] returns it: the columns in
    order, each with its cells. *)
Definition DataFrame : Type := list (string * list string).

Definition df_columns (df : DataFrame) : list string := map fst df.

(** [df[col]] *)
Definition df_col (df : DataFrame) (col : string) : list string :=
  default [] (dict_lookup col df).

(** [series.mean()] of a non-empty boolean series: the fraction of [True].
    The quotient is a rational here; the float quotient of two integers up
    to 1000 is ordered as the rationals are. *)
Definition mean (bs : list bool) : Q :=
  Z.of_nat (length (List.filter id bs)) # Pos.of_nat (length bs).

Definition score (test : string → bool) (sample : list string) : Q :=
  match sample with
  | [] => 0%Q
  | _ => mean (map test sample)
  end.

Definition score_email_column (series : list string) : Q :=
  score (contains_chr "@") (take 1000 (map (λ x, lower (strip x)) series)).

(** [re.sub(r"\D+", "", x)]: the digits of a cell *)
Definition digits_of (x : string) : string :=
  re_sub (Rep (λ c, negb (is_digit c)) 1 None) "" x.

Definition score_document_column (series : list string) : Q :=
  score (λ x, let n := String.length (digits_of x) in (n =? 11) || (n =? 14))
    (take 1000 (map strip series)).

Definition has_letter (x : string) : bool := negb (sall (λ c, negb (is_alpha_az c)) x).

Definition score_name_column (series : list string) : Q :=
  score (λ x, contains_chr " " x && has_letter x) (take 1000 (map strip series)).

(** [sorted(((col, f(df[col])) for col in columns), key=lambda x: x[1],
    reverse=True)] and then [scored[0][0] if scored and scored[0][1] > 0
    else None]. *)
Definition by_score (x y : string * Q) : bool := Qle_bool y.2 x.2.

Definition scored (f : list string → Q) (df : DataFrame) : list (string * Q) :=
  sort_by by_score (map (λ col, (col, f (df_col df col))) (df_columns df)).

Definition best_column (f : list string → Q) (df : DataFrame) : option string :=
  match scored f df with
  | (col, sc) :: _ => if negb (Qle_bool sc 0) then Some col else None
  | [] => None
  end.

Definition all_none (g : guess) : bool :=
  match g_source g, g_document g, g_name g, g_email g, g_region g with
  | None, None, None, None, None => true
  | _, _, _, _, _ => false
  end.

Definition or_else (o : option string) (alt : option string) : option string :=
  match o with Some c => Some c | None => alt end.

Definition guess_columns (df : DataFrame) : guess :=
  let columns := df_columns df in
  let guessed := guess_by_alias columns in
  if (5 <=? length columns) && all_none guessed then
    {| g_source := columns !! 0; g_document := columns !! 1;
       g_name := columns !! 2; g_email := columns !! 3;
       g_region := columns !! 4 |}
  else
    {| g_source := or_else (g_source guessed) (columns !! 0);
       g_document := or_else (g_document guessed) (best_column score_document_column df);
       g_name := or_else (g_name guessed) (best_column score_name_column df);
       g_email := or_else (g_email guessed) (best_column score_email_column df);
       g_region :=
         or_else (g_region guessed) (if 5 <=? length columns then columns !! 4 else None) |}.

(** *** Region to state code *)

Definition two_capitals : regex := Grp (Rep is_upper_az 2 (Some 2)).

(** [/\s*([A-Z]{2})\b] *)
Definition SLASH_UF : regex :=
  Cat (Cls (Ascii.eqb "/")) (Cat (Rep isspace 0 None) (Cat two_capitals Wordb)).

(** [\s*$] *)
Definition space_to_end : regex := Cat (Rep isspace 0 None) Eol.

(** [\b([A-Z]{2})\b\s*$] *)
Definition END_UF : regex :=
  Cat Wordb (Cat two_capitals (Cat Wordb space_to_end)).

(** [\b([A-Z]{2})\b] *)
Definition TOKEN_UF : regex := Cat Wordb (Cat two_capitals Wordb).

Definition is_uf (code : option string) : bool :=
  match code with Some c => mem c BRAZIL_UFS | None => false end.

Definition group1 (m : option mres) : option string :=
  match m with Some m => group m | None => None end.

(** The text after [normalize_text(value).upper()] and the ASCII
    decomposition.  The upper-cased text is empty exactly when the
    stripped one is. *)
Definition uf_text (value : string) : string :=
  sconcat_map upper_nfkd_ascii (normalize_text value).

Definition extract_brazil_uf (value : string) : string :=
  if is_empty (normalize_text value) then "" else
  let normalized := uf_text value in
  let slash_match := re_findall SLASH_UF normalized in
  if is_uf (last slash_match) then default "" (last slash_match) else
  let end_match := re_search END_UF normalized in
  if is_uf (group1 end_match) then default "" (group1 end_match) else
  let tokens := re_findall TOKEN_UF normalized in
  let valid_tokens := List.filter (λ token, mem token BRAZIL_UFS) tokens in
  default "" (last valid_tokens).

(** *** Row classification *)

Definition classify_email (email : string) : list string :=
  let email := rstrip_chr "," (lower (strip email)) in
  if is_empty email then [] else
  let '(local, domain) :=
    match split_once "@" email with
    | Some (l, d) => (l, d)
    | None => (email, "")
    end in
  (if Email.regex_valid email then [] else ["formato_invalido"])
  ++ (if mem local PLACEHOLDER_LOCALS || mem domain PLACEHOLDER_DOMAINS
      then ["placeholder_lixo"] else [])
  ++ (if mem domain COMMON_TYPO_DOMAINS then ["dominio_typo"] else []).

Definition repeat_bucket (value : Z) : string :=
  if (value <=? 1)%Z then "1 vez"
  else if (value =? 2)%Z then "2 vezes"
  else if (value =? 3)%Z then "3 vezes"
  else if (value <=? 5)%Z then "4-5 vezes"
  else if (value <=? 10)%Z then "6-10 vezes"
  else "11+ vezes".

(** *** [build_analysis] *)

Record base : Type := {
  ORIGEM : list string;
  CPF_CNPJ : list string;
  NOME : list string;
  E_MAIL : list string;
  REGIAO : list string
}.

Definition df_len (df : DataFrame) : nat :=
  match df with [] => 0 | (_, cells) :: _ => length cells end.

(** [pick_column]: a column of empty cells when nothing is selected, the
    stripped cells of the selected column otherwise.  [df[col]] raises
    [KeyError] on a name that is not a column; on a name that two columns
    carry it is a table and not a column, which has no attribute [.str]:
    [AttributeError]. *)
Definition pick_column (df : DataFrame) (selected_col : option string)
  : result (list string) :=
  match selected_col with
  | None => Ok (replicate (df_len df) "")
  | Some col =>
      if is_empty col then Ok (replicate (df_len df) "")
      else match List.filter (λ c : string * list string, String.eqb c.1 col) df with
           | [] => Raise (KeyError col)
           | [c] => Ok (map strip c.2)
           | _ :: _ :: _ =>
               Raise (AttributeError "'DataFrame' object has no attribute 'str'")
           end
  end.

Definition build_base (df : DataFrame) (mapping : guess) : result base :=
  o ←r pick_column df (g_source mapping) ;
  d ←r pick_column df (g_document mapping) ;
  n ←r pick_column df (g_name mapping) ;
  e ←r pick_column df (g_email mapping) ;
  r ←r pick_column df (g_region mapping) ;
  Ok {| ORIGEM := o; CPF_CNPJ := d; NOME := n; E_MAIL := e; REGIAO := r |}.

(** [series.value_counts()]: one entry per distinct value, by count
    descending.  The order among equal counts belongs to the dataframe
    library; the model takes the order of first appearance. *)
Definition value_counts (series : list string) : list (string * nat) :=
  sorted_desc snd (counter_of series).

(** [x] may stay before [y]: a greater count, or the same count and a key
    that is not greater. *)
Definition by_count_then_key (x y : string * nat) : bool :=
  (y.2 <? x.2) || ((x.2 =? y.2) && str_leb x.1 y.1).

(** [df.sort_values(by=[count, key], ascending=[False, True])] *)
Definition sort_count_desc_key_asc : list (string * nat) → list (string * nat) :=
  sort_by by_count_then_key.

(** [base.loc[mask, column] = value] *)
Definition loc_set {A : Type} (mask : list bool) (value : A) (column : list A) : list A :=
  zip_with (λ (m : bool) x, if m then value else x) mask column.

Definition normalize_cell (x : string) : string := rstrip_chr "," (lower (strip x)).

(** [s.split("@", n=1)[1]] of a cell that contains the at sign *)
Definition after_at (e : string) : string :=
  match split_once "@" e with Some (_, d) => d | None => "" end.

Definition join_reasons (reasons : list string) : string := String.concat ";" reasons.

Record analysis : Type := {
  E_MAIL_NORM : list string;
  DOMINIO : list string;
  QTD_REPETICOES_EMAIL : list Z;
  EMAIL_REPETIDO : list bool;
  SUSPEITO_RAZOES : list string;
  EMAIL_SUSPEITO : list bool;
  EMAIL_FORMATO_VALIDO : list bool;
  FAIXA_REPETICAO : list string;
  UF_REGIAO : list string;
  STATUS_EMAIL : list string;
  repeated_summary : list (string * nat);
  top_domains : list (string * nat)
}.

(** The body of [build_analysis] after the five columns are picked. *)
Definition analyse (b : base) : analysis :=
  let norm := map normalize_cell (E_MAIL b) in
  let dominio := map (λ e, if contains_chr "@" e then after_at e else "") norm in
  let non_empty_email := List.filter (λ e, negb (is_empty e)) norm in
  let email_counts := value_counts non_empty_email in
  let repeated_email_counts := List.filter (λ kv, 1 <? kv.2) email_counts in
  let qtd := map (λ e, Z.of_nat (default 0 (dict_lookup e email_counts))) norm in
  let razoes := map (λ e, join_reasons (classify_email e)) norm in
  let suspeito := map (λ r, negb (is_empty r)) razoes in
  let valido := map Email.regex_valid norm in
  let status0 := replicate (length norm) "Unico limpo" in
  let status1 := loc_set (map (λ q, (1 <? q)%Z) qtd) "Repetido" status0 in
  let status2 := loc_set suspeito "Suspeito" status1 in
  let status3 :=
    loc_set (zip_with (λ e v, negb (is_empty e) && negb v) norm valido)
      "Invalido" status2 in
  let status4 := loc_set (map is_empty norm) "Sem email" status3 in
  let domain_series := map after_at (List.filter (contains_chr "@") non_empty_email) in
  {| E_MAIL_NORM := norm;
     DOMINIO := dominio;
     QTD_REPETICOES_EMAIL := qtd;
     EMAIL_REPETIDO := map (λ q, (1 <? q)%Z) qtd;
     SUSPEITO_RAZOES := razoes;
     EMAIL_SUSPEITO := suspeito;
     EMAIL_FORMATO_VALIDO := valido;
     FAIXA_REPETICAO := map repeat_bucket qtd;
     UF_REGIAO := map extract_brazil_uf (REGIAO b);
     STATUS_EMAIL := status4;
     repeated_summary := sort_count_desc_key_asc repeated_email_counts;
     top_domains := value_counts domain_series |}.

Definition build_analysis (df : DataFrame) (mapping : guess) : result analysis :=
  b ←r build_base df mapping ; Ok (analyse b).

(** *** Reading the upload and the entry point *)

Record upload : Type := {
  up_name : string;
  up_value : string       (* the bytes of the file *)
}.

Inductive header_opt : Type := header_first | header_none.

Inductive ui_event : Type :=
| st_info (msg : string)
| st_error (msg : string)
| st_success (msg : string).

Fixpoint count_chr (c : ascii) (s : string) : nat :=
  match s with
  | EmptyString => 0
  | String d s' => (if Ascii.eqb c d then 1 else 0) + count_chr c s'
  end.

Fixpoint stake (n : nat) (s : string) : string :=
  match n, s with
  | S k, String c s' => String c (stake k s')
  | _, _ => EmptyString
  end.

(** The comma and the semicolon are single bytes of UTF-8, so they are
    counted on the bytes of the sample. *)
Definition detect_csv_delimiter (file_bytes : string) : ascii :=
  let sample := stake (8 * 1024) file_bytes in
  if count_chr "," sample <? count_chr ";" sample then ";"%char else ","%char.

Definition known_headers : list string :=
  HEADER_ALIASES source ++ HEADER_ALIASES document ++ HEADER_ALIASES name
  ++ HEADER_ALIASES email ++ HEADER_ALIASES region.

Definition looks_like_no_header (columns : list string) : bool :=
  if existsb (λ col, mem (normalize_header col) known_headers) columns then false
  else
    let suspicious :=
      foldl (λ n col,
               let text := lower (normalize_text col) in
               let n1 := if contains_chr "@" text then S n else n in
               let d := String.length (digits_of text) in
               if (d =? 11) || (d =? 14) then S n1 else n1)
            0 columns in
    0 <? suspicious.

(** [name.split(".")[-1]]: the text after the last dot, the whole name
    when it has none. *)
Fixpoint after_last_dot (s : string) : string :=
  match s with
  | EmptyString => EmptyString
  | String c s' =>
      if contains_chr "." s then
        (if contains_chr "." s' then after_last_dot s' else s')
      else s
  end.

(** [[f"col_{i + 1}" for i in range(df.shape[1])]] *)
Definition synthetic_names (df : DataFrame) : DataFrame :=
  imap (λ i col, ("col_" +:+ NilEmpty.string_of_uint (Nat.to_uint (i + 1)), col.2)) df.

Definition strip_names (df : DataFrame) : DataFrame :=
  map (λ col, (normalize_text col.1, col.2)) df.

Section main.
(** The readers of the dataframe library, with [dtype=str]; they
    raise on content they cannot parse. *)
Variable read_csv : string → header_opt → ascii → result DataFrame.
Variable read_excel : string → header_opt → result DataFrame.
(** What [main] does with a table once it is read: the column mapping,
    the analysis and the rendering of the dashboard. *)
Variable dashboard : DataFrame → result (list ui_event).

Definition read_table (uploaded_file : upload) : result DataFrame :=
  let suffix := after_last_dot (lower (up_name uploaded_file)) in
  let file_bytes := up_value uploaded_file in
  if String.eqb suffix "csv" then
    let delimiter := detect_csv_delimiter file_bytes in
    df ←r read_csv file_bytes header_first delimiter ;
    if looks_like_no_header (df_columns df) then
      df' ←r read_csv file_bytes header_none delimiter ;
      Ok (strip_names (synthetic_names df'))
    else Ok (strip_names df)
  else if String.eqb suffix "xlsx" || String.eqb suffix "xls" then
    df ←r read_excel file_bytes header_first ;
    if looks_like_no_header (df_columns df) then
      df' ←r read_excel file_bytes header_none ;
      Ok (strip_names (synthetic_names df'))
    else Ok (strip_names df)
  else Raise (ValueError "Formato nao suportado. Use CSV, XLSX ou XLS.").

(** [main] up to the point where the table is read.  [except Exception]
    turns a failure of [read_table] into a message of the page and the
    function returns. *)
Definition main (uploaded_file : option upload) : result (list ui_event) :=
  match uploaded_file with
  | None => Ok [st_info "Envie um arquivo para iniciar a analise."]
  | Some f =>
      match read_table f with
      | Raise exc => Ok [st_error ("Falha ao ler arquivo: " +:+ exn_message exc)]
      | Ok df => dashboard df
      end
  end.
End main.

End App.

(** ** The statements of the specification, in its own words *)

Module Spec.
Import Text Regex Ranking.

(** A list of override rules, each a condition and the label it sets: the
    last rule whose condition holds decides. *)
Definition last_applicable (rules : list (bool * string)) : string :=
  foldl (λ label (rule : bool * string), if rule.1 then rule.2 else label) "" rules.

(** The status rules of the interactive application, in their order. *)
Definition status_rules (e : string) (q : Z) : list (bool * string) :=
  [ (true, "Unico limpo");
    ((1 <? q)%Z, "Repetido");
    (bool_decide (App.classify_email e ≠ []), "Suspeito");
    (negb (is_empty e) && negb (Email.regex_valid e), "Invalido");
    (is_empty e, "Sem email") ].

(** For each tuple of a stream, whether it is in [seen] or stood earlier in
    the stream. *)
Fixpoint seen_flags (seen : gset Batch.identity) (ids : list Batch.identity)
  : list bool :=
  match ids with
  | [] => []
  | t :: ids' => bool_decide (t ∈ seen) :: seen_flags (seen ∪ {[t]}) ids'
  end.

Definition count_true (flags : list bool) : nat := length (List.filter id flags).

(** A small input of the batch script: a header and five records, the
    second and the fifth repeating the first. *)
Definition sample_file : list Batch.record :=
  [ ["NOME_CREDOR"; "CPF_CNPJ"; "NOME_CONTRIBUINTE"; "E-MAIL"];
    ["Acme"; "12345678901"; "Joao"; " JOAO@GMAIL.COM "];
    ["Acme"; "12345678901"; "Joao"; "joao@gmail.com"];
    ["Beta"; "222"; "Ana"; "ana@uol.com.br"];
    ["Beta"; "222"; "Ana"; "ana@"];
    ["Acme"; "12345678901"; "Joao"; "Joao@Gmail.com"] ].

(** A CSV file without a header row: its two records are data. *)
Definition headerless_file : list Batch.record :=
  [ ["Acme"; "12345678901"; "Joao"; "joao@gmail.com"];
    ["Beta"; "222"; "Ana"; "ana@uol.com.br"] ].

(** The tables a CSV reader makes of [headerless_file]: with its first
    record read as the header, and without a header. *)
Definition headerless_as_header : App.DataFrame :=
  [ ("Acme", ["Beta"]); ("12345678901", ["222"]); ("Joao", ["Ana"]);
    ("joao@gmail.com", ["ana@uol.com.br"]) ].

Definition headerless_as_data : App.DataFrame :=
  [ ("0", ["Acme"; "Beta"]); ("1", ["12345678901"; "222"]); ("2", ["Joao"; "Ana"]);
    ("3", ["joao@gmail.com"; "ana@uol.com.br"]) ].

(** The sum of the domain counts as the specification words it, for the
    table of the interactive application: the counts of [top_domains] add
    up to the number of rows whose email has a valid format and a non-empty
    domain. *)
Definition top_domains_sum_claim (a : App.analysis) : Prop :=
  Ranking.total (App.top_domains a) =
  length (List.filter (λ vd : bool * string, vd.1 && negb (is_empty vd.2))
            (zip (App.EMAIL_FORMATO_VALIDO a) (App.DOMINIO a))).



(** A column that alias matching gave to some role. *)
Definition matched_by_alias (columns : list string) (col : string) : Prop :=
  ∃ f : App.field, App.alias_of f columns = Some col.

(** The scoring step as the specification words it: a role that alias
    matching left open is never filled, by scoring, with a column that alias
    matching gave to a role. *)
Definition scoring_skips_matched (df : App.DataFrame) : Prop :=
  let columns := App.df_columns df in
  ∀ col,
    (App.alias_of App.email columns = None ∧ App.g_email (App.guess_columns df) = Some col)
    ∨ (App.alias_of App.document columns = None
       ∧ App.g_document (App.guess_columns df) = Some col)
    ∨ (App.alias_of App.name columns = None ∧ App.g_name (App.guess_columns df) = Some col) →
    ¬ matched_by_alias columns col.

(** The choice of the scoring step: the first column, in the order of the
    table, whose score is the greatest of all columns, when that score is
    positive; no column when no score is positive. *)
Definition first_best (f : list string → Q) (df : App.DataFrame)
  (choice : option string) : Prop :=
  let sc col := f (App.df_col df col) in
  match choice with
  | Some col =>
      ∃ i : nat, App.df_columns df !! i = Some col
        ∧ (0 < sc col)%Q
        ∧ (∀ c, c ∈ App.df_columns df → (sc c <= sc col)%Q)
        ∧ (∀ (j : nat) c, j < i → App.df_columns df !! j = Some c → (sc c < sc col)%Q)
  | None => ∀ c, c ∈ App.df_columns df → (sc c <= 0)%Q
  end.

(** The tests behind the three scores, on the cell as it stands in the
    table: an at sign; eleven or fourteen digits; a space inside the trimmed
    cell and a letter. *)
Definition has_at (x : string) : bool := contains_chr "@" x.

Definition has_id_digits (x : string) : bool :=
  let n := String.length (sfilter is_digit x) in (n =? 11) || (n =? 14).

Definition has_space_and_letter (x : string) : bool :=
  contains_chr " " (strip x) && App.has_letter x.

(** A table whose first column is named as the source and holds emails. *)
Definition contacts_table : App.DataFrame :=
  [ ("origem", ["joao@gmail.com"; "ana@uol.com.br"]);
    ("contato", ["Joao"; "Ana"]) ].

(** *** State codes, read off the text without patterns *)

Fixpoint sdrop (n : nat) (s : string) : string :=
  match n, s with
  | S k, String _ s' => sdrop k s'
  | _, _ => s
  end.

(** Two capital letters at the start of [s] with no word character after
    them. *)
Definition code_here (s : string) : option string :=
  match s with
  | String c1 (String c2 r) =>
      if is_upper_az c1 && is_upper_az c2 && negb (word_opt (shead r))
      then Some (String c1 (String c2 "")) else None
  | _ => None
  end.

(** A two-letter token: a code with no word character before it. *)
Definition token_here (prev : option ascii) (s : string) : option string :=
  if word_opt prev then None else code_here s.

(** The two-letter tokens of a text, from left to right. *)
Fixpoint tokens_from (prev : option ascii) (s : string) : list string :=
  match s with
  | EmptyString => []
  | String c s' => option_list (token_here prev s) ++ tokens_from (Some c) s'
  end.

(** A code after a slash, white space allowed in between. *)
Definition slash_code_here (s : string) : option string :=
  match s with
  | String c s' => if Ascii.eqb "/" c then code_here (lstrip_by isspace s') else None
  | EmptyString => None
  end.

(** The codes that follow a slash, from left to right. *)
Fixpoint slash_codes_from (s : string) : list string :=
  match s with
  | EmptyString => []
  | String c s' => option_list (slash_code_here s) ++ slash_codes_from s'
  end.

(** A two-letter token with nothing but white space after it. *)
Definition end_code_here (prev : option ascii) (s : string) : option string :=
  match token_here prev s with
  | Some code => if sall isspace (sdrop 2 s) then Some code else None
  | None => None
  end.

(** The two-letter token that ends the text, if there is one. *)
Fixpoint end_code_from (prev : option ascii) (s : string) : option string :=
  match end_code_here prev s with
  | Some code => Some code
  | None =>
      match s with
      | EmptyString => None
      | String c s' => end_code_from (Some c) s'
      end
  end.

(** The extraction as the code stages it: the last code after a slash if
    it is a state; else the token that ends the text if it is a state; else
    the last token that is a state; else nothing. *)
Definition uf_by_stage (value : string) : string :=
  let text := App.uf_text value in
  let after_slash := last (slash_codes_from text) in
  if App.is_uf after_slash then default "" after_slash else
  let at_end := end_code_from None text in
  if App.is_uf at_end then default "" at_end else
  default "" (last (List.filter (λ t, App.mem t App.BRAZIL_UFS) (tokens_from None text))).

(** The extraction as the specification words it: the code after a slash
    if there is one, else the token that ends the text, else the last token
    anywhere; and nothing unless the code so chosen is a state. *)
Definition uf_choose_then_check (value : string) : string :=
  let text := App.uf_text value in
  let chosen :=
    match last (slash_codes_from text) with
    | Some c => Some c
    | None =>
        match end_code_from None text with
        | Some c => Some c
        | None => last (tokens_from None text)
        end
    end in
  if App.is_uf chosen then default "" chosen else "".

(** The six repetition ranges. *)
Definition bucket_labels : list string :=
  ["1 vez"; "2 vezes"; "3 vezes"; "4-5 vezes"; "6-10 vezes"; "11+ vezes"].

End Spec.

(** ** More of Python's [str] *)

Module Strings.
Import Text.

(** [s.startswith(prefix)] *)
Fixpoint startswith (prefix s : string) : bool :=
  match prefix, s with
  | EmptyString, _ => true
  | String a p', String b s' => Ascii.eqb a b && startswith p' s'
  | String _ _, EmptyString => false
  end.

(** [needle in s] *)
Fixpoint contains (needle s : string) : bool :=
  startswith needle s
  || match s with
     | EmptyString => false
     | String _ s' => contains needle s'
     end.

(** [s.endswith(suffix)] *)
Fixpoint endswith (suffix s : string) : bool :=
  String.eqb suffix s
  || match s with
     | EmptyString => false
     | String _ s' => endswith suffix s'
     end.

End Strings.

(** ** The command line of the batch script *)

Module Cli.
Import Text Ranking.

(** An entry of the current directory: its name, and whether the name
    leads to a file or a directory (a symbolic link whose target is gone
    does not). *)
Record entry : Type := {
  entry_name : string;
  entry_resolves : bool
}.

Definition expected : string := "E_MAIL-CLIENTES-18022026.csv".

(** [Path(p).exists()] for a name [p] of the current directory *)
Definition exists_in (cwd : list entry) (p : string) : bool :=
  existsb (λ e, String.eqb (entry_name e) p && entry_resolves e) cwd.

(** [infer_default_csv_path()].  [cwd] holds the entries of the current
    directory.  [Path(".").glob("*.csv")] yields the entries whose name ends
    in ".csv" (the names compared as they are written, as on a POSIX
    system), a symbolic link whose target is gone included; [sorted] orders
    the paths by their names.  [None] stands for
    [FileNotFoundError("Nenhum arquivo CSV encontrado no diretorio atual.")]. *)
Definition infer_default_csv_path (cwd : list entry) : option string :=
  if exists_in cwd expected then Some expected
  else
    let csv_files :=
      sort_by str_leb (List.filter (Strings.endswith ".csv") (map entry_name cwd)) in
    match csv_files with
    | [] => None
    | first :: _ => Some first
    end.

Inductive failure : Type :=
| no_csv_found              (* the exception of [infer_default_csv_path] *)
| from_analyze (e : exn).   (* an exception of [analyze] *)

(** What [main] prints once [analyze] has returned. *)
Record report : Type := {
  arquivo : string;
  saida : string;
  printed : Batch.AnalysisSummary
}.

(** [main()].  [arg_arquivo] and [arg_saida] are the options given on the
    command line; [analyze] stands for the function of that name, called
    with the two paths: what it does depends on both, the file of the
    treated rows being opened in the output directory before the input is
    read.  The default of [--arquivo] is an argument of [add_argument]: it
    is computed before the command line is parsed.  The command line is
    taken to hold these two options at most. *)
Definition main (cwd : list entry)
  (analyze : string → string → result Batch.AnalysisSummary)
  (arg_arquivo arg_saida : option string) : failure + report :=
  match infer_default_csv_path cwd with
  | None => inl no_csv_found
  | Some default_arquivo =>
      let arquivo := default default_arquivo arg_arquivo in
      let saida := default "resultado_analise" arg_saida in
      match analyze arquivo saida with
      | Raise e => inl (from_analyze e)
      | Ok summary => inr {| arquivo := arquivo; saida := saida; printed := summary |}
      end
  end.

End Cli.

(** ** Vocabulary of the properties *)

Module Props.
Import Text Regex Ranking.

(** [enumerate(l, start)] *)
Fixpoint enumerate {A : Type} (start : nat) (l : list A) : list (nat * A) :=
  match l with
  | [] => []
  | x :: l' => (start, x) :: enumerate (S start) l'
  end.

(** The three kinds of row the loop of [analyze] tells apart, and the row
    whose email cell has white space around it. *)
Definition missing_row (r : Batch.csv_row) : bool := is_empty (Batch.clean_email_of r).

Definition rejected_row (r : Batch.csv_row) : bool :=
  negb (is_empty (Batch.clean_email_of r))
  && negb (Batch.is_valid_email (Batch.clean_email_of r)).

Definition trimmed_row (r : Batch.csv_row) : bool :=
  negb (String.eqb (Batch.raw_email_of r) (strip (Batch.raw_email_of r))).

(** The number of distinct values of a list. *)
Definition distinct `{EqDecision A} (l : list A) : nat := length (remove_dups l).

(** The least, by code points, of the names of [cwd] that end in ".csv". *)
Definition least_csv (cwd : list string) (p : string) : Prop :=
  p ∈ cwd ∧ Strings.endswith ".csv" p = true
  ∧ ∀ q, q ∈ cwd → Strings.endswith ".csv" q = true → str_leb p q = true.

(** What a ranking should be: [top] lists at most [n] of the kept keys of
    [keys], each once and with its measure [m], and no kept key left out has
    a greater measure than a listed one. *)
Definition ranks (keys : list string) (m : string → nat) (keep : string → bool)
  (n : nat) (top : list (string * nat)) : Prop :=
  length top ≤ n
  ∧ NoDup top.*1
  ∧ (∀ k c, (k, c) ∈ top → k ∈ keys ∧ keep k = true ∧ c = m k)
  ∧ (∀ k c k', (k, c) ∈ top → k' ∈ keys → keep k' = true → k' ∉ top.*1 → m k' ≤ c).

(** A header that has none of the three names that [analyze] appends. *)
Definition no_appended_name (fieldnames : list string) : Prop :=
  ∀ k, k ∈ ["EMAIL_TRATADO"; "EMAIL_VALIDO"; "LINHA_DUPLICADA_EXATA"] → k ∉ fieldnames.

End Props.

(** ** Vocabulary of the properties of headers *)

Module HeaderProps.
Import Text Regex Ranking.

(** Every maximal run of characters of the class [p] replaced by [repl];
    [in_run] tells that the character before belongs to a run. *)
Fixpoint squeeze (p : ascii → bool) (repl : string) (in_run : bool) (s : string)
  : string :=
  match s with
  | EmptyString => EmptyString
  | String c s' =>
      if p c then (if in_run then EmptyString else repl) +:+ squeeze p repl true s'
      else String c (squeeze p repl false s')
  end.

Definition slug_or_underscore (c : ascii) : bool := App.slug_chr c || Ascii.eqb "_" c.

(** The shape of a normalised header: lower-case letters, digits and
    underscores; no underscore at either end and no two in a row. *)
Definition header_shape (h : string) : Prop :=
  sall slug_or_underscore h = true
  ∧ shead h ≠ Some "_"%char
  ∧ last_chr None h ≠ Some "_"%char
  ∧ Strings.contains "__" h = false.

(** The mapping by position. *)
Definition by_position : App.guess := {|
  App.g_source := Some "col_1";
  App.g_document := Some "col_2";
  App.g_name := Some "col_3";
  App.g_email := Some "col_4";
  App.g_region := Some "col_5"
|}.

End HeaderProps.

(** ** The rest of [build_analysis]: families, row subsets, metrics *)

Module Report.
Import Text Regex Ranking App.

(** [any(key in domain for key in keys)]; also
    [series.str.contains("k1|k2|...", regex=True)] on one cell, the pattern
    being an alternation of plain words. *)
Definition any_in (keys : list string) (domain : string) : bool :=
  existsb (λ key, Strings.contains key domain) keys.

Definition domain_family (domain : string) : string :=
  let domain := strip (lower domain) in
  if is_empty domain then "Sem dominio"
  else if Strings.contains "gmail" domain then "Gmail"
  else if any_in ["hotmail"; "outlook"; "live"; "msn"] domain then "Hotmail / Outlook"
  else if any_in ["yahoo"; "ymail"; "yahool"] domain then "Yahoo"
  else if any_in ["uol"; "bol"; "ig"; "terra"; "oi"; "globo"] domain then "Portais BR"
  else if Strings.endswith ".gov.br" domain then "Governo"
  else if Strings.contains "creci" domain then "CRECI"
  else "Outros".

(** A row of the table [base] once all its columns are set. *)
Record row : Type := {
  r_index : nat;
  r_ORIGEM : string;
  r_CPF_CNPJ : string;
  r_NOME : string;
  r_E_MAIL : string;
  r_REGIAO : string;
  r_CPF_CNPJ_NORM : string;
  r_E_MAIL_NORM : string;
  r_DOMINIO : string;
  r_QTD_REPETICOES_EMAIL : Z;
  r_EMAIL_REPETIDO : bool;
  r_SUSPEITO_RAZOES : string;
  r_EMAIL_SUSPEITO : bool;
  r_EMAIL_FORMATO_VALIDO : bool;
  r_FAMILIA_DOMINIO : string;
  r_FAIXA_REPETICAO : string;
  r_UF_REGIAO : string;
  r_STATUS_EMAIL : string
}.

(** The cell of a column at a row. *)
Definition cell {A : Type} (d : A) (col : list A) (i : nat) : A := default d (col !! i).

(** The number of rows of [base]; its columns have one length. *)
Definition nrows (b : base) : nat := length (E_MAIL b).

Definition row_at (b : base) (i : nat) : row :=
  let a := analyse b in
  {| r_index := i;
     r_ORIGEM := cell "" (ORIGEM b) i;
     r_CPF_CNPJ := cell "" (CPF_CNPJ b) i;
     r_NOME := cell "" (NOME b) i;
     r_E_MAIL := cell "" (E_MAIL b) i;
     r_REGIAO := cell "" (REGIAO b) i;
     r_CPF_CNPJ_NORM := digits_of (cell "" (CPF_CNPJ b) i);
     r_E_MAIL_NORM := cell "" (E_MAIL_NORM a) i;
     r_DOMINIO := cell "" (DOMINIO a) i;
     r_QTD_REPETICOES_EMAIL := cell 0%Z (QTD_REPETICOES_EMAIL a) i;
     r_EMAIL_REPETIDO := cell false (EMAIL_REPETIDO a) i;
     r_SUSPEITO_RAZOES := cell "" (SUSPEITO_RAZOES a) i;
     r_EMAIL_SUSPEITO := cell false (EMAIL_SUSPEITO a) i;
     r_EMAIL_FORMATO_VALIDO := cell false (EMAIL_FORMATO_VALIDO a) i;
     r_FAMILIA_DOMINIO := domain_family (cell "" (DOMINIO a) i);
     r_FAIXA_REPETICAO := cell "" (FAIXA_REPETICAO a) i;
     r_UF_REGIAO := cell "" (UF_REGIAO a) i;
     r_STATUS_EMAIL := cell "" (STATUS_EMAIL a) i |}.

(** The table [base] of the result, row by row. *)
Definition rows_of (b : base) : list row := map (row_at b) (seq 0 (nrows b)).

Definition has_email (r : row) : bool := negb (is_empty (r_E_MAIL_NORM r)).

(** The order of [sort_values(by=["QTD_REPETICOES_EMAIL", "E_MAIL_NORM"],
    ascending=[False, True])]; rows of equal keys keep their order. *)
Definition by_qtd_then_email (x y : row) : bool :=
  (r_QTD_REPETICOES_EMAIL y <? r_QTD_REPETICOES_EMAIL x)%Z
  || ((r_QTD_REPETICOES_EMAIL x =? r_QTD_REPETICOES_EMAIL y)%Z
      && str_leb (r_E_MAIL_NORM x) (r_E_MAIL_NORM y)).

(** [frame.drop_duplicates(subset=[key], keep="first")] *)
Fixpoint drop_duplicates_from {A : Type} (key : A → string) (seen : gset string)
  (l : list A) : list A :=
  match l with
  | [] => []
  | x :: l' =>
      if bool_decide (key x ∈ seen) then drop_duplicates_from key seen l'
      else x :: drop_duplicates_from key (seen ∪ {[key x]}) l'
  end.

Definition drop_duplicates {A : Type} (key : A → string) (l : list A) : list A :=
  drop_duplicates_from key ∅ l.

(** [series.nunique()] of a column of texts *)
Definition nunique (series : list string) : nat := size (list_to_set series : gset string).

Definition repeated_rows (b : base) : list row :=
  sort_by by_qtd_then_email (List.filter r_EMAIL_REPETIDO (rows_of b)).

Definition unique_email_rows (b : base) : list row :=
  drop_duplicates r_E_MAIL_NORM (List.filter has_email (rows_of b)).

Definition suspect_rows (b : base) : list row := List.filter r_EMAIL_SUSPEITO (rows_of b).

Definition invalid_rows (b : base) : list row :=
  List.filter (λ r, has_email r && negb (r_EMAIL_FORMATO_VALIDO r)) (rows_of b).

(** [frame.groupby(key)[value].nunique()]: for every key, in ascending
    order, the number of distinct values of its rows. *)
Definition groupby_nunique (pairs : list (string * string)) : list (string * nat) :=
  sort_by (λ x y : string * nat, str_leb x.1 y.1)
    (map (λ kv : string * gset string, (kv.1, size kv.2))
       (fill fst (λ (p : string * string) s, s ∪ {[p.2]}) ∅ [] pairs)).

Definition email_counts (b : base) : list (string * nat) :=
  value_counts (List.filter (λ e, negb (is_empty e)) (E_MAIL_NORM (analyse b))).

Definition repeated_email_counts (b : base) : list (string * nat) :=
  List.filter (λ kv, 1 <? kv.2) (email_counts b).

(** The domains of the non-empty emails that hold an at sign. *)
Definition domain_series (b : base) : list string :=
  map after_at
    (List.filter (contains_chr "@")
       (List.filter (λ e, negb (is_empty e)) (E_MAIL_NORM (analyse b)))).

Definition doc_emails (b : base) : list (string * nat) :=
  groupby_nunique
    (map (λ r, (r_CPF_CNPJ_NORM r, r_E_MAIL_NORM r))
       (List.filter (λ r, negb (is_empty (r_CPF_CNPJ_NORM r)) && has_email r) (rows_of b))).

Record metrics : Type := {
  m_total_rows : nat;
  m_emails_total : nat;
  m_emails_unique : nat;
  m_repeated_distinct : nat;
  m_repeated_rows : nat;
  m_invalid_format_rows : nat;
  m_suspect_rows : nat;
  m_unique_clients : nat;
  m_clients_multi_email : nat;
  m_gmail_like : nat;
  m_hotmail_like : nat;
  m_yahoo_like : nat
}.

Definition metrics_of (b : base) : metrics :=
  let norm := E_MAIL_NORM (analyse b) in
  {| m_total_rows := length (rows_of b);
     m_emails_total := length (List.filter (λ e, negb (is_empty e)) norm);
     m_emails_unique := nunique norm - (if mem "" norm then 1 else 0);
     m_repeated_distinct := length (repeated_email_counts b);
     m_repeated_rows := length (repeated_rows b);
     m_invalid_format_rows := length (invalid_rows b);
     m_suspect_rows := length (suspect_rows b);
     m_unique_clients :=
       nunique (List.filter (λ d, negb (is_empty d)) (map r_CPF_CNPJ_NORM (rows_of b)));
     m_clients_multi_email :=
       if 0 <? length (doc_emails b)
       then length (List.filter (λ kv : string * nat, 1 <? kv.2) (doc_emails b)) else 0;
     m_gmail_like := length (List.filter (Strings.contains "gmail") (domain_series b));
     m_hotmail_like :=
       length (List.filter (any_in ["hotmail"; "live"; "outlook"; "msn"]) (domain_series b));
     m_yahoo_like :=
       length (List.filter (any_in ["yahoo"; "ymail"; "yahool"]) (domain_series b)) |}.

End Report.

(** ** The page: [format_number], the column mapping, the overview *)

Module Page.
Import Text Regex Ranking App Report.

(** *** [format_number] *)

(** The digits of a text in groups of three, counted from the right, with
    a comma between the groups. *)
Fixpoint grouped (digits : string) : string :=
  match digits with
  | EmptyString => EmptyString
  | String c rest =>
      String c
        ((if (0 <? String.length rest) && (String.length rest mod 3 =? 0)
          then "," else "") +:+ grouped rest)
  end.

(** [f"{value:,}"] *)
Definition format_number (value : Z) : string :=
  (if (value <? 0)%Z then "-" else "")
  +:+ grouped (NilEmpty.string_of_uint (N.to_uint (Z.abs_N value))).

(** *** The mapping of the columns *)

Definition NAO_USAR : string := "(nao usar)".

Definition options (df : DataFrame) : list string := NAO_USAR :: df_columns df.

(** [options.index(default_col) if default_col in options else 0] *)
Definition default_index (options : list string) (default_col : option string) : nat :=
  match default_col with
  | Some col => if mem col options then first_index col options else 0
  | None => 0
  end.

(** [None if choice == "(nao usar)" else choice] *)
Definition selected_of (choice : string) : option string :=
  if String.eqb choice NAO_USAR then None else Some choice.

(** The mapping built from the choice made in each of the five boxes. *)
Definition selected (choice : field → string) : guess := {|
  g_source := selected_of (choice source);
  g_document := selected_of (choice document);
  g_name := selected_of (choice name);
  g_email := selected_of (choice email);
  g_region := selected_of (choice region)
|}.

Definition guessed_for (g : guess) (f : field) : option string :=
  match f with
  | source => g_source g
  | document => g_document g
  | name => g_name g
  | email => g_email g
  | region => g_region g
  end.

(** The choice each box shows before the user touches it. *)
Definition default_choice (df : DataFrame) (f : field) : string :=
  default NAO_USAR
    (options df !! default_index (options df) (guessed_for (guess_columns df) f)).

(** [main] from the mapping on: without an email column it shows an
    error and returns; otherwise it runs [build_analysis]. *)
Definition analyse_selection (df : DataFrame) (choice : field → string)
  : result (ui_event + analysis) :=
  let sel := selected choice in
  match g_email sel with
  | None => Ok (inl (st_error "Selecione a coluna de e-mail para continuar."))
  | Some col =>
      if is_empty col
      then Ok (inl (st_error "Selecione a coluna de e-mail para continuar."))
      else a ←r build_analysis df sel ; Ok (inr a)
  end.

(** *** The overview *)

Record filters : Type := {
  f_origem : string;
  f_regiao : string;
  f_familia : string;
  f_status : string;
  f_busca : string
}.

Definition default_filters : filters := {|
  f_origem := "Todos"; f_regiao := "Todas"; f_familia := "Todas";
  f_status := "Todos"; f_busca := ""
|}.

Section overview.
(** [series.str.contains(pattern)] on one cell: the search of a regular
    expression typed by the user; a pattern that does not compile raises. *)
Variable str_contains : string → result (string → bool).

Definition dashboard_df (b : base) : list row := List.filter has_email (rows_of b).

Definition keep_equal (get : row → string) (wanted all : string) (frame : list row)
  : list row :=
  if String.eqb wanted all then frame
  else List.filter (λ r, String.eqb (get r) wanted) frame.

Definition filtered (b : base) (active : filters) : result (list row) :=
  let f1 := keep_equal r_ORIGEM (f_origem active) "Todos" (dashboard_df b) in
  let f2 := keep_equal r_REGIAO (f_regiao active) "Todas" f1 in
  let f3 := keep_equal r_FAMILIA_DOMINIO (f_familia active) "Todas" f2 in
  let f4 := keep_equal r_STATUS_EMAIL (f_status active) "Todos" f3 in
  if is_empty (strip (f_busca active)) then Ok f4
  else
    found ←r str_contains (lower (strip (f_busca active))) ;
    Ok (List.filter (λ r, found (lower (r_NOME r)) || found (r_E_MAIL_NORM r)) f4).
End overview.

Definition clients_of (frame : list row) : nat :=
  nunique (List.filter (λ d, negb (is_empty d)) (map r_CPF_CNPJ_NORM frame)).

Definition filtered_total_rows (frame : list row) : nat := length frame.
Definition filtered_total_clients (frame : list row) : nat := clients_of frame.
Definition filtered_total_emails (frame : list row) : nat :=
  length (List.filter has_email frame).

Definition filtered_no_repeat_email (frame : list row) : list row :=
  drop_duplicates r_E_MAIL_NORM (List.filter has_email frame).

Definition filtered_rows_unique_no_repeat (frame : list row) : nat :=
  length (filtered_no_repeat_email frame).
Definition filtered_clients_unique_no_repeat (frame : list row) : nat :=
  clients_of (filtered_no_repeat_email frame).
Definition filtered_emails_unique_no_repeat (frame : list row) : nat :=
  nunique (map r_E_MAIL_NORM (filtered_no_repeat_email frame)).

(** [client_email_counts]: for every document of the frame the number of
    its distinct emails, the greatest number first, then by document.  The
    left merge with [names_by_doc] adds the column NOME and no row, the
    documents of [names_by_doc] being distinct; the column is left out. *)
Definition client_email_counts (frame : list row) : list (string * nat) :=
  sort_count_desc_key_asc
    (groupby_nunique
       (map (λ r, (r_CPF_CNPJ_NORM r, r_E_MAIL_NORM r))
          (List.filter (λ r, negb (is_empty (r_CPF_CNPJ_NORM r)) && has_email r) frame))).

Definition clients_two_or_more (frame : list row) : nat :=
  length (List.filter (λ kv : string * nat, 2 <=? kv.2) (client_email_counts frame)).
Definition clients_exactly_two (frame : list row) : nat :=
  length (List.filter (λ kv : string * nat, kv.2 =? 2) (client_email_counts frame)).

(** [x if len(x) <= 44 else f"{x[:41]}..."] *)
Definition EMAIL_EXIBICAO (x : string) : string :=
  if String.length x <=? 44 then x else stake 41 x +:+ "...".

(** *** The map of the states *)

Definition UF_TO_STATE_NAME : list (string * string) :=
  [("AC", "Acre"); ("AL", "Alagoas"); ("AP", "Amapa"); ("AM", "Amazonas");
   ("BA", "Bahia"); ("CE", "Ceara"); ("DF", "Distrito Federal");
   ("ES", "Espirito Santo"); ("GO", "Goias"); ("MA", "Maranhao");
   ("MT", "Mato Grosso"); ("MS", "Mato Grosso do Sul"); ("MG", "Minas Gerais");
   ("PA", "Para"); ("PB", "Paraiba"); ("PR", "Parana"); ("PE", "Pernambuco");
   ("PI", "Piaui"); ("RJ", "Rio de Janeiro"); ("RN", "Rio Grande do Norte");
   ("RS", "Rio Grande do Sul"); ("RO", "Rondonia"); ("RR", "Roraima");
   ("SC", "Santa Catarina"); ("SP", "Sao Paulo"); ("SE", "Sergipe");
   ("TO", "Tocantins")].

(** Latitude and longitude; a decimal literal stands for the rational it
    writes. *)
Definition UF_TO_COORD : list (string * (Q * Q)) :=
  [("AC", (-8.77, -70.55)); ("AL", (-9.62, -36.82)); ("AP", (1.41, -51.77));
   ("AM", (-3.10, -60.02)); ("BA", (-12.97, -38.50)); ("CE", (-3.73, -38.54));
   ("DF", (-15.79, -47.88)); ("ES", (-20.32, -40.34)); ("GO", (-16.67, -49.25));
   ("MA", (-2.53, -44.30)); ("MT", (-15.60, -56.10)); ("MS", (-20.45, -54.62));
   ("MG", (-19.92, -43.94)); ("PA", (-1.45, -48.50)); ("PB", (-7.12, -34.86));
   ("PR", (-25.43, -49.27)); ("PE", (-8.05, -34.90)); ("PI", (-5.09, -42.80));
   ("RJ", (-22.90, -43.20)); ("RN", (-5.79, -35.21)); ("RS", (-30.03, -51.23));
   ("RO", (-8.76, -63.90)); ("RR", (2.82, -60.67)); ("SC", (-27.59, -48.55));
   ("SP", (-23.55, -46.63)); ("SE", (-10.91, -37.07)); ("TO", (-10.18, -48.33))]%Q.

Definition UF_LABEL_OFFSET : list (string * (Q * Q)) :=
  [("AL", (0.5, -0.1)); ("AP", (0.5, 0.15)); ("CE", (0.35, 0.2)); ("MA", (0.2, 0.35));
   ("PB", (0.6, 0.05)); ("PE", (0.55, -0.15)); ("PI", (0.35, 0.1)); ("RN", (0.7, 0.2));
   ("SE", (0.4, -0.2))]%Q.

(** A row of [uf_df] before [dropna]: the state, its count, its name and
    its coordinates, each missing when the table has no entry. *)
Record uf_row : Type := {
  UF : string;
  QUANTIDADE : nat;
  ESTADO : option string;
  LAT : option Q;
  LON : option Q
}.

Definition uf_row_of (kv : string * nat) : uf_row :=
  {| UF := kv.1; QUANTIDADE := kv.2;
     ESTADO := dict_lookup kv.1 UF_TO_STATE_NAME;
     LAT := fst <$> dict_lookup kv.1 UF_TO_COORD;
     LON := snd <$> dict_lookup kv.1 UF_TO_COORD |}.

(** [uf_df] before and after [dropna(subset=["LAT", "LON"])] *)
Definition uf_counts (frame : list row) : list uf_row :=
  map uf_row_of
    (value_counts (List.filter (λ u, negb (is_empty u)) (map r_UF_REGIAO frame))).

Definition uf_df (frame : list row) : list uf_row :=
  List.filter (λ u, bool_decide (is_Some (LAT u)) && bool_decide (is_Some (LON u)))
    (uf_counts frame).

(** [LABEL_LAT], [LABEL_LON]: the place of the label of a state *)
Definition label_place (u : uf_row) : option (Q * Q) :=
  match LAT u, LON u with
  | Some lat, Some lon =>
      let off := default (0, 0)%Q (dict_lookup (UF u) UF_LABEL_OFFSET) in
      Some (lat + off.1, lon + off.2)%Q
  | _, _ => None
  end.

(** The ranges of the map: [lataxis_range], [lonaxis_range]. *)
Definition on_the_map (place : Q * Q) : Prop :=
  (-35.2 <= place.1 <= 6.3 ∧ -74.8 <= place.2 <= -33.5)%Q.

End Page.

(** ** Vocabulary of the properties of the page *)

Module PageProps.
Import Text Regex Ranking App Report Page Props.

(** A cell that holds an at sign, or 11 or 14 digits in all. *)
Definition looks_like_data (col : string) : bool :=
  contains_chr "@" col
  || ((String.length (sfilter is_digit col) =? 11)
      || (String.length (sfilter is_digit col) =? 14)).

Definition roles : list field := [source; document; name; email; region].

(** The columns a mapping selects that the table does not have, in the
    order in which [build_analysis] picks them. *)
Definition missing_columns (df : DataFrame) (mapping : guess) : list string :=
  List.filter (λ col, negb (is_empty col) && negb (mem col (df_columns df)))
    (omap (guessed_for mapping) roles).

(** The number of columns of the table that bear a name. *)
Definition columns_named (df : DataFrame) (col : string) : nat :=
  length (List.filter (λ c : string * list string, String.eqb c.1 col) df).

(** The columns a mapping selects that [pick_column] cannot take, in the
    order in which [build_analysis] picks them: a name that is not empty and
    that is not the name of exactly one column of the table. *)
Definition unusable_columns (df : DataFrame) (mapping : guess) : list string :=
  List.filter (λ col, negb (is_empty col) && negb (columns_named df col =? 1))
    (omap (guessed_for mapping) roles).

(** The exception a selected name gives that is not the name of exactly one
    column. *)
Definition pick_error (df : DataFrame) (col : string) : exn :=
  if columns_named df col =? 0 then KeyError col
  else AttributeError "'DataFrame' object has no attribute 'str'".

(** The number of rows of a frame with a given value in a column. *)
Definition count_where (get : row → string) (value : string) (frame : list row) : nat :=
  length (List.filter (λ r, String.eqb (get r) value) frame).

(** The status of a row, from its normalised email [e] and the non-empty
    normalised emails [ne] of the table. *)
Definition status_of (ne : list string) (e : string) : string :=
  if is_empty e then "Sem email"
  else if negb (Email.regex_valid e) then "Invalido"
  else if bool_decide (classify_email e ≠ []) then "Suspeito"
  else if 1 <? occurrences e ne then "Repetido"
  else "Unico limpo".

(** The documents of a frame, each once, and the number of distinct emails
    a document has in the frame. *)
Definition documents (frame : list row) : list string :=
  remove_dups (List.filter (λ d, negb (is_empty d)) (map r_CPF_CNPJ_NORM frame)).

Definition emails_of (frame : list row) (d : string) : nat :=
  distinct
    (map r_E_MAIL_NORM
       (List.filter (λ r, String.eqb (r_CPF_CNPJ_NORM r) d && has_email r) frame)).

Definition statuses : list string :=
  ["Unico limpo"; "Repetido"; "Suspeito"; "Invalido"; "Sem email"].

End PageProps.

(** * Properties *)

(** ** Sorting, counters and rankings *)

Module RankingFacts.
Import Ranking.

Section before.
Context {A : Type}.
Implicit Types (l : list A) (x y : A).

Lemma before_cons x y a l :
  before x y (a :: l) ↔ (x = a ∧ y ∈ l) ∨ before x y l.
Proof.
  split.
  - intros (i & j & Hij & Hi & Hj).
    destruct j as [|j]; [lia|]. simpl in Hj.
    destruct i as [|i]; simpl in Hi.
    + left. split; [congruence|]. by eapply list_elem_of_lookup_2.
    + right. exists i, j. split_and!; [lia|done..].
  - intros [[-> Hy]|(i & j & Hij & Hi & Hj)].
    + apply list_elem_of_lookup in Hy as [j Hj].
      exists 0, (S j). split_and!; [lia|done..].
    + exists (S i), (S j). split_and!; [lia|done..].
Qed.

Lemma before_nil x y : ¬ before x y [].
Proof. by intros (i & j & _ & Hi & _). Qed.

Lemma before_elem_l x y l : before x y l → x ∈ l.
Proof. intros (i & j & _ & Hi & _). by eapply list_elem_of_lookup_2. Qed.




Lemma before_app_r x y l k : before x y (l ++ k) → y ∉ l → x ∉ l → before x y k.
Proof.
  induction l as [|a l IH]; simpl; [done|].
  rewrite before_cons, !not_elem_of_cons. intros [[-> _]|H] [? ?] [? ?]; [done|auto].
Qed.

End before.


Section sort_facts.
Context {A : Type} (f : A → A → bool).

Lemma insert_by_perm x l : insert_by f x l ≡ₚ x :: l.
Proof.
  induction l as [|y l IH]; simpl; [done|].
  destruct (f x y); [done|]. rewrite IH. apply Permutation_swap.
Qed.

Lemma sort_by_perm l : sort_by f l ≡ₚ l.
Proof.
  induction l as [|x l IH]; simpl; [done|].
  unfold sort_by in *. simpl. by rewrite insert_by_perm, IH.
Qed.

Lemma sort_by_length l : length (sort_by f l) = length l.
Proof. by rewrite sort_by_perm. Qed.

Lemma elem_of_sort_by x l : x ∈ sort_by f l ↔ x ∈ l.
Proof. by rewrite sort_by_perm. Qed.

(** Where the new element lands: it jumped over [y] only if it may not
    stay before [y]. *)
Lemma before_insert_by a x y l :
  before x y (insert_by f a l) →
  (x = a ∧ y ∈ l) ∨ before x y l ∨ (y = a ∧ x ∈ l ∧ f a x = false).
Proof.
  induction l as [|b l IH]; simpl.
  - intros H. apply before_cons in H as [[_ H]|H]; [by apply elem_of_nil in H|].
    by apply before_nil in H.
  - destruct (f a b) eqn:Hab.
    + rewrite before_cons. intros [[-> Hy]|H]; auto.
    + rewrite !before_cons. intros [[-> Hy]|H].
      * apply (elem_of_Permutation_proper _ _ _ (insert_by_perm a l)) in Hy.
        apply elem_of_cons in Hy as [->|Hy]; [|by auto].
        right; right. split_and!; [done| |done]. apply elem_of_cons; auto.
      * apply IH in H as [[-> Hy]|[H|(-> & Hx & Hf)]].
        -- left. split; [done|]. apply elem_of_cons; auto.
        -- auto.
        -- right; right. split_and!; [done| |done]. apply elem_of_cons; auto.
Qed.

(** Stability: two elements change their order only when the later one
    may not stay behind the earlier one. *)
Lemma sort_by_stable x y l :
  before x y (sort_by f l) → before x y l ∨ (before y x l ∧ f y x = false).
Proof.
  revert x y. induction l as [|a l IH]; intros x y; simpl.
  - intros H. by apply before_nil in H.
  - change (sort_by f (a :: l)) with (insert_by f a (sort_by f l)).
    intros H. apply before_insert_by in H as [[-> Hy]|[H|(-> & Hx & Hf)]].
    + left. apply before_cons. left. split; [done|]. by apply elem_of_sort_by.
    + apply IH in H as [H|[H Hf]].
      * left. apply before_cons. auto.
      * right. split; [|done]. apply before_cons. auto.
    + right. split; [|done]. apply before_cons. left.
      split; [done|]. by apply elem_of_sort_by.
Qed.

Hypothesis f_total : ∀ x y, f x y = false → f y x = true.
Hypothesis f_trans : ∀ x y z, f x y = true → f y z = true → f x z = true.

Lemma insert_by_sorted a l :
  StronglySorted (λ x y, f x y = true) l →
  StronglySorted (λ x y, f x y = true) (insert_by f a l).
Proof.
  induction 1 as [|b l Hs IH Hb]; simpl.
  - repeat constructor.
  - destruct (f a b) eqn:Hab.
    + constructor; [by constructor|]. constructor; [done|].
      eapply Forall_impl; [exact Hb|]. intros z Hz. by eapply f_trans.
    + constructor; [done|].
      rewrite (insert_by_perm a l). constructor; [by apply f_total|done].
Qed.

Lemma sort_by_sorted l : StronglySorted (λ x y, f x y = true) (sort_by f l).
Proof.
  induction l as [|a l IH]; [constructor|].
  change (sort_by f (a :: l)) with (insert_by f a (sort_by f l)).
  by apply insert_by_sorted.
Qed.

Lemma sorted_before x y l :
  StronglySorted (λ x y, f x y = true) l → before x y l → f x y = true.
Proof.
  induction 1 as [|b l Hs IH Hb]; [intros H; by apply before_nil in H|].
  rewrite before_cons. intros [[-> Hy]|H]; [|auto].
  rewrite Forall_forall in Hb. auto.
Qed.

Lemma sort_by_before x y l : before x y (sort_by f l) → f x y = true.
Proof. apply sorted_before, sort_by_sorted. Qed.
End sort_facts.

(** *** Descending order by a numeric key *)

Lemma sorted_desc_before {A : Type} (key : A → nat) x y (l : list A) :
  before x y (sorted_desc key l) → key y ≤ key x.
Proof.
  intros H. apply sort_by_before in H.
  - by apply Nat.leb_le in H.
  - intros a b Hab. apply Nat.leb_gt in Hab. apply Nat.leb_le. lia.
  - intros a b c Hab Hbc. apply Nat.leb_le in Hab, Hbc. apply Nat.leb_le. lia.
Qed.


(** *** First positions *)




(** *** Dictionaries in insertion order *)

Section dict_facts.
Context {V : Type}.
Implicit Types (d : list (string * V)).

Lemma dict_update_keys k f dflt d :
  (dict_update k f dflt d).*1 = if decide (k ∈ d.*1) then d.*1 else d.*1 ++ [k].
Proof.
  induction d as [|[k' v] d IH]; csimpl.
  - done.
  - destruct (decide (k = k')) as [->|Hne]; csimpl.
    + rewrite decide_True; [done|]. apply elem_of_cons; auto.
    + rewrite IH. destruct (decide (k ∈ d.*1)) as [Hin|Hin].
      * rewrite decide_True; [done|]. apply elem_of_cons; auto.
      * rewrite decide_False; [done|]. rewrite not_elem_of_cons. auto.
Qed.

Lemma dict_lookup_None k d : dict_lookup k d = None ↔ k ∉ d.*1.
Proof.
  induction d as [|[k' v] d IH]; csimpl.
  - split; [intros _; apply not_elem_of_nil|done].
  - rewrite not_elem_of_cons. destruct (decide (k = k')); [|rewrite IH]; naive_solver.
Qed.

Lemma dict_lookup_update k k' f dflt d :
  dict_lookup k' (dict_update k f dflt d) =
  if decide (k' = k) then Some (f (default dflt (dict_lookup k d)))
  else dict_lookup k' d.
Proof.
  induction d as [|[k0 v] d IH]; csimpl.
  - destruct (decide (k' = k)); [done|]. done.
  - destruct (decide (k = k0)) as [->|Hne]; csimpl.
    + destruct (decide (k' = k0)); [done|done].
    + destruct (decide (k' = k0)) as [->|Hne'].
      * rewrite decide_False; [done|congruence].
      * rewrite IH. done.
Qed.

Context {X : Type} (key : X → string) (upd : X → V → V) (dflt : V).
#[local] Abbreviation fill := (Ranking.fill key upd dflt).

Lemma fill_snoc d xs x :
  fill d (xs ++ [x]) = dict_update (key x) (upd x) dflt (fill d xs).
Proof. unfold fill. by rewrite foldl_app. Qed.

Lemma fill_keys_elem xs k : k ∈ (fill [] xs).*1 ↔ k ∈ key <$> xs.
Proof.
  revert k. induction xs as [|x xs IH] using rev_ind; intros k; [done|].
  rewrite fill_snoc, dict_update_keys, fmap_app, elem_of_app. csimpl.
  rewrite list_elem_of_singleton.
  destruct (decide (key x ∈ (fill [] xs).*1)) as [Hin|Hin].
  - rewrite IH. rewrite IH in Hin. intuition (subst; auto).
  - rewrite elem_of_app, list_elem_of_singleton, IH. done.
Qed.



End dict_facts.

End RankingFacts.

(** ** The interactive application: rows *)

Module AppFacts.
Import Text Regex Ranking RankingFacts App.

Lemma counter_of_fill keys : counter_of keys = fill id (λ _, S) 0 [] keys.
Proof. done. Qed.

Lemma counter_of_keys keys k : k ∈ (counter_of keys).*1 ↔ k ∈ keys.
Proof. rewrite counter_of_fill, fill_keys_elem. by rewrite list_fmap_id. Qed.

Lemma value_counts_keys series k : k ∈ (value_counts series).*1 ↔ k ∈ series.
Proof.
  unfold value_counts, sorted_desc. rewrite sort_by_perm. apply counter_of_keys.
Qed.

Lemma is_empty_true s : is_empty s = true ↔ s = "".
Proof. by destruct s. Qed.

Lemma elem_of_List_filter {A : Type} (f : A → bool) (x : A) (l : list A) :
  x ∈ List.filter f l ↔ x ∈ l ∧ f x = true.
Proof. by rewrite !list_elem_of_In, filter_In. Qed.

(** An empty cell is no key of the email counts. *)
Lemma email_counts_empty (norm : list string) :
  dict_lookup "" (value_counts (List.filter (λ e, negb (is_empty e)) norm)) = None.
Proof.
  apply dict_lookup_None. rewrite value_counts_keys, elem_of_List_filter.
  by intros [_ ?].
Qed.

Lemma lookup_loc_set {A : Type} (mask : list bool) (v : A) (col : list A)
  (i : nat) (m : bool) (x : A) :
  mask !! i = Some m → col !! i = Some x →
  loc_set mask v col !! i = Some (if m then v else x).
Proof.
  intros Hm Hx. unfold loc_set. rewrite lookup_zip_with, Hm. simpl. by rewrite Hx.
Qed.

(** Joined reasons are empty exactly when there is no reason. *)
Lemma join_reasons_empty e :
  negb (is_empty (join_reasons (classify_email e))) =
  bool_decide (classify_email e ≠ []).
Proof.
  unfold classify_email.
  set (n := rstrip_chr "," (lower (strip e))).
  destruct (is_empty n); [done|].
  destruct (match split_once "@" n with Some (l, d) => (l, d) | None => (n, "") end)
    as [local domain].
  destruct (Email.regex_valid n), (_ || _), (mem domain COMMON_TYPO_DOMAINS);
    reflexivity.
Qed.

Lemma lookup_map {A B : Type} (f : A → B) (l : list A) (i : nat) :
  map f l !! i = f <$> (l !! i).
Proof. apply (list_lookup_fmap f l i). Qed.

(** C4.  The status of a row is set by the override rules in their fixed
    order, the last applicable rule deciding: "Unico limpo" by default,
    "Repetido" on a repetition count above 1, "Suspeito" when a
    classification reason is present, "Invalido" on a non-empty email of
    invalid format, "Sem email" on an empty normalised email. *)
Theorem status_email_last_rule_wins (b : base) (i : nat) (e : string) (q : Z) :
  E_MAIL_NORM (analyse b) !! i = Some e →
  QTD_REPETICOES_EMAIL (analyse b) !! i = Some q →
  STATUS_EMAIL (analyse b) !! i = Some (Spec.last_applicable (Spec.status_rules e q)).
Proof.
  simpl. intros He Hq.
  set (norm := map normalize_cell (E_MAIL b)) in *.
  erewrite lookup_loc_set; cycle 1.
  { by rewrite lookup_map, He. }
  { erewrite lookup_loc_set; cycle 1.
    { by rewrite lookup_zip_with, He; simpl; rewrite lookup_map, He. }
    { erewrite lookup_loc_set; cycle 1.
      { by rewrite !lookup_map, He. }
      { erewrite lookup_loc_set; cycle 1.
        { by rewrite lookup_map, Hq. }
        { apply lookup_replicate_2. by apply lookup_lt_Some in He. }
        done. }
      done. }
    done. }
  f_equal. unfold Spec.last_applicable, Spec.status_rules. simpl.
  rewrite join_reasons_empty.
  destruct (is_empty e), (Email.regex_valid e),
    (bool_decide (classify_email e ≠ [])), (1 <? q)%Z; done.
Qed.

(** The rules of C4 at work on a small table. *)
Lemma status_email_last_rule_wins_witness :
  let b := {| ORIGEM := []; CPF_CNPJ := []; NOME := [];
              E_MAIL := ["a@b.com"; "teste@teste.com"; "a@b.com"];
              REGIAO := [] |} in
  E_MAIL_NORM (analyse b) !! 1 = Some "teste@teste.com"
  ∧ QTD_REPETICOES_EMAIL (analyse b) !! 1 = Some 1%Z
  ∧ STATUS_EMAIL (analyse b) !! 1 = Some "Suspeito".
Proof.
  intros b. split; [reflexivity|]. split; [reflexivity|].
  exact (status_email_last_rule_wins b 1 "teste@teste.com" 1 eq_refl eq_refl).
Defined.

End AppFacts.

(** ** Strings *)

Module TextFacts.
Import Text.

Lemma ascii_cases (P : ascii → Prop) :
  (∀ b0 b1 b2 b3 b4 b5 b6 b7, P (Ascii b0 b1 b2 b3 b4 b5 b6 b7)) → ∀ c, P c.
Proof. intros H [b0 b1 b2 b3 b4 b5 b6 b7]. apply H. Qed.

Ltac by_cases_on_ascii c :=
  revert c; apply ascii_cases;
  intros [] [] [] [] [] [] [] []; vm_compute; reflexivity.

Lemma lower_chr_idem c : lower_chr (lower_chr c) = lower_chr c.
Proof. by_cases_on_ascii c. Qed.

Lemma isspace_lower_chr c : isspace (lower_chr c) = isspace c.
Proof. by_cases_on_ascii c. Qed.

Lemma lower_idem s : lower (lower s) = lower s.
Proof.
  unfold lower. induction s as [|c s IH]; simpl; [done|].
  by rewrite lower_chr_idem, IH.
Qed.

Section strip.
Context (p : ascii → bool).

Lemma rstrip_by_idem s : rstrip_by p (rstrip_by p s) = rstrip_by p s.
Proof.
  induction s as [|c s IH]; simpl; [done|].
  destruct (rstrip_by p s) as [|d r] eqn:Hr.
  - destruct (p c) eqn:Hc; simpl; [done|]. by rewrite Hc.
  - simpl in *. by rewrite IH.
Qed.

Lemma lstrip_by_head s c s' : lstrip_by p s = String c s' → p c = false.
Proof.
  induction s as [|d s IH]; simpl; [done|].
  destruct (p d) eqn:Hd; [done|]. by intros [= <- <-].
Qed.

Lemma rstrip_by_head c s :
  p c = false → ∃ r, rstrip_by p (String c s) = String c r.
Proof.
  intros Hc. simpl. destruct (rstrip_by p s); rewrite ?Hc; eauto.
Qed.

Lemma strip_by_idem s : strip_by p (strip_by p s) = strip_by p s.
Proof.
  unfold strip_by. destruct (lstrip_by p s) as [|c t] eqn:Ht; [done|].
  pose proof (lstrip_by_head _ _ _ Ht) as Hc.
  destruct (rstrip_by_head c t Hc) as [r Hr]. rewrite Hr.
  assert (lstrip_by p (String c r) = String c r) as -> by (simpl; by rewrite Hc).
  by rewrite <- Hr, rstrip_by_idem.
Qed.

Context (f : ascii → ascii) (Hf : ∀ c, p (f c) = p c).

Lemma lstrip_by_smap s : lstrip_by p (smap f s) = smap f (lstrip_by p s).
Proof.
  induction s as [|c s IH]; simpl; [done|].
  rewrite Hf. by destruct (p c).
Qed.

Lemma rstrip_by_smap s : rstrip_by p (smap f s) = smap f (rstrip_by p s).
Proof.
  induction s as [|c s IH]; simpl; [done|].
  rewrite IH, Hf. by destruct (rstrip_by p s), (p c).
Qed.

Lemma strip_by_smap s : strip_by p (smap f s) = smap f (strip_by p s).
Proof. unfold strip_by. by rewrite lstrip_by_smap, rstrip_by_smap. Qed.
End strip.

Lemma strip_idem s : strip (strip s) = strip s.
Proof. apply strip_by_idem. Qed.

Lemma strip_lower s : strip (lower s) = lower (strip s).
Proof. apply strip_by_smap, isspace_lower_chr. Qed.

End TextFacts.

(** ** Normalisation and failures *)

Module NormalFacts.
Import Text TextFacts.

(** The batch normalisation, trim and lower-case, is idempotent. *)
Lemma normalize_email_idempotent (value : option string) :
  Batch.normalize_email (Some (Batch.normalize_email value)) = Batch.normalize_email value.
Proof.
  unfold Batch.normalize_email, Batch.normalize_text. simpl.
  by rewrite strip_lower, strip_idem, lower_idem.
Qed.

(** C6, at the cell ["joao@gmail.com ,"].  The interactive derivation of
    [E_MAIL_NORM] strips the trailing comma after the trim, which leaves the
    space that stood before the comma: the normalised value ends in a space,
    and normalising it again removes that space.  The derivation is not
    idempotent, while the batch normalisation is. *)
Theorem email_norm_second_pass_differs :
  App.normalize_cell "joao@gmail.com ," = "joao@gmail.com "
  ∧ App.normalize_cell (App.normalize_cell "joao@gmail.com ,") = "joao@gmail.com"
  ∧ App.normalize_cell (App.normalize_cell "joao@gmail.com ,")
    ≠ App.normalize_cell "joao@gmail.com ,"
  ∧ App.E_MAIL_NORM (App.analyse
       {| App.ORIGEM := []; App.CPF_CNPJ := []; App.NOME := [];
          App.E_MAIL := ["joao@gmail.com ,"]; App.REGIAO := [] |})
    = ["joao@gmail.com "].
Proof. split_and!; [reflexivity..|discriminate|reflexivity]. Qed.

(** The loop of [analyze] raises nothing but the error of the writer. *)
Lemma run_raises_the_writer_error st n rows e :
  Batch.run st n rows = Raise e →
  e = ValueError "dict contains fields not in fieldnames: None".
Proof.
  revert st n. induction rows as [|r rows IH]; intros st n; simpl; [done|].
  unfold Batch.step. destruct (Batch.row_extra r); simpl; [by intros [= <-]|].
  apply IH.
Qed.

(** C9, counterexample.  A CSV file without a header row, holding two
    records of data.  The batch script takes the first record for the header
    and returns a summary: one row, whose email it does not find.  The
    interactive application reads the file a second time without a header
    and goes on to the dashboard with the table of the two records: no error
    is shown. *)
Lemma headerless_csv_is_not_detected :
  (∃ out, Batch.analyze (Some Spec.headerless_file) = Ok out
          ∧ Batch.total_rows (Batch.summary out) = 1
          ∧ Batch.missing_emails (Batch.summary out) = 1)
  ∧ (let read_csv := λ (_ : string) (h : App.header_opt) (_ : ascii),
         Ok (match h with
             | App.header_first => Spec.headerless_as_header
             | App.header_none => Spec.headerless_as_data
             end) in
     let read_excel := λ (_ : string) (_ : App.header_opt),
         Raise (ReaderError "not an Excel file") : result App.DataFrame in
     let f := {| App.up_name := "clientes.csv";
                 App.up_value := "Acme,12345678901,Joao,joao@gmail.com" |} in
     App.read_table read_csv read_excel f
     = Ok [ ("col_1", ["Acme"; "Beta"]); ("col_2", ["12345678901"; "222"]);
            ("col_3", ["Joao"; "Ana"]);
            ("col_4", ["joao@gmail.com"; "ana@uol.com.br"]) ]
     ∧ App.main read_csv read_excel (λ _, Ok [App.st_success "dashboard"]) (Some f)
       = Ok [App.st_success "dashboard"]).
Proof.
  split.
  - eexists. split; [vm_compute; reflexivity|]. split; reflexivity.
  - split; vm_compute; reflexivity.
Qed.

(** C9, as amended.  The batch run raises [FileNotFoundError] on an
    absent file, and on a file from which the reader gets no record at all
    it raises [ValueError] with the message of the script, or the exception
    of the reader if the reading fails; it returns a summary in none of
    these cases: a run that returns has read a header record and the reading
    has ended without an exception.  A file that holds a record is never
    reported as having no header: its first record is the header, whatever
    it holds, and the only exceptions are that of the writer of the treated
    rows, on a record longer than the header, and that of the reader.  In
    the interactive application every failure of [read_table] becomes an
    error message of the page, and [main] returns; when [read_table] returns
    a table, [main] goes on to the dashboard with it, and a CSV file whose
    first record looks like data is no failure: [read_table] returns the
    table of the second reading. *)
Theorem absent_or_empty_file_aborts_batch_and_read_failure_is_shown
  (read_csv : string → App.header_opt → ascii → result App.DataFrame)
  (read_excel : string → App.header_opt → result App.DataFrame)
  (dashboard : App.DataFrame → result (list App.ui_event)) :
  Reading.analyze None = Raise FileNotFoundError
  ∧ Reading.analyze (Some {| Reading.yielded := []; Reading.failure := None |})
    = Raise (ValueError "Arquivo CSV sem cabecalho.")
  ∧ (∀ e, Reading.analyze (Some {| Reading.yielded := []; Reading.failure := Some e |})
          = Raise e)
  ∧ (∀ src out, Reading.analyze src = Ok out →
       ∃ first rest,
         src = Some {| Reading.yielded := first :: rest; Reading.failure := None |})
  ∧ (∀ first rest fail e,
       Reading.analyze
         (Some {| Reading.yielded := first :: rest; Reading.failure := fail |}) = Raise e →
       e = ValueError "dict contains fields not in fieldnames: None" ∨ fail = Some e)
  ∧ (∀ records, Reading.analyze
                  (Some {| Reading.yielded := records; Reading.failure := None |})
                = Batch.analyze (Some records))
  ∧ Batch.analyze None = Raise FileNotFoundError
  ∧ Batch.analyze (Some []) = Raise (ValueError "Arquivo CSV sem cabecalho.")
  ∧ (∀ input out, Batch.analyze input = Ok out →
       ∃ first rest, input = Some (first :: rest))
  ∧ (∀ (f : App.upload) (exc : exn),
       App.read_table read_csv read_excel f = Raise exc →
       App.main read_csv read_excel dashboard (Some f)
       = Ok [App.st_error ("Falha ao ler arquivo: " +:+ exn_message exc)])
  ∧ (∀ (f : App.upload) (df : App.DataFrame),
       App.read_table read_csv read_excel f = Ok df →
       App.main read_csv read_excel dashboard (Some f) = dashboard df)
  ∧ (∀ (f : App.upload) (df0 df' : App.DataFrame),
       App.after_last_dot (lower (App.up_name f)) = "csv" →
       read_csv (App.up_value f) App.header_first
         (App.detect_csv_delimiter (App.up_value f)) = Ok df0 →
       App.looks_like_no_header (App.df_columns df0) = true →
       read_csv (App.up_value f) App.header_none
         (App.detect_csv_delimiter (App.up_value f)) = Ok df' →
       App.read_table read_csv read_excel f
       = Ok (App.strip_names (App.synthetic_names df'))).
Proof.
  split_and!.
  - reflexivity.
  - reflexivity.
  - reflexivity.
  - intros src out. destruct src as [[[|first rest] fail]|]; [by destruct fail| |done].
    unfold Reading.analyze. cbn [Reading.yielded Reading.failure].
    destruct (Batch.run Batch.init 2 (Batch.reader_rows first rest)); [|done].
    cbn [rbind]. destruct fail; [done|]. eauto.
  - intros first rest fail e. unfold Reading.analyze.
    cbn [Reading.yielded Reading.failure].
    destruct (Batch.run Batch.init 2 (Batch.reader_rows first rest)) as [st|e'] eqn:Hrun.
    + cbn [rbind]. destruct fail as [e'|]; [|done]. intros [= <-]. by right.
    + cbn [rbind]. intros [= <-]. left. by eapply run_raises_the_writer_error.
  - intros records. unfold Reading.analyze, Batch.analyze.
    cbn [Reading.yielded Reading.failure].
    destruct records as [|first rest]; [done|].
    by destruct (Batch.run Batch.init 2 (Batch.reader_rows first rest)).
  - reflexivity.
  - reflexivity.
  - intros input out. destruct input as [[|first rest]|]; [done| |done]. eauto.
  - intros f exc Hread. unfold App.main. by rewrite Hread.
  - intros f df Hread. unfold App.main. by rewrite Hread.
  - intros f df0 df' Hsuffix H0 Hno H'.
    unfold App.read_table. rewrite Hsuffix. simpl. rewrite H0. simpl. by rewrite Hno, H'.
Qed.

(** A file of unsupported type: [read_table] itself raises, and the page
    shows the message. *)
Example unsupported_upload_is_reported
  (read_csv : string → App.header_opt → ascii → result App.DataFrame)
  (read_excel : string → App.header_opt → result App.DataFrame)
  (dashboard : App.DataFrame → result (list App.ui_event)) :
  App.main read_csv read_excel dashboard
    (Some {| App.up_name := "Clientes.TXT"; App.up_value := "" |})
  = Ok [App.st_error
          "Falha ao ler arquivo: Formato nao suportado. Use CSV, XLSX ou XLS."].
Proof. reflexivity. Qed.

(** A reader that raises on an empty CSV file: the page shows its message. *)
Example empty_csv_upload_is_reported
  (read_excel : string → App.header_opt → result App.DataFrame)
  (dashboard : App.DataFrame → result (list App.ui_event)) :
  App.main (λ _ _ _, Raise (ReaderError "No columns to parse from file"))
    read_excel dashboard
    (Some {| App.up_name := "clientes.csv"; App.up_value := "" |})
  = Ok [App.st_error "Falha ao ler arquivo: No columns to parse from file"].
Proof. reflexivity. Qed.

End NormalFacts.

(** ** The matcher *)

Module RegexFacts.
Import Text Regex Email.

Lemma sapp_nil_l s : "" +:+ s = s.
Proof. done. Qed.

Lemma sapp_cons c a b : String c a +:+ b = String c (a +:+ b).
Proof. done. Qed.


Lemma sapp_assoc a b c : (a +:+ b) +:+ c = a +:+ b +:+ c.
Proof. induction a as [|x a IH]; [done|]. by rewrite !sapp_cons, IH. Qed.

Lemma sapp_length a b : String.length (a +:+ b) = String.length a + String.length b.
Proof. induction a as [|x a IH]; [done|]. rewrite sapp_cons. simpl. by rewrite IH. Qed.

Lemma sapp_eq_nil a b : a +:+ b = "" → a = "" ∧ b = "".
Proof. by destruct a. Qed.

Lemma sall_app p a b : sall p (a +:+ b) = sall p a && sall p b.
Proof.
  induction a as [|x a IH]; [done|]. rewrite sapp_cons. simpl.
  by rewrite IH, andb_assoc.
Qed.

(** The runs [rep_greedy] lists are the prefixes in the class whose length
    the bounds allow. *)
Lemma elem_of_rep_greedy p lo hi s t r :
  (t, r) ∈ rep_greedy p lo hi s ↔
  s = t +:+ r ∧ sall p t = true ∧ lo ≤ String.length t ∧ within hi (String.length t).
Proof.
  revert lo hi t. induction s as [|c s IH]; intros lo hi t.
  - simpl. destruct lo as [|lo].
    + rewrite list_elem_of_singleton. split.
      * intros [= -> ->]. split_and!; [done..|]. destruct hi; simpl; lia.
      * intros (Hs & _). symmetry in Hs. apply sapp_eq_nil in Hs as [-> ->]. done.
    + split; [by intros ?%elem_of_nil|].
      intros (Hs & _ & Hlo & _). symmetry in Hs. apply sapp_eq_nil in Hs as [-> ->].
      simpl in Hlo. lia.
  - assert (∀ l : list (string * string),
              (t, r) ∈ l ++ match lo with 0 => [("", String c s)] | S _ => [] end ↔
              (t, r) ∈ l ∨ (lo = 0 ∧ t = "" ∧ r = String c s)) as Hstop.
    { intros l. rewrite elem_of_app. destruct lo.
      - rewrite list_elem_of_singleton. naive_solver.
      - rewrite elem_of_nil. naive_solver. }
    assert ((t, r) ∈ map (λ tr : string * string, (String c tr.1, tr.2))
                         (rep_greedy p (pred lo) (hi_pred hi) s) ↔
            ∃ t', t = String c t' ∧ (t', r) ∈ rep_greedy p (pred lo) (hi_pred hi) s)
      as Hmap.
    { change (map ?f ?l) with (f <$> l). rewrite list_elem_of_fmap. split.
      - intros ([t' r'] & [= -> ->] & Hin). eauto.
      - intros (t' & -> & Hin). by exists (t', r). }
    simpl. destruct (p c && hi_allows hi) eqn:Hpc.
    + apply andb_true_iff in Hpc as [Hp Hhi].
      rewrite Hstop, Hmap. split.
      * intros [(t' & -> & Hin)|(-> & -> & ->)].
        -- apply IH in Hin as (-> & Ht & Hlo & Hh).
           rewrite sapp_cons. simpl. rewrite Hp, Ht. split_and!; [done..|lia|].
           destruct hi as [[|h]|]; simpl in *; try done. lia.
        -- split_and!; [done..|]. destruct hi; simpl; lia.
      * intros (Hs & Ht & Hlo & Hh). destruct t as [|c' t'].
        -- right. rewrite sapp_nil_l in Hs. simpl in Hlo. split_and!; [lia|done..].
        -- left. rewrite sapp_cons in Hs. injection Hs as <- ->.
           exists t'. split; [done|]. apply IH. simpl in Ht, Hlo.
           apply andb_true_iff in Ht as [_ Ht]. split_and!; [done..|lia|].
           destruct hi as [[|h]|]; simpl in *; try done; lia.
    + replace (match lo with 0 => [("", String c s)] | S _ => [] end)
        with ([] ++ match lo with 0 => [("", String c s)] | S _ => [] end) by done.
      rewrite Hstop. split.
      * intros [?%elem_of_nil|(-> & -> & ->)]; [done|].
        split_and!; [done..|]. destruct hi; simpl; lia.
      * intros (Hs & Ht & Hlo & Hh). right. destruct t as [|c' t'].
        -- rewrite sapp_nil_l in Hs. simpl in Hlo. split_and!; [lia|done..].
        -- rewrite sapp_cons in Hs. injection Hs as <- ->. simpl in Ht.
           apply andb_true_iff in Ht as [Hp Ht]. rewrite Hp in Hpc. simpl in Hpc.
           destruct hi as [[|h]|]; simpl in *; try done; lia.
Qed.

Lemma elem_of_rmatch_rep p lo hi prev s m :
  m ∈ rmatch (Rep p lo hi) prev s ↔
  group m = None ∧ s = taken m +:+ rest m ∧ sall p (taken m) = true
  ∧ lo ≤ String.length (taken m) ∧ within hi (String.length (taken m)).
Proof.
  simpl. change (map ?f ?l) with (f <$> l). rewrite list_elem_of_fmap. split.
  - intros ([t r] & -> & Hin). apply elem_of_rep_greedy in Hin. simpl. tauto.
  - intros (Hg & H). destruct m as [t g r]. simpl in *. subst g.
    exists (t, r). split; [done|]. by apply elem_of_rep_greedy.
Qed.

Lemma elem_of_rmatch_cls p prev s m :
  m ∈ rmatch (Cls p) prev s ↔
  ∃ c, p c = true ∧ s = String c (rest m) ∧ taken m = String c "" ∧ group m = None.
Proof.
  simpl. destruct s as [|c s].
  - split; [by intros ?%elem_of_nil|]. by intros (c & _ & ? & _).
  - destruct (p c) eqn:Hp.
    + rewrite list_elem_of_singleton. split.
      * intros ->. by exists c.
      * intros (c' & _ & [= <- ->] & Ht & Hg). destruct m; simpl in *. by subst.
    + split; [by intros ?%elem_of_nil|].
      intros (c' & Hp' & [= <- _] & _). congruence.
Qed.

Lemma elem_of_rmatch_cat r1 r2 prev s m :
  m ∈ rmatch (Cat r1 r2) prev s ↔
  ∃ m1 m2, m1 ∈ rmatch r1 prev s
           ∧ m2 ∈ rmatch r2 (last_chr prev (taken m1)) (rest m1)
           ∧ m = MRes (taken m1 +:+ taken m2) (or_group (group m2) (group m1)) (rest m2).
Proof.
  simpl. rewrite list_elem_of_In, in_flat_map. split.
  - intros (m1 & H1 & H2). apply in_map_iff in H2 as (m2 & <- & H2).
    exists m1, m2. by rewrite !list_elem_of_In.
  - intros (m1 & m2 & H1 & H2 & ->). exists m1. split; [by apply list_elem_of_In|].
    apply in_map_iff. exists m2. split; [done|]. by apply list_elem_of_In.
Qed.

Lemma elem_of_rmatch_bol s m : m ∈ rmatch Bol None s ↔ m = MRes "" None s.
Proof. simpl. apply list_elem_of_singleton. Qed.

Lemma elem_of_rmatch_eol prev s m :
  m ∈ rmatch Eol prev s ↔ at_eol s = true ∧ m = MRes "" None s.
Proof.
  simpl. destruct (at_eol s).
  - rewrite list_elem_of_singleton. naive_solver.
  - split; [by intros ?%elem_of_nil|]. by intros [? _].
Qed.

Lemma at_eol_iff s : at_eol s = true ↔ s = "" ∨ s = String newline "".
Proof.
  destruct s as [|c [|d s]]; simpl.
  - naive_solver.
  - rewrite Ascii.eqb_eq. naive_solver.
  - naive_solver.
Qed.

(** What the email pattern accepts at the start of a text: the shape, and
    after it the end of the text or one final newline. *)
Lemma regex_valid_iff e :
  regex_valid e = true ↔
  ∃ loc dom tld tail : string,
    e = loc +:+ "@" +:+ dom +:+ "." +:+ tld +:+ tail
    ∧ loc ≠ "" ∧ sall local_chr loc = true
    ∧ dom ≠ "" ∧ sall domain_chr dom = true
    ∧ 2 ≤ String.length tld ∧ sall is_alpha_az tld = true
    ∧ at_eol tail = true.
Proof.
  assert (regex_valid e = true ↔ ∃ m, m ∈ rmatch EMAIL_REGEX None e) as ->.
  { unfold regex_valid, re_match. destruct (rmatch EMAIL_REGEX None e) as [|m l].
    - split; [done|]. by intros [m ?%elem_of_nil].
    - split; [|done]. intros _. exists m. apply elem_of_cons; auto. }
  unfold EMAIL_REGEX. split.
  - intros (m & Hm).
    apply elem_of_rmatch_cat in Hm as (m0 & n0 & H0 & Hm & _).
    apply elem_of_rmatch_bol in H0 as ->. cbn [taken rest last_chr] in Hm.
    apply elem_of_rmatch_cat in Hm as (m1 & n1 & H1 & Hm & _).
    apply elem_of_rmatch_rep in H1 as (_ & He1 & Hl1 & Hn1 & _).
    apply elem_of_rmatch_cat in Hm as (m2 & n2 & H2 & Hm & _).
    apply elem_of_rmatch_cls in H2 as (c2 & Hc2 & He2 & _).
    apply elem_of_rmatch_cat in Hm as (m3 & n3 & H3 & Hm & _).
    apply elem_of_rmatch_rep in H3 as (_ & He3 & Hl3 & Hn3 & _).
    apply elem_of_rmatch_cat in Hm as (m4 & n4 & H4 & Hm & _).
    apply elem_of_rmatch_cls in H4 as (c4 & Hc4 & He4 & _).
    apply elem_of_rmatch_cat in Hm as (m5 & n5 & H5 & Hm & _).
    apply elem_of_rmatch_rep in H5 as (_ & He5 & Hl5 & Hn5 & _).
    apply elem_of_rmatch_eol in Hm as [Heol _].
    apply Ascii.eqb_eq in Hc2, Hc4. subst c2 c4.
    exists (taken m1), (taken m3), (taken m5), (rest m5).
    split_and!; try done.
    + rewrite He1, He2, He3, He4, He5. done.
    + intros Hnil. rewrite Hnil in Hn1. simpl in Hn1. lia.
    + intros Hnil. rewrite Hnil in Hn3. simpl in Hn3. lia.
  - intros (loc & dom & tld & tail & -> & Hloc & Hl & Hdom & Hd & Htld & Ht & Heol).
    eexists.
    apply elem_of_rmatch_cat. eexists (MRes "" None _), _. split_and!;
      [by apply elem_of_rmatch_bol| |done]. cbn [taken rest last_chr].
    apply elem_of_rmatch_cat. eexists (MRes loc None _), _. split_and!; [| |done].
    { apply elem_of_rmatch_rep. simpl. split_and!; [done..| |done].
      destruct loc; [done|simpl; lia]. }
    cbn [taken rest].
    apply elem_of_rmatch_cat. eexists (MRes "@" None _), _. split_and!; [| |done].
    { apply elem_of_rmatch_cls. exists "@"%char. simpl. split_and!; done. }
    cbn [taken rest].
    apply elem_of_rmatch_cat. eexists (MRes dom None _), _. split_and!; [| |done].
    { apply elem_of_rmatch_rep. simpl. split_and!; [done..| |done].
      destruct dom; [done|simpl; lia]. }
    cbn [taken rest].
    apply elem_of_rmatch_cat. eexists (MRes "." None _), _. split_and!; [| |done].
    { apply elem_of_rmatch_cls. exists "."%char. simpl. split_and!; done. }
    cbn [taken rest].
    apply elem_of_rmatch_cat. eexists (MRes tld None _), _. split_and!; [| |done].
    { apply elem_of_rmatch_rep. simpl. split_and!; done. }
    cbn [taken rest].
    apply elem_of_rmatch_eol. done.
Qed.

End RegexFacts.

(** ** The batch script: the loop *)

Module BatchFacts.
Import Text Regex Ranking RankingFacts Batch Spec.

Lemma run_accumulate st n rows st' :
  run st n rows = Ok st' →
  st' = accumulate st n rows ∧ Forall (λ r, row_extra r = false) rows.
Proof.
  revert st n. induction rows as [|r rows IH]; intros st n; simpl.
  - intros [= <-]. by split.
  - unfold step. destruct (row_extra r) eqn:Hr; simpl; [done|].
    intros H. apply IH in H as [-> H]. split; [done|]. by constructor.
Qed.

Lemma run_total st n rows :
  Forall (λ r, row_extra r = false) rows → run st n rows = Ok (accumulate st n rows).
Proof.
  revert st n. induction rows as [|r rows IH]; intros st n; simpl; [done|].
  intros [Hr H]%Forall_cons. unfold step. rewrite Hr. simpl. by apply IH.
Qed.

(** *** Exact duplicates *)

Lemma accumulate_flags st n rows :
  tr_LINHA_DUPLICADA_EXATA <$> st_treated (accumulate st n rows) =
  (tr_LINHA_DUPLICADA_EXATA <$> st_treated st)
  ++ seen_flags (st_seen_exact_rows st) (row_identity <$> rows).
Proof.
  revert st n. induction rows as [|r rows IH]; intros st n; csimpl.
  - by rewrite app_nil_r.
  - rewrite IH. simpl. rewrite fmap_app, <- app_assoc. simpl. do 3 f_equal.
    case_bool_decide as Hin; [|done].
    f_equal. apply set_eq. set_solver.
Qed.

Lemma accumulate_duplicate_total st n rows :
  st_duplicate_exact_rows (accumulate st n rows) =
  st_duplicate_exact_rows st
  + count_true (seen_flags (st_seen_exact_rows st) (row_identity <$> rows)).
Proof.
  revert st n. induction rows as [|r rows IH]; intros st n; csimpl.
  - unfold count_true. simpl. lia.
  - rewrite IH. simpl. unfold count_true. simpl.
    case_bool_decide as Hin; simpl.
    + replace (st_seen_exact_rows st ∪ {[row_identity r]})
        with (st_seen_exact_rows st) by (apply set_eq; set_solver). lia.
    + lia.
Qed.

Lemma accumulate_duplicate_rows st n rows d :
  d ∈ st_duplicate_rows (accumulate st n rows) ↔
  d ∈ st_duplicate_rows st
  ∨ ∃ (i : nat) row, rows !! i = Some row
      ∧ seen_flags (st_seen_exact_rows st) (row_identity <$> rows) !! i = Some true
      ∧ d = duplicate_record (n + i) row.
Proof.
  revert st n. induction rows as [|r rows IH]; intros st n; csimpl.
  - split; [auto|]. intros [?|(i & row & Hi & _)]; done.
  - rewrite IH. simpl.
    assert ((if bool_decide (row_identity r ∈ st_seen_exact_rows st)
             then st_seen_exact_rows st
             else st_seen_exact_rows st ∪ {[row_identity r]})
            = st_seen_exact_rows st ∪ {[row_identity r]}) as ->.
    { case_bool_decide; [|done]. apply set_eq. set_solver. }
    split.
    + intros [Hd|(i & row & Hi & Hf & ->)].
      * case_bool_decide as Hin; [|by left].
        apply elem_of_app in Hd as [Hd|Hd]; [by left|].
        apply list_elem_of_singleton in Hd as ->. right.
        exists 0, r. simpl. split_and!; [done..|]. f_equal. lia.
      * right. exists (S i), row. simpl. split_and!; [done..|]. f_equal. lia.
    + intros [Hd|(i & row & Hi & Hf & ->)].
      * left. case_bool_decide; [|done]. apply elem_of_app. by left.
      * destruct i as [|i]; simpl in *.
        -- injection Hi as ->. injection Hf as Hf.
           rewrite Hf. left. apply elem_of_app. right.
           apply list_elem_of_singleton. f_equal. lia.
        -- right. exists i, row. split_and!; [done..|]. f_equal. lia.
Qed.

Lemma accumulate_duplicate_rows_length st n rows :
  length (st_duplicate_rows (accumulate st n rows)) =
  length (st_duplicate_rows st)
  + count_true (seen_flags (st_seen_exact_rows st) (row_identity <$> rows)).
Proof.
  revert st n. induction rows as [|r rows IH]; intros st n; csimpl.
  - unfold count_true. simpl. lia.
  - rewrite IH. simpl. unfold count_true. simpl.
    case_bool_decide as Hin; simpl.
    + replace (st_seen_exact_rows st ∪ {[row_identity r]})
        with (st_seen_exact_rows st) by (apply set_eq; set_solver).
      rewrite length_app. simpl. lia.
    + lia.
Qed.

(** A tuple is flagged exactly when it is in the initial set or stood
    earlier in the stream. *)
Lemma seen_flags_lookup seen ids (i : nat) t :
  ids !! i = Some t →
  ∃ b, seen_flags seen ids !! i = Some b
       ∧ (b = true ↔ t ∈ seen ∨ ∃ j : nat, j < i ∧ ids !! j = Some t).
Proof.
  revert seen i. induction ids as [|a ids IH]; intros seen i; [done|].
  destruct i as [|i]; simpl.
  - intros [= Ha]. subst a. eexists. split; [done|]. rewrite bool_decide_eq_true.
    split; [auto|]. intros [?|(j & ? & _)]; [done|lia].
  - intros Hi. destruct (IH (seen ∪ {[a]}) _ Hi) as (b & Hb & Hiff).
    exists b. split; [done|]. rewrite Hiff, elem_of_union, elem_of_singleton. split.
    + intros [[?| ->]|(j & Hj & Hj')].
      * by left.
      * right. exists 0. split; [lia|done].
      * right. exists (S j). split; [lia|done].
    + intros [?|(j & Hj & Hj')]; [by left; left|].
      destruct j as [|j]; simpl in Hj'.
      * injection Hj' as ->. left. by right.
      * right. exists j. split; [lia|done].
Qed.

Lemma seen_flags_length seen ids : length (seen_flags seen ids) = length ids.
Proof. revert seen. induction ids as [|a ids IH]; intros seen; simpl; auto. Qed.

(** Flagged tuples and distinct new tuples add up to the stream. *)
Lemma seen_flags_count seen ids :
  count_true (seen_flags seen ids) + size (list_to_set ids ∖ seen : gset identity)
  = length ids.
Proof.
  revert seen. induction ids as [|a ids IH]; intros seen.
  - simpl. unfold count_true. simpl.
    replace (∅ ∖ seen) with (∅ : gset identity) by (apply set_eq; set_solver).
    by rewrite size_empty.
  - simpl. specialize (IH (seen ∪ {[a]})). unfold count_true in *. simpl.
    case_bool_decide as Hin; simpl.
    + replace (({[a]} ∪ list_to_set ids) ∖ seen)
        with (list_to_set ids ∖ (seen ∪ {[a]}) : gset identity)
        by (apply set_eq; set_solver). lia.
    + replace (({[a]} ∪ list_to_set ids) ∖ seen)
        with ({[a]} ∪ list_to_set ids ∖ (seen ∪ {[a]}) : gset identity)
        by (apply set_eq; intros x; set_unfold; destruct (decide (x = a)); naive_solver).
      rewrite size_union by set_solver. rewrite size_singleton. lia.
Qed.

Section occurrences.
Context `{EqDecision A}.
Implicit Types (l d : list A).

Lemma occurrences_cons x a l :
  occurrences x (a :: l) = (if decide (a = x) then 1 else 0) + occurrences x l.
Proof.
  unfold occurrences. rewrite filter_cons. by destruct (decide (a = x)).
Qed.

Lemma occurrences_pos x l : x ∈ l → 0 < occurrences x l.
Proof.
  induction l as [|a l IH]; [by intros ?%elem_of_nil|].
  rewrite occurrences_cons, elem_of_cons. destruct (decide (a = x)); [lia|].
  intros [?|?]; [done|]. pose proof (IH H). lia.
Qed.

Lemma sum_indicator a d :
  NoDup d → a ∈ d → sum_list ((λ t, if decide (a = t) then 1 else 0) <$> d) = 1.
Proof.
  induction 1 as [|x d Hx Hd IH]; [by intros ?%elem_of_nil|].
  rewrite elem_of_cons. csimpl. destruct (decide (a = x)) as [->|Hne].
  - intros _. f_equal.
    clear IH Hd. induction d as [|y d IH]; [done|]. csimpl.
    apply not_elem_of_cons in Hx as [Hxy Hx]. rewrite decide_False by done. auto.
  - intros [?|?]; [done|]. auto.
Qed.

Lemma sum_occurrences l d :
  NoDup d → (∀ x, x ∈ l → x ∈ d) → sum_list ((λ t, occurrences t l) <$> d) = length l.
Proof.
  intros Hd. induction l as [|a l IH]; intros Hsub.
  - unfold occurrences. simpl. clear. induction d; [done|]. csimpl. auto.
  - transitivity (sum_list ((λ t, if decide (a = t) then 1 else 0) <$> d)
                  + sum_list ((λ t, occurrences t l) <$> d)).
    + clear. induction d as [|x d IH]; [done|]. csimpl.
      rewrite occurrences_cons, IH. lia.
    + rewrite sum_indicator, IH; [done| |done|].
      * intros x Hx. apply Hsub, elem_of_cons. auto.
      * apply Hsub, elem_of_cons. auto.
Qed.

(** Occurrences beyond the first, summed over the distinct elements. *)
Lemma sum_repeats l :
  sum_list ((λ t, occurrences t l - 1) <$> remove_dups l) + length (remove_dups l)
  = length l.
Proof.
  rewrite <- (sum_occurrences l (remove_dups l));
    [|apply NoDup_remove_dups|intros x; by rewrite elem_of_remove_dups].
  assert (∀ d, (∀ x, x ∈ d → x ∈ l) →
            sum_list ((λ t, occurrences t l - 1) <$> d) + length d
            = sum_list ((λ t, occurrences t l) <$> d)) as H.
  { induction d as [|x d IH]; intros Hsub; [done|]. csimpl.
    pose proof (occurrences_pos x l (Hsub x ltac:(apply elem_of_cons; auto))).
    rewrite <- IH; [lia|]. intros y Hy. apply Hsub, elem_of_cons. auto. }
  apply H. intros x. by rewrite elem_of_remove_dups.
Qed.
End occurrences.

Lemma duplicate_total_by_tuple (ids : list identity) :
  count_true (seen_flags ∅ ids)
  = sum_list ((λ t, occurrences t ids - 1) <$> remove_dups ids).
Proof.
  pose proof (seen_flags_count ∅ ids) as H1.
  pose proof (sum_repeats ids) as H2.
  assert (size (list_to_set ids ∖ ∅ : gset identity) = length (remove_dups ids)) as H3.
  { rewrite <- (size_list_to_set (C:=gset identity)) by apply NoDup_remove_dups.
    f_equal. apply set_eq. intros x.
    rewrite elem_of_difference, !elem_of_list_to_set, elem_of_remove_dups.
    set_solver. }
  lia.
Qed.

Lemma analyze_accumulate fieldnames body out :
  analyze (Some (fieldnames :: body)) = Ok out →
  out = finish (accumulate init 2 (reader_rows fieldnames body)).
Proof.
  simpl. destruct (run init 2 (reader_rows fieldnames body)) as [st|e] eqn:Hrun;
    simpl; [|done].
  intros [= <-]. by apply run_accumulate in Hrun as [-> _].
Qed.

(** C3.  In a run of the batch script the row at position [i] is flagged
    [LINHA_DUPLICADA_EXATA] exactly when an earlier row carries the same
    identity tuple, so the first row of a tuple is never flagged and every
    later one is; the flagged rows, and no others, are in
    [linhas_duplicadas_exatas.csv] with their line numbers; and the reported
    total is the sum, over the distinct tuples, of occurrences minus one. *)
Theorem exact_duplicates_flagged_after_first
  (fieldnames : list string) (body : list record) (out : output) :
  analyze (Some (fieldnames :: body)) = Ok out →
  let rows := reader_rows fieldnames body in
  let ids := row_identity <$> rows in
  let flag (i : nat) := tr_LINHA_DUPLICADA_EXATA <$> (dados_tratados out !! i) in
  (∀ (i : nat) t, ids !! i = Some t →
     ∃ b, flag i = Some b ∧ (b = true ↔ ∃ j : nat, j < i ∧ ids !! j = Some t))
  ∧ (∀ (i : nat) row, rows !! i = Some row →
       (duplicate_record (2 + i) row ∈ linhas_duplicadas_exatas out
        ↔ flag i = Some true))
  ∧ length (linhas_duplicadas_exatas out) = duplicate_exact_rows (summary out)
  ∧ duplicate_exact_rows (summary out)
    = sum_list ((λ t, occurrences t ids - 1) <$> remove_dups ids).
Proof.
  intros Hout rows ids flag. apply analyze_accumulate in Hout. subst out.
  fold rows.
  assert (∀ i : nat, flag i = seen_flags ∅ ids !! i) as Hflag.
  { intros i. unfold flag. simpl. rewrite <- list_lookup_fmap.
    by rewrite accumulate_flags. }
  split_and!.
  - intros i t Hi. rewrite Hflag.
    destruct (seen_flags_lookup ∅ ids i t Hi) as (b & Hb & Hiff).
    exists b. split; [done|]. rewrite Hiff. split; [|auto].
    intros [?%not_elem_of_empty|?]; done.
  - intros i row Hi. rewrite Hflag. simpl.
    rewrite accumulate_duplicate_rows. simpl. split.
    + intros [?%elem_of_nil|(i' & row' & Hi' & Hf & Heq)]; [done|].
      assert (i' = i) as -> by (injection Heq; lia). done.
    + intros Hf. right. by exists i, row.
  - simpl. by rewrite accumulate_duplicate_rows_length, accumulate_duplicate_total.
  - simpl. rewrite accumulate_duplicate_total. simpl.
    apply duplicate_total_by_tuple.
Qed.

(** On the sample file two rows repeat the first row: the total is 2. *)
Lemma exact_duplicates_flagged_after_first_witness :
  ∃ out, analyze (Some sample_file) = Ok out
         ∧ duplicate_exact_rows (summary out) = 2
         ∧ duplicate_exact_rows (summary out)
           = sum_list ((λ t, occurrences t
                               (row_identity <$> reader_rows (hd [] sample_file) (tl sample_file)) - 1)
                       <$> remove_dups
                             (row_identity <$> reader_rows (hd [] sample_file) (tl sample_file))).
Proof.
  eexists. split; [vm_compute; reflexivity|]. split; [reflexivity|].
  apply (exact_duplicates_flagged_after_first (hd [] sample_file) (tl sample_file) _ eq_refl).
Defined.

End BatchFacts.

(** ** Valid emails have a domain *)

Module EmailFacts.
Import Text Regex Email RegexFacts.

Lemma contains_chr_app_cons c a b : contains_chr c (a +:+ String c b) = true.
Proof.
  induction a as [|x a IH]; rewrite ?sapp_cons; simpl.
  - by rewrite Ascii.eqb_refl.
  - rewrite IH. apply orb_true_r.
Qed.

Lemma split_once_app_cons c a b :
  contains_chr c a = false → split_once c (a +:+ String c b) = Some (a, b).
Proof.
  induction a as [|x a IH]; rewrite ?sapp_cons; simpl.
  - by rewrite Ascii.eqb_refl.
  - intros [Hx Ha]%orb_false_iff. by rewrite Hx, IH.
Qed.

Lemma local_chr_not_at loc : sall local_chr loc = true → contains_chr "@" loc = false.
Proof.
  induction loc as [|x loc IH]; [done|]. cbn [contains_chr sall].
  intros [Hx Hl]%andb_true_iff. rewrite IH by done.
  destruct (Ascii.eqb_spec "@" x) as [<-|]; [|done].
  vm_compute in Hx. discriminate.
Qed.

(** The first at sign of a valid email is the one of the pattern, and what
    follows it is not empty. *)
Lemma regex_valid_domain e :
  regex_valid e = true →
  contains_chr "@" e = true ∧ ∃ loc d, split_once "@" e = Some (loc, d) ∧ d ≠ "".
Proof.
  intros (loc & dom & tld & tail & -> & _ & Hl & Hdom & _)%regex_valid_iff.
  change ("@" +:+ ?r) with (String "@" r).
  split; [apply contains_chr_app_cons|].
  eexists _, _. split; [by apply split_once_app_cons, local_chr_not_at|].
  by destruct dom.
Qed.

End EmailFacts.

(** ** Counters of the two programs *)

Module CounterFacts.
Import Text Regex Ranking RankingFacts Batch Spec.

Lemma List_filter_stdpp {A : Type} (f : A → bool) (l : list A) :
  List.filter f l = filter (λ x, f x = true) l.
Proof.
  induction l as [|x l IH]; [done|]. simpl. rewrite filter_cons, IH.
  destruct (f x); by rewrite ?decide_True, ?decide_False by done.
Qed.

Lemma total_counter_incr k c : total (counter_incr k c) = S (total c).
Proof.
  unfold total, counter_incr in *.
  induction c as [|[k' n] c IH]; simpl; [done|].
  destruct (decide (k = k')); simpl; [done|]. rewrite IH. lia.
Qed.

Lemma total_fill c keys :
  total (fill id (λ _ : string, S) 0 c keys) = total c + length keys.
Proof.
  revert c. induction keys as [|k keys IH]; intros c; simpl; [lia|].
  rewrite IH. change (dict_update k S 0 c) with (counter_incr k c).
  rewrite total_counter_incr. lia.
Qed.

Lemma total_counter_of keys : total (counter_of keys) = length keys.
Proof. apply (total_fill [] keys). Qed.

Lemma total_perm (c c' : list (string * nat)) : c ≡ₚ c' → total c = total c'.
Proof. induction 1; simpl; lia. Qed.

Lemma counter_of_snoc keys k : counter_of (keys ++ [k]) = counter_incr k (counter_of keys).
Proof. unfold counter_of. by rewrite foldl_app. Qed.

Lemma occurrences_snoc `{EqDecision A} (x a : A) (l : list A) :
  occurrences x (l ++ [a]) = occurrences x l + (if decide (a = x) then 1 else 0).
Proof.
  unfold occurrences. rewrite filter_app, length_app, filter_cons, filter_nil.
  by destruct (decide (a = x)).
Qed.

(** A counter holds, for every key, the number of its occurrences. *)
Lemma counter_of_count keys k :
  default 0 (dict_lookup k (counter_of keys)) = occurrences k keys.
Proof.
  induction keys as [|x keys IH] using rev_ind; [done|].
  rewrite counter_of_snoc, occurrences_snoc. unfold counter_incr.
  rewrite dict_lookup_update. destruct (decide (k = x)) as [->|Hne].
  - rewrite decide_True by done. simpl. rewrite IH. lia.
  - rewrite decide_False by done. rewrite IH. lia.
Qed.

Lemma counter_of_NoDup keys : NoDup (counter_of keys).*1.
Proof.
  induction keys as [|x keys IH] using rev_ind; [constructor|].
  rewrite counter_of_snoc. unfold counter_incr. rewrite dict_update_keys.
  case_decide as Hin; [done|].
  apply NoDup_app. split_and!; [done| |apply NoDup_singleton].
  intros y Hy ->%list_elem_of_singleton. done.
Qed.

Lemma dict_lookup_Some {V : Type} (d : list (string * V)) k v :
  NoDup d.*1 → dict_lookup k d = Some v ↔ (k, v) ∈ d.
Proof.
  induction d as [|[k' v'] d IH]; csimpl.
  - intros _. split; [done|]. by intros ?%elem_of_nil.
  - intros [Hk Hd]%NoDup_cons. rewrite elem_of_cons.
    destruct (decide (k = k')) as [->|Hne].
    + split; [intros [= ->]; by left|].
      intros [[= ->]|Hin]; [done|]. destruct Hk.
      apply list_elem_of_fmap. by exists (k', v).
    + rewrite IH by done. split; [auto|]. intros [[= -> ->]|?]; done.
Qed.

Lemma dict_lookup_perm {V : Type} (d d' : list (string * V)) k :
  NoDup d.*1 → d ≡ₚ d' → dict_lookup k d = dict_lookup k d'.
Proof.
  intros Hd Hp.
  assert (NoDup d'.*1) as Hd' by by rewrite <- Hp.
  destruct (dict_lookup k d) as [v|] eqn:Hl.
  - apply dict_lookup_Some in Hl; [|done]. symmetry.
    apply dict_lookup_Some; [done|]. by rewrite <- Hp.
  - apply dict_lookup_None in Hl. symmetry. apply dict_lookup_None.
    by rewrite <- Hp.
Qed.

(** [value_counts] holds the number of occurrences of every value. *)
Lemma value_counts_count series k :
  default 0 (dict_lookup k (App.value_counts series)) = occurrences k series.
Proof.
  unfold App.value_counts, sorted_desc.
  rewrite <- (dict_lookup_perm (counter_of series)); [apply counter_of_count| |].
  - apply counter_of_NoDup.
  - symmetry. apply sort_by_perm.
Qed.

Lemma value_counts_total series : total (App.value_counts series) = length series.
Proof.
  unfold App.value_counts, sorted_desc.
  rewrite (total_perm _ (counter_of series)) by apply sort_by_perm.
  apply total_counter_of.
Qed.

(** *** The accumulators of the batch loop *)

Lemma valid_row_contains_at r :
  valid_row r = true → contains_chr "@" (clean_email_of r) = true.
Proof.
  unfold valid_row, is_valid_email. intros [_ H]%andb_true_iff.
  by apply EmailFacts.regex_valid_domain in H as [? _].
Qed.

Lemma accumulate_domain_counter st n rows :
  st_domain_counter (accumulate st n rows) =
  fill id (λ _, S) 0 (st_domain_counter st)
    ((λ r, domain_of (clean_email_of r)) <$> List.filter valid_row rows).
Proof.
  revert st n. induction rows as [|r rows IH]; intros st n; simpl; [done|].
  rewrite IH. simpl. destruct (valid_row r) eqn:Hr; simpl; [|done].
  by rewrite valid_row_contains_at.
Qed.

Lemma accumulate_repeated_email_counter st n rows :
  st_repeated_email_counter (accumulate st n rows) =
  fill id (λ _, S) 0 (st_repeated_email_counter st) (clean_email_of <$> rows).
Proof.
  revert st n. induction rows as [|r rows IH]; intros st n; simpl; [done|].
  by rewrite IH.
Qed.

Lemma accumulate_row_count_by_document st n rows :
  st_row_count_by_document (accumulate st n rows) =
  fill id (λ _, S) 0 (st_row_count_by_document st) (document_of <$> rows).
Proof.
  revert st n. induction rows as [|r rows IH]; intros st n; simpl; [done|].
  by rewrite IH.
Qed.

Lemma accumulate_emails_by_document st n rows :
  st_unique_email_count_by_document (accumulate st n rows) =
  fill document_of (λ r s, s ∪ {[clean_email_of r]}) ∅
    (st_unique_email_count_by_document st) (List.filter valid_row rows).
Proof.
  revert st n. induction rows as [|r rows IH]; intros st n; simpl; [done|].
  rewrite IH. simpl. by destruct (valid_row r).
Qed.

Lemma accumulate_emails_by_taxpayer st n rows :
  st_unique_email_count_by_taxpayer (accumulate st n rows) =
  fill taxpayer_of (λ r s, s ∪ {[clean_email_of r]}) ∅
    (st_unique_email_count_by_taxpayer st) (List.filter valid_row rows).
Proof.
  revert st n. induction rows as [|r rows IH]; intros st n; simpl; [done|].
  rewrite IH. simpl. by destruct (valid_row r).
Qed.

End CounterFacts.

(** ** Domain frequencies *)

Module DomainFacts.
Import Text Regex Ranking RankingFacts Batch Spec CounterFacts.

Lemma List_filter_filter {A : Type} (f g : A → bool) (l : list A) :
  List.filter f (List.filter g l) = List.filter (λ x, g x && f x) l.
Proof.
  induction l as [|x l IH]; [done|]. simpl.
  destruct (g x); simpl; [|done]. destruct (f x); by rewrite IH.
Qed.

Lemma List_filter_ext_in {A : Type} (f g : A → bool) (l : list A) :
  (∀ x, x ∈ l → f x = g x) → List.filter f l = List.filter g l.
Proof.
  intros H. apply List.filter_ext_in. intros x Hx. by apply H, list_elem_of_In.
Qed.

(** C8, counterexample.  The table with the single email "a@b": the
    email has no valid format, yet [top_domains] counts it under "b". *)
Lemma top_domains_counts_invalid_email :
  ¬ top_domains_sum_claim
      (App.analyse {| App.ORIGEM := []; App.CPF_CNPJ := []; App.NOME := [];
                      App.E_MAIL := ["a@b"]; App.REGIAO := [] |}).
Proof. unfold top_domains_sum_claim. vm_compute. discriminate. Qed.

(** C8, as amended.  In the batch script the domain counter holds, for
    every domain, the number of rows with a valid email of that domain, its
    counts add up to the number of rows with a valid email, and each of these
    rows has a non-empty domain.  In the interactive application
    [top_domains] holds, for every domain, the number of rows whose
    normalised email contains an at sign and has that text after the first
    one, whatever the format, and its counts add up to the number of rows
    whose normalised email contains an at sign. *)
Theorem domain_counts_add_up
  (fieldnames : list string) (body : list record) (st : state) (b : App.base) :
  run init 2 (reader_rows fieldnames body) = Ok st →
  let rows := reader_rows fieldnames body in
  let valid := List.filter valid_row rows in
  let with_at := List.filter (contains_chr "@") (App.E_MAIL_NORM (App.analyse b)) in
  (∀ k, default 0 (dict_lookup k (st_domain_counter st))
        = occurrences k ((λ r, domain_of (clean_email_of r)) <$> valid))
  ∧ total (st_domain_counter st) = length valid
  ∧ length valid
    = length (List.filter
                (λ r, valid_row r && negb (is_empty (domain_of (clean_email_of r)))) rows)
  ∧ (∀ k, default 0 (dict_lookup k (App.top_domains (App.analyse b)))
          = occurrences k (App.after_at <$> with_at))
  ∧ total (App.top_domains (App.analyse b)) = length with_at.
Proof.
  intros Hrun rows valid with_at.
  apply BatchFacts.run_accumulate in Hrun as [-> _]. fold rows.
  assert (App.top_domains (App.analyse b)
          = App.value_counts (App.after_at <$> with_at)) as Htop.
  { unfold with_at. simpl. unfold App.value_counts. do 2 f_equal.
    change (map App.after_at ?l) with (App.after_at <$> l). f_equal.
    rewrite List_filter_filter. apply List_filter_ext_in. intros e _.
    destruct e; done. }
  split_and!.
  - intros k. rewrite accumulate_domain_counter. apply counter_of_count.
  - rewrite accumulate_domain_counter.
    rewrite (total_fill [] _). simpl. by rewrite length_fmap.
  - unfold valid. f_equal. apply List_filter_ext_in. intros r _.
    destruct (valid_row r) eqn:Hr; [|done]. simpl.
    unfold valid_row, is_valid_email in Hr. apply andb_true_iff in Hr as [_ Hr].
    apply EmailFacts.regex_valid_domain in Hr as (_ & loc & d & Hs & Hd).
    unfold domain_of. rewrite Hs. by destruct d.
  - intros k. rewrite Htop. apply value_counts_count.
  - rewrite Htop, value_counts_total. by rewrite length_fmap.
Qed.

(** The sample file: four rows have a valid email, in two domains. *)
Lemma domain_counts_add_up_witness :
  ∃ st, run init 2 (reader_rows (hd [] sample_file) (tl sample_file)) = Ok st
        ∧ st_domain_counter st = [("gmail.com", 3); ("uol.com.br", 1)]
        ∧ total (st_domain_counter st)
          = length (List.filter valid_row
                      (reader_rows (hd [] sample_file) (tl sample_file))).
Proof.
  eexists. split; [vm_compute; reflexivity|]. split; [reflexivity|].
  apply (domain_counts_add_up (hd [] sample_file) (tl sample_file) _
           {| App.ORIGEM := []; App.CPF_CNPJ := []; App.NOME := [];
              App.E_MAIL := []; App.REGIAO := [] |} eq_refl).
Defined.

End DomainFacts.

(** ** Rankings *)

Module RankingOrder.
Import Text Regex Ranking RankingFacts Batch Spec CounterFacts.



Lemma List_filter_true {A : Type} (l : list A) : List.filter (λ _, true) l = l.
Proof. induction l as [|x l IH]; simpl; by rewrite ?IH. Qed.


(** *** The two-key order of the interactive summary *)

Lemma str_leb_trans a b c :
  str_leb a b = true → str_leb b c = true → str_leb a c = true.
Proof.
  unfold str_leb. intros H1%Is_true_true H2%Is_true_true. apply Is_true_true.
  change (String.le a c). by etrans.
Qed.







End RankingOrder.

(** ** Column scores *)

Module ScoreFacts.
Import Text Regex RegexFacts TextFacts App.

Lemma sub_from_skip r repl k prev a s :
  String.length a = k →
  sub_from r repl k prev (a +:+ s) = sub_from r repl 0 (last_chr prev a) s.
Proof.
  revert k prev. induction a as [|c a IH]; intros k prev <-.
  - rewrite sapp_nil_l. by destruct s.
  - rewrite sapp_cons. simpl. by apply IH.
Qed.

Lemma sfilter_app q a b : sfilter q (a +:+ b) = sfilter q a +:+ sfilter q b.
Proof.
  induction a as [|c a IH]; [done|]. rewrite sapp_cons. simpl.
  destruct (q c); by rewrite ?sapp_cons, IH.
Qed.

Lemma sfilter_none q a : sall (λ c, negb (q c)) a = true → sfilter q a = "".
Proof.
  induction a as [|c a IH]; [done|]. simpl.
  intros [Hc Ha]%andb_true_iff. apply negb_true_iff in Hc. rewrite Hc. auto.
Qed.

Lemma sall_impl (p q : ascii → bool) s :
  (∀ c, p c = true → q c = true) → sall p s = true → sall q s = true.
Proof.
  intros Hpq. induction s as [|c s IH]; [done|]. simpl.
  intros [Hc Hs]%andb_true_iff. by rewrite (Hpq _ Hc), IH.
Qed.

(** The longest run of a class that starts with a character of the
    class. *)
Lemma rep_plus_head p c s :
  p c = true →
  ∃ t r L, rep_greedy p 1 None (String c s) = (String c t, r) :: L
           ∧ s = t +:+ r ∧ sall p t = true.
Proof.
  intros Hc.
  assert ((String c "", s) ∈ rep_greedy p 1 None (String c s)) as Hin.
  { apply elem_of_rep_greedy. simpl. rewrite Hc. split_and!; [done..|lia|done]. }
  destruct (rep_greedy p 1 None (String c s)) as [|[t0 r] L] eqn:Hrep.
  { by apply elem_of_nil in Hin. }
  assert ((t0, r) ∈ rep_greedy p 1 None (String c s)) as Hhead
    by (rewrite Hrep; apply elem_of_cons; auto).
  apply elem_of_rep_greedy in Hhead as (Hs & Ht & Hlen & _).
  destruct t0 as [|c' t]; [simpl in Hlen; lia|].
  rewrite sapp_cons in Hs. injection Hs as <- ->.
  simpl in Ht. apply andb_true_iff in Ht as [_ Ht]. by exists t, r, L.
Qed.

(** [re.sub] of the runs of a class by the empty text leaves the
    characters outside the class. *)
Lemma sub_class_runs_from p (n : nat) prev s :
  String.length s ≤ n →
  sub_from (Rep p 1 None) "" 0 prev s = sfilter (λ c, negb (p c)) s.
Proof.
  revert prev s. induction n as [|n IH]; intros prev s Hn.
  { destruct s; [done|simpl in Hn; lia]. }
  destruct s as [|c s]; [done|].
  cbn [sub_from sfilter]. change (rmatch (Rep p 1 None) prev (String c s))
    with (map (λ tr : string * string, MRes tr.1 None tr.2)
            (rep_greedy p 1 None (String c s))).
  destruct (p c) eqn:Hc; cbn [negb].
  - destruct (rep_plus_head p c s Hc) as (t & r & L & -> & -> & Ht).
    cbn [map fst snd taken String.length pred]. rewrite sapp_nil_l.
    rewrite (sub_from_skip _ _ (String.length t)) by done.
    rewrite IH by (simpl in Hn; rewrite sapp_length in Hn; lia).
    rewrite sfilter_app, (sfilter_none _ t); [done|].
    eapply sall_impl; [|exact Ht]. intros d Hd. by rewrite Hd.
  - assert (rep_greedy p 1 None (String c s) = []) as ->
      by (cbn [rep_greedy]; by rewrite Hc).
    cbn [map]. f_equal. apply IH. simpl in Hn. lia.
Qed.

Lemma sfilter_ext q q' s : (∀ c, q c = q' c) → sfilter q s = sfilter q' s.
Proof. intros H. induction s as [|c s IH]; [done|]. simpl. by rewrite H, IH. Qed.

Lemma sall_ext q q' s : (∀ c, q c = q' c) → sall q s = sall q' s.
Proof. intros H. induction s as [|c s IH]; [done|]. simpl. by rewrite H, IH. Qed.

Lemma sall_smap q f s : sall q (smap f s) = sall (λ c, q (f c)) s.
Proof. induction s as [|c s IH]; [done|]. simpl. by rewrite IH. Qed.

Lemma contains_chr_sall c s :
  contains_chr c s = negb (sall (λ d, negb (Ascii.eqb c d)) s).
Proof.
  induction s as [|d s IH]; [done|]. cbn [contains_chr sall]. rewrite IH.
  by destruct (Ascii.eqb c d).
Qed.

(** [re.sub(r"\D+", "", x)] keeps the digits. *)
Lemma digits_of_filter x : digits_of x = sfilter is_digit x.
Proof.
  unfold digits_of, re_sub.
  rewrite (sub_class_runs_from _ (String.length x)) by done.
  apply sfilter_ext. intros c. apply negb_involutive.
Qed.

Section strip.
Context (p q : ascii → bool).

Lemma sall_strip_by s :
  (∀ c, p c = true → q c = true) → sall q (strip_by p s) = sall q s.
Proof.
  intros Hpq. unfold strip_by.
  transitivity (sall q (lstrip_by p s)).
  - generalize (lstrip_by p s). intros t. induction t as [|c t IH]; [done|].
    cbn [rstrip_by sall]. rewrite <- IH.
    destruct (rstrip_by p t); [|done]. destruct (p c) eqn:Hc; simpl.
    + by rewrite (Hpq _ Hc).
    + by rewrite andb_true_r.
  - induction s as [|c s IH]; [done|]. cbn [lstrip_by sall].
    destruct (p c) eqn:Hc; [|done]. by rewrite (Hpq _ Hc), IH.
Qed.

Lemma sfilter_strip_by s :
  (∀ c, p c = true → q c = false) → sfilter q (strip_by p s) = sfilter q s.
Proof.
  intros Hpq. unfold strip_by.
  transitivity (sfilter q (lstrip_by p s)).
  - generalize (lstrip_by p s). intros t. induction t as [|c t IH]; [done|].
    cbn [rstrip_by sfilter]. rewrite <- IH.
    destruct (rstrip_by p t); [|done]. destruct (p c) eqn:Hc; simpl.
    + by rewrite (Hpq _ Hc).
    + done.
  - induction s as [|c s IH]; [done|]. cbn [lstrip_by sfilter].
    destruct (p c) eqn:Hc; [|done]. by rewrite (Hpq _ Hc), IH.
Qed.
End strip.

Lemma at_lower_chr : ∀ c, Ascii.eqb "@" (lower_chr c) = Ascii.eqb "@" c.
Proof. intros [[] [] [] [] [] [] [] []]; reflexivity. Qed.

Lemma space_not_at : ∀ c, isspace c = true → negb (Ascii.eqb "@" c) = true.
Proof. intros [[] [] [] [] [] [] [] []]; vm_compute; intros; (reflexivity || discriminate). Qed.

Lemma space_not_digit : ∀ c, isspace c = true → is_digit c = false.
Proof. intros [[] [] [] [] [] [] [] []]; vm_compute; intros; (reflexivity || discriminate). Qed.

Lemma space_not_alpha : ∀ c, isspace c = true → negb (is_alpha_az c) = true.
Proof. intros [[] [] [] [] [] [] [] []]; vm_compute; intros; (reflexivity || discriminate). Qed.

Lemma contains_at_normalized x :
  contains_chr "@" (lower (strip x)) = contains_chr "@" x.
Proof.
  rewrite !contains_chr_sall. f_equal. unfold lower. rewrite sall_smap.
  rewrite (sall_ext _ (λ d, negb (Ascii.eqb "@" d)))
    by (intros c; by rewrite at_lower_chr).
  unfold strip. apply sall_strip_by, space_not_at.
Qed.

Lemma score_map test (f : string → string) l :
  score test (map f l) = score (λ x, test (f x)) l.
Proof. destruct l as [|x l]; [done|]. unfold score. simpl. by rewrite map_map. Qed.

Lemma score_ext test test' l : (∀ x, test x = test' x) → score test l = score test' l.
Proof.
  intros H. destruct l as [|x l]; [done|]. unfold score.
  by rewrite (map_ext _ _ H).
Qed.

Lemma take_map {A B : Type} (f : A → B) n l : take n (map f l) = map f (take n l).
Proof. symmetry. apply (fmap_take f n l). Qed.

(** The three scores are fractions of the first 1000 cells: those that
    hold an at sign; those with eleven or fourteen digits; those with a space
    inside and a letter. *)
Lemma scores_are_fractions series :
  score_email_column series = score Spec.has_at (take 1000 series)
  ∧ score_document_column series = score Spec.has_id_digits (take 1000 series)
  ∧ score_name_column series = score Spec.has_space_and_letter (take 1000 series).
Proof.
  unfold score_email_column, score_document_column, score_name_column.
  rewrite !take_map, !score_map. split_and!; apply score_ext; intros x.
  - apply contains_at_normalized.
  - unfold Spec.has_id_digits. rewrite !digits_of_filter.
    unfold strip. by rewrite sfilter_strip_by by apply space_not_digit.
  - unfold Spec.has_space_and_letter, has_letter. f_equal. f_equal.
    unfold strip. apply sall_strip_by, space_not_alpha.
Qed.

End ScoreFacts.

(** ** The column resolver *)

Module ResolverFacts.
Import Text Regex Ranking RankingFacts App Spec.

Lemma by_score_total x y : by_score x y = false → by_score y x = true.
Proof.
  unfold by_score. intros H. apply Qle_bool_iff.
  destruct (Qlt_le_dec x.2 y.2) as [Hlt|Hle]; [by apply Qlt_le_weak|].
  apply Qle_bool_iff in Hle. congruence.
Qed.

Lemma by_score_trans x y z :
  by_score x y = true → by_score y z = true → by_score x z = true.
Proof.
  unfold by_score. rewrite !Qle_bool_iff. intros ? ?. by eapply Qle_trans.
Qed.

Lemma before_NoDup_asym {A : Type} (x y : A) (l : list A) :
  NoDup l → before x y l → before y x l → False.
Proof.
  intros Hl (i & j & Hij & Hi & Hj) (j' & i' & Hji & Hj' & Hi').
  pose proof (NoDup_lookup _ _ _ _ Hl Hi Hi').
  pose proof (NoDup_lookup _ _ _ _ Hl Hj Hj'). lia.
Qed.

(** The head of a stable sort: no element may not stay behind it, and the
    elements that stood before it may not stay before it. *)
Lemma head_sort_by {A : Type} (f : A → A → bool) (l : list A) (x : A) :
  (∀ x y, f x y = false → f y x = true) →
  (∀ x y z, f x y = true → f y z = true → f x z = true) →
  NoDup l →
  head (sort_by f l) = Some x →
  x ∈ l ∧ (∀ y, y ∈ l → f x y = true) ∧ (∀ y, before y x l → f y x = false).
Proof.
  intros Htot Htrans Hl Hhead.
  destruct (sort_by f l) as [|x' rest] eqn:Hs; [done|]. injection Hhead as ->.
  assert (x ∈ l) as Hx.
  { apply (elem_of_sort_by f). rewrite Hs. apply elem_of_cons; auto. }
  assert (∀ y, y ∈ l → y ≠ x → before x y (sort_by f l)) as Hbefore.
  { intros y Hy Hne. rewrite Hs. apply before_cons. left. split; [done|].
    apply (elem_of_sort_by f) in Hy. rewrite Hs in Hy.
    apply elem_of_cons in Hy as [?|?]; done. }
  split_and!; [done| |].
  - intros y Hy. destruct (f x y) eqn:Hf; [done|].
    assert (y ≠ x) as Hne.
    { intros ->. pose proof (Htot _ _ Hf). congruence. }
    apply Hbefore in Hy; [|done]. apply sort_by_before in Hy; [congruence|done..].
  - intros y Hy.
    assert (y ≠ x) as Hne.
    { intros ->. by eapply before_NoDup_asym. }
    pose proof (Hbefore y (before_elem_l _ _ _ Hy) Hne) as Hb.
    apply sort_by_stable in Hb as [Hb|[_ Hb]]; [|done].
    destruct (before_NoDup_asym _ _ _ Hl Hb Hy).
Qed.

Lemma best_column_first_best (f : list string → Q) (df : DataFrame) :
  NoDup (df_columns df) → first_best f df (best_column f df).
Proof.
  intros Hcols. unfold best_column, scored.
  set (pair_of := λ col : string, (col, f (df_col df col))).
  set (l := map pair_of (df_columns df)).
  assert (NoDup l) as Hl.
  { unfold l. change (map ?g ?k) with (g <$> k). apply NoDup_fmap; [|done].
    by intros c c' [= ->]. }
  assert (∀ x, x ∈ l ↔ ∃ c, c ∈ df_columns df ∧ x = pair_of c) as Hin.
  { intros x. unfold l. change (map ?g ?k) with (g <$> k).
    rewrite list_elem_of_fmap. naive_solver. }
  destruct (sort_by by_score l) as [|[col sc] rest] eqn:Hs.
  - simpl. intros c Hc.
    assert (pair_of c ∈ sort_by by_score l) as H by (apply elem_of_sort_by, Hin; eauto).
    rewrite Hs in H. by apply elem_of_nil in H.
  - destruct (head_sort_by by_score l (col, sc)) as (Hx & Hmax & Hfirst);
      [apply by_score_total|apply by_score_trans|done|by rewrite Hs|].
    apply Hin in Hx as (c0 & Hc0 & [= -> ->]).
    assert (∀ c, c ∈ df_columns df → (f (df_col df c) <= f (df_col df c0))%Q) as Hle.
    { intros c Hc. specialize (Hmax (pair_of c)). apply Qle_bool_iff, Hmax, Hin. eauto. }
    destruct (Qle_bool (f (df_col df c0)) 0) eqn:Hpos; simpl.
    + intros c Hc. apply Qle_bool_iff in Hpos. eapply Qle_trans; [by apply Hle|done].
    + apply list_elem_of_lookup in Hc0 as [i Hi]. exists i. split_and!; [done| |done|].
      * apply Qnot_le_lt. intros H%Qle_bool_iff. congruence.
      * intros j c Hj Hc. apply Qnot_le_lt. intros H%Qle_bool_iff.
        assert (by_score (pair_of c) (pair_of c0) = false) as Hf; [|unfold by_score in Hf; simpl in Hf; congruence].
        apply Hfirst. exists j, i. unfold l. rewrite !AppFacts.lookup_map, Hi, Hc. done.
Qed.

(** C5, counterexample.  In [contacts_table] the column "origem" is
    the source by its name, no header is an email alias, and the scoring step
    gives the same column to the email role: it scores the columns that alias
    matching already gave away. *)
Lemma scoring_selects_matched_column :
  g_source (guess_columns contacts_table) = Some "origem"
  ∧ g_email (guess_columns contacts_table) = Some "origem"
  ∧ ¬ scoring_skips_matched contacts_table.
Proof.
  split; [reflexivity|]. split; [reflexivity|].
  intros H. apply (H "origem").
  - left. split; reflexivity.
  - exists source. reflexivity.
Qed.

(** C5, as amended.  When the positional fallback does not apply, a
    role among email, document and name that alias matching resolved keeps
    its column, and one it left open gets the first column, in the order of
    the table, whose score is the greatest of all columns of the table,
    matched to a role or not, when that score is positive, and no column
    otherwise.  The scores are fractions of the first 1000 cells: the cells
    that hold an at sign, the cells with eleven or fourteen digits, the cells
    that hold a letter and, once trimmed, a space.  The column names of the
    table are distinct. *)
Theorem scoring_ranks_every_column (df : DataFrame) :
  NoDup (df_columns df) →
  (5 <=? length (df_columns df)) && all_none (guess_by_alias (df_columns df)) = false →
  (match alias_of email (df_columns df) with
   | Some c => g_email (guess_columns df) = Some c
   | None => first_best score_email_column df (g_email (guess_columns df))
   end)
  ∧ (match alias_of document (df_columns df) with
     | Some c => g_document (guess_columns df) = Some c
     | None => first_best score_document_column df (g_document (guess_columns df))
     end)
  ∧ (match alias_of name (df_columns df) with
     | Some c => g_name (guess_columns df) = Some c
     | None => first_best score_name_column df (g_name (guess_columns df))
     end)
  ∧ (∀ series,
       score_email_column series = score has_at (take 1000 series)
       ∧ score_document_column series = score has_id_digits (take 1000 series)
       ∧ score_name_column series = score has_space_and_letter (take 1000 series)).
Proof.
  intros Hcols Hfallback. unfold guess_columns. rewrite Hfallback.
  cbn [g_email g_document g_name guess_by_alias].
  split_and!; [| | |apply ScoreFacts.scores_are_fractions].
  - destruct (alias_of email (df_columns df)); [done|].
    by apply best_column_first_best.
  - destruct (alias_of document (df_columns df)); [done|].
    by apply best_column_first_best.
  - destruct (alias_of name (df_columns df)); [done|].
    by apply best_column_first_best.
Qed.

(** On [contacts_table] the email role gets "origem", the first column of
    greatest email score. *)
Lemma scoring_ranks_every_column_witness :
  NoDup (df_columns contacts_table)
  ∧ (5 <=? length (df_columns contacts_table))
    && all_none (guess_by_alias (df_columns contacts_table)) = false
  ∧ first_best score_email_column contacts_table (Some "origem").
Proof.
  assert (NoDup (df_columns contacts_table)) as Hcols by (vm_compute; by compute_done).
  split; [done|]. split; [reflexivity|].
  exact (proj1 (scoring_ranks_every_column contacts_table Hcols eq_refl)).
Defined.

End ResolverFacts.

(** ** Format validity *)

Module ValidityFacts.
Import Text Regex Email RegexFacts.

Lemma last_chr_app prev a b : last_chr prev (a +:+ b) = last_chr (last_chr prev a) b.
Proof.
  revert prev. induction a as [|x a IH]; intros prev; [done|].
  rewrite sapp_cons. simpl. apply IH.
Qed.

Lemma last_chr_sall p prev t :
  t ≠ "" → sall p t = true → ∃ c, last_chr prev t = Some c ∧ p c = true.
Proof.
  revert prev. induction t as [|x t IH]; intros prev; [done|].
  intros _ [Hx Ht]%andb_true_iff. simpl. destruct t as [|y t].
  - simpl. eauto.
  - by apply IH.
Qed.






End ValidityFacts.

(** ** State codes *)

Module UfFacts.
Import Text Regex RegexFacts TextFacts ScoreFacts App Spec.

Ltac by_ascii_cases :=
  intros [[] [] [] [] [] [] [] []]; vm_compute; intros; (reflexivity || discriminate).

Lemma upper_is_word : ∀ c, is_upper_az c = true → is_word c = true.
Proof. by_ascii_cases. Qed.

Lemma upper_not_slash : ∀ c, is_upper_az c = true → Ascii.eqb "/" c = false.
Proof. by_ascii_cases. Qed.

Lemma space_not_slash : ∀ c, isspace c = true → Ascii.eqb "/" c = false.
Proof. by_ascii_cases. Qed.

Lemma space_not_upper : ∀ c, isspace c = true → is_upper_az c = false.
Proof. by_ascii_cases. Qed.

Lemma space_not_word : ∀ c, isspace c = true → is_word c = false.
Proof. by_ascii_cases. Qed.

Lemma rep_greedy_zero p r : rep_greedy p 0 (Some 0) r = [("", r)].
Proof. destruct r; simpl; [done|]. by rewrite andb_false_r. Qed.

Lemma rep_greedy_two p s :
  rep_greedy p 2 (Some 2) s =
  match s with
  | String c1 (String c2 r) =>
      if p c1 && p c2 then [(String c1 (String c2 ""), r)] else []
  | _ => []
  end.
Proof.
  destruct s as [|c1 [|c2 r]]; [done| |].
  - simpl. by destruct (p c1).
  - cbn [rep_greedy hi_allows hi_pred pred]. rewrite rep_greedy_zero.
    by destruct (p c1), (p c2).
Qed.

Lemma rmatch_two_capitals prev s :
  rmatch two_capitals prev s =
  match s with
  | String c1 (String c2 r) =>
      if is_upper_az c1 && is_upper_az c2
      then [MRes (String c1 (String c2 "")) (Some (String c1 (String c2 ""))) r]
      else []
  | _ => []
  end.
Proof.
  unfold two_capitals. cbn [rmatch]. rewrite rep_greedy_two.
  destruct s as [|c1 [|c2 r]]; [done..|].
  by destruct (is_upper_az c1 && is_upper_az c2).
Qed.

(** A code followed by a boundary. *)
Lemma rmatch_code prev s :
  rmatch (Cat two_capitals Wordb) prev s =
  match code_here s with
  | Some code => [MRes code (Some code) (sdrop 2 s)]
  | None => []
  end.
Proof.
  cbn [rmatch]. rewrite rmatch_two_capitals. unfold code_here.
  destruct s as [|c1 [|c2 r]]; [done..|].
  destruct (is_upper_az c1) eqn:H1; [|done].
  destruct (is_upper_az c2) eqn:H2; [|done].
  cbn -[is_word]. rewrite (upper_is_word _ H2).
  by destruct (word_opt (shead r)).
Qed.

Lemma rmatch_cat_eq r1 r2 prev s :
  rmatch (Cat r1 r2) prev s =
  flat_map
    (λ m1, map (λ m2, MRes (taken m1 +:+ taken m2)
                        (or_group (group m2) (group m1)) (rest m2))
             (rmatch r2 (last_chr prev (taken m1)) (rest m1)))
    (rmatch r1 prev s).
Proof. done. Qed.

Lemma rmatch_wordb_eq prev s :
  rmatch Wordb prev s =
  if xorb (word_opt prev) (word_opt (shead s)) then [MRes "" None s] else [].
Proof. done. Qed.

Lemma code_here_word s code : code_here s = Some code → word_opt (shead s) = true.
Proof.
  unfold code_here. destruct s as [|c1 [|c2 r]]; [done..|].
  destruct (is_upper_az c1) eqn:H1; [|done]. intros _. simpl. by apply upper_is_word.
Qed.

(** [TOKEN_UF] matches at most once at a position, and there it matches
    the token. *)
Lemma rmatch_token prev s :
  rmatch TOKEN_UF prev s =
  match token_here prev s with
  | Some code => [MRes code (Some code) (sdrop 2 s)]
  | None => []
  end.
Proof.
  unfold TOKEN_UF, token_here. rewrite rmatch_cat_eq, rmatch_wordb_eq.
  destruct (code_here s) as [code|] eqn:Hcode.
  - rewrite (code_here_word _ _ Hcode). destruct (word_opt prev); [done|].
    cbn [xorb flat_map taken rest last_chr]. rewrite rmatch_code, Hcode. done.
  - destruct (xorb (word_opt prev) (word_opt (shead s))); [|by destruct (word_opt prev)].
    cbn [flat_map taken rest last_chr]. rewrite rmatch_code, Hcode.
    by destruct (word_opt prev).
Qed.

(** *** Scanning *)

Lemma findall_from_zero r prev s :
  findall_from r 0 prev s =
  match rmatch r prev s with
  | m :: _ =>
      default "" (group m) ::
        match s with
        | "" => []
        | String c s' => findall_from r (pred (String.length (taken m))) (Some c) s'
        end
  | [] =>
      match s with
      | "" => []
      | String c s' => findall_from r 0 (Some c) s'
      end
  end.
Proof. by destruct s. Qed.

Lemma findall_from_skip r k prev a s :
  String.length a = k →
  findall_from r k prev (a +:+ s) = findall_from r 0 (last_chr prev a) s.
Proof.
  revert k prev. induction a as [|c a IH]; intros k prev <-; [done|].
  rewrite sapp_cons. simpl. by apply IH.
Qed.

Lemma search_from_eq r prev s :
  search_from r prev s =
  match rmatch r prev s with
  | m :: _ => Some m
  | [] =>
      match s with
      | "" => None
      | String c s' => search_from r (Some c) s'
      end
  end.
Proof. by destruct s. Qed.

Lemma code_here_shape s code :
  code_here s = Some code →
  ∃ c1 c2 r, s = String c1 (String c2 r) ∧ code = String c1 (String c2 "")
             ∧ is_upper_az c1 = true ∧ is_upper_az c2 = true.
Proof.
  unfold code_here. destruct s as [|c1 [|c2 r]]; [done..|].
  destruct (is_upper_az c1) eqn:H1; [|done].
  destruct (is_upper_az c2) eqn:H2; [|done].
  destruct (negb _); [|done]. intros [= <-]. by exists c1, c2, r.
Qed.

(** The groups [findall] reports for [TOKEN_UF] are the two-letter tokens
    of the text. *)
Lemma findall_token_from (n : nat) prev s :
  String.length s ≤ n → findall_from TOKEN_UF 0 prev s = tokens_from prev s.
Proof.
  revert prev s. induction n as [|n IH]; intros prev s Hn.
  { destruct s; [|simpl in Hn; lia].
    rewrite findall_from_zero, rmatch_token. unfold token_here.
    by destruct (word_opt prev). }
  rewrite findall_from_zero, rmatch_token.
  destruct s as [|c s]; [unfold token_here; by destruct (word_opt prev)|].
  cbn [tokens_from]. destruct (token_here prev (String c s)) as [code|] eqn:Htok.
  - unfold token_here in Htok. destruct (word_opt prev); [done|].
    apply code_here_shape in Htok as (c1 & c2 & r & [= -> ->] & -> & H1 & H2).
    cbn [taken group default String.length pred option_list app].
    f_equal. change (String c2 r) with (String c2 "" +:+ r).
    rewrite (findall_from_skip _ 1) by done. cbn [last_chr].
    rewrite IH by (simpl in Hn; lia).
    change (String c2 "" +:+ r) with (String c2 r). cbn [tokens_from].
    unfold token_here at 1. cbn [word_opt]. by rewrite (upper_is_word _ H1).
  - cbn [option_list app]. apply IH. simpl in Hn. lia.
Qed.

Lemma findall_token s : re_findall TOKEN_UF s = tokens_from None s.
Proof. by apply (findall_token_from (String.length s)). Qed.

(** *** A greedy run before a pattern that cannot start inside it *)

Lemma flat_map_fmap {A B C : Type} (f : B → list C) (h : A → B) (l : list A) :
  flat_map f (map h l) = flat_map (λ x, f (h x)) l.
Proof. induction l as [|x l IH]; simpl; by rewrite ?IH. Qed.

Lemma rep_star_flat_map {B : Type} (p : ascii → bool) (g : string → string → list B) s :
  (∀ w c r, p c = true → g w (String c r) = []) →
  ∃ w, sall p w = true ∧ s = w +:+ lstrip_by p s
       ∧ flat_map (λ tr, g tr.1 tr.2) (rep_greedy p 0 None s) = g w (lstrip_by p s).
Proof.
  revert g. induction s as [|c s IH]; intros g Hg.
  - exists "". split_and!; [done..|]. simpl. apply app_nil_r.
  - cbn [rep_greedy lstrip_by hi_allows hi_pred pred]. destruct (p c) eqn:Hc.
    + destruct (IH (λ w r, g (String c w) r)) as (w & Hw & Hs & Hflat).
      { intros w c' r Hc'. by apply Hg. }
      exists (String c w). split_and!.
      * simpl. by rewrite Hc, Hw.
      * rewrite sapp_cons. by f_equal.
      * cbn [andb]. rewrite flat_map_app, flat_map_fmap. cbn [fst snd].
        rewrite Hflat. simpl. rewrite (Hg "" c s Hc). by rewrite !app_nil_r.
    + exists "". split_and!; [done..|]. simpl. apply app_nil_r.
Qed.

Lemma rmatch_rep_eq p lo hi prev s :
  rmatch (Rep p lo hi) prev s = map (λ tr, MRes tr.1 None tr.2) (rep_greedy p lo hi s).
Proof. done. Qed.

Lemma rmatch_star_then p r2 prev s :
  (∀ prev' c r, p c = true → rmatch r2 prev' (String c r) = []) →
  ∃ w, sall p w = true ∧ s = w +:+ lstrip_by p s
       ∧ rmatch (Cat (Rep p 0 None) r2) prev s
         = map (λ m2, MRes (w +:+ taken m2) (or_group (group m2) None) (rest m2))
             (rmatch r2 (last_chr prev w) (lstrip_by p s)).
Proof.
  intros Hr2. rewrite rmatch_cat_eq, rmatch_rep_eq, flat_map_fmap. cbn [taken group rest].
  apply (rep_star_flat_map p
           (λ w r, map (λ m2, MRes (w +:+ taken m2) (or_group (group m2) None) (rest m2))
                     (rmatch r2 (last_chr prev w) r))).
  intros w c r Hc. by rewrite Hr2.
Qed.

Lemma rmatch_cls_eq p prev s :
  rmatch (Cls p) prev s =
  match s with
  | String c s' => if p c then [MRes (String c "") None s'] else []
  | "" => []
  end.
Proof. done. Qed.

(** [SLASH_UF] matches at most once at a position: a slash, the white
    space after it, and the code. *)
Lemma rmatch_slash prev s :
  match slash_code_here s with
  | Some code =>
      ∃ w r, sall isspace w = true
        ∧ s = String "/" (w +:+ code) +:+ r
        ∧ rmatch SLASH_UF prev s = [MRes (String "/" (w +:+ code)) (Some code) r]
  | None => rmatch SLASH_UF prev s = []
  end.
Proof.
  unfold SLASH_UF, slash_code_here. rewrite rmatch_cat_eq, rmatch_cls_eq.
  destruct s as [|c s]; [done|].
  destruct (Ascii.eqb_spec "/" c) as [<-|Hne]; [|done].
  cbn [flat_map taken rest last_chr].
  destruct (rmatch_star_then isspace (Cat two_capitals Wordb) (Some "/"%char) s)
    as (w & Hw & Hs & ->).
  { intros prev' c r Hc. rewrite rmatch_code. unfold code_here.
    destruct r; [done|]. by rewrite (space_not_upper _ Hc). }
  rewrite rmatch_code.
  destruct (code_here (lstrip_by isspace s)) as [code|] eqn:Hcode; [|done].
  exists w, (sdrop 2 (lstrip_by isspace s)). split_and!; [done| |done].
  apply code_here_shape in Hcode as (c1 & c2 & r & Hl & -> & _).
  rewrite Hs at 1. rewrite Hl. simpl. by rewrite !sapp_cons, sapp_assoc.
Qed.

Lemma slash_codes_skip a s :
  sall (λ c, negb (Ascii.eqb "/" c)) a = true →
  slash_codes_from (a +:+ s) = slash_codes_from s.
Proof.
  induction a as [|c a IH]; [done|]. rewrite sapp_cons.
  cbn [sall slash_codes_from slash_code_here].
  intros [Hc Ha]%andb_true_iff. apply negb_true_iff in Hc. rewrite Hc.
  by apply IH.
Qed.

(** The groups [findall] reports for [SLASH_UF] are the codes that follow
    a slash. *)
Lemma findall_slash_from (n : nat) prev s :
  String.length s ≤ n → findall_from SLASH_UF 0 prev s = slash_codes_from s.
Proof.
  revert prev s. induction n as [|n IH]; intros prev s Hn.
  { destruct s; [|simpl in Hn; lia].
    rewrite findall_from_zero. pose proof (rmatch_slash prev "") as H.
    cbn [slash_code_here] in H. by rewrite H. }
  rewrite findall_from_zero. pose proof (rmatch_slash prev s) as H.
  destruct s as [|c s]; [cbn [slash_code_here] in H; by rewrite H|].
  cbn [slash_codes_from].
  destruct (slash_code_here (String c s)) as [code|] eqn:Hcode.
  - destruct H as (w & r & Hw & Hs & ->). rewrite sapp_cons in Hs.
    injection Hs as -> ->.
    cbn [taken group default option_list app String.length pred]. f_equal.
    rewrite (findall_from_skip _ (String.length (w +:+ code))) by done.
    rewrite slash_codes_skip.
    + apply IH. simpl in Hn. rewrite !sapp_length in Hn. lia.
    + rewrite sall_app. apply andb_true_iff. split.
      * eapply sall_impl; [|exact Hw]. intros c Hc.
        by rewrite (space_not_slash _ Hc).
      * unfold slash_code_here in Hcode. rewrite Ascii.eqb_refl in Hcode.
        apply code_here_shape in Hcode as (c1 & c2 & r' & _ & -> & H1 & H2).
        cbn [sall]. by rewrite (upper_not_slash _ H1), (upper_not_slash _ H2).
  - rewrite H. cbn [option_list app]. apply IH. simpl in Hn. lia.
Qed.

Lemma findall_slash s : re_findall SLASH_UF s = slash_codes_from s.
Proof. by apply (findall_slash_from (String.length s)). Qed.

(** *** The token that ends the text *)

Lemma rep_star_head p r :
  sall p r = true → ∃ L, rep_greedy p 0 None r = (r, "") :: L.
Proof.
  induction r as [|c r IH]; [by exists []|].
  cbn [sall]. intros [Hc Hr]%andb_true_iff. destruct (IH Hr) as [L HL].
  cbn [rep_greedy hi_allows hi_pred pred]. rewrite Hc, HL. cbn [andb map app fst snd].
  eauto.
Qed.

Lemma space_to_end_some prev r :
  sall isspace r = true →
  ∃ m L, rmatch space_to_end prev r = m :: L ∧ group m = None.
Proof.
  intros Hr. unfold space_to_end. rewrite rmatch_cat_eq, rmatch_rep_eq.
  destruct (rep_star_head _ _ Hr) as [L ->].
  cbn [map flat_map fst snd taken rest group rmatch at_eol app]. eauto.
Qed.

Lemma space_to_end_none prev r :
  sall isspace r = false → rmatch space_to_end prev r = [].
Proof.
  intros Hr. destruct (rmatch space_to_end prev r) as [|m L] eqn:Hm; [done|].
  assert (m ∈ rmatch space_to_end prev r) as Hin by (rewrite Hm; apply elem_of_cons; auto).
  unfold space_to_end in Hin.
  apply elem_of_rmatch_cat in Hin as (m1 & m2 & H1 & H2 & _).
  apply elem_of_rmatch_rep in H1 as (_ & Hs & Hw & _).
  apply elem_of_rmatch_eol in H2 as [Heol _].
  rewrite Hs, sall_app, Hw in Hr.
  apply at_eol_iff in Heol as [Heol|Heol]; rewrite Heol in Hr; done.
Qed.

Lemma rmatch_two_then r2 prev s :
  rmatch (Cat two_capitals r2) prev s =
  match s with
  | String c1 (String c2 r) =>
      if is_upper_az c1 && is_upper_az c2
      then map (λ m2, MRes (String c1 (String c2 "") +:+ taken m2)
                        (or_group (group m2) (Some (String c1 (String c2 ""))))
                        (rest m2))
             (rmatch r2 (Some c2) r)
      else []
  | _ => []
  end.
Proof.
  rewrite rmatch_cat_eq, rmatch_two_capitals.
  destruct s as [|c1 [|c2 r]]; [done..|].
  destruct (is_upper_az c1 && is_upper_az c2); [|done].
  cbn [flat_map taken group rest last_chr]. apply app_nil_r.
Qed.

Lemma rmatch_wordb_then r2 prev s :
  rmatch (Cat Wordb r2) prev s =
  if xorb (word_opt prev) (word_opt (shead s))
  then map (λ m2, MRes ("" +:+ taken m2) (or_group (group m2) None) (rest m2))
         (rmatch r2 prev s)
  else [].
Proof.
  rewrite rmatch_cat_eq, rmatch_wordb_eq.
  destruct (xorb _ _); [|done]. cbn [flat_map taken group rest last_chr].
  apply app_nil_r.
Qed.

(** [END_UF] matches at a position exactly when a token stands there with
    only white space after it, and then its group is the token. *)
Lemma rmatch_end prev s :
  match end_code_here prev s with
  | Some code => ∃ m L, rmatch END_UF prev s = m :: L ∧ group m = Some code
  | None => rmatch END_UF prev s = []
  end.
Proof.
  unfold END_UF, end_code_here, token_here.
  rewrite rmatch_wordb_then, rmatch_two_then. unfold code_here.
  destruct s as [|c1 [|c2 r]];
    [by destruct (word_opt prev), (xorb _ _)..|].
  destruct (is_upper_az c1) eqn:H1; cycle 1.
  { destruct (word_opt prev), (xorb _ _); done. }
  destruct (is_upper_az c2) eqn:H2; cycle 1.
  { destruct (word_opt prev), (xorb _ _); done. }
  cbn [andb shead word_opt sdrop]. rewrite (upper_is_word _ H1).
  destruct (word_opt prev); [done|]. cbn [xorb negb].
  rewrite rmatch_wordb_then. cbn [word_opt]. rewrite (upper_is_word _ H2).
  destruct (word_opt (shead r)); [done|]. cbn [xorb negb].
  destruct (sall isspace r) eqn:Hr.
  - destruct (space_to_end_some (Some c2) r Hr) as (m & L & -> & Hg).
    cbn [map group]. rewrite Hg. eauto.
  - by rewrite space_to_end_none.
Qed.

Lemma search_end prev s : group1 (search_from END_UF prev s) = end_code_from prev s.
Proof.
  revert prev. induction s as [|c s IH]; intros prev;
    rewrite search_from_eq; pose proof (rmatch_end prev) as H.
  - specialize (H ""). cbn [end_code_from].
    destruct (end_code_here prev "") as [code|].
    + destruct H as (m & L & -> & Hg). done.
    + by rewrite H.
  - specialize (H (String c s)). cbn [end_code_from].
    destruct (end_code_here prev (String c s)) as [code|].
    + destruct H as (m & L & -> & Hg). done.
    + rewrite H. apply IH.
Qed.

(** *** The extraction *)

Lemma extract_brazil_uf_stages value : extract_brazil_uf value = uf_by_stage value.
Proof.
  unfold extract_brazil_uf, uf_by_stage.
  rewrite findall_slash, findall_token. unfold re_search. rewrite search_end.
  destruct (is_empty (normalize_text value)) eqn:Hempty; [|done].
  unfold uf_text. destruct (normalize_text value); [|done]. reflexivity.
Qed.

Lemma is_uf_elem code : is_uf code = true → default "" code ∈ BRAZIL_UFS.
Proof.
  destruct code as [c|]; [|done]. simpl. unfold mem. by intros ?%bool_decide_eq_true.
Qed.

Lemma uf_by_stage_valid value :
  uf_by_stage value = "" ∨ uf_by_stage value ∈ BRAZIL_UFS.
Proof.
  unfold uf_by_stage.
  destruct (is_uf (last (slash_codes_from (uf_text value)))) eqn:H1;
    [right; by apply is_uf_elem|].
  destruct (is_uf (end_code_from None (uf_text value))) eqn:H2;
    [right; by apply is_uf_elem|].
  destruct (last (List.filter _ _)) as [t|] eqn:Hlast; [|by left].
  right. simpl. apply last_Some_elem_of in Hlast.
  apply list_elem_of_In, filter_In in Hlast as [_ Hlast].
  unfold mem in Hlast. by apply bool_decide_eq_true in Hlast.
Qed.

(** C7, counterexample.  In "SP/XX" the code after the slash is no
    state: choosing first and checking afterwards gives nothing, while
    [extract_brazil_uf] goes on to the later stages and returns "SP". *)
Lemma extraction_falls_through_invalid_code :
  extract_brazil_uf "SP/XX" = "SP"
  ∧ uf_choose_then_check "SP/XX" = ""
  ∧ extract_brazil_uf "SP/XX" ≠ uf_choose_then_check "SP/XX".
Proof. split_and!; [reflexivity..|discriminate]. Qed.

(** C7, as amended.  The extraction upper-cases and de-accents the
    text and then returns the last two-letter code that follows a slash
    (white space allowed in between) if that code is a state; else the
    two-letter token that ends the text if it is a state; else the last
    two-letter token that is a state; else the empty string.  The result is
    always empty or one of the 27 states; "Sao Paulo/SP" gives "SP" and
    "regiao desconhecida" gives the empty string. *)
Theorem extract_brazil_uf_staged :
  (∀ value, extract_brazil_uf value = uf_by_stage value)
  ∧ (∀ value, extract_brazil_uf value = "" ∨ extract_brazil_uf value ∈ BRAZIL_UFS)
  ∧ length BRAZIL_UFS = 27 ∧ NoDup BRAZIL_UFS
  ∧ extract_brazil_uf "Sao Paulo/SP" = "SP"
  ∧ extract_brazil_uf "regiao desconhecida" = "".
Proof.
  split_and!.
  - apply extract_brazil_uf_stages.
  - intros value. rewrite extract_brazil_uf_stages. apply uf_by_stage_valid.
  - reflexivity.
  - by compute_done.
  - reflexivity.
  - reflexivity.
Qed.

End UfFacts.

(** ** The repetition range of a row *)

Module BucketFacts.
Import Text Ranking App AppFacts CounterFacts.

(** Leaving the empty cells out does not change the number of occurrences
    of a cell that is not empty. *)
Lemma occurrences_of_filled (e : string) (norm : list string) :
  is_empty e = false →
  occurrences e (List.filter (λ e, negb (is_empty e)) norm) = occurrences e norm.
Proof.
  intros He. unfold occurrences.
  induction norm as [|a norm IH]; [done|]. simpl.
  destruct (is_empty a) eqn:Ha; simpl.
  - rewrite filter_cons_False; [done|]. intros ->. congruence.
  - rewrite !filter_cons. destruct (decide (a = e)); simpl; by rewrite IH.
Qed.

(** The repetition count of a row: 0 on an empty cell, else the number of
    rows with the same normalised email. *)
Lemma repetition_count (b : base) (i : nat) (e : string) :
  E_MAIL_NORM (analyse b) !! i = Some e →
  QTD_REPETICOES_EMAIL (analyse b) !! i
  = Some (Z.of_nat (if is_empty e then 0
                    else occurrences e (E_MAIL_NORM (analyse b)))).
Proof.
  cbn [analyse E_MAIL_NORM QTD_REPETICOES_EMAIL]. intros He.
  rewrite lookup_map, He. cbn [fmap option_fmap option_map]. do 2 f_equal.
  destruct (is_empty e) eqn:Hempty.
  - apply is_empty_true in Hempty as ->. by rewrite email_counts_empty.
  - rewrite value_counts_count. by apply occurrences_of_filled.
Qed.

(** C10.  The repetition range of every row is [repeat_bucket] of its
    repetition count; the count is 0 on a row with an empty normalised
    email, whose range is "1 vez", and the number of rows with the same
    normalised email on any other row; [repeat_bucket] sends an integer to
    a range exactly when the range holds it (up to 1, 2, 3, 4 to 5, 6 to 10,
    11 and more); so every row of the table carries one of the six ranges,
    which are distinct. *)
Theorem repeat_bucket_of_the_count_on_every_row (b : base) :
  FAIXA_REPETICAO (analyse b) = map repeat_bucket (QTD_REPETICOES_EMAIL (analyse b))
  ∧ (∀ (i : nat) (e : string), E_MAIL_NORM (analyse b) !! i = Some e →
        ∃ q : Z,
          q = Z.of_nat (if is_empty e then 0
                        else occurrences e (E_MAIL_NORM (analyse b)))
          ∧ QTD_REPETICOES_EMAIL (analyse b) !! i = Some q
          ∧ FAIXA_REPETICAO (analyse b) !! i = Some (repeat_bucket q))
  ∧ (∀ i : nat, E_MAIL_NORM (analyse b) !! i = Some "" →
        QTD_REPETICOES_EMAIL (analyse b) !! i = Some 0%Z
        ∧ FAIXA_REPETICAO (analyse b) !! i = Some "1 vez")
  ∧ (∀ v : Z,
        (repeat_bucket v = "1 vez" ↔ (v ≤ 1)%Z)
        ∧ (repeat_bucket v = "2 vezes" ↔ v = 2%Z)
        ∧ (repeat_bucket v = "3 vezes" ↔ v = 3%Z)
        ∧ (repeat_bucket v = "4-5 vezes" ↔ (4 ≤ v ≤ 5)%Z)
        ∧ (repeat_bucket v = "6-10 vezes" ↔ (6 ≤ v ≤ 10)%Z)
        ∧ (repeat_bucket v = "11+ vezes" ↔ (11 ≤ v)%Z))
  ∧ length (FAIXA_REPETICAO (analyse b)) = length (E_MAIL b)
  ∧ length (E_MAIL_NORM (analyse b)) = length (E_MAIL b)
  ∧ (∀ i : nat, i < length (E_MAIL b) →
        ∃ label, FAIXA_REPETICAO (analyse b) !! i = Some label
                 ∧ label ∈ Spec.bucket_labels)
  ∧ NoDup Spec.bucket_labels
  ∧ (let t := analyse {| ORIGEM := []; CPF_CNPJ := []; NOME := [];
                         E_MAIL := ["a@b.com"; "c@d.com"; " A@B.com"; ""; "a@b.com"];
                         REGIAO := [] |} in
     QTD_REPETICOES_EMAIL t = [3; 1; 3; 0; 3]%Z
     ∧ FAIXA_REPETICAO t = ["3 vezes"; "1 vez"; "3 vezes"; "1 vez"; "3 vezes"]).
Proof.
  assert (FAIXA_REPETICAO (analyse b)
          = map repeat_bucket (QTD_REPETICOES_EMAIL (analyse b))) as Hmap by done.
  split_and!.
  - done.
  - intros i e He. eexists. split; [done|]. split; [by apply repetition_count|].
    by rewrite Hmap, lookup_map, (repetition_count b i e He).
  - intros i He. pose proof (repetition_count b i "" He) as Hq.
    cbn [is_empty] in Hq. split; [done|]. by rewrite Hmap, lookup_map, Hq.
  - intros v. unfold repeat_bucket. split_and!; (split; [|intros Hv]);
      repeat (case_match; try done); lia.
  - rewrite Hmap. simpl. by rewrite !length_map.
  - simpl. by rewrite !length_map.
  - intros i Hi. rewrite Hmap, lookup_map.
    destruct (_ !! i) as [q|] eqn:Hq; simpl.
    + exists (repeat_bucket q). split; [done|].
      unfold repeat_bucket, Spec.bucket_labels.
      repeat case_match; set_solver.
    + apply lookup_ge_None in Hq. simpl in Hq. rewrite !length_map in Hq. lia.
  - by apply (bool_decide_unpack _).
  - split; reflexivity.
Qed.

End BucketFacts.

(** ** The counters and reports of the batch loop *)

Module SummaryFacts.
Import Text Regex Ranking RankingFacts Batch Spec CounterFacts Props.

Lemma accumulate_total_rows st n rows :
  st_total_rows (accumulate st n rows) = st_total_rows st + length rows.
Proof.
  revert st n. induction rows as [|r rows IH]; intros st n; simpl; [lia|].
  rewrite IH. simpl. lia.
Qed.

Lemma accumulate_missing_emails st n rows :
  st_missing_emails (accumulate st n rows) =
  st_missing_emails st + length (List.filter missing_row rows).
Proof.
  revert st n. induction rows as [|r rows IH]; intros st n; simpl; [lia|].
  rewrite IH. simpl. unfold missing_row.
  destruct (is_empty (clean_email_of r)); simpl; lia.
Qed.

Lemma accumulate_invalid_emails st n rows :
  st_invalid_emails (accumulate st n rows) =
  st_invalid_emails st + length (List.filter rejected_row rows).
Proof.
  revert st n. induction rows as [|r rows IH]; intros st n; simpl; [lia|].
  rewrite IH. simpl. unfold rejected_row.
  destruct (negb (is_empty (clean_email_of r)) && negb (is_valid_email (clean_email_of r)));
    simpl; lia.
Qed.

Lemma accumulate_trimmed st n rows :
  st_rows_with_trimmed_email (accumulate st n rows) =
  st_rows_with_trimmed_email st + length (List.filter trimmed_row rows).
Proof.
  revert st n. induction rows as [|r rows IH]; intros st n; simpl; [lia|].
  rewrite IH. simpl. unfold trimmed_row.
  destruct (negb (String.eqb (raw_email_of r) (strip (raw_email_of r)))); simpl; lia.
Qed.

Lemma accumulate_treated st n rows :
  (λ t, (tr_row t, tr_EMAIL_TRATADO t, tr_EMAIL_VALIDO t)) <$> st_treated (accumulate st n rows) =
  ((λ t, (tr_row t, tr_EMAIL_TRATADO t, tr_EMAIL_VALIDO t)) <$> st_treated st)
  ++ ((λ r, (row_dict r, clean_email_of r, valid_row r)) <$> rows).
Proof.
  revert st n. induction rows as [|r rows IH]; intros st n; csimpl.
  - by rewrite app_nil_r.
  - rewrite IH. simpl. by rewrite fmap_app, <- app_assoc.
Qed.

Lemma accumulate_invalid_rows st n rows :
  st_invalid_rows (accumulate st n rows) =
  st_invalid_rows st
  ++ ((λ nr : nat * csv_row, invalid_record nr.1 nr.2)
        <$> List.filter (λ nr, rejected_row nr.2) (enumerate n rows)).
Proof.
  revert st n. induction rows as [|r rows IH]; intros st n; csimpl.
  - by rewrite app_nil_r.
  - rewrite IH. simpl. unfold rejected_row at 2.
    destruct (negb (is_empty (clean_email_of r)) && negb (is_valid_email (clean_email_of r)));
      csimpl; [|done].
    by rewrite <- app_assoc.
Qed.

Lemma accumulate_unique_emails st n rows :
  st_unique_emails (accumulate st n rows) =
  st_unique_emails st
  ∪ list_to_set (List.filter (λ e, negb (is_empty e)) (clean_email_of <$> rows)).
Proof.
  revert st n. induction rows as [|r rows IH]; intros st n; csimpl.
  - apply set_eq. set_solver.
  - rewrite IH. simpl. destruct (is_empty (clean_email_of r)); simpl.
    + done.
    + apply set_eq. set_solver.
Qed.

(** Every row is of exactly one kind. *)
Lemma rows_by_kind (rows : list csv_row) :
  length rows =
  length (List.filter missing_row rows) + length (List.filter rejected_row rows)
  + length (List.filter valid_row rows).
Proof.
  induction rows as [|r rows IH]; [done|]. simpl.
  unfold missing_row, rejected_row, valid_row in *.
  destruct (is_empty (clean_email_of r)), (is_valid_email (clean_email_of r));
    simpl; lia.
Qed.

Lemma length_enumerate {A : Type} n (l : list A) : length (enumerate n l) = length l.
Proof. revert n. induction l as [|x l IH]; intros n; simpl; auto. Qed.

Lemma enumerate_snd {A : Type} n (l : list A) : (enumerate n l).*2 = l.
Proof. revert n. induction l as [|x l IH]; intros n; csimpl; by rewrite ?IH. Qed.

Lemma enumerate_lookup {A : Type} n (l : list A) (i : nat) :
  enumerate n l !! i = (λ x, (n + i, x)) <$> (l !! i).
Proof.
  revert n i. induction l as [|x l IH]; intros n i; [done|].
  destruct i as [|i]; simpl.
  - by rewrite Nat.add_0_r.
  - rewrite IH. destruct (l !! i); simpl; [|done]. do 2 f_equal. lia.
Qed.

Lemma enumerate_app {A : Type} n (l k : list A) :
  enumerate n (l ++ k) = enumerate n l ++ enumerate (n + length l) k.
Proof.
  revert n. induction l as [|x l IH]; intros n; simpl.
  - by rewrite Nat.add_0_r.
  - rewrite IH. do 3 f_equal. lia.
Qed.

Lemma length_filter_snd {A : Type} (f : A → bool) n (l : list A) :
  length (List.filter (λ nr : nat * A, f nr.2) (enumerate n l)) = length (List.filter f l).
Proof.
  revert n. induction l as [|x l IH]; intros n; simpl; [done|].
  destruct (f x); simpl; by rewrite IH.
Qed.

Lemma size_list_to_set_distinct (l : list string) :
  size (list_to_set l : gset string) = distinct l.
Proof.
  unfold distinct.
  rewrite <- (size_list_to_set (C:=gset string)) by apply NoDup_remove_dups.
  f_equal. apply set_eq. intros x.
  by rewrite !elem_of_list_to_set, elem_of_remove_dups.
Qed.

(** *** The cells of a treated row *)

Lemma get_absent (k : string) (acc : option string) (d : dict) :
  k ∉ d.*1 →
  foldl (λ acc (kv : string * option string), if decide (kv.1 = k) then kv.2 else acc)
    acc d = acc.
Proof.
  revert acc. induction d as [|[k' v] d IH]; intros acc Hk; [done|]. csimpl in *.
  apply not_elem_of_cons in Hk as [Hne Hk]. rewrite decide_False by congruence.
  by apply IH.
Qed.

(** Under a header of distinct names, [row.get] gives the cell that stands
    at the place of the name. *)
Lemma get_zip (k : string) (acc v : option string) (fieldnames : list string)
  (vals : list (option string)) (i : nat) :
  NoDup fieldnames → fieldnames !! i = Some k → vals !! i = Some v →
  foldl (λ acc (kv : string * option string), if decide (kv.1 = k) then kv.2 else acc)
    acc (zip fieldnames vals) = v.
Proof.
  intros Hnd. revert acc vals i.
  induction Hnd as [|a fieldnames Ha Hnd IH]; intros acc vals i Hk Hv; [done|].
  destruct vals as [|w vals]; [done|]. destruct i as [|i]; simpl in *.
  - injection Hk as ->. injection Hv as ->. rewrite decide_True by done.
    apply get_absent. intros ((k' & v') & -> & Hin)%list_elem_of_fmap.
    destruct Ha. by apply elem_of_zip_l in Hin.
  - rewrite decide_False.
    + by apply (IH _ vals i).
    + intros ->. destruct Ha. by eapply list_elem_of_lookup_2.
Qed.

Lemma written_cells_reader_row (fieldnames : list string) (r : record) (t : treated_row) :
  NoDup fieldnames → no_appended_name fieldnames → length r ≤ length fieldnames →
  tr_row t = row_dict (reader_row fieldnames r) →
  written_cells fieldnames t
  = r ++ replicate (length fieldnames - length r) ""
      ++ [tr_EMAIL_TRATADO t; sim_nao (tr_EMAIL_VALIDO t);
          sim_nao (tr_LINHA_DUPLICADA_EXATA t)].
Proof.
  intros Hnd Hnone Hlen Hrow. unfold written_cells, treated_fieldnames.
  change (map ?h ?l) with (h <$> l). rewrite fmap_app, app_assoc. f_equal.
  rewrite Hrow. cbn [row_dict reader_row].
  set (vals := (Some <$> r) ++ replicate (length fieldnames - length r) None).
  assert (length vals = length fieldnames) as Hvals.
  { unfold vals. rewrite length_app, length_fmap, length_replicate. lia. }
  assert (r ++ replicate (length fieldnames - length r) "" = default "" <$> vals) as ->.
  { unfold vals. rewrite fmap_app, fmap_replicate. f_equal.
    rewrite <- list_fmap_compose. by rewrite list_fmap_id. }
  apply list_eq. intros i. rewrite !list_lookup_fmap.
  destruct (fieldnames !! i) as [k|] eqn:Hk; simpl.
  - destruct (lookup_lt_is_Some_2 vals i) as [v Hv].
    { rewrite Hvals. by eapply lookup_lt_Some. }
    rewrite Hv. simpl.
    assert (k ∈ fieldnames) as Hin by (by eapply list_elem_of_lookup_2).
    assert (∀ name, name ∈ ["EMAIL_TRATADO"; "EMAIL_VALIDO"; "LINHA_DUPLICADA_EXATA"] →
              String.eqb k name = false) as Hne.
    { intros name Hname. apply String.eqb_neq. intros ->. by apply (Hnone name). }
    rewrite !Hne by set_solver. f_equal. f_equal.
    unfold dict_get. by apply (get_zip k None v fieldnames vals i).
  - apply lookup_ge_None in Hk. rewrite (proj2 (lookup_ge_None vals i)) by lia. done.
Qed.

(** X1.  The summary of a run that returns: [total_rows] is the number
    of records read and of rows of [dados_tratados.csv]; the rows with no
    email, those with a rejected email and those with a valid email are
    counted apart and add up to the total; the count of trimmed emails is
    that of the rows whose email cell has white space around it; a treated
    row has the normalised email and the validity of its record.  Under a
    header of distinct names, none of them one of the three appended names,
    the cells written for a record are its own cells, empty cells up to the
    length of the header, and the three computed cells; a column of the
    input that bears an appended name is overwritten. *)
Theorem summary_counts_partition_the_rows
  (fieldnames : list string) (body : list record) (out : output) :
  analyze (Some (fieldnames :: body)) = Ok out →
  let rows := reader_rows fieldnames body in
  total_rows (summary out) = length rows
  ∧ length (dados_tratados out) = length rows
  ∧ missing_emails (summary out) = length (List.filter missing_row rows)
  ∧ invalid_emails (summary out) = length (List.filter rejected_row rows)
  ∧ rows_with_trimmed_email (summary out) = length (List.filter trimmed_row rows)
  ∧ total_rows (summary out)
    = missing_emails (summary out) + invalid_emails (summary out)
      + length (List.filter valid_row rows)
  ∧ (λ t, (tr_EMAIL_TRATADO t, tr_EMAIL_VALIDO t)) <$> dados_tratados out
    = (λ r, (clean_email_of r, valid_row r)) <$> rows
  ∧ (NoDup fieldnames → no_appended_name fieldnames →
     ∀ (i : nat) (r : record) (t : treated_row),
       filter (λ r : record, r ≠ []) body !! i = Some r →
       dados_tratados out !! i = Some t →
       written_cells fieldnames t
       = r ++ replicate (length fieldnames - length r) ""
           ++ [clean_email_of (reader_row fieldnames r);
               sim_nao (valid_row (reader_row fieldnames r));
               sim_nao (tr_LINHA_DUPLICADA_EXATA t)])
  ∧ (∃ out', analyze (Some [["E-MAIL"; "EMAIL_VALIDO"]; ["a@b.co"; "talvez"]]) = Ok out'
             ∧ written_cells ["E-MAIL"; "EMAIL_VALIDO"] <$> dados_tratados out'
               = [["a@b.co"; "SIM"; "a@b.co"; "SIM"; "NAO"]]).
Proof.
  intros Hout rows.
  assert (Forall (λ r, row_extra r = false) rows) as Hfit.
  { simpl in Hout.
    destruct (run init 2 (reader_rows fieldnames body)) as [st|e] eqn:Hrun; [|done].
    by apply BatchFacts.run_accumulate in Hrun as [_ ?]. }
  apply BatchFacts.analyze_accumulate in Hout. subst out.
  fold rows. simpl.
  rewrite accumulate_total_rows, accumulate_missing_emails, accumulate_invalid_emails,
    accumulate_trimmed. simpl.
  pose proof (accumulate_treated init 2 rows) as Htr. simpl in Htr.
  split_and!; try done.
  - apply (f_equal length) in Htr. by rewrite !length_fmap in Htr.
  - apply rows_by_kind.
  - apply (f_equal (fmap (λ p : dict * string * bool, (p.1.2, p.2)))) in Htr.
    by rewrite <- !list_fmap_compose in Htr.
  - intros Hnd Hnone i r t Hr Ht.
    assert (rows !! i = Some (reader_row fieldnames r)) as Hrow.
    { unfold rows, reader_rows. by rewrite AppFacts.lookup_map, Hr. }
    apply (f_equal (λ l, l !! i)) in Htr. rewrite !list_lookup_fmap, Ht, Hrow in Htr.
    injection Htr as Hdict Hclean Hvalid.
    rewrite <- Hclean, <- Hvalid. apply written_cells_reader_row; [done..| |done].
    eapply Forall_lookup_1 in Hfit; [|exact Hrow]. simpl in Hfit.
    by apply Nat.ltb_ge in Hfit.
  - eexists. split; [vm_compute; reflexivity|]. reflexivity.
Qed.

Lemma summary_counts_partition_the_rows_witness :
  ∃ out, analyze (Some sample_file) = Ok out
         ∧ total_rows (summary out) = 5
         ∧ missing_emails (summary out) = 0
         ∧ invalid_emails (summary out) = 1
         ∧ rows_with_trimmed_email (summary out) = 1
         ∧ written_cells (hd [] sample_file) <$> dados_tratados out
           = [ ["Acme"; "12345678901"; "Joao"; " JOAO@GMAIL.COM "; "joao@gmail.com";
                "SIM"; "NAO"];
               ["Acme"; "12345678901"; "Joao"; "joao@gmail.com"; "joao@gmail.com";
                "SIM"; "SIM"];
               ["Beta"; "222"; "Ana"; "ana@uol.com.br"; "ana@uol.com.br"; "SIM"; "NAO"];
               ["Beta"; "222"; "Ana"; "ana@"; "ana@"; "NAO"; "NAO"];
               ["Acme"; "12345678901"; "Joao"; "Joao@Gmail.com"; "joao@gmail.com";
                "SIM"; "SIM"] ]
         ∧ total_rows (summary out)
           = missing_emails (summary out) + invalid_emails (summary out)
             + length (List.filter valid_row
                         (reader_rows (hd [] sample_file) (tl sample_file))).
Proof.
  eexists. split; [vm_compute; reflexivity|]. do 5 (split; [reflexivity|]).
  apply (summary_counts_partition_the_rows (hd [] sample_file) (tl sample_file) _ eq_refl).
Defined.

(** X2.  [emails_invalidos.csv] holds, in the order of the input, one row
    for every record whose normalised email is not empty and does not match
    the pattern, and no other row; its length is the [invalid_emails] of the
    summary; the line number of a row is 2 plus the number of non-empty
    records before its record, so a row that follows a blank line of the
    file carries a number below the line it stands on. *)
Theorem invalid_rows_listed_in_order
  (fieldnames : list string) (body : list record) (out : output) :
  analyze (Some (fieldnames :: body)) = Ok out →
  let rows := reader_rows fieldnames body in
  emails_invalidos out
  = (λ nr : nat * csv_row, invalid_record nr.1 nr.2)
      <$> List.filter (λ nr, rejected_row nr.2) (enumerate 2 rows)
  ∧ length (emails_invalidos out) = invalid_emails (summary out)
  ∧ (∀ before r after,
       body = before ++ r :: after → r ≠ [] →
       rejected_row (reader_row fieldnames r) = true →
       invalid_record (2 + length (filter (λ r' : record, r' ≠ []) before))
         (reader_row fieldnames r) ∈ emails_invalidos out).
Proof.
  intros Hout rows. apply BatchFacts.analyze_accumulate in Hout. subst out.
  fold rows. simpl.
  rewrite accumulate_invalid_rows, accumulate_invalid_emails. simpl.
  split_and!; [done| |].
  - by rewrite length_fmap, length_filter_snd.
  - intros before r after -> Hr Hrej.
    apply list_elem_of_fmap.
    exists (2 + length (filter (λ r' : record, r' ≠ []) before), reader_row fieldnames r).
    split; [done|]. apply AppFacts.elem_of_List_filter. split; [|done].
    unfold rows, reader_rows. rewrite filter_app, filter_cons, decide_True by done.
    change (map ?g ?l) with (g <$> l). rewrite fmap_app, fmap_cons.
    rewrite enumerate_app. apply elem_of_app. right. rewrite length_fmap. simpl.
    apply elem_of_cons. by left.
Qed.

Lemma invalid_rows_listed_in_order_witness :
  ∃ out, analyze (Some sample_file) = Ok out
         ∧ iv_LINHA_CSV <$> emails_invalidos out = [5]
         ∧ length (emails_invalidos out) = invalid_emails (summary out).
Proof.
  eexists. split; [vm_compute; reflexivity|]. split; [reflexivity|].
  apply (invalid_rows_listed_in_order (hd [] sample_file) (tl sample_file) _ eq_refl).
Defined.

(** X3.  [unique_emails] of the summary is the number of distinct
    non-empty normalised emails of the input, valid or not. *)
Theorem unique_emails_counts_distinct
  (fieldnames : list string) (body : list record) (out : output) :
  analyze (Some (fieldnames :: body)) = Ok out →
  let emails := clean_email_of <$> reader_rows fieldnames body in
  unique_emails (summary out) = distinct (List.filter (λ e, negb (is_empty e)) emails)
  ∧ unique_emails (summary out) + missing_emails (summary out) ≤ total_rows (summary out).
Proof.
  intros Hout emails. apply BatchFacts.analyze_accumulate in Hout. subst out.
  simpl. rewrite accumulate_unique_emails, accumulate_missing_emails,
    accumulate_total_rows. simpl.
  fold emails.
  assert (∀ X : gset string, ∅ ∪ X = X) as -> by (intros X; apply set_eq; set_solver).
  rewrite size_list_to_set_distinct. split; [done|].
  unfold distinct, emails.
  generalize (reader_rows fieldnames body). intros rows.
  induction rows as [|r rows IH]; csimpl; [lia|].
  unfold missing_row at 1. destruct (is_empty (clean_email_of r)); csimpl; [lia|].
  case_decide; simpl; lia.
Qed.

Lemma unique_emails_counts_distinct_witness :
  ∃ out, analyze (Some sample_file) = Ok out
         ∧ unique_emails (summary out) = 3
         ∧ unique_emails (summary out)
           = distinct (List.filter (λ e, negb (is_empty e))
                         (clean_email_of <$> reader_rows (hd [] sample_file) (tl sample_file))).
Proof.
  eexists. split; [vm_compute; reflexivity|]. split; [reflexivity|].
  apply (unique_emails_counts_distinct (hd [] sample_file) (tl sample_file) _ eq_refl).
Defined.

End SummaryFacts.

(** ** The rankings of the batch script: what they list *)

Module TopFacts.
Import Text Regex Ranking RankingFacts Batch Spec CounterFacts Props.

Lemma elem_of_counter_of keys k c :
  (k, c) ∈ counter_of keys ↔ k ∈ keys ∧ c = occurrences k keys.
Proof.
  rewrite <- dict_lookup_Some by apply counter_of_NoDup.
  pose proof (counter_of_count keys k) as Hc.
  pose proof (AppFacts.counter_of_keys keys k) as Hk.
  destruct (dict_lookup k (counter_of keys)) as [c'|] eqn:Hl.
  - simpl in Hc. subst c'. split.
    + intros [= <-]. split; [|done]. apply Hk.
      apply dict_lookup_Some in Hl; [|apply counter_of_NoDup].
      apply list_elem_of_fmap. by exists (k, occurrences k keys).
    + by intros [_ ->].
  - split; [done|]. intros [Hin _]. apply dict_lookup_None in Hl.
    destruct Hl. by apply Hk.
Qed.

Lemma before_take_drop {A : Type} (x y : A) n (l : list A) :
  x ∈ take n l → y ∈ drop n l → before x y l.
Proof.
  intros (i & Hi & Hlt)%elem_of_take [j Hj]%list_elem_of_lookup.
  rewrite lookup_drop in Hj.
  exists i, (n + j). split_and!; [lia|done..].
Qed.

(** A ranking cut from a dictionary: sorted by a measure descending,
    truncated, filtered. *)
Lemma top_of_dict {V : Type} (d : list (string * V)) (m : string * V → nat)
  (f : string * V → bool) (n : nat) :
  NoDup d.*1 →
  let top := List.filter f (take n (sorted_desc m d)) in
  length top ≤ n
  ∧ NoDup top.*1
  ∧ (∀ e, e ∈ top → e ∈ d ∧ f e = true)
  ∧ (∀ e e', e ∈ top → e' ∈ d → f e' = true → e'.1 ∉ top.*1 → m e' ≤ m e).
Proof.
  intros Hd top. unfold top.
  assert (sorted_desc m d ≡ₚ d) as Hperm by apply sort_by_perm.
  split_and!.
  - rewrite List_filter_stdpp. etrans; [apply length_filter|].
    rewrite length_take. lia.
  - rewrite List_filter_stdpp.
    eapply sublist_NoDup;
      [|apply fmap_sublist; etrans; [apply sublist_filter|apply sublist_take]].
    by rewrite Hperm.
  - intros e [He Hf]%AppFacts.elem_of_List_filter. split; [|done].
    rewrite <- Hperm. apply elem_of_take in He as (i & Hi & _).
    by eapply list_elem_of_lookup_2.
  - intros e e' [He Hf]%AppFacts.elem_of_List_filter He' Hf' Hnot.
    assert (before e e' (sorted_desc m d)) as Hb.
    { apply (before_take_drop _ _ n); [done|].
      rewrite <- Hperm, <- (take_drop n (sorted_desc m d)) in He'.
      apply elem_of_app in He' as [Hs|Hs]; [|done].
      destruct Hnot. apply list_elem_of_fmap. exists e'.
      split; [done|]. by apply AppFacts.elem_of_List_filter. }
    by apply sorted_desc_before in Hb.
Qed.

(** A ranking cut from a counter lists true counts. *)
Lemma ranks_counter (keys : list string) (keep : string → bool) (n : nat) :
  ranks keys (λ k, occurrences k keys) keep n
    (List.filter (λ kv, keep kv.1) (most_common n (counter_of keys))).
Proof.
  destruct (top_of_dict (counter_of keys) snd (λ kv, keep kv.1) n (counter_of_NoDup keys))
    as (Hlen & Hnd & Hin & Hmax).
  unfold most_common. split_and!; [done..| |].
  - intros k c [Hd Hk]%Hin. by apply elem_of_counter_of in Hd as [? ->].
  - intros k c k' Hkc Hk' Hkeep Hnot.
    apply (Hmax (k, c) (k', occurrences k' keys)); [done| |done..].
    by apply elem_of_counter_of.
Qed.

(** When the empty key is the most frequent one it takes the first of
    the [S n] places, and the filter leaves at most [n] entries. *)
Lemma empty_key_takes_a_place (keys : list string) (n : nat) :
  "" ∈ keys →
  (∀ k, k ∈ keys → k ≠ "" → occurrences k keys < occurrences "" keys) →
  length (List.filter non_empty_key (most_common (S n) (counter_of keys))) ≤ n.
Proof.
  intros Hin Hmost. unfold most_common.
  assert (sorted_desc snd (counter_of keys) ≡ₚ counter_of keys) as Hperm
    by apply sort_by_perm.
  assert (("", occurrences "" keys) ∈ sorted_desc snd (counter_of keys)) as He.
  { rewrite Hperm. by apply elem_of_counter_of. }
  destruct (sorted_desc snd (counter_of keys)) as [|[k0 c0] rest] eqn:Hs;
    [by apply elem_of_nil in He|].
  assert ((k0, c0) ∈ counter_of keys) as H0.
  { rewrite <- Hperm. apply elem_of_cons. by left. }
  apply elem_of_counter_of in H0 as [Hk0 ->].
  destruct (decide (k0 = "")) as [->|Hne].
  - simpl. rewrite List_filter_stdpp. etrans; [apply length_filter|].
    rewrite length_take. lia.
  - apply elem_of_cons in He as [[= Heq _]|He]; [congruence|].
    assert (before (k0, occurrences k0 keys) ("", occurrences "" keys)
              (sorted_desc snd (counter_of keys))) as Hb.
    { rewrite Hs. apply before_cons. by left. }
    apply sorted_desc_before in Hb. simpl in Hb.
    specialize (Hmost k0 Hk0 Hne). lia.
Qed.

(** *** Dictionaries of sets *)

Section sets.
Context {X : Type} (key : X → string) (g : X → string).

Lemma fill_NoDup {V : Type} (upd : X → V → V) (dflt : V) (xs : list X) :
  NoDup (fill key upd dflt [] xs).*1.
Proof.
  induction xs as [|x xs IH] using rev_ind; [constructor|].
  rewrite fill_snoc, dict_update_keys.
  case_decide as Hin; [done|].
  apply NoDup_app. split_and!; [done| |apply NoDup_singleton].
  intros y Hy ->%list_elem_of_singleton. done.
Qed.

Lemma fill_sets_lookup (xs : list X) (k : string) :
  dict_lookup k (fill key (λ x (s : gset string), s ∪ {[g x]}) ∅ [] xs) =
  if decide (k ∈ key <$> xs)
  then Some (list_to_set (g <$> filter (λ x, key x = k) xs))
  else None.
Proof.
  induction xs as [|x xs IH] using rev_ind.
  - destruct (decide _) as [H|]; [by apply elem_of_nil in H|done].
  - rewrite fill_snoc, dict_lookup_update, fmap_app, filter_app, fmap_app.
    rewrite filter_cons, filter_nil. csimpl.
    destruct (decide (k = key x)) as [->|Hne].
    + rewrite decide_True by (apply elem_of_app; right; apply list_elem_of_singleton; done).
      rewrite decide_True by done. f_equal. rewrite IH.
      case_decide as Hin; simpl.
      * rewrite list_to_set_app_L. csimpl. apply set_eq. set_solver.
      * assert (filter (λ x0, key x0 = key x) xs = []) as ->.
        { destruct (filter (λ x0, key x0 = key x) xs) as [|y l] eqn:Hf; [done|].
          assert (y ∈ filter (λ x0, key x0 = key x) xs) as Hy
            by (rewrite Hf; apply elem_of_cons; auto).
          apply list_elem_of_filter in Hy as [Heq Hy]. destruct Hin.
          rewrite <- Heq. apply list_elem_of_fmap. eauto. }
        csimpl. apply set_eq. set_solver.
    + rewrite (decide_False (P:=key x = k)) by congruence. csimpl.
      rewrite app_nil_r, IH.
      destruct (decide (k ∈ key <$> xs)) as [Hin|Hin].
      * rewrite decide_True; [done|]. apply elem_of_app. by left.
      * rewrite decide_False; [done|]. rewrite elem_of_app, list_elem_of_singleton.
        intros [?|?]; done.
Qed.

Lemma elem_of_fill_sets (xs : list X) (k : string) (s : gset string) :
  (k, s) ∈ fill key (λ x (s : gset string), s ∪ {[g x]}) ∅ [] xs ↔
  k ∈ key <$> xs ∧ s = list_to_set (g <$> filter (λ x, key x = k) xs).
Proof.
  rewrite <- dict_lookup_Some by apply fill_NoDup. rewrite fill_sets_lookup.
  case_decide; [|naive_solver]. split; [by intros [= <-]|by intros [_ ->]].
Qed.

(** A ranking cut from a dictionary of sets lists the number of distinct
    values met under each key. *)
Lemma ranks_sets (xs : list X) :
  ranks (key <$> xs) (λ k, distinct (g <$> filter (λ x, key x = k) xs))
    (λ k, negb (is_empty k)) 20
    (top_by_unique_emails (fill key (λ x (s : gset string), s ∪ {[g x]}) ∅ [] xs)).
Proof.
  set (d := fill key (λ x (s : gset string), s ∪ {[g x]}) ∅ [] xs).
  destruct (top_of_dict d (λ kv, size kv.2) non_empty_key 20 (fill_NoDup _ _ _))
    as (Hlen & Hnd & Hin & Hmax).
  unfold top_by_unique_emails. change (map ?h ?l) with (h <$> l).
  set (top := List.filter non_empty_key (take 20 (sorted_desc (λ kv, size kv.2) d))) in *.
  assert (((λ kv : string * gset string, (kv.1, size kv.2)) <$> top).*1 = top.*1) as Hkeys.
  { rewrite <- list_fmap_compose. by apply list_fmap_ext. }
  split_and!.
  - by rewrite length_fmap.
  - by rewrite Hkeys.
  - intros k c ([k' s] & [= -> ->] & He)%list_elem_of_fmap.
    apply Hin in He as [He Hf]. apply elem_of_fill_sets in He as [Hk ->].
    split_and!; [done..|]. simpl. apply SummaryFacts.size_list_to_set_distinct.
  - intros k c k' ([k0 s] & [= -> ->] & He)%list_elem_of_fmap Hk' Hkeep Hnot.
    rewrite Hkeys in Hnot.
    rewrite <- SummaryFacts.size_list_to_set_distinct.
    apply (Hmax (k0, s) (k', list_to_set (g <$> filter (λ x, key x = k') xs)));
      [done| |done..].
    by apply elem_of_fill_sets.
Qed.
End sets.

(** X4.  In a run that returns, the rankings of domains, of repeated
    emails and of documents by rows list at most 20 keys, each once and with
    the number of rows that carry it; the emails and documents listed are
    not empty; and no key left out has more rows than a listed one.  The
    empty key is dropped after the cut to 20: when rows with no email are the
    most frequent, at most 19 emails are listed (and so for documents). *)
Theorem top_rankings_list_true_counts
  (fieldnames : list string) (body : list record) (out : output) :
  analyze (Some (fieldnames :: body)) = Ok out →
  let rows := reader_rows fieldnames body in
  let emails := clean_email_of <$> rows in
  let documents := document_of <$> rows in
  let domains := (λ r, domain_of (clean_email_of r)) <$> List.filter valid_row rows in
  ranks domains (λ k, occurrences k domains) (λ _, true) 20 (top_dominios out)
  ∧ ranks emails (λ k, occurrences k emails) (λ k, negb (is_empty k)) 20
      (top_emails_repetidos out)
  ∧ ranks documents (λ k, occurrences k documents) (λ k, negb (is_empty k)) 20
      (top_documentos_por_linhas out)
  ∧ ("" ∈ emails
     → (∀ k, k ∈ emails → k ≠ "" → occurrences k emails < occurrences "" emails)
     → length (top_emails_repetidos out) ≤ 19)
  ∧ ("" ∈ documents
     → (∀ k, k ∈ documents → k ≠ "" → occurrences k documents < occurrences "" documents)
     → length (top_documentos_por_linhas out) ≤ 19).
Proof.
  intros Hout rows emails documents domains.
  apply BatchFacts.analyze_accumulate in Hout. subst out. fold rows. simpl.
  unfold top_domains, top_repeated_emails, top_documents_by_rows.
  rewrite accumulate_domain_counter, accumulate_repeated_email_counter,
    accumulate_row_count_by_document. simpl.
  fold emails documents domains. rewrite <- !AppFacts.counter_of_fill.
  split_and!.
  - pose proof (ranks_counter domains (λ _, true) 20) as H.
    by rewrite RankingOrder.List_filter_true in H.
  - apply (ranks_counter emails (λ k, negb (is_empty k)) 20).
  - apply (ranks_counter documents (λ k, negb (is_empty k)) 20).
  - apply empty_key_takes_a_place.
  - apply empty_key_takes_a_place.
Qed.

Lemma top_rankings_list_true_counts_witness :
  ∃ out, analyze (Some sample_file) = Ok out
         ∧ top_emails_repetidos out
           = [("joao@gmail.com", 3); ("ana@uol.com.br", 1); ("ana@", 1)]
         ∧ ranks (clean_email_of <$> reader_rows (hd [] sample_file) (tl sample_file))
             (λ k, occurrences k
                     (clean_email_of <$> reader_rows (hd [] sample_file) (tl sample_file)))
             (λ k, negb (is_empty k)) 20 (top_emails_repetidos out).
Proof.
  eexists. split; [vm_compute; reflexivity|]. split; [reflexivity|].
  apply (top_rankings_list_true_counts (hd [] sample_file) (tl sample_file) _ eq_refl).
Defined.

(** X5.  The rankings by unique emails list at most 20 documents (or
    taxpayers), none empty, each once and with the number of distinct valid
    emails of its rows, which is at least 1; no key left out has more
    distinct valid emails than a listed one. *)
Theorem unique_email_rankings_count_distinct
  (fieldnames : list string) (body : list record) (out : output) :
  analyze (Some (fieldnames :: body)) = Ok out →
  let valid := List.filter valid_row (reader_rows fieldnames body) in
  let emails_of (key : csv_row → string) (k : string) :=
    distinct (clean_email_of <$> filter (λ r, key r = k) valid) in
  ranks (document_of <$> valid) (emails_of document_of) (λ k, negb (is_empty k)) 20
    (top_documentos_por_emails_unicos out)
  ∧ ranks (taxpayer_of <$> valid) (emails_of taxpayer_of) (λ k, negb (is_empty k)) 20
      (top_contribuintes_por_emails_unicos out)
  ∧ (∀ k c, (k, c) ∈ top_documentos_por_emails_unicos out
            ∨ (k, c) ∈ top_contribuintes_por_emails_unicos out → 1 ≤ c).
Proof.
  intros Hout valid emails_of.
  apply BatchFacts.analyze_accumulate in Hout. subst out. simpl.
  unfold top_documents_by_unique_emails, top_taxpayer_by_unique_emails.
  rewrite accumulate_emails_by_document, accumulate_emails_by_taxpayer. simpl.
  fold valid.
  pose proof (ranks_sets document_of clean_email_of valid) as Hd.
  pose proof (ranks_sets taxpayer_of clean_email_of valid) as Ht.
  split_and!; [done..|].
  assert (∀ (key : csv_row → string) k, k ∈ key <$> valid → 1 ≤ emails_of key k) as Hpos.
  { intros key k (r & -> & Hr)%list_elem_of_fmap. unfold emails_of, distinct.
    assert (clean_email_of r ∈ remove_dups (clean_email_of <$> filter (λ r0, key r0 = key r) valid))
      as Hin.
    { apply elem_of_remove_dups, list_elem_of_fmap. exists r. split; [done|].
      by apply list_elem_of_filter. }
    destruct (remove_dups _); [by apply elem_of_nil in Hin|simpl; lia]. }
  intros k c [H|H].
  - destruct Hd as (_ & _ & Hd & _). apply Hd in H as (Hk & _ & ->). by apply Hpos.
  - destruct Ht as (_ & _ & Ht & _). apply Ht in H as (Hk & _ & ->). by apply Hpos.
Qed.

Lemma unique_email_rankings_count_distinct_witness :
  ∃ out, analyze (Some sample_file) = Ok out
         ∧ top_documentos_por_emails_unicos out = [("12345678901", 1); ("222", 1)]
         ∧ ∀ k c, (k, c) ∈ top_documentos_por_emails_unicos out
                  ∨ (k, c) ∈ top_contribuintes_por_emails_unicos out → 1 ≤ c.
Proof.
  eexists. split; [vm_compute; reflexivity|]. split; [reflexivity|].
  apply (unique_email_rankings_count_distinct (hd [] sample_file) (tl sample_file) _ eq_refl).
Defined.

End TopFacts.

(** ** When the batch script returns *)

Module RunFacts.
Import Text Regex Ranking RankingFacts Batch Spec Props Reading.

Lemma run_raise st n rows e :
  run st n rows = Raise e →
  e = ValueError "dict contains fields not in fieldnames: None"
  ∧ Exists (λ r, row_extra r = true) rows.
Proof.
  revert st n. induction rows as [|r rows IH]; intros st n; simpl; [done|].
  unfold step. destruct (row_extra r) eqn:Hr; simpl.
  - intros [= <-]. split; [done|]. by apply Exists_cons_hd.
  - intros H. apply IH in H as [-> H]. split; [done|]. by apply Exists_cons_tl.
Qed.

Lemma row_extra_reader_row fieldnames r :
  row_extra (reader_row fieldnames r) = false ↔ length r ≤ length fieldnames.
Proof. simpl. by rewrite Nat.ltb_ge. Qed.

Lemma reader_rows_fit fieldnames body :
  Forall (λ r, row_extra r = false) (reader_rows fieldnames body)
  ↔ Forall (λ r, length r ≤ length fieldnames) body.
Proof.
  unfold reader_rows. change (map ?g ?l) with (g <$> l).
  rewrite Forall_fmap, !Forall_forall. split.
  - intros H r Hr. destruct r as [|c r]; [simpl; lia|].
    apply row_extra_reader_row, H, list_elem_of_filter. by split.
  - intros H r [_ Hr]%list_elem_of_filter. by apply row_extra_reader_row, H.
Qed.

Lemma run_fits fieldnames body :
  (∃ st, run init 2 (reader_rows fieldnames body) = Ok st)
  ↔ Forall (λ r, length r ≤ length fieldnames) body.
Proof.
  rewrite <- reader_rows_fit. split.
  - intros [st Hrun]. by apply BatchFacts.run_accumulate in Hrun as [_ ?].
  - intros H. rewrite (BatchFacts.run_total _ _ _ H). eauto.
Qed.

Lemma run_longer fieldnames body e :
  run init 2 (reader_rows fieldnames body) = Raise e →
  e = ValueError "dict contains fields not in fieldnames: None"
  ∧ ∃ r, r ∈ body ∧ length fieldnames < length r.
Proof.
  intros Hrun. apply run_raise in Hrun as [-> Hex].
  split; [done|]. apply Exists_exists in Hex as (row & Hrow & Hextra).
  unfold reader_rows in Hrow. change (map ?g ?l) with (g <$> l) in Hrow.
  apply list_elem_of_fmap in Hrow as (r & -> & [_ Hr]%list_elem_of_filter).
  exists r. split; [done|]. simpl in Hextra. by apply Nat.ltb_lt in Hextra.
Qed.

(** X6.  On an input file that exists and from which the reader gets a
    header record, [analyze] returns exactly when the reading ends without
    an exception and no record is longer than the header.  When a record
    is longer than the header it stops with the [ValueError] of the writer
    of [dados_tratados.csv]; otherwise it stops with the exception of the
    reader.  When the reader gets no record at all, the exception is that
    of the reader if it has one, else the [ValueError] of the missing
    header; a file that does not exist gives [FileNotFoundError].  Records
    shorter than the header, empty records and a file with the header alone
    do not stop it.  On a reading without exception the outcome is that of
    the loop on the records alone. *)
Theorem analyze_returns_iff_no_record_is_longer
  (fieldnames : list string) (body : list record) (fail : option exn) :
  let rd := {| yielded := fieldnames :: body; failure := fail |} in
  ((∃ out, Reading.analyze (Some rd) = Ok out)
   ↔ fail = None ∧ Forall (λ r, length r ≤ length fieldnames) body)
  ∧ (∀ e, Reading.analyze (Some rd) = Raise e →
          (e = ValueError "dict contains fields not in fieldnames: None"
           ∧ ∃ r, r ∈ body ∧ length fieldnames < length r)
          ∨ (fail = Some e ∧ Forall (λ r, length r ≤ length fieldnames) body))
  ∧ ((∃ r, r ∈ body ∧ length fieldnames < length r) →
     Reading.analyze (Some rd)
     = Raise (ValueError "dict contains fields not in fieldnames: None"))
  ∧ (∀ e, Reading.analyze (Some {| yielded := []; failure := Some e |}) = Raise e)
  ∧ Reading.analyze (Some {| yielded := []; failure := None |})
    = Raise (ValueError "Arquivo CSV sem cabecalho.")
  ∧ Reading.analyze None = Raise FileNotFoundError
  ∧ (∀ records, Reading.analyze (Some {| yielded := records; failure := None |})
                = Batch.analyze (Some records))
  ∧ (∃ out, Reading.analyze (Some {| yielded := [fieldnames]; failure := None |}) = Ok out
            ∧ total_rows (summary out) = 0).
Proof.
  intros rd. split_and!.
  - unfold Reading.analyze, rd. cbn [yielded failure]. split.
    + intros [out Hout].
      destruct (run init 2 (reader_rows fieldnames body)) as [st|e] eqn:Hrun; [|done].
      cbn [rbind] in Hout. destruct fail; [done|]. split; [done|].
      apply run_fits. eauto.
    + intros [-> [st Hst]%run_fits]. rewrite Hst. cbn [rbind]. eauto.
  - unfold Reading.analyze, rd. cbn [yielded failure]. intros e He.
    destruct (run init 2 (reader_rows fieldnames body)) as [st|e'] eqn:Hrun.
    + cbn [rbind] in He. destruct fail as [e'|]; [|done]. injection He as ->.
      right. split; [done|]. apply run_fits. eauto.
    + cbn [rbind] in He. injection He as ->. left. by apply run_longer.
  - intros (r & Hr & Hlong). unfold Reading.analyze, rd. cbn [yielded failure].
    destruct (run init 2 (reader_rows fieldnames body)) as [st|e'] eqn:Hrun.
    + assert (Forall (λ r, length r ≤ length fieldnames) body) as Hall
        by (apply run_fits; eauto).
      eapply Forall_forall in Hall; [|exact Hr]. lia.
    + apply run_longer in Hrun as [-> _]. done.
  - done.
  - done.
  - done.
  - intros records. unfold Reading.analyze, Batch.analyze. cbn [yielded failure].
    destruct records as [|first rest]; [done|].
    by destruct (run init 2 (reader_rows first rest)).
  - eexists. split; reflexivity.
Qed.

End RunFacts.

(** ** The default input of the batch script *)

Module CliFacts.
Import Text Regex Ranking RankingFacts Batch Spec Props Cli.

Lemma str_leb_total a b : str_leb a b = false → str_leb b a = true.
Proof. unfold str_leb. destruct (String.leb_total a b); congruence. Qed.

(** The head of a sorted list is in the list and may stay before all. *)
Lemma head_sort_by_least {A : Type} (f : A → A → bool) (l : list A) :
  (∀ x y, f x y = false → f y x = true) →
  (∀ x y z, f x y = true → f y z = true → f x z = true) →
  match sort_by f l with
  | [] => l = []
  | x :: _ => x ∈ l ∧ ∀ y, y ∈ l → f x y = true
  end.
Proof.
  intros Htot Htrans.
  pose proof (sort_by_perm f l) as Hperm.
  pose proof (sort_by_sorted f Htot Htrans l) as Hsorted.
  destruct (sort_by f l) as [|x rest].
  - by apply Permutation_nil_l in Hperm.
  - split.
    + rewrite <- Hperm. apply elem_of_cons. by left.
    + intros y Hy. rewrite <- Hperm in Hy. apply elem_of_cons in Hy as [->|Hy].
      * destruct (f x x) eqn:Hf; [done|]. pose proof (Htot _ _ Hf). congruence.
      * apply StronglySorted_inv in Hsorted as [_ Hall].
        by eapply Forall_forall in Hall.
Qed.

Lemma exists_in_spec (cwd : list entry) (p : string) :
  exists_in cwd p = true
  ↔ ∃ e, e ∈ cwd ∧ entry_name e = p ∧ entry_resolves e = true.
Proof.
  unfold exists_in. rewrite existsb_exists. split.
  - intros (e & He%list_elem_of_In & [Hn%String.eqb_eq Hr]%andb_true_iff). eauto.
  - intros (e & He & <- & Hr). exists e. split; [by apply list_elem_of_In|].
    by rewrite String.eqb_refl, Hr.
Qed.

Lemma infer_without_expected cwd :
  exists_in cwd expected = false →
  match infer_default_csv_path cwd with
  | Some p => least_csv (map entry_name cwd) p
  | None => ∀ q, q ∈ map entry_name cwd → Strings.endswith ".csv" q = false
  end.
Proof.
  intros Hexp. unfold infer_default_csv_path. rewrite Hexp.
  pose proof (head_sort_by_least str_leb
                (List.filter (Strings.endswith ".csv") (map entry_name cwd))
                str_leb_total RankingOrder.str_leb_trans) as H.
  cbn zeta. destruct (sort_by str_leb _) as [|p rest].
  - intros q Hq. destruct (Strings.endswith ".csv" q) eqn:Hend; [|done].
    assert (q ∈ List.filter (Strings.endswith ".csv") (map entry_name cwd)) as Hin
      by by apply AppFacts.elem_of_List_filter.
    rewrite H in Hin. by apply elem_of_nil in Hin.
  - destruct H as [[Hp Hend]%AppFacts.elem_of_List_filter Hleast].
    split_and!; [done..|]. intros q Hq Hq'. by apply Hleast, AppFacts.elem_of_List_filter.
Qed.

Lemma least_csv_unique cwd p q : least_csv cwd p → least_csv cwd q → p = q.
Proof.
  intros (Hp & Hp' & Hpl) (Hq & Hq' & Hql).
  apply String.leb_antisym; [by apply Hpl|by apply Hql].
Qed.

Lemma infer_none (cwd : list entry) :
  infer_default_csv_path cwd = None
  ↔ exists_in cwd expected = false
    ∧ ∀ q, q ∈ map entry_name cwd → Strings.endswith ".csv" q = false.
Proof.
  destruct (exists_in cwd expected) eqn:Hexp.
  - unfold infer_default_csv_path. rewrite Hexp. split; [done|]. by intros [? _].
  - pose proof (infer_without_expected cwd Hexp) as H.
    destruct (infer_default_csv_path cwd) as [p'|].
    + split; [done|]. intros [_ Hnone]. destruct H as (Hp & Hend & _).
      rewrite Hnone in Hend; done.
    + done.
Qed.

(** X7.  The default input: the expected file when [Path.exists] holds
    of its name, that is when the directory has an entry of that name that
    leads to a file or a directory; otherwise the least, by code points, of
    the names of the directory that end in ".csv" (names are compared as
    they are written, as on a POSIX system: "A.CSV" does not count), an
    entry that is a symbolic link whose target is gone included; and
    [FileNotFoundError] exactly when there is neither.  A path that is
    returned names an entry of the directory. *)
Theorem infer_default_csv_path_prefers_expected_then_least (cwd : list entry) :
  let names := map entry_name cwd in
  (exists_in cwd expected = true
   ↔ ∃ e, e ∈ cwd ∧ entry_name e = expected ∧ entry_resolves e = true)
  ∧ (exists_in cwd expected = true → infer_default_csv_path cwd = Some expected)
  ∧ (exists_in cwd expected = false →
     ∀ p, infer_default_csv_path cwd = Some p ↔ least_csv names p)
  ∧ (infer_default_csv_path cwd = None
     ↔ exists_in cwd expected = false
       ∧ ∀ q, q ∈ names → Strings.endswith ".csv" q = false)
  ∧ (∀ p, infer_default_csv_path cwd = Some p → p ∈ names)
  ∧ infer_default_csv_path
      [ {| entry_name := "b.csv"; entry_resolves := true |};
        {| entry_name := "A.CSV"; entry_resolves := true |};
        {| entry_name := "a.csv"; entry_resolves := true |};
        {| entry_name := "notas.txt"; entry_resolves := true |} ] = Some "a.csv"
  ∧ infer_default_csv_path
      [ {| entry_name := "b.csv"; entry_resolves := true |};
        {| entry_name := expected; entry_resolves := false |};
        {| entry_name := "A.csv"; entry_resolves := true |} ] = Some "A.csv"
  ∧ infer_default_csv_path
      [ {| entry_name := "b.csv"; entry_resolves := true |};
        {| entry_name := expected; entry_resolves := true |};
        {| entry_name := "A.csv"; entry_resolves := true |} ] = Some expected
  ∧ infer_default_csv_path
      [ {| entry_name := "z.csv"; entry_resolves := false |} ] = Some "z.csv".
Proof.
  intros names. split_and!.
  - apply exists_in_spec.
  - intros H. unfold infer_default_csv_path. by rewrite H.
  - intros Hexp p. pose proof (infer_without_expected cwd Hexp) as H.
    destruct (infer_default_csv_path cwd) as [p'|].
    + split; [by intros [= <-]|]. intros Hp. f_equal. by eapply least_csv_unique.
    + split; [done|]. intros (Hp & Hend & _). rewrite H in Hend; done.
  - apply infer_none.
  - intros p Hp. destruct (exists_in cwd expected) eqn:Hexp.
    + unfold infer_default_csv_path in Hp. rewrite Hexp in Hp. injection Hp as <-.
      apply exists_in_spec in Hexp as (e & He & <- & _).
      unfold names. change (map ?g ?l) with (g <$> l). apply list_elem_of_fmap. eauto.
    + pose proof (infer_without_expected cwd Hexp) as H. rewrite Hp in H.
      by destruct H as [? _].
  - reflexivity.
  - reflexivity.
  - reflexivity.
  - reflexivity.
Qed.

(** X8.  [main] computes the default input before it reads the command
    line: in a directory where the expected name leads to no file and no
    name ends in ".csv" it stops with [FileNotFoundError], whatever
    [--arquivo] and [--saida] say and whatever [analyze] would do, and in no
    other directory does it stop so; there it calls [analyze] once, with the
    path of [--arquivo] when the option is given and the default otherwise,
    and with the directory of [--saida] or "resultado_analise", and it
    reports the summary of that call or passes its exception on. *)
Theorem main_needs_a_csv_in_the_directory
  (cwd : list entry) (analyze : string → string → result AnalysisSummary)
  (arg_arquivo arg_saida : option string) :
  (main cwd analyze arg_arquivo arg_saida = inl no_csv_found
   ↔ exists_in cwd expected = false
     ∧ ∀ q, q ∈ map entry_name cwd → Strings.endswith ".csv" q = false)
  ∧ (∀ p, infer_default_csv_path cwd = Some p →
       main cwd analyze arg_arquivo arg_saida =
       match analyze (default p arg_arquivo) (default "resultado_analise" arg_saida) with
       | Raise e => inl (from_analyze e)
       | Ok s => inr {| arquivo := default p arg_arquivo;
                        saida := default "resultado_analise" arg_saida;
                        printed := s |}
       end)
  ∧ (∀ rep, main cwd analyze arg_arquivo arg_saida = inr rep →
       analyze (arquivo rep) (saida rep) = Ok (printed rep)
       ∧ saida rep = default "resultado_analise" arg_saida
       ∧ (∀ a, arg_arquivo = Some a → arquivo rep = a)
       ∧ (arg_arquivo = None → infer_default_csv_path cwd = Some (arquivo rep)))
  ∧ (∀ s, main [ {| entry_name := "notas.txt"; entry_resolves := true |} ]
            (λ _ _, Ok s) (Some "/dados/clientes.csv") (Some "saida")
          = inl no_csv_found)
  ∧ (∀ s, main [ {| entry_name := "z.csv"; entry_resolves := false |} ]
            (λ a _, if String.eqb a "/dados/clientes.csv" then Ok s
                    else Raise FileNotFoundError)
            (Some "/dados/clientes.csv") None
          = inr {| arquivo := "/dados/clientes.csv"; saida := "resultado_analise";
                   printed := s |}).
Proof.
  split_and!.
  - rewrite <- infer_none. unfold main.
    destruct (infer_default_csv_path cwd) as [p|]; [|done].
    cbn zeta. split; [|done]. by destruct (analyze _ _).
  - intros p Hp. unfold main. by rewrite Hp.
  - intros rep. unfold main.
    destruct (infer_default_csv_path cwd) as [p|]; [|done]. cbn zeta.
    destruct (analyze (default p arg_arquivo) (default "resultado_analise" arg_saida))
      as [s|e] eqn:Hout; [|done].
    intros [= <-]. cbn [arquivo saida printed]. split_and!; [done..| |].
    + by intros a ->.
    + by intros ->.
  - done.
  - done.
Qed.

End CliFacts.

(** ** Substrings *)

Module StringsFacts.
Import Text Regex RegexFacts TextFacts Strings.

Lemma startswith_app n a b : startswith n a = true → startswith n (a +:+ b) = true.
Proof.
  revert a. induction n as [|x n IH]; intros a; [done|].
  destruct a as [|y a]; [done|]. rewrite sapp_cons. cbn [startswith].
  intros [-> H]%andb_true_iff. simpl. by apply IH.
Qed.

Lemma contains_cons n c s :
  contains n (String c s) = startswith n (String c s) || contains n s.
Proof. done. Qed.

Lemma contains_app_l n a b : contains n a = true → contains n (a +:+ b) = true.
Proof.
  induction a as [|c a IH].
  - simpl. rewrite orb_false_r. destruct n; [|done]. intros _. by destruct b.
  - rewrite sapp_cons, !contains_cons. intros [H|H]%orb_true_iff.
    + rewrite <- sapp_cons. by rewrite (startswith_app _ _ _ H).
    + rewrite IH by done. apply orb_true_r.
Qed.

Lemma contains_app_r n a b : contains n b = true → contains n (a +:+ b) = true.
Proof.
  intros H. induction a as [|c a IH]; [done|].
  rewrite sapp_cons, contains_cons, IH. apply orb_true_r.
Qed.

Lemma lstrip_by_suffix p s : ∃ w, s = w +:+ lstrip_by p s.
Proof.
  induction s as [|c s [w IH]]; [by exists ""|]. cbn [lstrip_by].
  destruct (p c); [|by exists ""]. exists (String c w). by rewrite sapp_cons, <- IH.
Qed.

Lemma rstrip_by_prefix p s : ∃ w, s = rstrip_by p s +:+ w.
Proof.
  induction s as [|c s [w IH]]; [by exists ""|]. cbn [rstrip_by].
  destruct (rstrip_by p s) as [|d r] eqn:Hr.
  - destruct (p c); [by exists (String c s)|]. exists s. done.
  - exists w. by rewrite sapp_cons, <- IH.
Qed.

(** A text cut at its ends holds no more substrings than the whole. *)
Lemma contains_strip_by n p s :
  contains n (strip_by p s) = true → contains n s = true.
Proof.
  unfold strip_by. intros H.
  destruct (rstrip_by_prefix p (lstrip_by p s)) as [w Hw].
  destruct (lstrip_by_suffix p s) as [v Hv].
  rewrite Hv. apply contains_app_r. rewrite Hw. by apply contains_app_l.
Qed.

Lemma rstrip_by_last p s c :
  last_chr None (rstrip_by p s) = Some c → p c = false.
Proof.
  induction s as [|d s IH]; [done|]. cbn [rstrip_by].
  destruct (rstrip_by p s) as [|e r] eqn:Hr.
  - destruct (p d) eqn:Hd; [done|]. simpl. by intros [= <-].
  - intros H. apply IH. exact H.
Qed.

Lemma strip_by_head p s c : shead (strip_by p s) = Some c → p c = false.
Proof.
  unfold strip_by. destruct (lstrip_by p s) as [|d t] eqn:Hl; [done|].
  pose proof (lstrip_by_head p s d t Hl) as Hd.
  destruct (rstrip_by_head p d t Hd) as [r ->]. simpl. by intros [= <-].
Qed.

Lemma strip_by_last p s c : last_chr None (strip_by p s) = Some c → p c = false.
Proof. apply rstrip_by_last. Qed.

Lemma lstrip_by_fixed p s : (∀ c, shead s = Some c → p c = false) → lstrip_by p s = s.
Proof. destruct s as [|c s]; [done|]. simpl. intros H. by rewrite H. Qed.

Lemma rstrip_by_fixed p s :
  (∀ c, last_chr None s = Some c → p c = false) → rstrip_by p s = s.
Proof.
  induction s as [|c s IH]; [done|]. intros H. cbn [rstrip_by].
  rewrite IH.
  - destruct s as [|d s]; [|done]. by rewrite (H c).
  - intros e He. apply H. destruct s; [done|]. exact He.
Qed.

Lemma strip_by_fixed p s :
  (∀ c, shead s = Some c → p c = false) →
  (∀ c, last_chr None s = Some c → p c = false) → strip_by p s = s.
Proof.
  intros Hh Hl. unfold strip_by. rewrite lstrip_by_fixed by done.
  by apply rstrip_by_fixed.
Qed.

Lemma sall_head p s c : sall p s = true → shead s = Some c → p c = true.
Proof. destruct s; [done|]. simpl. by intros [? _]%andb_true_iff [= <-]. Qed.

Lemma sall_last p s c prev :
  sall p s = true → last_chr prev s = Some c → prev = Some c ∨ p c = true.
Proof.
  revert prev. induction s as [|d s IH]; intros prev; [by left|].
  simpl. intros [Hd Hs]%andb_true_iff Hl.
  destruct (IH _ Hs Hl) as [[= <-]|?]; by right.
Qed.

End StringsFacts.

(** ** Headers *)

Module HeaderFacts.
Import Text Regex RegexFacts TextFacts ScoreFacts Strings StringsFacts App HeaderProps.

(** *** [re.sub] of the runs of a class *)

Lemma rep_greedy_star_head p s :
  ∃ t L, rep_greedy p 0 None s = (t, lstrip_by p s) :: L
         ∧ s = t +:+ lstrip_by p s ∧ sall p t = true.
Proof.
  induction s as [|c s (t & L & IH & Hs & Ht)].
  - by exists "", [].
  - cbn [rep_greedy lstrip_by hi_allows hi_pred pred]. destruct (p c) eqn:Hc; cbn [andb].
    + rewrite IH. cbn [map fst snd app].
      exists (String c t), (map (λ tr : string * string, (String c tr.1, tr.2)) L
                          ++ [("", String c s)]).
      split_and!; [done| |].
      * by rewrite sapp_cons, <- Hs.
      * simpl. by rewrite Hc.
    + by exists "", [].
Qed.

Lemma rep_greedy_plus_head p c s :
  p c = true →
  ∃ t L, rep_greedy p 1 None (String c s) = (String c t, lstrip_by p s) :: L
         ∧ s = t +:+ lstrip_by p s ∧ sall p t = true.
Proof.
  intros Hc. destruct (rep_greedy_star_head p s) as (t & L & Hrep & Hs & Ht).
  cbn [rep_greedy hi_allows hi_pred pred]. rewrite Hc. cbn [andb].
  rewrite Hrep. cbn [map fst snd app]. rewrite app_nil_r. eauto.
Qed.

Lemma squeeze_true_lstrip p repl s :
  squeeze p repl true s = squeeze p repl false (lstrip_by p s).
Proof.
  induction s as [|c s IH]; [done|]. cbn [squeeze lstrip_by].
  destruct (p c) eqn:Hc.
  - by rewrite sapp_nil_l.
  - cbn [squeeze]. by rewrite Hc.
Qed.

Lemma sub_squeeze_from p repl (n : nat) prev s :
  String.length s ≤ n →
  sub_from (Rep p 1 None) repl 0 prev s = squeeze p repl false s.
Proof.
  revert prev s. induction n as [|n IH]; intros prev s Hn.
  { destruct s; [done|simpl in Hn; lia]. }
  destruct s as [|c s]; [done|].
  cbn [sub_from squeeze]. change (rmatch (Rep p 1 None) prev (String c s))
    with (map (λ tr : string * string, MRes tr.1 None tr.2)
            (rep_greedy p 1 None (String c s))).
  destruct (p c) eqn:Hc.
  - destruct (rep_greedy_plus_head p c s Hc) as (t & L & -> & Hs & Ht).
    cbn [map fst snd taken String.length pred].
    rewrite squeeze_true_lstrip. f_equal.
    rewrite Hs at 1. rewrite (sub_from_skip _ _ (String.length t)) by done.
    apply IH. simpl in Hn. rewrite Hs, sapp_length in Hn. lia.
  - assert (rep_greedy p 1 None (String c s) = []) as ->
      by (cbn [rep_greedy]; by rewrite Hc).
    cbn [map]. f_equal. apply IH. simpl in Hn. lia.
Qed.

Lemma re_sub_squeeze p repl s :
  re_sub (Rep p 1 None) repl s = squeeze p repl false s.
Proof. by apply (sub_squeeze_from _ _ (String.length s)). Qed.

(** *** The shape of a squeezed text *)

Ltac by_ascii := intros [[] [] [] [] [] [] [] []]; vm_compute; intros; (reflexivity || discriminate).

Lemma slug_not_underscore : ∀ c, slug_chr c = true → Ascii.eqb "_" c = false.
Proof. by_ascii. Qed.

Lemma slug_ascii : ∀ c, slug_or_underscore c = true → nfkd_ascii c = String c "".
Proof. by_ascii. Qed.

Lemma slug_lower : ∀ c, slug_or_underscore c = true → lower_chr c = c.
Proof. by_ascii. Qed.

Lemma slug_not_space : ∀ c, slug_or_underscore c = true → isspace c = false.
Proof. by_ascii. Qed.

Lemma underscore_eq c : Ascii.eqb "_" c = true → c = "_"%char.
Proof. by intros ->%Ascii.eqb_eq. Qed.

Section slug.
#[local] Abbreviation notslug := (λ c : ascii, negb (slug_chr c)).

Lemma underscore_sapp x : "_" +:+ x = String "_" x.
Proof. done. Qed.

Lemma squeeze_slug b t : sall slug_or_underscore (squeeze notslug "_" b t) = true.
Proof.
  revert b. induction t as [|c t IH]; intros b; [done|]. cbn [squeeze].
  destruct (slug_chr c) eqn:Hc; cbn [negb].
  - cbn [sall]. rewrite IH. unfold slug_or_underscore. by rewrite Hc.
  - destruct b; rewrite ?sapp_nil_l; [apply IH|].
    rewrite underscore_sapp. cbn [sall]. by rewrite IH.
Qed.

Lemma squeeze_true_head t : shead (squeeze notslug "_" true t) ≠ Some "_"%char.
Proof.
  induction t as [|c t IH]; [done|]. cbn [squeeze].
  destruct (slug_chr c) eqn:Hc; cbn [negb].
  - simpl. intros [= ->]. by vm_compute in Hc.
  - by rewrite sapp_nil_l.
Qed.

Lemma squeeze_no_double b t : contains "__" (squeeze notslug "_" b t) = false.
Proof.
  revert b. induction t as [|c t IH]; intros b; [done|]. cbn [squeeze].
  destruct (slug_chr c) eqn:Hc; cbn [negb].
  - rewrite contains_cons, IH, orb_false_r. cbn [startswith].
    by rewrite (slug_not_underscore _ Hc).
  - destruct b; rewrite ?sapp_nil_l; [apply IH|].
    rewrite underscore_sapp, contains_cons, IH, orb_false_r.
    pose proof (squeeze_true_head t) as Hh.
    destruct (squeeze notslug "_" true t) as [|d r]; [done|].
    cbn [startswith]. destruct (Ascii.eqb "_" d) eqn:Hd; [|by rewrite andb_false_r].
    apply underscore_eq in Hd as ->. by destruct Hh.
Qed.

Lemma squeeze_fixed h :
  sall slug_or_underscore h = true → contains "__" h = false →
  squeeze notslug "_" false h = h
  ∧ (shead h ≠ Some "_"%char → squeeze notslug "_" true h = h).
Proof.
  induction h as [|c h IH]; [done|]. cbn [sall]. rewrite contains_cons.
  intros [Hc Hs]%andb_true_iff [Hstart Hcont]%orb_false_iff.
  destruct (IH Hs Hcont) as [IH1 IH2]. cbn [squeeze].
  destruct (slug_chr c) eqn:Hslug; cbn [negb].
  - by rewrite IH1.
  - unfold slug_or_underscore in Hc. rewrite Hslug in Hc. simpl in Hc.
    apply underscore_eq in Hc as ->. split; [|by intros []].
    rewrite underscore_sapp. f_equal. apply IH2.
    destruct h as [|d h]; [done|]. simpl. intros [= ->]. done.
Qed.
End slug.

Lemma header_shape_normalize_header v : header_shape (normalize_header v).
Proof.
  unfold normalize_header. rewrite re_sub_squeeze. unfold strip_chr.
  set (t := lower _). split_and!.
  - rewrite sall_strip_by; [apply squeeze_slug|].
    intros c Hc. unfold slug_or_underscore. rewrite Hc. apply orb_true_r.
  - intros H%strip_by_head. done.
  - intros H%strip_by_last. done.
  - destruct (contains "__" (strip_by _ _)) eqn:Hc; [|done].
    apply contains_strip_by in Hc. by rewrite squeeze_no_double in Hc.
Qed.

Lemma sall_fixed_smap (f : ascii → ascii) q s :
  (∀ c, q c = true → f c = c) → sall q s = true → smap f s = s.
Proof.
  intros Hf. induction s as [|c s IH]; [done|]. simpl.
  intros [Hc Hs]%andb_true_iff. by rewrite (Hf _ Hc), IH.
Qed.

Lemma sall_fixed_sconcat_map (f : ascii → string) q s :
  (∀ c, q c = true → f c = String c "") → sall q s = true → sconcat_map f s = s.
Proof.
  intros Hf. induction s as [|c s IH]; [done|]. simpl.
  intros [Hc Hs]%andb_true_iff. by rewrite (Hf _ Hc), IH.
Qed.

Lemma sall_strip_fixed q s :
  (∀ c, q c = true → isspace c = false) → sall q s = true → strip s = s.
Proof.
  intros Hq Hs. apply strip_by_fixed.
  - intros c Hc. eapply Hq, sall_head; eauto.
  - intros c Hc. destruct (sall_last _ _ _ _ Hs Hc) as [?|?]; [done|]. by apply Hq.
Qed.

Lemma normalize_header_fixed h : header_shape h → normalize_header h = h.
Proof.
  intros (Hs & Hhead & Hlast & Hdouble). unfold normalize_header, normalize_text.
  rewrite (sall_strip_fixed slug_or_underscore) by (done || apply slug_not_space).
  rewrite (sall_fixed_sconcat_map _ slug_or_underscore) by (done || apply slug_ascii).
  unfold lower. rewrite (sall_fixed_smap _ slug_or_underscore) by (done || apply slug_lower).
  rewrite re_sub_squeeze. rewrite (proj1 (squeeze_fixed h Hs Hdouble)).
  apply strip_by_fixed.
  - intros c Hc. destruct (Ascii.eqb "_" c) eqn:He; [|done].
    apply underscore_eq in He as ->. done.
  - intros c Hc. destruct (Ascii.eqb "_" c) eqn:He; [|done].
    apply underscore_eq in He as ->. done.
Qed.

Lemma find_none_iff {A : Type} (f : A → bool) (l : list A) :
  List.find f l = None ↔ ∀ x, x ∈ l → f x = false.
Proof.
  induction l as [|y l IH]; simpl.
  - split; [|done]. by intros _ x ?%elem_of_nil.
  - destruct (f y) eqn:Hy.
    + split; [done|]. intros H. rewrite H in Hy; [done|]. apply elem_of_cons. by left.
    + rewrite IH. split.
      * intros H x [->|?]%elem_of_cons; auto.
      * intros H x Hx. apply H, elem_of_cons. by right.
Qed.

(** X9.  [normalize_header] is a projection onto the texts made of
    lower-case letters, digits and underscores with no underscore at either
    end and no two in a row: every result has that shape, and a text of that
    shape is returned as it is; so the function is idempotent.  No result
    holds a hyphen: the alias "e-mail" of the email role never matches, a
    column is taken for the email by its name only when its header
    normalises to "email", "e_mail", "mail" or "correio_eletronico". *)
Theorem normalize_header_projects_onto_slugs :
  (∀ v, header_shape (normalize_header v))
  ∧ (∀ h, header_shape h → normalize_header h = h)
  ∧ (∀ v, normalize_header (normalize_header v) = normalize_header v)
  ∧ (∀ v, normalize_header v ≠ "e-mail")
  ∧ (∀ columns col, alias_of email columns = Some col →
       normalize_header col ∈ ["email"; "e_mail"; "mail"; "correio_eletronico"])
  ∧ normalize_header "  E-mail (Principal) " = "e_mail_principal".
Proof.
  assert (∀ v, normalize_header v ≠ "e-mail") as Hdead.
  { intros v Hv. destruct (header_shape_normalize_header v) as [Hs _].
    rewrite Hv in Hs. by vm_compute in Hs. }
  split_and!.
  - apply header_shape_normalize_header.
  - apply normalize_header_fixed.
  - intros v. apply normalize_header_fixed, header_shape_normalize_header.
  - done.
  - intros columns col Hcol. unfold alias_of in Hcol.
    apply find_some in Hcol as [_ Hmem]. unfold mem in Hmem.
    apply bool_decide_eq_true in Hmem. simpl in Hmem.
    specialize (Hdead col). set_solver.
  - reflexivity.
Qed.

End HeaderFacts.

(** ** Tables without a header *)

Module HeaderlessFacts.
Import Text Regex RegexFacts TextFacts ScoreFacts Strings StringsFacts App HeaderProps
  HeaderFacts.

Lemma digits_all d : sall is_digit (NilEmpty.string_of_uint d) = true.
Proof. induction d as [|d IH|d IH|d IH|d IH|d IH|d IH|d IH|d IH|d IH|d IH]; [done|..]; cbn [NilEmpty.string_of_uint sall]; by rewrite IH. Qed.

Lemma digits_nonempty n : NilEmpty.string_of_uint (Nat.to_uint n) ≠ "".
Proof.
  pose proof (DecimalNat.Unsigned.to_of (Nat.to_uint n)) as H.
  rewrite DecimalNat.Unsigned.of_to in H.
  destruct (Nat.to_uint n); try done.
Qed.

Lemma digit_slug : ∀ c, is_digit c = true → slug_or_underscore c = true.
Proof. HeaderFacts.by_ascii. Qed.

Lemma digit_not_underscore : ∀ c, is_digit c = true → Ascii.eqb "_" c = false.
Proof. HeaderFacts.by_ascii. Qed.

Lemma digits_no_double ds : sall is_digit ds = true → contains "__" ds = false.
Proof.
  induction ds as [|c ds IH]; [done|]. cbn [sall].
  intros [Hc Hs]%andb_true_iff. rewrite contains_cons, IH, orb_false_r by done.
  cbn [startswith]. by rewrite (digit_not_underscore _ Hc).
Qed.

Lemma col_name_shape ds :
  ds ≠ "" → sall is_digit ds = true → header_shape ("col_" +:+ ds).
Proof.
  intros Hne Hds. split_and!.
  - rewrite sall_app. rewrite (sall_impl is_digit slug_or_underscore ds digit_slug Hds).
    reflexivity.
  - done.
  - rewrite ValidityFacts.last_chr_app.
    destruct (ValidityFacts.last_chr_sall is_digit (last_chr None "col_") ds Hne Hds)
      as (c & -> & Hc).
    intros [= ->]. by vm_compute in Hc.
  - change ("col_" +:+ ds) with (String "c" (String "o" (String "l" (String "_" ds)))).
    rewrite !contains_cons, digits_no_double by done.
    destruct ds as [|c ds]; [done|]. cbn [sall] in Hds.
    apply andb_true_iff in Hds as [Hc _]. cbn [startswith].
    rewrite (digit_not_underscore _ Hc). reflexivity.
Qed.

Lemma col_name_fixed (i : nat) :
  let name := "col_" +:+ NilEmpty.string_of_uint (Nat.to_uint (i + 1)) in
  normalize_text name = name ∧ normalize_header name = name.
Proof.
  intros name.
  assert (header_shape name) as Hshape
    by (apply col_name_shape; [apply digits_nonempty|apply digits_all]).
  split; [|by apply normalize_header_fixed].
  unfold normalize_text. destruct Hshape as [Hs _].
  by apply (sall_strip_fixed slug_or_underscore); [apply slug_not_space|].
Qed.

Lemma synthetic_columns (df' : DataFrame) :
  df_columns (strip_names (synthetic_names df'))
  = (λ i, "col_" +:+ NilEmpty.string_of_uint (Nat.to_uint (i + 1))) <$> seq 0 (length df').
Proof.
  unfold df_columns, strip_names, synthetic_names.
  apply list_eq. intros i. rewrite !AppFacts.lookup_map, list_lookup_imap.
  change DataFrame with (list (string * list string)) in df'.
  destruct (df' !! i) as [col|] eqn:Hi; simpl.
  - rewrite lookup_seq_lt by (by eapply lookup_lt_Some). simpl.
    f_equal. apply col_name_fixed.
  - rewrite lookup_seq_ge; [done|]. by apply lookup_ge_None.
Qed.

Lemma col_name_no_alias (i : nat) (f : field) :
  mem ("col_" +:+ NilEmpty.string_of_uint (Nat.to_uint (i + 1))) (HEADER_ALIASES f) = false.
Proof.
  unfold mem. apply bool_decide_eq_false.
  change ("col_" +:+ ?ds) with (String "c" (String "o" (String "l" (String "_" ds)))).
  destruct f; simpl; rewrite !elem_of_cons, elem_of_nil; intros H;
    repeat (destruct H as [H|H]; [discriminate|]); done.
Qed.

Lemma synthetic_alias_of (df' : DataFrame) (f : field) :
  alias_of f (df_columns (strip_names (synthetic_names df'))) = None.
Proof.
  unfold alias_of. apply find_none_iff. intros c.
  rewrite synthetic_columns. intros (i & -> & _)%list_elem_of_fmap.
  rewrite (proj2 (col_name_fixed i)). apply col_name_no_alias.
Qed.

(** X10.  A table read without a header gets the names col_1, col_2,
    ...; none of them is an alias of a role, so a table of five or more
    columns is mapped by position: col_1 the source, col_2 the document,
    col_3 the name, col_4 the email, col_5 the region, whatever the cells
    hold.  [read_table] reads a CSV file that way when the first record,
    read as a header, names no known column and holds an at sign or a text
    of 11 or 14 digits. *)
Theorem headerless_table_is_mapped_by_position (df' : DataFrame) :
  5 ≤ length df' →
  df_columns (strip_names (synthetic_names df'))
  = (λ i, "col_" +:+ NilEmpty.string_of_uint (Nat.to_uint (i + 1))) <$> seq 0 (length df')
  ∧ guess_columns (strip_names (synthetic_names df')) = by_position
  ∧ (∀ (read_csv : string → header_opt → ascii → result DataFrame)
       (read_excel : string → header_opt → result DataFrame)
       (f : upload) (df0 : DataFrame),
       after_last_dot (lower (up_name f)) = "csv" →
       read_csv (up_value f) header_first (detect_csv_delimiter (up_value f)) = Ok df0 →
       looks_like_no_header (df_columns df0) = true →
       read_csv (up_value f) header_none (detect_csv_delimiter (up_value f)) = Ok df' →
       read_table read_csv read_excel f = Ok (strip_names (synthetic_names df'))).
Proof.
  intros Hlen. split_and!.
  - apply synthetic_columns.
  - unfold guess_columns.
    assert (all_none (guess_by_alias (df_columns (strip_names (synthetic_names df')))) = true)
      as ->.
    { unfold all_none, guess_by_alias. cbn [g_source g_document g_name g_email g_region].
      by rewrite !synthetic_alias_of. }
    rewrite synthetic_columns, length_fmap, length_seq.
    rewrite (proj2 (Nat.leb_le 5 (length df'))) by done. cbn [andb].
    unfold by_position. rewrite !list_lookup_fmap, !lookup_seq_lt by lia. reflexivity.
  - intros read_csv read_excel f df0 Hsuffix H0 Hno H'.
    unfold read_table. rewrite Hsuffix. simpl. rewrite H0. simpl. rewrite Hno, H'. done.
Qed.

Lemma headerless_table_is_mapped_by_position_witness :
  let df' := [("0", ["Acme"]); ("1", ["12345678901"]); ("2", ["Joao"]);
              ("3", ["joao@gmail.com"]); ("4", ["Sao Paulo/SP"])] in
  5 ≤ length df'
  ∧ guess_columns (strip_names (synthetic_names df')) = by_position.
Proof.
  intros df'. assert (5 ≤ length df') as H by (simpl; lia). split; [done|].
  exact (proj1 (proj2 (headerless_table_is_mapped_by_position df' H))).
Defined.

End HeaderlessFacts.

(** ** The mapping of the columns *)

Module MappingFacts.
Import Text Regex Ranking RankingFacts App Report Page PageProps.

Lemma columns_named_0 df col : columns_named df col = 0 ↔ col ∉ df_columns df.
Proof.
  unfold columns_named, df_columns. induction df as [|[k cells] df IH]; simpl.
  - split; [intros _; apply not_elem_of_nil|done].
  - rewrite not_elem_of_cons. destruct (String.eqb_spec k col) as [->|Hne]; simpl.
    + split; [done|]. by intros [? _].
    + rewrite IH. split; [by split|by intros [_ ?]].
Qed.

Lemma columns_named_NoDup df col :
  NoDup (df_columns df) →
  columns_named df col = if mem col (df_columns df) then 1 else 0.
Proof.
  intros Hnd. unfold mem. case_bool_decide as Hin.
  - unfold columns_named, df_columns in *.
    induction df as [|[k cells] df IH]; simpl in *; [by apply elem_of_nil in Hin|].
    apply NoDup_cons in Hnd as [Hk Hnd].
    destruct (String.eqb_spec k col) as [->|Hne]; simpl.
    + f_equal. by apply (columns_named_0 df col).
    + apply IH; [done|]. apply elem_of_cons in Hin as [?|?]; [congruence|done].
  - by apply columns_named_0.
Qed.

Lemma pick_column_unusable df (sel : option string) :
  match pick_column df sel with
  | Ok _ => List.filter (λ col, negb (is_empty col) && negb (columns_named df col =? 1))
              (option_list sel) = []
  | Raise e => ∃ col, sel = Some col ∧ e = pick_error df col
               ∧ List.filter (λ col, negb (is_empty col)
                                     && negb (columns_named df col =? 1))
                   (option_list sel) = [col]
  end.
Proof.
  destruct sel as [col|]; [|done]. unfold pick_column, pick_error, columns_named.
  simpl. destruct (is_empty col); [done|]. simpl.
  destruct (List.filter (λ c : string * list string, String.eqb c.1 col) df)
    as [|c [|c' rest]] eqn:Hf; simpl; [|done|]; exists col; by rewrite Hf.
Qed.

Lemma List_filter_app {A : Type} (f : A → bool) (l k : list A) :
  List.filter f (l ++ k) = List.filter f l ++ List.filter f k.
Proof. induction l as [|x l IH]; simpl; [done|]. destruct (f x); simpl; by rewrite IH. Qed.

(** [build_analysis] fails on the first selected column, in the order
    source, document, name, email, region, that [pick_column] cannot take. *)
Lemma build_analysis_unusable df mapping :
  build_analysis df mapping =
  match unusable_columns df mapping with
  | [] => match build_base df mapping with
          | Ok b => Ok (analyse b)
          | Raise e => Raise e
          end
  | col :: _ => Raise (pick_error df col)
  end
  ∧ (unusable_columns df mapping = [] → ∃ b, build_base df mapping = Ok b).
Proof.
  unfold build_analysis, build_base, unusable_columns, roles.
  set (bad := λ col, negb (is_empty col) && negb (columns_named df col =? 1)).
  assert (omap (guessed_for mapping) [source; document; name; email; region]
          = option_list (g_source mapping) ++ option_list (g_document mapping)
            ++ option_list (g_name mapping) ++ option_list (g_email mapping)
            ++ option_list (g_region mapping)) as ->.
  { simpl. by destruct (g_source mapping), (g_document mapping), (g_name mapping),
      (g_email mapping), (g_region mapping). }
  rewrite !List_filter_app.
  pose proof (pick_column_unusable df (g_source mapping)) as H1.
  pose proof (pick_column_unusable df (g_document mapping)) as H2.
  pose proof (pick_column_unusable df (g_name mapping)) as H3.
  pose proof (pick_column_unusable df (g_email mapping)) as H4.
  pose proof (pick_column_unusable df (g_region mapping)) as H5.
  fold bad in H1, H2, H3, H4, H5.
  destruct (pick_column df (g_source mapping)) as [o|e1];
    [rewrite H1|destruct H1 as (c & _ & -> & ->); simpl; split; [done|done]].
  destruct (pick_column df (g_document mapping)) as [d|e2];
    [rewrite H2|destruct H2 as (c & _ & -> & ->); simpl; split; [done|done]].
  destruct (pick_column df (g_name mapping)) as [n|e3];
    [rewrite H3|destruct H3 as (c & _ & -> & ->); simpl; split; [done|done]].
  destruct (pick_column df (g_email mapping)) as [e|e4];
    [rewrite H4|destruct H4 as (c & _ & -> & ->); simpl; split; [done|done]].
  destruct (pick_column df (g_region mapping)) as [r|e5];
    [rewrite H5|destruct H5 as (c & _ & -> & ->); simpl; split; [done|done]].
  simpl. split; [done|eauto].
Qed.

Lemma List_filter_ext_all {A : Type} (f g : A → bool) (l : list A) :
  (∀ x, f x = g x) → List.filter f l = List.filter g l.
Proof. intros H. induction l as [|x l IH]; simpl; [done|]. by rewrite H, IH. Qed.

(** In a table of distinct column names the columns that cannot be taken
    are the missing ones. *)
Lemma unusable_missing df mapping :
  NoDup (df_columns df) → unusable_columns df mapping = missing_columns df mapping.
Proof.
  intros Hnd. unfold unusable_columns, missing_columns.
  apply List_filter_ext_all. intros col. rewrite (columns_named_NoDup df col Hnd).
  by destruct (mem col (df_columns df)).
Qed.

Lemma pick_error_missing df col : col ∉ df_columns df → pick_error df col = KeyError col.
Proof. intros H%columns_named_0. unfold pick_error. by rewrite H. Qed.

Lemma build_analysis_missing df mapping :
  NoDup (df_columns df) →
  build_analysis df mapping =
  match missing_columns df mapping with
  | [] => match build_base df mapping with
          | Ok b => Ok (analyse b)
          | Raise e => Raise e
          end
  | col :: _ => Raise (KeyError col)
  end
  ∧ (missing_columns df mapping = [] → ∃ b, build_base df mapping = Ok b).
Proof.
  intros Hnd. destruct (build_analysis_unusable df mapping) as [Heq Hok].
  rewrite (unusable_missing df mapping Hnd) in Heq, Hok. split; [|done].
  rewrite Heq. destruct (missing_columns df mapping) as [|col rest] eqn:Hm; [done|].
  f_equal. apply pick_error_missing.
  assert (col ∈ missing_columns df mapping) as Hin by (rewrite Hm; apply elem_of_cons; by left).
  unfold missing_columns in Hin. apply AppFacts.elem_of_List_filter in Hin as [_ Hbad].
  apply andb_true_iff in Hbad as [_ Hbad]. apply negb_true_iff in Hbad.
  unfold mem in Hbad. by apply bool_decide_eq_false in Hbad.
Qed.

Lemma elem_of_selected mapping col :
  col ∈ omap (guessed_for mapping) roles ↔ ∃ f, guessed_for mapping f = Some col.
Proof.
  rewrite list_elem_of_omap. split.
  - intros (f & _ & Hf). eauto.
  - intros [f Hf]. exists f. split; [|done]. unfold roles. destruct f; set_solver.
Qed.

(** X11.  [build_analysis] returns exactly when every selected name that
    is not empty is the name of exactly one column of the table; otherwise
    it raises on the first selected name, in the order source, document,
    name, email, region, that is not: [KeyError] when no column has the name,
    [AttributeError] when two columns have it.  In a table of distinct
    column names the names it cannot take are the missing ones, and the
    exception is the [KeyError] of the first missing one.  A role with no
    selection, or with the empty name, gets a column of empty cells. *)
Theorem build_analysis_fails_on_first_missing_column (df : DataFrame) (mapping : guess) :
  ((∃ a, build_analysis df mapping = Ok a) ↔ unusable_columns df mapping = [])
  ∧ (∀ e, build_analysis df mapping = Raise e ↔
          ∃ col rest, unusable_columns df mapping = col :: rest ∧ e = pick_error df col)
  ∧ (∀ col, col ∈ unusable_columns df mapping ↔
       (∃ f, guessed_for mapping f = Some col) ∧ col ≠ ""
       ∧ columns_named df col ≠ 1)
  ∧ (∀ col, columns_named df col = 0 ↔ col ∉ df_columns df)
  ∧ (∀ col, pick_error df col = KeyError col ↔ col ∉ df_columns df)
  ∧ (NoDup (df_columns df) →
     unusable_columns df mapping = missing_columns df mapping
     ∧ ((∃ a, build_analysis df mapping = Ok a) ↔ missing_columns df mapping = [])
     ∧ (∀ e, build_analysis df mapping = Raise e ↔
             ∃ col rest, missing_columns df mapping = col :: rest ∧ e = KeyError col)
     ∧ (∀ col, col ∈ missing_columns df mapping ↔
          (∃ f, guessed_for mapping f = Some col) ∧ col ≠ "" ∧ (col ∉ df_columns df)))
  ∧ pick_column df None = Ok (replicate (df_len df) "")
  ∧ pick_column df (Some "") = Ok (replicate (df_len df) "")
  ∧ build_analysis [("E-MAIL", ["a@b.co"]); ("NOME", ["Ana"]); ("E-MAIL", ["c@d.co"])]
      {| g_source := None; g_document := Some "CPF"; g_name := Some "NOME";
         g_email := Some "E-MAIL"; g_region := None |}
    = Raise (KeyError "CPF")
  ∧ build_analysis [("E-MAIL", ["a@b.co"]); ("NOME", ["Ana"]); ("E-MAIL", ["c@d.co"])]
      {| g_source := None; g_document := None; g_name := Some "NOME";
         g_email := Some "E-MAIL"; g_region := None |}
    = Raise (AttributeError "'DataFrame' object has no attribute 'str'").
Proof.
  destruct (build_analysis_unusable df mapping) as [Heq Hok].
  assert (∀ col, is_empty col = false ↔ col ≠ "") as Hempty
    by (intros col; destruct col; naive_solver).
  split_and!.
  - rewrite Heq. destruct (unusable_columns df mapping) as [|col rest].
    + destruct (Hok eq_refl) as [b ->]. split; [done|eauto].
    + split; [by intros [? ?]|done].
  - intros e. rewrite Heq. destruct (unusable_columns df mapping) as [|col rest].
    + destruct (Hok eq_refl) as [b ->]. split; [done|]. by intros (? & ? & ? & _).
    + split.
      * intros [= <-]. eauto.
      * by intros (? & ? & [= <- _] & ->).
  - intros col. unfold unusable_columns. rewrite AppFacts.elem_of_List_filter.
    rewrite andb_true_iff, !negb_true_iff, Nat.eqb_neq, Hempty, elem_of_selected.
    done.
  - apply columns_named_0.
  - intros col. rewrite <- columns_named_0. unfold pick_error.
    destruct (Nat.eqb_spec (columns_named df col) 0); split; done.
  - intros Hnd. destruct (build_analysis_missing df mapping Hnd) as [Heq' Hok'].
    split_and!.
    + by apply unusable_missing.
    + rewrite Heq'. destruct (missing_columns df mapping) as [|col rest].
      * destruct (Hok' eq_refl) as [b ->]. split; [done|eauto].
      * split; [by intros [? ?]|done].
    + intros e. rewrite Heq'. destruct (missing_columns df mapping) as [|col rest].
      * destruct (Hok' eq_refl) as [b ->]. split; [done|]. by intros (? & ? & ? & _).
      * split.
        -- intros [= <-]. eauto.
        -- by intros (? & ? & [= <- _] & ->).
    + intros col. unfold missing_columns. rewrite AppFacts.elem_of_List_filter.
      rewrite andb_true_iff, !negb_true_iff. unfold mem.
      rewrite bool_decide_eq_false, Hempty, elem_of_selected. done.
  - reflexivity.
  - reflexivity.
  - reflexivity.
  - reflexivity.
Qed.

(** *** What the page can select *)

Lemma first_index_lookup k l : k ∈ l → l !! first_index k l = Some k.
Proof.
  induction l as [|x l IH]; [by intros ?%elem_of_nil|]. simpl.
  destruct (decide (k = x)) as [->|Hne]; [done|].
  intros [?|?]%elem_of_cons; [done|]. by apply IH.
Qed.

Lemma best_column_in f df c : best_column f df = Some c → c ∈ df_columns df.
Proof.
  unfold best_column, scored.
  destruct (sort_by by_score _) as [|[col sc] rest] eqn:Hs; [done|].
  destruct (negb (Qle_bool sc 0)); [|done]. intros [= <-].
  assert ((col, sc) ∈ map (λ col, (col, f (df_col df col))) (df_columns df)) as Hin.
  { apply (elem_of_sort_by by_score). rewrite Hs. apply elem_of_cons. by left. }
  change (map ?g ?l) with (g <$> l) in Hin.
  by apply list_elem_of_fmap in Hin as (c & [= -> _] & Hc).
Qed.

Lemma alias_of_in f columns c : alias_of f columns = Some c → c ∈ columns.
Proof. unfold alias_of. intros [H _]%find_some. by apply list_elem_of_In. Qed.

Lemma or_else_in (o alt : option string) (l : list string) c :
  (∀ c, o = Some c → c ∈ l) → (∀ c, alt = Some c → c ∈ l) →
  or_else o alt = Some c → c ∈ l.
Proof. destruct o; simpl; auto. Qed.

Lemma guess_columns_in df f c :
  guessed_for (guess_columns df) f = Some c → c ∈ df_columns df.
Proof.
  unfold guess_columns.
  assert (∀ (i : nat) c, df_columns df !! i = Some c → c ∈ df_columns df) as Hpos
    by (intros i c' H; by eapply list_elem_of_lookup_2).
  destruct (5 <=? length (df_columns df)); cbn [andb];
    [destruct (all_none _)|].
  - destruct f; simpl; apply Hpos.
  - destruct f; simpl; apply or_else_in;
      try (intros c'; apply alias_of_in); try (intros c'; apply best_column_in);
      try (intros c'; apply Hpos).
  - destruct f; simpl; apply or_else_in;
      try (intros c'; apply alias_of_in); try (intros c'; apply best_column_in);
      try (intros c'; apply Hpos); done.
Qed.

Lemma selected_of_in df choice c :
  choice ∈ options df → selected_of choice = Some c → c ∈ df_columns df.
Proof.
  unfold selected_of, options. destruct (String.eqb_spec choice NAO_USAR) as [->|Hne]; [done|].
  intros [?|?]%elem_of_cons [= <-]; done.
Qed.

Lemma default_choice_selected df f :
  NAO_USAR ∉ df_columns df →
  selected_of (default_choice df f) = guessed_for (guess_columns df) f.
Proof.
  intros Hnao. unfold default_choice, default_index.
  destruct (guessed_for (guess_columns df) f) as [c|] eqn:Hg; [|done].
  pose proof (guess_columns_in df f c Hg) as Hc.
  assert (c ∈ options df) as Hopt by (apply elem_of_cons; by right).
  unfold mem. rewrite bool_decide_eq_true_2 by done.
  rewrite first_index_lookup by done. simpl. unfold selected_of.
  destruct (String.eqb_spec c NAO_USAR) as [->|Hne]; done.
Qed.

(** X12.  The page offers "(nao usar)" and the columns of the table;
    each box shows the guessed column of its role, so a mapping that is left
    untouched is the guess (no column being named "(nao usar)"); the guess
    names columns of the table only; and whatever is chosen in the five
    boxes, [build_analysis] finds every selected column: in a table of
    distinct column names it never raises [KeyError]. *)
Theorem selection_never_misses_a_column (df : DataFrame) (choice : field → string) :
  NoDup (df_columns df) →
  (∀ f, choice f ∈ options df) →
  (∃ a, build_analysis df (selected choice) = Ok a)
  ∧ (∀ f c, guessed_for (guess_columns df) f = Some c → c ∈ df_columns df)
  ∧ (∀ f, default_choice df f ∈ options df)
  ∧ (NAO_USAR ∉ df_columns df → selected (default_choice df) = guess_columns df)
  ∧ (selected_of (choice email) = None →
       analyse_selection df choice
       = Ok (inl (st_error "Selecione a coluna de e-mail para continuar."))).
Proof.
  intros Hnodup Hchoice. split_and!.
  - destruct (build_analysis_missing df (selected choice) Hnodup) as [Heq Hok].
    assert (missing_columns df (selected choice) = []) as Hnone.
    { destruct (missing_columns df (selected choice)) as [|col rest] eqn:Hm; [done|].
      assert (col ∈ missing_columns df (selected choice)) as Hin
        by (rewrite Hm; apply elem_of_cons; by left).
      unfold missing_columns in Hin. apply AppFacts.elem_of_List_filter in Hin as [Hin Hbad].
      apply list_elem_of_omap in Hin as (f & _ & Hf).
      apply andb_true_iff in Hbad as [_ Hbad]. apply negb_true_iff in Hbad.
      unfold mem in Hbad. apply bool_decide_eq_false in Hbad. destruct Hbad.
      destruct f; simpl in Hf; eapply selected_of_in; eauto. }
    rewrite Heq, Hnone. destruct (Hok Hnone) as [b ->]. eauto.
  - apply guess_columns_in.
  - intros f. unfold default_choice.
    destruct (options df !! _) as [c|] eqn:Hc; simpl.
    + by eapply list_elem_of_lookup_2.
    + apply elem_of_cons. by left.
  - intros Hnao. unfold selected.
    rewrite !default_choice_selected by done. by destruct (guess_columns df).
  - intros Hnone. unfold analyse_selection. simpl. by rewrite Hnone.
Qed.

Lemma selection_never_misses_a_column_witness :
  NoDup (df_columns Spec.contacts_table)
  ∧ (∀ f, default_choice Spec.contacts_table f ∈ options Spec.contacts_table)
  ∧ ∃ a, build_analysis Spec.contacts_table (selected (default_choice Spec.contacts_table))
         = Ok a.
Proof.
  assert (NoDup (df_columns Spec.contacts_table)) as Hnd by (vm_compute; by compute_done).
  assert (∀ f, default_choice Spec.contacts_table f ∈ options Spec.contacts_table) as Hch.
  { intros f. destruct f; vm_compute; set_solver. }
  split; [done|]. split; [done|].
  exact (proj1 (selection_never_misses_a_column Spec.contacts_table
                  (default_choice Spec.contacts_table) Hnd Hch)).
Defined.

End MappingFacts.

(** ** Counting with counters *)

Module CountFacts.
Import Text Regex Ranking RankingFacts CounterFacts Props.

Lemma counter_of_perm (l : list string) :
  counter_of l ≡ₚ (λ k, (k, occurrences k l)) <$> remove_dups l.
Proof.
  apply NoDup_Permutation.
  - eapply NoDup_fmap_1, counter_of_NoDup.
  - apply NoDup_fmap_2; [by intros k k' [= ?]|apply NoDup_remove_dups].
  - intros [k c]. rewrite TopFacts.elem_of_counter_of, list_elem_of_fmap.
    split.
    + intros [Hk ->]. exists k. split; [done|]. by rewrite elem_of_remove_dups.
    + intros (k' & [= -> ->] & Hk). split; [|done]. by rewrite elem_of_remove_dups in Hk.
Qed.

Lemma value_counts_perm (l : list string) :
  App.value_counts l ≡ₚ (λ k, (k, occurrences k l)) <$> remove_dups l.
Proof.
  unfold App.value_counts, sorted_desc. rewrite sort_by_perm. apply counter_of_perm.
Qed.

Lemma List_filter_perm {A : Type} (f : A → bool) (l k : list A) :
  l ≡ₚ k → List.filter f l ≡ₚ List.filter f k.
Proof. intros H. rewrite !List_filter_stdpp. by rewrite H. Qed.

Lemma length_List_filter_fmap {A B : Type} (g : A → B) (f : B → bool) (l : list A) :
  length (List.filter f (g <$> l)) = length (List.filter (λ x, f (g x)) l).
Proof. induction l as [|x l IH]; csimpl; [done|]. destruct (f (g x)); simpl; by rewrite IH. Qed.

Lemma length_value_counts l : length (App.value_counts l) = distinct l.
Proof. unfold distinct. by rewrite value_counts_perm, length_fmap. Qed.

Lemma occurrences_filter (Q : string → bool) (t : string) (l : list string) :
  Q t = true → occurrences t (List.filter Q l) = occurrences t l.
Proof.
  intros Ht. induction l as [|x l IH]; [done|]. simpl.
  destruct (Q x) eqn:Hx.
  - by rewrite !BatchFacts.occurrences_cons, IH.
  - rewrite BatchFacts.occurrences_cons, IH. destruct (decide (x = t)); [congruence|done].
Qed.

Lemma total_pairs (P : nat → bool) (l d : list string) :
  total (List.filter (λ kv : string * nat, P kv.2) ((λ k, (k, occurrences k l)) <$> d))
  = sum_list ((λ t, occurrences t l) <$> List.filter (λ k, P (occurrences k l)) d).
Proof.
  induction d as [|k d IH]; csimpl; [done|].
  destruct (P (occurrences k l)); csimpl; by rewrite IH.
Qed.

(** The counts of the keys kept by a test on the count add up to the
    number of items whose key is kept. *)
Lemma total_filter_value_counts (P : nat → bool) (l : list string) :
  total (List.filter (λ kv : string * nat, P kv.2) (App.value_counts l))
  = length (List.filter (λ e, P (occurrences e l)) l).
Proof.
  rewrite (total_perm _ _ (List_filter_perm _ _ _ (value_counts_perm l))).
  rewrite total_pairs.
  set (Q := λ e, P (occurrences e l)).
  rewrite <- (BatchFacts.sum_occurrences (List.filter Q l) (List.filter Q (remove_dups l))).
  - f_equal. apply list_fmap_ext. intros i t Ht.
    apply list_elem_of_lookup_2, AppFacts.elem_of_List_filter in Ht as [_ Ht].
    symmetry. by apply occurrences_filter.
  - rewrite List_filter_stdpp. apply NoDup_filter, NoDup_remove_dups.
  - intros x [Hx HQ]%AppFacts.elem_of_List_filter. apply AppFacts.elem_of_List_filter.
    split; [by rewrite elem_of_remove_dups|done].
Qed.

Lemma length_filter_value_counts (P : nat → bool) (l : list string) :
  length (List.filter (λ kv : string * nat, P kv.2) (App.value_counts l))
  = length (List.filter (λ k, P (occurrences k l)) (remove_dups l)).
Proof.
  rewrite (List_filter_perm _ _ _ (value_counts_perm l)).
  by rewrite length_List_filter_fmap.
Qed.

(** Items beyond the first of their key, counted on the repeated keys. *)
Lemma repeats_on_repeated_keys (l d : list string) :
  (∀ k, k ∈ d → k ∈ l) →
  sum_list ((λ t, occurrences t l - 1) <$> d)
  + length (List.filter (λ k, 1 <? occurrences k l) d)
  = sum_list ((λ t, occurrences t l) <$> List.filter (λ k, 1 <? occurrences k l) d).
Proof.
  induction d as [|k d IH]; intros Hd; csimpl; [done|].
  pose proof (BatchFacts.occurrences_pos k l (Hd k ltac:(apply elem_of_cons; auto))) as Hpos.
  specialize (IH ltac:(intros k' Hk'; apply Hd, elem_of_cons; auto)).
  destruct (1 <? occurrences k l) eqn:Hk; csimpl.
  - lia.
  - apply Nat.ltb_ge in Hk. lia.
Qed.

Lemma size_list_to_set_split (l : list string) :
  size (list_to_set l : gset string)
  = size (list_to_set (List.filter (λ e, negb (Text.is_empty e)) l) : gset string)
    + (if App.mem "" l then 1 else 0).
Proof.
  set (ne := List.filter (λ e, negb (Text.is_empty e)) l).
  assert (∀ x, x ∈ ne ↔ x ∈ l ∧ x ≠ "") as Hne.
  { intros x. unfold ne. rewrite AppFacts.elem_of_List_filter, negb_true_iff.
    destruct x; naive_solver. }
  unfold App.mem. case_bool_decide as Hin.
  - replace (list_to_set l : gset string) with (list_to_set ne ∪ {[""]} : gset string).
    + rewrite (size_union (C:=gset string)), (size_singleton (C:=gset string)); [done|].
      set_unfold. naive_solver.
    + apply set_eq. intros x. set_unfold. rewrite Hne.
      destruct (decide (x = "")) as [->|]; naive_solver.
  - rewrite Nat.add_0_r. f_equal. apply set_eq. intros x. set_unfold. rewrite Hne.
    split; [|naive_solver]. intros Hx. split; [done|]. by intros ->.
Qed.

Lemma length_drop_duplicates_from {A : Type} (key : A → string) (seen : gset string)
  (l : list A) :
  length (Report.drop_duplicates_from key seen l)
  = size (list_to_set (key <$> l) ∖ seen : gset string).
Proof.
  revert seen. induction l as [|x l IH]; intros seen; csimpl.
  - replace (∅ ∖ seen) with (∅ : gset string) by (apply set_eq; set_solver). done.
  - case_bool_decide as Hin; simpl; rewrite IH.
    + f_equal. apply set_eq. set_solver.
    + replace (({[key x]} ∪ list_to_set (key <$> l)) ∖ seen)
        with ({[key x]} ∪ list_to_set (key <$> l) ∖ (seen ∪ {[key x]}) : gset string)
        by (apply set_eq; intros y; set_unfold; destruct (decide (y = key x)); naive_solver).
      pose proof (@size_union string (gset string) _ _ _ _ _ _ _ _ _ {[key x]}
                    (list_to_set (key <$> l) ∖ (seen ∪ {[key x]}))) as Hsize.
      rewrite Hsize by set_solver.
      by rewrite (@size_singleton string (gset string) _ _ _ _ _ _ _ _ _).
Qed.

Lemma drop_duplicates_from_spec {A : Type} (key : A → string) (seen : gset string)
  (l : list A) :
  NoDup (key <$> Report.drop_duplicates_from key seen l)
  ∧ (∀ x, x ∈ Report.drop_duplicates_from key seen l → x ∈ l ∧ key x ∉ seen)
  ∧ (∀ x, x ∈ l → key x ∉ seen →
       key x ∈ key <$> Report.drop_duplicates_from key seen l).
Proof.
  revert seen. induction l as [|x l IH]; intros seen; csimpl.
  - split_and!; [constructor|by intros ? ?%elem_of_nil..].
  - destruct (IH seen) as (IH1 & IH2 & IH3).
    destruct (IH (seen ∪ {[key x]})) as (IH1' & IH2' & IH3').
    case_bool_decide as Hin.
    + split_and!; [done| |].
      * intros y Hy. apply IH2 in Hy as [? ?]. split; [|done]. apply elem_of_cons. auto.
      * intros y [->|Hy]%elem_of_cons Hk; [done|]. by apply IH3.
    + csimpl. split_and!.
      * apply NoDup_cons. split; [|done].
        intros (y & Hk & Hy)%list_elem_of_fmap. apply IH2' in Hy as [_ Hy].
        rewrite <- Hk in Hy. set_solver.
      * intros y [->|Hy]%elem_of_cons; [split; [apply elem_of_cons; auto|done]|].
        apply IH2' in Hy as [? Hy]. split; [apply elem_of_cons; auto|set_solver].
      * intros y [->|Hy]%elem_of_cons Hk; [apply elem_of_cons; auto|].
        destruct (decide (key y = key x)) as [->|Hne]; [apply elem_of_cons; auto|].
        apply elem_of_cons. right. apply IH3'; [done|set_solver].
Qed.

End CountFacts.

(** ** The rows and the metrics of [build_analysis] *)

Module ReportFacts.
Import Text Regex Ranking RankingFacts CounterFacts TextFacts App Report Page Props
  PageProps CountFacts.

Lemma length_rows_of b : length (rows_of b) = nrows b.
Proof. unfold rows_of. by rewrite length_map, length_seq. Qed.

Lemma rows_of_lookup b (i : nat) : i < nrows b → rows_of b !! i = Some (row_at b i).
Proof.
  intros Hi. unfold rows_of. rewrite AppFacts.lookup_map, lookup_seq_lt by done. done.
Qed.

Lemma elem_of_rows_of b r : r ∈ rows_of b ↔ ∃ i : nat, i < nrows b ∧ r = row_at b i.
Proof.
  unfold rows_of. change (map ?g ?l) with (g <$> l). rewrite list_elem_of_fmap.
  split.
  - intros (i & -> & Hi). apply elem_of_seq in Hi. exists i. split; [lia|done].
  - intros (i & Hi & ->). exists i. split; [done|]. apply elem_of_seq. lia.
Qed.

Lemma cell_map {A B : Type} (d : B) (g : A → B) (l : list A) (i : nat) x :
  l !! i = Some x → cell d (map g l) i = g x.
Proof. intros H. unfold cell. by rewrite AppFacts.lookup_map, H. Qed.

Lemma ltb_of_nat (n : nat) : (1 <? Z.of_nat n)%Z = (1 <? n).
Proof.
  destruct (1 <? n) eqn:H.
  - apply Nat.ltb_lt in H. apply Z.ltb_lt. lia.
  - apply Nat.ltb_ge in H. apply Z.ltb_ge. lia.
Qed.

Lemma STATUS_EMAIL_lookup (b : base) (i : nat) (e : string) (q : Z) :
  E_MAIL_NORM (analyse b) !! i = Some e →
  QTD_REPETICOES_EMAIL (analyse b) !! i = Some q →
  STATUS_EMAIL (analyse b) !! i = Some (Spec.last_applicable (Spec.status_rules e q)).
Proof.
  simpl. intros He Hq.
  set (norm := map normalize_cell (E_MAIL b)) in *.
  erewrite AppFacts.lookup_loc_set; cycle 1.
  { by rewrite AppFacts.lookup_map, He. }
  { erewrite AppFacts.lookup_loc_set; cycle 1.
    { by rewrite lookup_zip_with, He; simpl; rewrite AppFacts.lookup_map, He. }
    { erewrite AppFacts.lookup_loc_set; cycle 1.
      { by rewrite !AppFacts.lookup_map, He. }
      { erewrite AppFacts.lookup_loc_set; cycle 1.
        { by rewrite AppFacts.lookup_map, Hq. }
        { apply lookup_replicate_2. by apply lookup_lt_Some in He. }
        done. }
      done. }
    done. }
  f_equal. unfold Spec.last_applicable, Spec.status_rules. simpl.
  rewrite AppFacts.join_reasons_empty.
  destruct (is_empty e), (Email.regex_valid e),
    (bool_decide (classify_email e ≠ [])), (1 <? q)%Z; done.
Qed.

(** The derived cells of a row, from its normalised email and the
    non-empty normalised emails of the table. *)
Lemma row_at_derived (b : base) (i : nat) (x : string) :
  E_MAIL b !! i = Some x →
  let r := row_at b i in
  let e := normalize_cell x in
  let ne := List.filter (λ e, negb (is_empty e)) (E_MAIL_NORM (analyse b)) in
  r_E_MAIL_NORM r = e
  ∧ r_DOMINIO r = (if contains_chr "@" e then after_at e else "")
  ∧ r_QTD_REPETICOES_EMAIL r = Z.of_nat (occurrences e ne)
  ∧ r_EMAIL_REPETIDO r = (1 <? occurrences e ne)
  ∧ r_EMAIL_SUSPEITO r = bool_decide (classify_email e ≠ [])
  ∧ r_EMAIL_FORMATO_VALIDO r = Email.regex_valid e
  ∧ r_STATUS_EMAIL r = status_of ne e.
Proof.
  intros Hx r e ne.
  assert (E_MAIL_NORM (analyse b) !! i = Some e) as He.
  { simpl. by rewrite AppFacts.lookup_map, Hx. }
  assert (QTD_REPETICOES_EMAIL (analyse b) !! i = Some (Z.of_nat (occurrences e ne))) as Hq.
  { simpl. rewrite !AppFacts.lookup_map, Hx. simpl. do 2 f_equal.
    apply value_counts_count. }
  unfold r, row_at. cbn [r_E_MAIL_NORM r_DOMINIO r_QTD_REPETICOES_EMAIL r_EMAIL_REPETIDO
    r_EMAIL_SUSPEITO r_EMAIL_FORMATO_VALIDO r_STATUS_EMAIL].
  split_and!.
  - unfold cell. by rewrite He.
  - simpl. by rewrite (cell_map _ _ _ _ e) by (by rewrite AppFacts.lookup_map, Hx).
  - unfold cell. by rewrite Hq.
  - unfold cell. cbn [EMAIL_REPETIDO analyse].
    change (map (λ q, (1 <? q)%Z) ?l) with ((λ q, (1 <? q)%Z) <$> l).
    cbn [QTD_REPETICOES_EMAIL analyse] in Hq.
    rewrite list_lookup_fmap, Hq. simpl. apply ltb_of_nat.
  - unfold cell. cbn [EMAIL_SUSPEITO analyse]. rewrite !AppFacts.lookup_map, Hx. simpl.
    apply AppFacts.join_reasons_empty.
  - unfold cell. cbn [EMAIL_FORMATO_VALIDO analyse]. by rewrite !AppFacts.lookup_map, Hx.
  - unfold cell. rewrite (STATUS_EMAIL_lookup b i e _ He Hq).
    unfold status_of, Spec.last_applicable, Spec.status_rules. cbn [foldl fst snd].
    rewrite ltb_of_nat.
    destruct (is_empty e), (Email.regex_valid e),
      (bool_decide (classify_email e ≠ [])), (1 <? occurrences e ne); done.
Qed.

Lemma rows_of_derived (b : base) (r : row) :
  r ∈ rows_of b →
  let e := r_E_MAIL_NORM r in
  let ne := List.filter (λ e, negb (is_empty e)) (E_MAIL_NORM (analyse b)) in
  e ∈ E_MAIL_NORM (analyse b)
  ∧ r_DOMINIO r = (if contains_chr "@" e then after_at e else "")
  ∧ r_QTD_REPETICOES_EMAIL r = Z.of_nat (occurrences e ne)
  ∧ r_EMAIL_REPETIDO r = (1 <? occurrences e ne)
  ∧ r_EMAIL_SUSPEITO r = bool_decide (classify_email e ≠ [])
  ∧ r_EMAIL_FORMATO_VALIDO r = Email.regex_valid e
  ∧ r_STATUS_EMAIL r = status_of ne e
  ∧ r_FAMILIA_DOMINIO r = domain_family (r_DOMINIO r)
  ∧ (r_UF_REGIAO r = "" ∨ r_UF_REGIAO r ∈ BRAZIL_UFS).
Proof.
  intros Hr e ne. apply elem_of_rows_of in Hr as (i & Hi & Hr).
  subst r. unfold nrows in Hi. destruct (lookup_lt_is_Some_2 _ _ Hi) as [x Hx].
  destruct (row_at_derived b i x Hx) as (H1 & H2 & H3 & H4 & H5 & H6 & H7).
  unfold e. rewrite H1. split_and!; try done.
  - simpl. apply list_elem_of_fmap. exists x. split; [done|].
    by eapply list_elem_of_lookup_2.
  - simpl. unfold cell. rewrite AppFacts.lookup_map.
    destruct (REGIAO b !! i) as [g|]; simpl; [|by left].
    rewrite UfFacts.extract_brazil_uf_stages. apply UfFacts.uf_by_stage_valid.
Qed.

End ReportFacts.

(** ** The metrics of [build_analysis] *)

Module MetricsFacts.
Import Text Regex Ranking RankingFacts CounterFacts TextFacts App Report Page Props
  PageProps CountFacts ReportFacts.

Lemma length_norm b : length (E_MAIL_NORM (analyse b)) = nrows b.
Proof. simpl. by rewrite length_map. Qed.

Lemma rows_norm b : r_E_MAIL_NORM <$> rows_of b = E_MAIL_NORM (analyse b).
Proof.
  apply list_eq. intros i. rewrite list_lookup_fmap.
  destruct (decide (i < nrows b)) as [Hi|Hi].
  - rewrite rows_of_lookup by done.
    destruct (lookup_lt_is_Some_2 (E_MAIL_NORM (analyse b)) i) as [e He].
    { by rewrite length_norm. }
    rewrite He. unfold row_at, cell. cbn [fmap option_fmap option_map r_E_MAIL_NORM].
    by rewrite He.
  - rewrite !lookup_ge_None_2; [done| |].
    + rewrite length_norm. lia.
    + rewrite length_rows_of. lia.
Qed.

Lemma rows_of_index b r : r ∈ rows_of b → r = row_at b (r_index r).
Proof. by intros (i & _ & ->)%elem_of_rows_of. Qed.

Lemma fmap_List_filter {A B : Type} (g : A → B) (f : B → bool) (l : list A) :
  g <$> List.filter (λ x, f (g x)) l = List.filter f (g <$> l).
Proof. induction l as [|x l IH]; csimpl; [done|]. destruct (f (g x)); csimpl; by rewrite IH. Qed.

(** Counting rows by a test on the normalised email. *)
Lemma count_rows_by_norm b (P : row → bool) (p : string → bool) :
  (∀ r, r ∈ rows_of b → P r = p (r_E_MAIL_NORM r)) →
  length (List.filter P (rows_of b)) = length (List.filter p (E_MAIL_NORM (analyse b))).
Proof.
  intros H. rewrite <- rows_norm, length_List_filter_fmap.
  f_equal. by apply DomainFacts.List_filter_ext_in.
Qed.

Lemma List_filter_all {A : Type} (f : A → bool) (l : list A) :
  (∀ x, x ∈ l → f x = true) → List.filter f l = l.
Proof.
  intros H. rewrite <- (RankingOrder.List_filter_true l) at 2.
  by apply DomainFacts.List_filter_ext_in.
Qed.

Lemma length_List_filter_le {A : Type} (f : A → bool) (l : list A) :
  length (List.filter f l) ≤ length l.
Proof. induction l as [|x l IH]; simpl; [done|]. destruct (f x); simpl; lia. Qed.

Lemma length_List_filter_impl {A : Type} (f g : A → bool) (l : list A) :
  (∀ x, x ∈ l → f x = true → g x = true) →
  length (List.filter f l) ≤ length (List.filter g l).
Proof.
  induction l as [|x l IH]; intros H; simpl; [done|].
  assert (length (List.filter f l) ≤ length (List.filter g l)) as IH'.
  { apply IH. intros y Hy. apply H, elem_of_cons. auto. }
  pose proof (H x ltac:(apply elem_of_cons; auto)) as Hx.
  destruct (f x); [rewrite Hx by done|destruct (g x)]; simpl; lia.
Qed.

Lemma length_List_filter_split {A : Type} (f g : A → bool) (l : list A) :
  length (List.filter f l)
  = length (List.filter (λ x, f x && g x) l) + length (List.filter (λ x, f x && negb (g x)) l).
Proof. induction l as [|x l IH]; simpl; [done|]. destruct (f x), (g x); simpl; lia. Qed.

Lemma occurrences_empty_non_empty (l : list string) :
  occurrences "" (List.filter (λ e, negb (is_empty e)) l) = 0.
Proof.
  destruct (occurrences "" _) as [|n] eqn:H; [done|].
  assert ("" ∈ List.filter (λ e, negb (is_empty e)) l) as Hin.
  { unfold occurrences in H.
    destruct (filter (λ y, y = "") (List.filter (λ e, negb (is_empty e)) l)) as [|x k] eqn:Hk;
      [done|].
    assert (x ∈ filter (λ y, y = "") (List.filter (λ e, negb (is_empty e)) l)) as Hx
      by (rewrite Hk; left).
    by apply list_elem_of_filter in Hx as [-> ?]. }
  by apply AppFacts.elem_of_List_filter in Hin as [_ ?].
Qed.

Lemma occurrences_non_empty (l : list string) (e : string) :
  e ≠ "" → occurrences e (List.filter (λ e, negb (is_empty e)) l) = occurrences e l.
Proof. intros He. apply occurrences_filter. by destruct e. Qed.

(** The repeated rows, counted on the column of normalised emails. *)
Lemma length_repeated_rows b :
  let ne := List.filter (λ e, negb (is_empty e)) (E_MAIL_NORM (analyse b)) in
  length (repeated_rows b) = length (List.filter (λ e, 1 <? occurrences e ne) ne).
Proof.
  intros ne. unfold repeated_rows. rewrite sort_by_length.
  rewrite (count_rows_by_norm b _ (λ e, 1 <? occurrences e ne)).
  - unfold ne at 3. rewrite DomainFacts.List_filter_filter. f_equal.
    apply DomainFacts.List_filter_ext_in. intros e _.
    destruct e; [|done]. simpl. unfold ne. by rewrite occurrences_empty_non_empty.
  - intros r Hr. by destruct (rows_of_derived b r Hr) as (_ & _ & _ & -> & _).
Qed.

Lemma sum_list_ge {A : Type} (f : A → nat) (c : nat) (l : list A) :
  (∀ x, x ∈ l → c ≤ f x) → c * length l ≤ sum_list (f <$> l).
Proof.
  induction l as [|x l IH]; intros H; csimpl; [lia|].
  pose proof (H x ltac:(apply elem_of_cons; auto)).
  assert (c * length l ≤ sum_list (f <$> l)) by (apply IH; intros y Hy; apply H, elem_of_cons; auto).
  lia.
Qed.

Section first.
Context {A : Type} (key : A → string) (idx : A → nat).

Lemma StronglySorted_List_filter (R : A → A → Prop) (f : A → bool) (l : list A) :
  StronglySorted R l → StronglySorted R (List.filter f l).
Proof.
  induction 1 as [|x l Hl IH Hx]; simpl; [constructor|].
  destruct (f x); [|done]. constructor; [done|].
  apply Forall_forall. intros y [Hy _]%AppFacts.elem_of_List_filter.
  by eapply Forall_forall in Hx.
Qed.

(** Of the items of a key, [drop_duplicates] keeps one that stands before
    the others. *)
Lemma drop_duplicates_from_first (seen : gset string) (l : list A) (x : A) :
  StronglySorted (λ a b, idx a ≤ idx b) l →
  x ∈ l → key x ∉ seen →
  ∃ x', x' ∈ drop_duplicates_from key seen l ∧ key x' = key x ∧ idx x' ≤ idx x.
Proof.
  intros Hl. revert seen. induction Hl as [|y l Hl IH Hy]; intros seen Hx Hseen.
  { by apply elem_of_nil in Hx. }
  simpl. destruct (decide (key y = key x)) as [Heq|Hne].
  - rewrite bool_decide_eq_false_2 by (by rewrite Heq).
    exists y. split_and!; [left|done|].
    apply elem_of_cons in Hx as [->|Hx]; [done|]. by eapply Forall_forall in Hy.
  - apply elem_of_cons in Hx as [->|Hx]; [done|].
    case_bool_decide.
    + by apply IH.
    + destruct (IH (seen ∪ {[key y]}) Hx) as (x' & ? & ? & ?); [set_solver|].
      exists x'. split_and!; [by right|done..].
Qed.

Lemma NoDup_fmap_elem_eq (l : list A) (x y : A) :
  NoDup (key <$> l) → x ∈ l → y ∈ l → key x = key y → x = y.
Proof.
  induction l as [|z l IH]; csimpl; [by intros _ ?%elem_of_nil|].
  intros [Hz Hl]%NoDup_cons [->|Hx]%elem_of_cons [->|Hy]%elem_of_cons Heq.
  - done.
  - exfalso. apply Hz. rewrite Heq. apply list_elem_of_fmap. eauto.
  - exfalso. apply Hz. rewrite <- Heq. apply list_elem_of_fmap. eauto.
  - by apply IH.
Qed.
End first.

Lemma rows_of_sorted b : StronglySorted (λ x y, r_index x ≤ r_index y) (rows_of b).
Proof.
  unfold rows_of. generalize (nrows b) as n. generalize 0 as a.
  intros a n. revert a. induction n as [|n IH]; intros a; simpl; [constructor|].
  constructor; [apply IH|]. apply Forall_forall. intros r Hr.
  change (map ?g ?l) with (g <$> l) in Hr.
  apply list_elem_of_fmap in Hr as (i & -> & Hi). apply elem_of_seq in Hi. simpl. lia.
Qed.

Lemma has_email_true r : has_email r = true ↔ r_E_MAIL_NORM r ≠ "".
Proof. unfold has_email. by destruct (r_E_MAIL_NORM r). Qed.

Lemma length_remove_dups_le `{EqDecision A} (l : list A) : length (remove_dups l) ≤ length l.
Proof.
  induction l as [|x l IH]; simpl; [done|]. destruct (decide_rel _ _ _); simpl; lia.
Qed.

Lemma emails_unique_distinct b :
  m_emails_unique (metrics_of b)
  = distinct (List.filter (λ e, negb (is_empty e)) (E_MAIL_NORM (analyse b))).
Proof.
  cbn [m_emails_unique metrics_of]. unfold nunique.
  rewrite size_list_to_set_split, <- SummaryFacts.size_list_to_set_distinct. lia.
Qed.

(** X13.  [emails_unique] is the number of distinct non-empty normalised
    emails, and [unique_email_rows] has one row for each of them: the first
    row of the table that holds it.  So a row is listed exactly when its
    email is not empty and no earlier row has the same email; and
    [emails_unique <= emails_total <= total_rows]. *)
Theorem unique_email_rows_keep_first_row_of_each_email (b : base) :
  let m := metrics_of b in
  m_emails_unique m
  = distinct (List.filter (λ e, negb (is_empty e)) (E_MAIL_NORM (analyse b)))
  ∧ length (unique_email_rows b) = m_emails_unique m
  ∧ NoDup (r_E_MAIL_NORM <$> unique_email_rows b)
  ∧ (∀ r, r ∈ unique_email_rows b ↔
          r ∈ rows_of b ∧ r_E_MAIL_NORM r ≠ ""
          ∧ ∀ r', r' ∈ rows_of b → r_E_MAIL_NORM r' = r_E_MAIL_NORM r →
                  r_index r ≤ r_index r')
  ∧ m_emails_unique m ≤ m_emails_total m
  ∧ m_emails_total m ≤ m_total_rows m.
Proof.
  intros m.
  set (ne := List.filter (λ e, negb (is_empty e)) (E_MAIL_NORM (analyse b))).
  set (with_email := List.filter has_email (rows_of b)).
  assert (r_E_MAIL_NORM <$> with_email = ne) as Hkeys.
  { unfold with_email, ne, has_email.
    by rewrite (fmap_List_filter r_E_MAIL_NORM (λ e, negb (is_empty e))), rows_norm. }
  destruct (drop_duplicates_from_spec r_E_MAIL_NORM ∅ with_email) as (Hnodup & Hin & _).
  assert (StronglySorted (λ x y, r_index x ≤ r_index y) with_email) as Hsorted
    by apply StronglySorted_List_filter, rows_of_sorted.
  assert (∀ r, r ∈ with_email ↔ r ∈ rows_of b ∧ r_E_MAIL_NORM r ≠ "") as Hwith.
  { intros r. unfold with_email. by rewrite AppFacts.elem_of_List_filter, has_email_true. }
  split_and!.
  - apply emails_unique_distinct.
  - unfold m. rewrite emails_unique_distinct. unfold unique_email_rows, drop_duplicates.
    fold with_email ne. rewrite length_drop_duplicates_from, Hkeys, difference_empty_L.
    by rewrite SummaryFacts.size_list_to_set_distinct.
  - exact Hnodup.
  - intros r. split.
    + intros Hr. destruct (Hin r Hr) as [Hr' _]. apply Hwith in Hr' as [Hrow Hne].
      split_and!; [done..|]. intros r' Hr' Heq.
      destruct (drop_duplicates_from_first r_E_MAIL_NORM r_index ∅ with_email r' Hsorted)
        as (r'' & Hr'' & Hkey & Hle); [apply Hwith; split; [done|congruence]|set_solver|].
      assert (r'' = r) as ->; [|done].
      eapply (NoDup_fmap_elem_eq r_E_MAIL_NORM); [exact Hnodup|done..|congruence].
    + intros (Hrow & Hne & Hfirst).
      destruct (drop_duplicates_from_first r_E_MAIL_NORM r_index ∅ with_email r Hsorted)
        as (r' & Hr' & Hkey & Hle); [by apply Hwith|set_solver|].
      destruct (Hin r' Hr') as [[Hrow' _]%Hwith _].
      pose proof (Hfirst r' Hrow' Hkey) as Hge.
      rewrite (rows_of_index b r Hrow), (rows_of_index b r' Hrow') in *.
      simpl in Hle, Hge. by replace (r_index r) with (r_index r') by lia.
  - unfold m. rewrite emails_unique_distinct. cbn [m_emails_total metrics_of].
    apply length_remove_dups_le.
  - cbn [m m_emails_total m_total_rows metrics_of].
    rewrite length_rows_of, <- length_norm. apply length_List_filter_le.
Qed.

Lemma repeated_summary_perm b :
  repeated_summary (analyse b) ≡ₚ repeated_email_counts b.
Proof. cbn [repeated_summary analyse]. unfold sort_count_desc_key_asc. apply sort_by_perm. Qed.

Lemma elem_of_value_counts (l : list string) (k : string) (c : nat) :
  (k, c) ∈ value_counts l ↔ k ∈ l ∧ c = occurrences k l.
Proof.
  rewrite value_counts_perm, list_elem_of_fmap. split.
  - intros (k' & [= -> ->] & Hk). by rewrite elem_of_remove_dups in Hk.
  - intros [Hk ->]. exists k. by rewrite elem_of_remove_dups.
Qed.

(** X14.  The repeated emails: [repeated_summary] lists exactly the
    non-empty normalised emails that stand in two or more rows, each with
    the number of its rows; [repeated_distinct] is the number of its entries
    and [repeated_rows] the sum of its counts.  The rows whose email stands
    in no other row are therefore counted twice alike:
    [emails_total - repeated_rows = emails_unique - repeated_distinct]. *)
Theorem repeated_metrics_add_up (b : base) :
  let m := metrics_of b in
  let norm := E_MAIL_NORM (analyse b) in
  (∀ e c, (e, c) ∈ repeated_summary (analyse b)
          ↔ e ∈ norm ∧ e ≠ "" ∧ c = occurrences e norm ∧ 2 ≤ c)
  ∧ NoDup (repeated_summary (analyse b)).*1
  ∧ m_repeated_distinct m = length (repeated_summary (analyse b))
  ∧ m_repeated_rows m = total (repeated_summary (analyse b))
  ∧ (∀ r, r ∈ repeated_rows b
          ↔ r ∈ rows_of b ∧ r_E_MAIL_NORM r ≠ ""
            ∧ 2 ≤ occurrences (r_E_MAIL_NORM r) norm)
  ∧ 2 * m_repeated_distinct m ≤ m_repeated_rows m
  ∧ m_emails_total m + m_repeated_distinct m = m_emails_unique m + m_repeated_rows m.
Proof.
  intros m norm.
  set (ne := List.filter (λ e, negb (is_empty e)) norm).
  assert (∀ e, e ∈ ne ↔ e ∈ norm ∧ e ≠ "") as Hne.
  { intros e. unfold ne. rewrite AppFacts.elem_of_List_filter. destruct e; naive_solver. }
  assert (total (repeated_email_counts b)
          = sum_list ((λ t, occurrences t ne)
                        <$> List.filter (λ k, 1 <? occurrences k ne) (remove_dups ne)))
    as Htotal.
  { unfold repeated_email_counts, email_counts. fold norm ne.
    rewrite (total_perm _ _ (List_filter_perm _ _ _ (value_counts_perm ne))).
    apply (total_pairs (λ n, 1 <? n)). }
  assert (m_repeated_rows m = total (repeated_email_counts b)) as Hrows.
  { cbn [m m_repeated_rows metrics_of]. rewrite length_repeated_rows.
    unfold repeated_email_counts, email_counts. fold norm ne.
    symmetry. apply (total_filter_value_counts (λ n, 1 <? n)). }
  assert (m_repeated_distinct m
          = length (List.filter (λ k, 1 <? occurrences k ne) (remove_dups ne))) as Hdistinct.
  { cbn [m m_repeated_distinct metrics_of]. unfold repeated_email_counts, email_counts.
    fold norm ne. apply (length_filter_value_counts (λ n, 1 <? n)). }
  split_and!.
  - intros e c. rewrite repeated_summary_perm. unfold repeated_email_counts, email_counts.
    fold norm ne. rewrite AppFacts.elem_of_List_filter, elem_of_value_counts, Hne. simpl.
    rewrite Nat.ltb_lt. split.
    + intros [[[He Hne'] ->] Hc].
      pose proof (occurrences_non_empty norm e Hne') as Hocc. fold ne in Hocc.
      rewrite Hocc in *. split_and!; [done..|lia].
    + intros (He & Hne' & -> & Hc).
      pose proof (occurrences_non_empty norm e Hne') as Hocc. fold ne in Hocc.
      rewrite Hocc. split_and!; [done..|lia].
  - rewrite repeated_summary_perm. unfold repeated_email_counts, email_counts.
    fold norm ne. rewrite List_filter_stdpp.
    eapply (NoDup_fmap_1 id). rewrite list_fmap_id.
    apply NoDup_fmap_2_strong; [|apply NoDup_filter].
    + intros [k1 c1] [k2 c2] [_ H1]%list_elem_of_filter [_ H2]%list_elem_of_filter Hk.
      simpl in Hk. subst k2. apply elem_of_value_counts in H1 as [_ ->].
      by apply elem_of_value_counts in H2 as [_ ->].
    + unfold value_counts, sorted_desc. rewrite sort_by_perm.
      eapply NoDup_fmap_1, counter_of_NoDup.
  - cbn [m m_repeated_distinct metrics_of]. by rewrite repeated_summary_perm.
  - rewrite Hrows. symmetry. apply total_perm, repeated_summary_perm.
  - intros r. unfold repeated_rows. rewrite sort_by_perm, AppFacts.elem_of_List_filter.
    split.
    + intros [Hr Hrep].
      destruct (rows_of_derived b r Hr) as (_ & _ & _ & Hrep' & _).
      rewrite Hrep' in Hrep. apply Nat.ltb_lt in Hrep. fold norm ne in Hrep.
      destruct (decide (r_E_MAIL_NORM r = "")) as [Hempty|Hne'].
      * rewrite Hempty in Hrep. unfold ne in Hrep.
        rewrite occurrences_empty_non_empty in Hrep. lia.
      * pose proof (occurrences_non_empty norm _ Hne') as Hocc. fold ne in Hocc.
        rewrite Hocc in Hrep. split_and!; [done..|lia].
    + intros (Hr & Hne' & Hrep). split; [done|].
      destruct (rows_of_derived b r Hr) as (_ & _ & _ & -> & _). fold norm ne.
      pose proof (occurrences_non_empty norm _ Hne') as Hocc. fold ne in Hocc.
      rewrite Hocc. apply Nat.ltb_lt. lia.
  - rewrite Hrows, Htotal, Hdistinct. apply sum_list_ge.
    intros k [_ Hk]%AppFacts.elem_of_List_filter. apply Nat.ltb_lt in Hk. lia.
  - rewrite Hrows, Htotal, Hdistinct.
    pose proof (repeats_on_repeated_keys ne (remove_dups ne)
                  ltac:(intros k; by rewrite elem_of_remove_dups)) as H1.
    pose proof (BatchFacts.sum_repeats ne) as H2.
    pose proof (emails_unique_distinct b) as H3. fold m norm ne in H3. unfold distinct in H3.
    assert (m_emails_total m = length ne) as H4 by done.
    lia.
Qed.

Lemma length_List_filter_negb {A : Type} (g : A → bool) (l : list A) :
  length (List.filter g l) + length (List.filter (λ x, negb (g x)) l) = length l.
Proof. induction l as [|x l IH]; simpl; [done|]. destruct (g x); simpl; lia. Qed.

Lemma length_List_filter_disjoint {A : Type} (f g h : A → bool) (l : list A) :
  (∀ x, x ∈ l → f x = true → h x = true ∧ g x = false) →
  (∀ x, x ∈ l → g x = true → h x = true) →
  length (List.filter f l) + length (List.filter g l) ≤ length (List.filter h l).
Proof.
  induction l as [|x l IH]; intros Hf Hg; simpl; [done|].
  assert (length (List.filter f l) + length (List.filter g l) ≤ length (List.filter h l))
    as IH'.
  { apply IH; intros y Hy; [apply Hf|apply Hg]; apply elem_of_cons; auto. }
  pose proof (Hf x ltac:(apply elem_of_cons; auto)) as Hfx.
  pose proof (Hg x ltac:(apply elem_of_cons; auto)) as Hgx.
  destruct (f x), (g x), (h x); simpl; try lia; naive_solver.
Qed.

Lemma count_statuses {A : Type} (s : A → string) (l : list A) :
  (∀ x, x ∈ l → s x ∈ statuses) →
  length (List.filter (λ x, String.eqb (s x) "Unico limpo") l)
  + length (List.filter (λ x, String.eqb (s x) "Repetido") l)
  + length (List.filter (λ x, String.eqb (s x) "Suspeito") l)
  + length (List.filter (λ x, String.eqb (s x) "Invalido") l)
  + length (List.filter (λ x, String.eqb (s x) "Sem email") l)
  = length l.
Proof.
  induction l as [|x l IH]; intros H; [done|].
  assert (∀ y, y ∈ l → s y ∈ statuses) as H' by (intros y Hy; apply H, elem_of_cons; auto).
  specialize (IH H'). pose proof (H x ltac:(apply elem_of_cons; auto)) as Hx.
  cbn [List.filter]. unfold statuses in Hx.
  repeat (apply elem_of_cons in Hx as [->|Hx]; [simpl; lia|]).
  by apply elem_of_nil in Hx.
Qed.

Lemma occurrences_two `{EqDecision A} (l : list A) (i j : nat) (x : A) :
  l !! i = Some x → l !! j = Some x → i ≠ j → 2 ≤ occurrences x l.
Proof.
  revert i j. induction l as [|a l IH]; intros i j Hi Hj Hij; [done|].
  rewrite BatchFacts.occurrences_cons.
  destruct i as [|i], j as [|j]; simpl in *; [done| | |].
  - injection Hi as ->. rewrite decide_True by done.
    pose proof (BatchFacts.occurrences_pos x l (list_elem_of_lookup_2 _ _ _ Hj)). lia.
  - injection Hj as ->. rewrite decide_True by done.
    pose proof (BatchFacts.occurrences_pos x l (list_elem_of_lookup_2 _ _ _ Hi)). lia.
  - assert (2 ≤ occurrences x l) by (apply (IH i j); [done..|lia]). lia.
Qed.

Lemma norm_lookup b (i : nat) :
  i < nrows b → E_MAIL_NORM (analyse b) !! i = Some (r_E_MAIL_NORM (row_at b i)).
Proof.
  intros Hi. rewrite <- rows_norm, list_lookup_fmap, rows_of_lookup by done. done.
Qed.

Lemma status_of_cases ne e :
  status_of ne e ∈ statuses
  ∧ String.eqb (status_of ne e) "Sem email" = is_empty e
  ∧ String.eqb (status_of ne e) "Invalido"
    = negb (is_empty e) && negb (Email.regex_valid e)
  ∧ (String.eqb (status_of ne e) "Suspeito" = true → bool_decide (classify_email e ≠ []) = true)
  ∧ (String.eqb (status_of ne e) "Repetido" = true → (1 <? occurrences e ne) = true)
  ∧ (String.eqb (status_of ne e) "Unico limpo" = true →
     negb (is_empty e) = true ∧ (1 <? occurrences e ne) = false).
Proof.
  unfold status_of, statuses.
  destruct (is_empty e), (Email.regex_valid e), (bool_decide (classify_email e ≠ [])),
    (1 <? occurrences e ne); simpl; split_and!; try done; set_solver.
Qed.

(** X15.  Every row has one of the five statuses, so their counts add up
    to [total_rows].  The rows of status "Sem email" are the rows that
    [emails_total] leaves out and the rows of status "Invalido" are the
    [invalid_format_rows]; a later rule may take a row from "Suspeito" and
    from "Repetido", whose counts are at most [suspect_rows] and
    [repeated_rows]; and a row of status "Unico limpo" has an email that no
    other row has. *)
Theorem status_counts_agree_with_metrics (b : base) :
  let m := metrics_of b in
  let n := λ s, count_where r_STATUS_EMAIL s (rows_of b) in
  (∀ r, r ∈ rows_of b → r_STATUS_EMAIL r ∈ statuses)
  ∧ n "Unico limpo" + n "Repetido" + n "Suspeito" + n "Invalido" + n "Sem email"
    = m_total_rows m
  ∧ n "Sem email" + m_emails_total m = m_total_rows m
  ∧ n "Invalido" = m_invalid_format_rows m
  ∧ n "Suspeito" ≤ m_suspect_rows m
  ∧ n "Repetido" ≤ m_repeated_rows m
  ∧ n "Unico limpo" + m_repeated_rows m ≤ m_emails_total m
  ∧ (∀ r, r ∈ rows_of b → r_STATUS_EMAIL r = "Unico limpo" →
          ∀ r', r' ∈ rows_of b → r_E_MAIL_NORM r' = r_E_MAIL_NORM r → r' = r).
Proof.
  intros m n.
  set (ne := List.filter (λ e, negb (is_empty e)) (E_MAIL_NORM (analyse b))).
  assert (∀ r, r ∈ rows_of b → r_STATUS_EMAIL r = status_of ne (r_E_MAIL_NORM r)) as Hstatus.
  { intros r Hr. by destruct (rows_of_derived b r Hr) as (_ & _ & _ & _ & _ & _ & -> & _). }
  assert (∀ r, r ∈ rows_of b →
            r_EMAIL_REPETIDO r = (1 <? occurrences (r_E_MAIL_NORM r) ne)) as Hrep.
  { intros r Hr. by destruct (rows_of_derived b r Hr) as (_ & _ & _ & -> & _). }
  assert (m_emails_total m = length (List.filter has_email (rows_of b))) as Htotal.
  { cbn [m m_emails_total metrics_of]. symmetry. by apply count_rows_by_norm. }
  assert (m_repeated_rows m = length (List.filter r_EMAIL_REPETIDO (rows_of b))) as Hrows.
  { cbn [m m_repeated_rows metrics_of]. unfold repeated_rows. apply sort_by_length. }
  split_and!.
  - intros r Hr. rewrite (Hstatus r Hr). apply status_of_cases.
  - unfold n, count_where. cbn [m m_total_rows metrics_of].
    apply (count_statuses r_STATUS_EMAIL). intros r Hr. rewrite (Hstatus r Hr).
    apply status_of_cases.
  - rewrite Htotal. cbn [m m_total_rows metrics_of].
    rewrite <- (length_List_filter_negb has_email (rows_of b)), Nat.add_comm. f_equal.
    unfold n, count_where. f_equal. apply DomainFacts.List_filter_ext_in. intros r Hr.
    rewrite (Hstatus r Hr). destruct (status_of_cases ne (r_E_MAIL_NORM r)) as (_ & -> & _).
    unfold has_email. by rewrite negb_involutive.
  - unfold n, count_where. cbn [m m_invalid_format_rows metrics_of]. unfold invalid_rows.
    f_equal. apply DomainFacts.List_filter_ext_in. intros r Hr. rewrite (Hstatus r Hr).
    destruct (status_of_cases ne (r_E_MAIL_NORM r)) as (_ & _ & -> & _).
    unfold has_email. by destruct (rows_of_derived b r Hr) as (_ & _ & _ & _ & _ & -> & _).
  - unfold n, count_where. cbn [m m_suspect_rows metrics_of]. unfold suspect_rows.
    apply length_List_filter_impl. intros r Hr. rewrite (Hstatus r Hr).
    destruct (rows_of_derived b r Hr) as (_ & _ & _ & _ & -> & _).
    apply status_of_cases.
  - rewrite Hrows. unfold n, count_where.
    apply length_List_filter_impl. intros r Hr. rewrite (Hstatus r Hr), (Hrep r Hr).
    apply status_of_cases.
  - rewrite Hrows, Htotal. unfold n, count_where.
    apply length_List_filter_disjoint.
    + intros r Hr. rewrite (Hstatus r Hr), (Hrep r Hr). unfold has_email.
      apply status_of_cases.
    + intros r Hr. rewrite (Hrep r Hr). unfold has_email.
      destruct (r_E_MAIL_NORM r); [|done]. unfold ne.
      by rewrite occurrences_empty_non_empty.
  - intros r Hr Hunico r' Hr' Heq.
    rewrite (Hstatus r Hr) in Hunico.
    destruct (status_of_cases ne (r_E_MAIL_NORM r)) as (_ & _ & _ & _ & _ & Hu).
    rewrite Hunico in Hu. destruct Hu as [Hne Hocc]; [done|].
    apply Nat.ltb_ge in Hocc.
    apply elem_of_rows_of in Hr as (i & Hi & ->).
    apply elem_of_rows_of in Hr' as (j & Hj & ->).
    destruct (decide (i = j)) as [->|Hij]; [done|]. exfalso.
    pose proof (norm_lookup b i Hi) as Hei. pose proof (norm_lookup b j Hj) as Hej.
    rewrite Heq in Hej.
    pose proof (occurrences_two _ i j _ Hei Hej Hij) as Htwo.
    rewrite <- (occurrences_non_empty (E_MAIL_NORM (analyse b))) in Htwo.
    + fold ne in Htwo. lia.
    + intros Hempty. by rewrite Hempty in Hne.
Qed.

Lemma comma_lower_chr c : Ascii.eqb "," (lower_chr c) = Ascii.eqb "," c.
Proof. revert c. intros [[] [] [] [] [] [] [] []]; reflexivity. Qed.

Lemma lower_normalize_cell x : lower (normalize_cell x) = normalize_cell x.
Proof.
  unfold normalize_cell, rstrip_chr.
  transitivity (rstrip_by (Ascii.eqb ",") (lower (lower (strip x)))).
  - unfold lower. symmetry. apply (rstrip_by_smap _ _ comma_lower_chr).
  - by rewrite lower_idem.
Qed.

(** A second normalisation changes nothing when the value has no white
    space at its ends. *)
Lemma normalize_cell_fixed x :
  strip (normalize_cell x) = normalize_cell x →
  normalize_cell (normalize_cell x) = normalize_cell x.
Proof.
  intros H. unfold normalize_cell at 1. rewrite H, lower_normalize_cell.
  unfold normalize_cell, rstrip_chr. apply rstrip_by_idem.
Qed.

Lemma classify_email_invalid e :
  normalize_cell e = e → e ≠ "" → Email.regex_valid e = false →
  ∃ rest, classify_email e = "formato_invalido" :: rest.
Proof.
  intros Hfix Hne Hinvalid. unfold classify_email. fold (normalize_cell e).
  rewrite Hfix. destruct e as [|c e']; [done|]. cbn [is_empty].
  destruct (match split_once "@" (String c e') with
            | Some (l, d) => (l, d) | None => (String c e', "") end) as [loc dom].
  rewrite Hinvalid. eauto.
Qed.

Lemma startswith_refl s : Strings.startswith s s = true.
Proof. induction s as [|c s IH]; simpl; [done|]. by rewrite Ascii.eqb_refl. Qed.

Lemma startswith_join_reasons (reason : string) (rest : list string) :
  Strings.startswith reason (join_reasons (reason :: rest)) = true.
Proof.
  unfold join_reasons. destruct rest as [|r rest]; simpl; [apply startswith_refl|].
  apply StringsFacts.startswith_app, startswith_refl.
Qed.

Lemma rows_of_reasons b r :
  r ∈ rows_of b → r_SUSPEITO_RAZOES r = join_reasons (classify_email (r_E_MAIL_NORM r))
                  ∧ ∃ x, r_E_MAIL_NORM r = normalize_cell x.
Proof.
  intros (i & Hi & ->)%elem_of_rows_of. unfold nrows in Hi.
  destruct (lookup_lt_is_Some_2 _ _ Hi) as [x Hx].
  unfold row_at, cell. cbn [r_SUSPEITO_RAZOES r_E_MAIL_NORM SUSPEITO_RAZOES E_MAIL_NORM analyse].
  rewrite !AppFacts.lookup_map, Hx. simpl. eauto.
Qed.

(** X16.  A row of [invalid_rows] whose normalised email has no white
    space at its ends is a row of [suspect_rows], and its reasons start with
    "formato_invalido"; so [invalid_format_rows <= suspect_rows] on a table
    without such white space.  The cell "joao@gmail.com ," keeps the space
    that stood before the comma: its row is invalid and not suspect. *)
Theorem invalid_rows_are_suspect_unless_space_is_left (b : base) :
  (∀ r, r ∈ invalid_rows b → strip (r_E_MAIL_NORM r) = r_E_MAIL_NORM r →
        r ∈ suspect_rows b
        ∧ Strings.startswith "formato_invalido" (r_SUSPEITO_RAZOES r) = true)
  ∧ ((∀ r, r ∈ rows_of b → strip (r_E_MAIL_NORM r) = r_E_MAIL_NORM r) →
     m_invalid_format_rows (metrics_of b) ≤ m_suspect_rows (metrics_of b))
  ∧ (let b' := {| ORIGEM := [""]; CPF_CNPJ := [""]; NOME := [""];
                  E_MAIL := ["joao@gmail.com ,"]; REGIAO := [""] |} in
     m_invalid_format_rows (metrics_of b') = 1 ∧ m_suspect_rows (metrics_of b') = 0).
Proof.
  assert (∀ r, r ∈ rows_of b → strip (r_E_MAIL_NORM r) = r_E_MAIL_NORM r →
            has_email r && negb (r_EMAIL_FORMATO_VALIDO r) = true →
            r_EMAIL_SUSPEITO r = true
            ∧ Strings.startswith "formato_invalido" (r_SUSPEITO_RAZOES r) = true) as H.
  { intros r Hr Hstrip [Hne Hinvalid]%andb_true_iff.
    apply has_email_true in Hne. apply negb_true_iff in Hinvalid.
    destruct (rows_of_reasons b r Hr) as [Hreasons [x Hx]].
    destruct (rows_of_derived b r Hr) as (_ & _ & _ & _ & Hsuspect & Hvalid & _).
    rewrite Hvalid in Hinvalid.
    destruct (classify_email_invalid (r_E_MAIL_NORM r)) as [rest Hrest]; [|done..|].
    { rewrite Hx in *. by apply normalize_cell_fixed. }
    rewrite Hsuspect, Hreasons, Hrest. split; [by apply bool_decide_eq_true_2|].
    apply startswith_join_reasons. }
  split_and!.
  - intros r [Hr Hinv]%AppFacts.elem_of_List_filter Hstrip.
    destruct (H r Hr Hstrip Hinv) as [Hs Hstart]. split; [|done].
    by apply AppFacts.elem_of_List_filter.
  - intros Hall. cbn [m_invalid_format_rows m_suspect_rows metrics_of].
    apply length_List_filter_impl. intros r Hr Hinv. by apply H; [|apply Hall|].
  - by vm_compute.
Qed.

End MetricsFacts.

(** ** The families of domains *)

Module FamilyFacts.
Import Text Regex Ranking RankingFacts CounterFacts TextFacts App Report Page Props
  PageProps CountFacts ReportFacts MetricsFacts Strings StringsFacts.

Section strip.
Context (p : ascii → bool) (n : string).
Hypothesis n_not_empty : n ≠ "".
Hypothesis n_outside : sall (λ c, negb (p c)) n = true.

Lemma startswith_outside c s : p c = true → startswith n (String c s) = false.
Proof.
  intros Hc. destruct n as [|a n']; [done|]. simpl in *.
  apply andb_true_iff in n_outside as [Ha _].
  destruct (Ascii.eqb_spec a c) as [->|]; [|done]. by rewrite Hc in Ha.
Qed.

Lemma contains_empty : contains n "" = false.
Proof. by destruct n. Qed.

Lemma contains_lstrip_by s : contains n (lstrip_by p s) = contains n s.
Proof.
  induction s as [|c s IH]; [done|]. cbn [lstrip_by].
  destruct (p c) eqn:Hc; [|done].
  by rewrite IH, (contains_cons n c s), startswith_outside.
Qed.

Lemma startswith_rstrip_by m s :
  sall (λ c, negb (p c)) m = true → startswith m (rstrip_by p s) = startswith m s.
Proof.
  revert m. induction s as [|b s IH]; intros m Hm; [done|].
  destruct m as [|a m']; [done|]. simpl in Hm. apply andb_true_iff in Hm as [Ha Hm].
  cbn [rstrip_by]. specialize (IH m' Hm).
  destruct (rstrip_by p s) as [|d r].
  - destruct (p b) eqn:Hb.
    + simpl. destruct (Ascii.eqb_spec a b) as [->|]; [|done]. by rewrite Hb in Ha.
    + simpl. by rewrite <- IH.
  - simpl. by rewrite <- IH.
Qed.

Lemma contains_rstrip_by s : contains n (rstrip_by p s) = contains n s.
Proof.
  induction s as [|c s IH]; [done|].
  rewrite (contains_cons n c s), <- IH.
  rewrite <- (startswith_rstrip_by n (String c s)) by done.
  cbn [rstrip_by]. destruct (rstrip_by p s) as [|d r] eqn:Hr.
  - rewrite contains_empty, orb_false_r. destruct (p c); [|].
    + by rewrite contains_empty; destruct n.
    + by rewrite contains_cons, contains_empty, orb_false_r.
  - by rewrite contains_cons.
Qed.

Lemma contains_strip_by_eq s : contains n (strip_by p s) = contains n s.
Proof. unfold strip_by. by rewrite contains_rstrip_by, contains_lstrip_by. Qed.
End strip.

Lemma split_once_lower_fixed c s a d :
  lower s = s → split_once c s = Some (a, d) → lower d = d.
Proof.
  revert a. induction s as [|x s IH]; intros a; [done|].
  unfold lower. simpl. intros [= Hx Hs]. destruct (Ascii.eqb c x).
  - by intros [= <- <-].
  - destruct (split_once c s) as [[a' d']|] eqn:Hsplit; [|done].
    intros [= <- <-]. by eapply IH.
Qed.

Lemma after_at_lower_fixed e : lower e = e → lower (after_at e) = after_at e.
Proof.
  intros He. unfold after_at.
  destruct (split_once "@" e) as [[a d]|] eqn:Hsplit; [|done].
  by eapply split_once_lower_fixed.
Qed.

Lemma lower_empty s : lower s = "" ↔ s = "".
Proof. by destruct s. Qed.

Lemma domain_family_gmail d :
  domain_family d = "Gmail" ↔ contains "gmail" (lower d) = true.
Proof.
  unfold domain_family, strip.
  rewrite (contains_strip_by_eq isspace "gmail") by done.
  destruct (contains "gmail" (lower d)) eqn:Hg.
  - destruct (is_empty (strip_by isspace (lower d))) eqn:Hempty; [|done].
    apply AppFacts.is_empty_true in Hempty.
    rewrite <- (contains_strip_by_eq isspace "gmail"), Hempty in Hg by done. done.
  - repeat match goal with |- context [if ?c then _ else _] => destruct c end;
      by split.
Qed.

Lemma domain_family_none d : domain_family d = "Sem dominio" ↔ strip d = "".
Proof.
  unfold domain_family. rewrite strip_lower.
  destruct (is_empty (lower (strip d))) eqn:Hempty.
  - apply AppFacts.is_empty_true in Hempty. apply (proj1 (lower_empty _)) in Hempty.
    by split.
  - assert (strip d ≠ "") as Hne.
    { intros H. rewrite H in Hempty. done. }
    repeat match goal with |- context [if ?c then _ else _] => destruct c end;
      by split.
Qed.

Lemma any_in_strip keys d : any_in keys (strip d) = true → any_in keys d = true.
Proof.
  unfold any_in. rewrite !existsb_exists. intros (k & Hk & Hc). exists k. split; [done|].
  by apply contains_strip_by in Hc.
Qed.

Lemma any_in_perm keys keys' d : keys ≡ₚ keys' → any_in keys d = any_in keys' d.
Proof.
  intros H. unfold any_in. apply eq_true_iff_eq. rewrite !existsb_exists.
  setoid_rewrite <- list_elem_of_In. by setoid_rewrite H.
Qed.

(** The domain of a row, from its normalised email. *)
Lemma rows_of_domain b r :
  r ∈ rows_of b →
  let e := r_E_MAIL_NORM r in
  r_DOMINIO r = (if contains_chr "@" e then after_at e else "")
  ∧ lower (r_DOMINIO r) = r_DOMINIO r
  ∧ r_FAMILIA_DOMINIO r = domain_family (r_DOMINIO r).
Proof.
  intros Hr e.
  destruct (rows_of_derived b r Hr) as (_ & Hd & _ & _ & _ & _ & _ & Hf & _).
  destruct (rows_of_reasons b r Hr) as [_ [x Hx]].
  split_and!; [done| |done]. rewrite Hd. fold e.
  destruct (contains_chr "@" e); [|done].
  apply after_at_lower_fixed. unfold e. rewrite Hx. apply lower_normalize_cell.
Qed.

(** Counting the domains of [domain_series] on the rows. *)
Lemma count_domain_series b (p : string → bool) :
  p "" = false →
  length (List.filter p (domain_series b))
  = length (List.filter (λ r, p (r_DOMINIO r)) (rows_of b)).
Proof.
  intros Hp. unfold domain_series. change (map ?g ?l) with (g <$> l).
  rewrite length_List_filter_fmap, !DomainFacts.List_filter_filter.
  symmetry. rewrite (count_rows_by_norm b _
    (λ e, p (if contains_chr "@" e then after_at e else ""))).
  - f_equal. apply DomainFacts.List_filter_ext_in. intros e _.
    destruct (contains_chr "@" e) eqn:Hat.
    + destruct e; [done|]. done.
    + by rewrite andb_false_r.
  - intros r Hr. by destruct (rows_of_domain b r Hr) as [-> _].
Qed.

(** X17.  [domain_family] looks at the domain in lower case and without
    the white space at its ends: the family is "Sem dominio" exactly when
    nothing is left, and "Gmail" exactly when "gmail" occurs in what is
    left.  Hence [gmail_like] is the number of rows of the family "Gmail",
    while a domain that holds "gmail" and "hotmail" (or "yahoo") is counted
    in [hotmail_like] ([yahoo_like]) and belongs to the family "Gmail": the
    rows of those families are at most the metric. *)
Theorem gmail_like_counts_the_gmail_family (b : base) :
  (∀ d, domain_family d = "Gmail" ↔ contains "gmail" (lower d) = true)
  ∧ (∀ d, domain_family d = "Sem dominio" ↔ strip d = "")
  ∧ (∀ d, domain_family (lower d) = domain_family d
          ∧ domain_family (strip d) = domain_family d)
  ∧ count_where r_FAMILIA_DOMINIO "Gmail" (rows_of b) = m_gmail_like (metrics_of b)
  ∧ count_where r_FAMILIA_DOMINIO "Hotmail / Outlook" (rows_of b)
    ≤ m_hotmail_like (metrics_of b)
  ∧ count_where r_FAMILIA_DOMINIO "Yahoo" (rows_of b) ≤ m_yahoo_like (metrics_of b)
  ∧ domain_family "hotmail.gmail.com" = "Gmail"
  ∧ any_in ["hotmail"; "live"; "outlook"; "msn"] "hotmail.gmail.com" = true.
Proof.
  split_and!.
  - apply domain_family_gmail.
  - apply domain_family_none.
  - intros d. split.
    + unfold domain_family. by rewrite lower_idem.
    + unfold domain_family. by rewrite !strip_lower, strip_idem.
  - cbn [m_gmail_like metrics_of]. rewrite count_domain_series by done.
    unfold count_where. f_equal. apply DomainFacts.List_filter_ext_in. intros r Hr.
    destruct (rows_of_domain b r Hr) as (_ & Hlower & ->).
    apply eq_true_iff_eq. rewrite String.eqb_eq, domain_family_gmail. by rewrite Hlower.
  - cbn [m_hotmail_like metrics_of]. rewrite count_domain_series by done.
    unfold count_where. apply length_List_filter_impl. intros r Hr.
    destruct (rows_of_domain b r Hr) as (_ & Hlower & ->).
    rewrite String.eqb_eq. unfold domain_family. rewrite Hlower.
    repeat match goal with
           | |- context [if ?c then _ else _] => destruct c eqn:?
           end; try done.
    intros _. rewrite (any_in_perm _ ["hotmail"; "outlook"; "live"; "msn"]).
    + by apply any_in_strip.
    + by rewrite (Permutation_swap "outlook" "live").
  - cbn [m_yahoo_like metrics_of]. rewrite count_domain_series by done.
    unfold count_where. apply length_List_filter_impl. intros r Hr.
    destruct (rows_of_domain b r Hr) as (_ & Hlower & ->).
    rewrite String.eqb_eq. unfold domain_family. rewrite Hlower.
    repeat match goal with
           | |- context [if ?c then _ else _] => destruct c eqn:?
           end; try done.
    intros _. by apply any_in_strip.
  - reflexivity.
  - reflexivity.
Qed.

End FamilyFacts.

(** ** Documents and their emails *)

Module ClientFacts.
Import Text Regex Ranking RankingFacts CounterFacts TextFacts App Report Page Props
  PageProps CountFacts ReportFacts MetricsFacts.

Lemma distinct_pos `{EqDecision A} (l : list A) : 0 < distinct l ↔ l ≠ [].
Proof.
  unfold distinct. split.
  - intros H ->. simpl in H. lia.
  - intros H. destruct l as [|x l]; [done|].
    assert (x ∈ remove_dups (x :: l)) as Hx by (rewrite elem_of_remove_dups; left).
    destruct (remove_dups (x :: l)); [by apply elem_of_nil in Hx|simpl; lia].
Qed.

Lemma groupby_nunique_perm (pairs : list (string * string)) :
  groupby_nunique pairs
  ≡ₚ (λ k, (k, distinct (snd <$> filter (λ p, p.1 = k) pairs))) <$> remove_dups pairs.*1.
Proof.
  unfold groupby_nunique. rewrite sort_by_perm. change (map ?h ?l) with (h <$> l).
  set (d := fill fst (λ (p : string * string) s, s ∪ {[p.2]}) ∅ [] pairs).
  assert (((λ kv : string * gset string, (kv.1, size kv.2)) <$> d).*1 = d.*1) as Hkeys.
  { rewrite <- list_fmap_compose. by apply list_fmap_ext. }
  apply NoDup_Permutation.
  - eapply NoDup_fmap_1. rewrite Hkeys. apply TopFacts.fill_NoDup.
  - apply NoDup_fmap_2; [by intros k k' [= ?]|apply NoDup_remove_dups].
  - intros [k c]. rewrite !list_elem_of_fmap. split.
    + intros ([k' s] & [= -> ->] & Hin).
      apply (TopFacts.elem_of_fill_sets fst snd) in Hin as [Hk ->].
      exists k'. split; [|by rewrite elem_of_remove_dups]. f_equal. simpl.
      apply SummaryFacts.size_list_to_set_distinct.
    + intros (k' & [= -> ->] & Hk). rewrite elem_of_remove_dups in Hk.
      exists (k', list_to_set (snd <$> filter (λ p, p.1 = k') pairs)). split.
      * simpl. f_equal. symmetry. apply SummaryFacts.size_list_to_set_distinct.
      * by apply (TopFacts.elem_of_fill_sets fst snd).
Qed.

(** The pairs of document and email that [groupby] receives. *)
Lemma pairs_of_document (frame : list row) (d : string) :
  d ≠ "" →
  snd <$> filter (λ p : string * string, p.1 = d)
            (map (λ r, (r_CPF_CNPJ_NORM r, r_E_MAIL_NORM r))
               (List.filter (λ r, negb (is_empty (r_CPF_CNPJ_NORM r)) && has_email r) frame))
  = map r_E_MAIL_NORM
      (List.filter (λ r, String.eqb (r_CPF_CNPJ_NORM r) d && has_email r) frame).
Proof.
  intros Hd. induction frame as [|r frame IH]; [done|]. cbn [List.filter].
  destruct (String.eqb_spec (r_CPF_CNPJ_NORM r) d) as [Heq|Hne].
  - assert (is_empty (r_CPF_CNPJ_NORM r) = false) as -> by (rewrite Heq; by destruct d).
    cbn [negb andb]. destruct (has_email r); [|done].
    cbn [map]. rewrite filter_cons_True by done. csimpl. by rewrite IH.
  - cbn [andb]. destruct (negb (is_empty (r_CPF_CNPJ_NORM r)) && has_email r); [|done].
    cbn [map]. by rewrite filter_cons_False by done.
Qed.

Lemma elem_of_documents (frame : list row) (d : string) :
  d ∈ documents frame ↔ d ≠ "" ∧ ∃ r, r ∈ frame ∧ r_CPF_CNPJ_NORM r = d.
Proof.
  unfold documents. rewrite elem_of_remove_dups, AppFacts.elem_of_List_filter.
  change (map ?h ?l) with (h <$> l). rewrite list_elem_of_fmap.
  assert (negb (is_empty d) = true ↔ d ≠ "") as -> by (destruct d; naive_solver).
  naive_solver.
Qed.

Lemma emails_of_pos (frame : list row) (d : string) :
  0 < emails_of frame d
  ↔ ∃ r, r ∈ frame ∧ r_CPF_CNPJ_NORM r = d ∧ r_E_MAIL_NORM r ≠ "".
Proof.
  unfold emails_of. rewrite distinct_pos. split.
  - intros H.
    destruct (List.filter _ frame) as [|r l] eqn:Hf; [done|].
    assert (r ∈ List.filter (λ r, String.eqb (r_CPF_CNPJ_NORM r) d && has_email r) frame)
      as Hr by (rewrite Hf; left).
    apply AppFacts.elem_of_List_filter in Hr as [Hr [Hd He]%andb_true_iff].
    exists r. split_and!; [done|by apply String.eqb_eq|by apply has_email_true].
  - intros (r & Hr & Hd & He) Hnil.
    assert (r ∈ List.filter (λ r, String.eqb (r_CPF_CNPJ_NORM r) d && has_email r) frame)
      as Hin.
    { apply AppFacts.elem_of_List_filter. split; [done|].
      apply andb_true_iff. split; [by apply String.eqb_eq|by apply has_email_true]. }
    destruct (List.filter _ frame); [by apply elem_of_nil in Hin|done].
Qed.

(** The table of [groupby(...).nunique()] lists the documents that have
    an email, each with the number of its distinct emails. *)
Lemma client_counts_perm (frame : list row) :
  groupby_nunique
    (map (λ r, (r_CPF_CNPJ_NORM r, r_E_MAIL_NORM r))
       (List.filter (λ r, negb (is_empty (r_CPF_CNPJ_NORM r)) && has_email r) frame))
  ≡ₚ (λ d, (d, emails_of frame d))
       <$> List.filter (λ d, 0 <? emails_of frame d) (documents frame).
Proof.
  rewrite groupby_nunique_perm.
  set (pairs := map (λ r, (r_CPF_CNPJ_NORM r, r_E_MAIL_NORM r))
                  (List.filter (λ r, negb (is_empty (r_CPF_CNPJ_NORM r)) && has_email r)
                               frame)).
  assert (∀ d, d ∈ pairs.*1 ↔ d ≠ "" ∧ 0 < emails_of frame d) as Hkeys.
  { intros d. rewrite emails_of_pos. unfold pairs. change (map ?h ?l) with (h <$> l).
    rewrite <- list_fmap_compose, list_elem_of_fmap. split.
    - intros (r & -> & [Hr [Hd He]%andb_true_iff]%AppFacts.elem_of_List_filter). simpl.
      split; [by destruct (r_CPF_CNPJ_NORM r)|].
      exists r. split_and!; [done..|by apply has_email_true].
    - intros (Hd & r & Hr & <- & He). exists r. split; [done|].
      apply AppFacts.elem_of_List_filter. split; [done|]. apply andb_true_iff.
      split; [by destruct (r_CPF_CNPJ_NORM r)|by apply has_email_true]. }
  transitivity ((λ d, (d, emails_of frame d)) <$> remove_dups pairs.*1).
  - assert ((λ k, (k, distinct (snd <$> filter (λ p : string * string, p.1 = k) pairs)))
              <$> remove_dups pairs.*1
            = (λ d, (d, emails_of frame d)) <$> remove_dups pairs.*1) as ->; [|done].
    apply list_fmap_ext. intros i d Hd.
    apply list_elem_of_lookup_2 in Hd. rewrite elem_of_remove_dups in Hd.
    apply Hkeys in Hd as [Hd _]. f_equal. unfold emails_of.
    by rewrite <- (pairs_of_document frame d Hd).
  - apply fmap_Permutation, NoDup_Permutation.
    + apply NoDup_remove_dups.
    + rewrite List_filter_stdpp. apply NoDup_filter, NoDup_remove_dups.
    + intros d. rewrite elem_of_remove_dups, Hkeys, AppFacts.elem_of_List_filter.
      rewrite elem_of_documents, Nat.ltb_lt, emails_of_pos. naive_solver.
Qed.

Lemma length_filter_counts (frame : list row) (P : nat → bool) :
  P 0 = false →
  length (List.filter (λ kv : string * nat, P kv.2)
            (groupby_nunique
               (map (λ r, (r_CPF_CNPJ_NORM r, r_E_MAIL_NORM r))
                  (List.filter (λ r, negb (is_empty (r_CPF_CNPJ_NORM r)) && has_email r)
                               frame))))
  = length (List.filter (λ d, P (emails_of frame d)) (documents frame)).
Proof.
  intros HP. rewrite (List_filter_perm _ _ _ (client_counts_perm frame)).
  rewrite length_List_filter_fmap, DomainFacts.List_filter_filter. simpl.
  f_equal. apply DomainFacts.List_filter_ext_in. intros d _.
  destruct (emails_of frame d); [by rewrite HP|done].
Qed.

Lemma clients_of_documents (frame : list row) : clients_of frame = length (documents frame).
Proof. unfold clients_of, nunique, documents. apply SummaryFacts.size_list_to_set_distinct. Qed.

(** X18.  [unique_clients] is the number of distinct non-empty documents
    (the digits of the document cells).  [doc_emails] has an entry for every
    such document with at least one row with an email, holding the number of
    its distinct normalised emails, and [clients_multi_email] is the number
    of documents with two or more distinct emails; it is at most
    [unique_clients].  The test on [len(doc_emails)] changes nothing. *)
Theorem clients_multi_email_counts_documents (b : base) :
  let m := metrics_of b in
  let frame := rows_of b in
  m_unique_clients m = length (documents frame)
  ∧ (∀ d, d ∈ documents frame ↔ d ≠ "" ∧ ∃ r, r ∈ frame ∧ r_CPF_CNPJ_NORM r = d)
  ∧ (∀ d c, (d, c) ∈ doc_emails b
            ↔ d ∈ documents frame ∧ c = emails_of frame d ∧ 1 ≤ c)
  ∧ m_clients_multi_email m
    = length (List.filter (λ d, 2 <=? emails_of frame d) (documents frame))
  ∧ m_clients_multi_email m
    = length (List.filter (λ kv : string * nat, 1 <? kv.2) (doc_emails b))
  ∧ m_clients_multi_email m ≤ m_unique_clients m.
Proof.
  intros m frame.
  assert (m_clients_multi_email m
          = length (List.filter (λ kv : string * nat, 1 <? kv.2) (doc_emails b))) as Hguard.
  { cbn [m m_clients_multi_email metrics_of].
    destruct (doc_emails b) as [|kv l] eqn:Hd; [done|]. done. }
  assert (m_clients_multi_email m
          = length (List.filter (λ d, 2 <=? emails_of frame d) (documents frame))) as Hmulti.
  { rewrite Hguard. unfold doc_emails. fold frame.
    by rewrite (length_filter_counts frame (λ n, 1 <? n)). }
  split_and!.
  - apply (clients_of_documents frame).
  - apply elem_of_documents.
  - intros d c. unfold doc_emails. fold frame. rewrite (client_counts_perm frame).
    rewrite list_elem_of_fmap. split.
    + intros (d' & [= -> ->] & [Hd Hpos]%AppFacts.elem_of_List_filter).
      apply Nat.ltb_lt in Hpos. split_and!; [done..|lia].
    + intros (Hd & -> & Hpos). exists d. split; [done|].
      apply AppFacts.elem_of_List_filter. split; [done|]. apply Nat.ltb_lt. lia.
  - exact Hmulti.
  - exact Hguard.
  - rewrite Hmulti. pose proof (clients_of_documents frame) as Hc.
    unfold clients_of in Hc. cbn [m m_unique_clients metrics_of]. fold frame.
    rewrite Hc. apply length_List_filter_le.
Qed.

End ClientFacts.

(** ** The overview of the page *)

Module OverviewFacts.
Import Text Regex Ranking RankingFacts CounterFacts TextFacts App Report Page Props
  PageProps CountFacts ReportFacts MetricsFacts ClientFacts.

Lemma List_filter_sublist {A : Type} (f : A → bool) (l : list A) : List.filter f l `sublist_of` l.
Proof.
  induction l as [|x l IH]; simpl; [done|].
  destruct (f x); [by apply sublist_skip|by apply sublist_cons].
Qed.

Lemma keep_equal_sublist get wanted all frame :
  keep_equal get wanted all frame `sublist_of` frame.
Proof. unfold keep_equal. destruct (String.eqb wanted all); [done|apply List_filter_sublist]. Qed.

Lemma elem_of_keep_equal get wanted all frame r :
  r ∈ keep_equal get wanted all frame ↔ r ∈ frame ∧ (wanted = all ∨ get r = wanted).
Proof.
  unfold keep_equal. destruct (String.eqb_spec wanted all) as [->|Hne].
  - naive_solver.
  - rewrite AppFacts.elem_of_List_filter, String.eqb_eq. naive_solver.
Qed.

Lemma clients_of_sublist (sub frame : list row) :
  sub `sublist_of` frame → clients_of sub ≤ clients_of frame.
Proof.
  intros H. unfold clients_of, nunique. apply subseteq_size.
  intros d. rewrite !elem_of_list_to_set, !AppFacts.elem_of_List_filter.
  change (map ?h ?l) with (h <$> l). rewrite !list_elem_of_fmap.
  intros [(r & -> & Hr) Hd]. split; [|done]. exists r. split; [done|].
  by eapply elem_of_sublist.
Qed.

Section overview.
Variable str_contains : string → result (string → bool).

Lemma filtered_cases (b : base) (active : filters) :
  let f4 :=
    keep_equal r_STATUS_EMAIL (f_status active) "Todos"
      (keep_equal r_FAMILIA_DOMINIO (f_familia active) "Todas"
         (keep_equal r_REGIAO (f_regiao active) "Todas"
            (keep_equal r_ORIGEM (f_origem active) "Todos" (dashboard_df b)))) in
  filtered str_contains b active =
  if is_empty (strip (f_busca active)) then Ok f4
  else match str_contains (lower (strip (f_busca active))) with
       | Ok found =>
           Ok (List.filter (λ r, found (lower (r_NOME r)) || found (r_E_MAIL_NORM r)) f4)
       | Raise e => Raise e
       end.
Proof.
  intros f4. unfold filtered. fold f4.
  destruct (is_empty (strip (f_busca active))); [done|].
  by destruct (str_contains (lower (strip (f_busca active)))).
Qed.

Lemma filtered_rows (b : base) (active : filters) (frame : list row) :
  filtered str_contains b active = Ok frame →
  frame `sublist_of` dashboard_df b
  ∧ ∀ r, r ∈ frame →
         (f_origem active = "Todos" ∨ r_ORIGEM r = f_origem active)
         ∧ (f_regiao active = "Todas" ∨ r_REGIAO r = f_regiao active)
         ∧ (f_familia active = "Todas" ∨ r_FAMILIA_DOMINIO r = f_familia active)
         ∧ (f_status active = "Todos" ∨ r_STATUS_EMAIL r = f_status active).
Proof.
  rewrite filtered_cases.
  set (f4 := keep_equal r_STATUS_EMAIL _ _ _).
  assert (f4 `sublist_of` dashboard_df b) as Hsub.
  { unfold f4. repeat (etrans; [apply keep_equal_sublist|]). done. }
  assert (∀ r, r ∈ f4 →
            (f_origem active = "Todos" ∨ r_ORIGEM r = f_origem active)
            ∧ (f_regiao active = "Todas" ∨ r_REGIAO r = f_regiao active)
            ∧ (f_familia active = "Todas" ∨ r_FAMILIA_DOMINIO r = f_familia active)
            ∧ (f_status active = "Todos" ∨ r_STATUS_EMAIL r = f_status active)) as Hkeep.
  { intros r Hr. unfold f4 in Hr. rewrite !elem_of_keep_equal in Hr. naive_solver. }
  destruct (is_empty (strip (f_busca active))).
  - intros [= <-]. done.
  - destruct (str_contains _) as [found|e]; [|done]. intros [= <-]. split.
    + etrans; [apply List_filter_sublist|done].
    + intros r [Hr _]%AppFacts.elem_of_List_filter. by apply Hkeep.
Qed.

(** X19.  The frame the overview shows after the filters holds rows of
    the table with an email only, each passing every filter that is set.  So
    "Total de e-mails" always equals "Total de linhas", and the number of rows
    and of emails "sem repeticao" are both the number of distinct emails of
    the frame; the clients "sem repeticao" are at most the clients; and the
    clients with two emails are among the clients with two or more, the
    documents of the frame with that many distinct emails. *)
Theorem overview_totals (b : base) (active : filters) (frame : list row) :
  filtered str_contains b active = Ok frame →
  (∀ r, r ∈ frame →
        r ∈ rows_of b ∧ r_E_MAIL_NORM r ≠ ""
        ∧ (f_origem active = "Todos" ∨ r_ORIGEM r = f_origem active)
        ∧ (f_regiao active = "Todas" ∨ r_REGIAO r = f_regiao active)
        ∧ (f_familia active = "Todas" ∨ r_FAMILIA_DOMINIO r = f_familia active)
        ∧ (f_status active = "Todos" ∨ r_STATUS_EMAIL r = f_status active))
  ∧ filtered_total_emails frame = filtered_total_rows frame
  ∧ filtered_total_rows frame ≤ m_emails_total (metrics_of b)
  ∧ filtered_rows_unique_no_repeat frame = distinct (map r_E_MAIL_NORM frame)
  ∧ filtered_emails_unique_no_repeat frame = distinct (map r_E_MAIL_NORM frame)
  ∧ filtered_clients_unique_no_repeat frame ≤ filtered_total_clients frame
  ∧ filtered_total_clients frame = length (documents frame)
  ∧ clients_two_or_more frame
    = length (List.filter (λ d, 2 <=? emails_of frame d) (documents frame))
  ∧ clients_exactly_two frame
    = length (List.filter (λ d, emails_of frame d =? 2) (documents frame))
  ∧ clients_exactly_two frame ≤ clients_two_or_more frame
  ∧ clients_two_or_more frame ≤ filtered_total_clients frame.
Proof.
  intros Hframe. destruct (filtered_rows b active frame Hframe) as [Hsub Hkeep].
  assert (∀ r, r ∈ frame → r ∈ rows_of b ∧ has_email r = true) as Hrows.
  { intros r Hr. apply (elem_of_sublist _ _ _ Hr) in Hsub.
    by apply AppFacts.elem_of_List_filter in Hsub. }
  assert (List.filter has_email frame = frame) as Hall.
  { apply List_filter_all. intros r Hr. by apply Hrows. }
  assert (filtered_rows_unique_no_repeat frame = distinct (map r_E_MAIL_NORM frame)) as Huniq.
  { unfold filtered_rows_unique_no_repeat, filtered_no_repeat_email, drop_duplicates.
    rewrite Hall, length_drop_duplicates_from, difference_empty_L.
    apply SummaryFacts.size_list_to_set_distinct. }
  assert (clients_two_or_more frame
          = length (List.filter (λ d, 2 <=? emails_of frame d) (documents frame))) as Htwo.
  { unfold clients_two_or_more, client_email_counts, sort_count_desc_key_asc.
    rewrite (List_filter_perm _ _ _ (sort_by_perm _ _)).
    by rewrite (length_filter_counts frame (λ n, 2 <=? n)). }
  assert (clients_exactly_two frame
          = length (List.filter (λ d, emails_of frame d =? 2) (documents frame))) as Hexact.
  { unfold clients_exactly_two, client_email_counts, sort_count_desc_key_asc.
    rewrite (List_filter_perm _ _ _ (sort_by_perm _ _)).
    by rewrite (length_filter_counts frame (λ n, n =? 2)). }
  split_and!.
  - intros r Hr. destruct (Hrows r Hr) as [Hrow He]. apply has_email_true in He.
    destruct (Hkeep r Hr) as (? & ? & ? & ?). done.
  - unfold filtered_total_emails, filtered_total_rows. by rewrite Hall.
  - unfold filtered_total_rows. apply sublist_length in Hsub.
    assert (m_emails_total (metrics_of b) = length (dashboard_df b)) as ->; [|done].
    cbn [m_emails_total metrics_of]. unfold dashboard_df. symmetry.
    by apply count_rows_by_norm.
  - exact Huniq.
  - rewrite <- Huniq.
    unfold filtered_emails_unique_no_repeat, filtered_rows_unique_no_repeat, nunique.
    destruct (drop_duplicates_from_spec r_E_MAIL_NORM ∅ (List.filter has_email frame))
      as (Hnodup & _).
    unfold filtered_no_repeat_email, drop_duplicates. change (map ?h ?l) with (h <$> l).
    rewrite (size_list_to_set (C:=gset string)) by done. by rewrite length_fmap.
  - unfold filtered_clients_unique_no_repeat, filtered_total_clients.
    apply clients_of_sublist. unfold filtered_no_repeat_email, drop_duplicates.
    rewrite Hall. clear. generalize (∅ : gset string).
    induction frame as [|r frame IH]; intros seen; simpl; [done|].
    case_bool_decide; [by apply sublist_cons|by apply sublist_skip].
  - apply clients_of_documents.
  - exact Htwo.
  - exact Hexact.
  - rewrite Htwo, Hexact. apply length_List_filter_impl. intros d _ Hd.
    apply Nat.eqb_eq in Hd. apply Nat.leb_le. lia.
  - rewrite Htwo. unfold filtered_total_clients. rewrite clients_of_documents.
    apply length_List_filter_le.
Qed.

(** X20.  With the filters as the page sets them at first, the overview
    shows every row with an email.  The filters of origin, region, family and
    status never fail; the search box is read as a pattern, in lower case and
    without the white space at its ends, and it is the only step that can
    raise: the overview fails exactly when the box is not blank and its
    pattern does not compile, whatever the other filters are. *)
Theorem overview_fails_only_on_the_search_pattern (b : base) (active : filters) :
  filtered str_contains b default_filters = Ok (dashboard_df b)
  ∧ length (dashboard_df b) = m_emails_total (metrics_of b)
  ∧ (strip (f_busca active) = "" → ∃ frame, filtered str_contains b active = Ok frame)
  ∧ (∀ e, filtered str_contains b active = Raise e
          ↔ strip (f_busca active) ≠ ""
            ∧ str_contains (lower (strip (f_busca active))) = Raise e)
  ∧ (∀ found, strip (f_busca active) ≠ "" →
       str_contains (lower (strip (f_busca active))) = Ok found →
       ∃ frame, filtered str_contains b active = Ok frame
                ∧ ∀ r, r ∈ frame → found (lower (r_NOME r)) || found (r_E_MAIL_NORM r) = true).
Proof.
  split_and!.
  - done.
  - cbn [m_emails_total metrics_of]. unfold dashboard_df. by apply count_rows_by_norm.
  - intros Hblank. rewrite filtered_cases, Hblank. simpl. eauto.
  - intros e. rewrite filtered_cases.
    destruct (strip (f_busca active)) as [|c s] eqn:Hbusca; [by split; [|intros [? _]]|].
    cbn [is_empty]. destruct (str_contains _) as [found|e']; split; try done.
    + by intros [_ ?].
    + by intros [= <-].
    + by intros [_ [= <-]].
  - intros found Hne Hfound. rewrite filtered_cases, Hfound.
    destruct (strip (f_busca active)) as [|c s] eqn:Hbusca; [done|]. cbn [is_empty].
    eexists. split; [done|]. by intros r [_ Hr]%AppFacts.elem_of_List_filter.
Qed.
End overview.

Lemma overview_totals_witness :
  let b := {| ORIGEM := ["A"; "B"; "A"; "A"];
              CPF_CNPJ := ["111.111"; "222"; "111-111"; "333"];
              NOME := ["Joao"; "Ana"; "Joao"; "Rui"];
              E_MAIL := ["joao@gmail.com"; "ana@uol.com.br"; "j@uol.com.br"; ""];
              REGIAO := ["Sao Paulo/SP"; "RJ"; "SP"; "SP"] |} in
  let active := {| f_origem := "A"; f_regiao := "Todas"; f_familia := "Todas";
                   f_status := "Todos"; f_busca := " J " |} in
  let frame := keep_equal r_ORIGEM "A" "Todos" (dashboard_df b) in
  filtered (λ pattern, Ok (Strings.contains pattern)) b active = Ok frame
  ∧ filtered_total_rows frame = 2
  ∧ filtered_total_emails frame = filtered_total_rows frame
  ∧ clients_two_or_more frame
    = length (List.filter (λ d, 2 <=? emails_of frame d) (documents frame)).
Proof.
  intros b active frame.
  assert (filtered (λ pattern, Ok (Strings.contains pattern)) b active = Ok frame) as H
    by (vm_compute; reflexivity).
  split; [exact H|]. split; [vm_compute; reflexivity|].
  pose proof (overview_totals _ b active frame H) as Htotals.
  split; apply Htotals.
Defined.

End OverviewFacts.

(** ** The map of the states *)

Module MapFacts.
Import Text Regex Ranking RankingFacts CounterFacts TextFacts App Report Page Props
  PageProps CountFacts ReportFacts MetricsFacts.

(** Every state has a name and a place, and the place and the label are
    within the ranges of the map. *)
Lemma states_on_the_map :
  Forall (λ code,
            is_Some (dict_lookup code UF_TO_STATE_NAME)
            ∧ ∃ lat lon, dict_lookup code UF_TO_COORD = Some (lat, lon)
                         ∧ on_the_map (lat, lon)
                         ∧ ∀ n, ∃ place, label_place (uf_row_of (code, n)) = Some place
                                         ∧ on_the_map place)
    BRAZIL_UFS.
Proof.
  unfold BRAZIL_UFS.
  repeat (apply Forall_cons; split;
          [split; [by eexists|];
           eexists _, _; split; [reflexivity|]; split;
           [unfold on_the_map; vm_compute; repeat split; discriminate|];
           intros n; eexists; split; [reflexivity|];
           unfold on_the_map; vm_compute; repeat split; discriminate|]).
  apply Forall_nil_2.
Qed.

Lemma occurrences_map_count (get : row → string) (k : string) (frame : list row) :
  occurrences k (map get frame) = count_where get k frame.
Proof.
  unfold count_where. induction frame as [|r frame IH]; [done|]. cbn [map List.filter].
  rewrite BatchFacts.occurrences_cons, IH.
  destruct (String.eqb_spec (get r) k) as [Heq|Hne].
  - rewrite decide_True by done. done.
  - rewrite decide_False by done. done.
Qed.

Lemma uf_counts_rows (frame : list row) (u : uf_row) :
  u ∈ uf_counts frame
  ↔ UF u ≠ "" ∧ (∃ r, r ∈ frame ∧ r_UF_REGIAO r = UF u)
    ∧ u = uf_row_of (UF u, count_where r_UF_REGIAO (UF u) frame).
Proof.
  unfold uf_counts. change (map uf_row_of ?l) with (uf_row_of <$> l).
  rewrite list_elem_of_fmap. split.
  - intros ([k c] & -> & [Hk ->]%elem_of_value_counts).
    apply AppFacts.elem_of_List_filter in Hk as [Hk Hne].
    change (map ?h ?l) with (h <$> l) in Hk.
    apply list_elem_of_fmap in Hk as (r & -> & Hr). cbn [UF uf_row_of fst].
    split_and!; [by destruct (r_UF_REGIAO r)|by exists r|].
    f_equal. f_equal. rewrite occurrences_non_empty by (by destruct (r_UF_REGIAO r)).
    apply occurrences_map_count.
  - intros (Hne & (r & Hr & Hk) & Hu).
    exists (UF u, count_where r_UF_REGIAO (UF u) frame). split; [done|].
    apply elem_of_value_counts. split.
    + apply AppFacts.elem_of_List_filter. split; [|by destruct (UF u)].
      change (map ?h ?l) with (h <$> l). apply list_elem_of_fmap. by exists r.
    + rewrite occurrences_non_empty by done. symmetry. apply occurrences_map_count.
Qed.

(** X21.  In a frame of rows of the table every state that occurs has
    its name and its coordinates: [dropna] drops nothing, and [uf_df] has one
    row for each state of the frame, with the number of rows of the state.
    The marker and the label of every row lie within the latitude and
    longitude ranges of the map, and the counts add up to the number of rows
    with a state. *)
Theorem every_state_of_the_frame_is_on_the_map (b : base) (frame : list row) :
  (∀ r, r ∈ frame → r ∈ rows_of b) →
  uf_df frame = uf_counts frame
  ∧ NoDup (UF <$> uf_df frame)
  ∧ (∀ u, u ∈ uf_df frame →
          UF u ∈ BRAZIL_UFS
          ∧ QUANTIDADE u = count_where r_UF_REGIAO (UF u) frame
          ∧ 0 < QUANTIDADE u
          ∧ ESTADO u = dict_lookup (UF u) UF_TO_STATE_NAME ∧ is_Some (ESTADO u)
          ∧ ∃ lat lon place,
              LAT u = Some lat ∧ LON u = Some lon ∧ on_the_map (lat, lon)
              ∧ label_place u = Some place ∧ on_the_map place)
  ∧ (∀ r, r ∈ frame → r_UF_REGIAO r ≠ "" → r_UF_REGIAO r ∈ UF <$> uf_df frame)
  ∧ sum_list (QUANTIDADE <$> uf_df frame)
    = length (List.filter (λ r, negb (is_empty (r_UF_REGIAO r))) frame)
  ∧ length (uf_df frame) ≤ 27.
Proof.
  intros Hframe.
  assert (∀ u, u ∈ uf_counts frame → UF u ∈ BRAZIL_UFS) as Hvalid.
  { intros u (Hne & (r & Hr & Hk) & _)%uf_counts_rows.
    destruct (rows_of_derived b r (Hframe r Hr)) as (_ & _ & _ & _ & _ & _ & _ & _ & Huf).
    rewrite <- Hk in *. by destruct Huf. }
  pose proof states_on_the_map as Hstates. rewrite Forall_forall in Hstates.
  assert (∀ u, u ∈ uf_counts frame →
            ∃ lat lon place,
              LAT u = Some lat ∧ LON u = Some lon ∧ on_the_map (lat, lon)
              ∧ label_place u = Some place ∧ on_the_map place) as Hplace.
  { intros u Hu. pose proof (Hvalid u Hu) as Hcode.
    apply uf_counts_rows in Hu as (_ & _ & Hu).
    destruct (Hstates _ Hcode) as (_ & lat & lon & Hcoord & Hmap & Hlabel).
    destruct (Hlabel (count_where r_UF_REGIAO (UF u) frame)) as (place & Hp & Hpmap).
    exists lat, lon, place. rewrite Hu. cbn [LAT LON uf_row_of fst]. rewrite Hcoord.
    split_and!; [done..| |done]. by rewrite <- Hp. }
  assert (uf_df frame = uf_counts frame) as Hdf.
  { unfold uf_df. apply List_filter_all. intros u Hu.
    destruct (Hplace u Hu) as (lat & lon & _ & -> & -> & _).
    apply andb_true_iff. split; apply bool_decide_eq_true_2; eauto. }
  assert (NoDup (UF <$> uf_counts frame)) as Hnodup.
  { unfold uf_counts. change (map uf_row_of ?l) with (uf_row_of <$> l).
    rewrite <- list_fmap_compose.
    assert (UF ∘ uf_row_of = fst) as -> by done.
    unfold value_counts, sorted_desc. rewrite sort_by_perm. apply counter_of_NoDup. }
  split_and!.
  - exact Hdf.
  - by rewrite Hdf.
  - rewrite Hdf. intros u Hu. pose proof (Hvalid u Hu) as Hcode.
    destruct (Hstates _ Hcode) as (Hname & _).
    pose proof (Hplace u Hu) as Hp.
    apply uf_counts_rows in Hu as (Hne & (r & Hr & Hk) & Hu).
    assert (QUANTIDADE u = count_where r_UF_REGIAO (UF u) frame) as Hq by (by rewrite Hu at 1).
    assert (ESTADO u = dict_lookup (UF u) UF_TO_STATE_NAME) as Hest by (by rewrite Hu at 1).
    split_and!; [done..| |done| |done].
    + rewrite Hq, <- occurrences_map_count. apply BatchFacts.occurrences_pos.
      change (map ?h ?l) with (h <$> l). apply list_elem_of_fmap. by exists r.
    + by rewrite Hest.
  - rewrite Hdf. intros r Hr Hne. apply list_elem_of_fmap.
    exists (uf_row_of (r_UF_REGIAO r, count_where r_UF_REGIAO (r_UF_REGIAO r) frame)).
    split; [done|]. apply uf_counts_rows. cbn [UF uf_row_of fst]. split_and!; [done| |done].
    by exists r.
  - rewrite Hdf. unfold uf_counts. change (map uf_row_of ?l) with (uf_row_of <$> l).
    rewrite <- list_fmap_compose.
    set (l := List.filter (λ u, negb (is_empty u)) (map r_UF_REGIAO frame)).
    transitivity (total (value_counts l)).
    { unfold total. generalize (value_counts l). intros c.
      induction c as [|[k n] c IH]; csimpl; [done|]. by rewrite IH. }
    unfold value_counts, sorted_desc. rewrite (total_perm _ _ (sort_by_perm _ _)).
    rewrite total_counter_of. unfold l. change (map ?h ?l) with (h <$> l).
    by rewrite length_List_filter_fmap.
  - rewrite Hdf. rewrite <- (length_fmap UF).
    assert (length BRAZIL_UFS = 27) as <- by done.
    apply submseteq_length, NoDup_submseteq; [done|].
    intros code (u & -> & Hu)%list_elem_of_fmap. by apply Hvalid.
Qed.

Lemma every_state_of_the_frame_is_on_the_map_witness :
  let b := {| ORIGEM := ["A"; "B"; "A"; "A"];
              CPF_CNPJ := ["111.111"; "222"; "111-111"; "333"];
              NOME := ["Joao"; "Ana"; "Joao"; "Rui"];
              E_MAIL := ["joao@gmail.com"; "ana@uol.com.br"; "j@uol.com.br"; ""];
              REGIAO := ["Sao Paulo/SP"; "Recife PE"; "SP"; "sem regiao"] |} in
  (∀ r, r ∈ rows_of b → r ∈ rows_of b)
  ∧ UF <$> uf_df (rows_of b) = ["SP"; "PE"]
  ∧ QUANTIDADE <$> uf_df (rows_of b) = [2; 1]
  ∧ uf_df (rows_of b) = uf_counts (rows_of b)
  ∧ length (uf_df (rows_of b)) ≤ 27.
Proof.
  intros b.
  pose proof (every_state_of_the_frame_is_on_the_map b (rows_of b) (λ r H, H)) as H.
  split; [exact (λ r H, H)|]. split; [vm_compute; reflexivity|].
  split; [vm_compute; reflexivity|]. split; apply H.
Defined.

End MapFacts.

(** ** Reading the upload *)

Module ReadFacts.
Import Text Regex Ranking RankingFacts TextFacts RegexFacts App Report Page Props PageProps.

Lemma stake_all (n : nat) (s : string) : String.length s ≤ n → stake n s = s.
Proof.
  revert n. induction s as [|c s IH]; intros n Hn; [by destruct n|].
  destruct n as [|n]; simpl in *; [lia|]. rewrite IH; [done|lia].
Qed.

Lemma stake_app (n : nat) (a b : string) : String.length a = n → stake n (a +:+ b) = a.
Proof.
  revert n. induction a as [|c a IH]; intros n Hn; simpl in Hn; subst n.
  - rewrite sapp_nil_l. by destruct b.
  - rewrite sapp_cons. simpl. by rewrite IH.
Qed.

Lemma count_chr_stake (c : ascii) (n : nat) (s : string) :
  count_chr c (stake n s) ≤ count_chr c s.
Proof.
  revert n. induction s as [|d s IH]; intros n; [by destruct n|].
  destruct n as [|n]; simpl; [lia|]. specialize (IH n). lia.
Qed.

(** X22.  [detect_csv_delimiter] answers the semicolon when the first
    8192 bytes of the file hold more semicolons than commas, and the comma
    otherwise: on a tie, and so for a file with neither.  Nothing after the
    first 8192 bytes is looked at, and a file without a semicolon is always
    read with the comma. *)
Theorem detect_csv_delimiter_samples_the_first_bytes (file_bytes : string) :
  (detect_csv_delimiter file_bytes = ";"%char ∨ detect_csv_delimiter file_bytes = ","%char)
  ∧ (String.length file_bytes ≤ 8 * 1024 →
     (detect_csv_delimiter file_bytes = ";"%char
      ↔ count_chr "," file_bytes < count_chr ";" file_bytes))
  ∧ (∀ tail, String.length file_bytes = 8 * 1024 →
       detect_csv_delimiter (file_bytes +:+ tail) = detect_csv_delimiter file_bytes)
  ∧ (count_chr ";" file_bytes = 0 → detect_csv_delimiter file_bytes = ","%char)
  ∧ detect_csv_delimiter "" = ","%char
  ∧ detect_csv_delimiter "a;b,c" = ","%char
  ∧ detect_csv_delimiter "a;b;c,d" = ";"%char.
Proof.
  split_and!.
  - unfold detect_csv_delimiter. destruct (_ <? _); auto.
  - intros Hlen. unfold detect_csv_delimiter. rewrite stake_all by done.
    destruct (count_chr "," file_bytes <? count_chr ";" file_bytes) eqn:H.
    + apply Nat.ltb_lt in H. done.
    + apply Nat.ltb_ge in H. split; [done|lia].
  - intros tail Hlen. unfold detect_csv_delimiter.
    rewrite stake_app by done. rewrite stake_all by (rewrite Hlen; done). done.
  - intros Hnone. unfold detect_csv_delimiter.
    pose proof (count_chr_stake ";" (8 * 1024) file_bytes) as Hle.
    destruct (_ <? _) eqn:H; [|done]. apply Nat.ltb_lt in H. lia.
  - reflexivity.
  - reflexivity.
  - reflexivity.
Qed.

Lemma after_last_dot_no_dot (s : string) :
  contains_chr "." s = false → after_last_dot s = s.
Proof. destruct s as [|c s]; [done|]. cbn [after_last_dot]. by intros ->. Qed.

Lemma after_last_dot_app (stem ext : string) :
  contains_chr "." ext = false → after_last_dot (stem +:+ String "." ext) = ext.
Proof.
  intros Hext. induction stem as [|c stem IH].
  - rewrite sapp_nil_l. cbn [after_last_dot]. rewrite Hext. done.
  - rewrite sapp_cons. cbn [after_last_dot].
    rewrite <- sapp_cons, !EmailFacts.contains_chr_app_cons. done.
Qed.

Lemma strip_names_columns (df : DataFrame) (c : string) :
  c ∈ df_columns (strip_names df) → strip c = c.
Proof.
  unfold df_columns, strip_names. change (map ?h ?l) with (h <$> l).
  rewrite <- list_fmap_compose. intros (col & -> & _)%list_elem_of_fmap. simpl.
  apply strip_idem.
Qed.

Lemma strip_names_cells (df : DataFrame) : map snd (strip_names df) = map snd df.
Proof. unfold strip_names. rewrite map_map. done. Qed.

Lemma synthetic_names_cells (df : DataFrame) : map snd (synthetic_names df) = map snd df.
Proof.
  unfold synthetic_names. change (map ?h ?l) with (h <$> l).
  rewrite fmap_imap. unfold compose. simpl.
  rewrite <- (imap_const snd df). done.
Qed.

Section readers.
Variable read_csv : string → header_opt → ascii → result DataFrame.
Variable read_excel : string → header_opt → result DataFrame.

(** X23.  [read_table] chooses the reader by the text after the last dot
    of the file name, in lower case (the whole name when it has no dot): any
    other text than "csv", "xlsx" and "xls" gives the [ValueError] of the
    unsupported format.  A table that is returned comes from the reader of
    its suffix, its cells unchanged; its column names have no white space at
    their ends; and an error other than the unsupported format is an error
    of the reader. *)
Theorem read_table_chooses_the_reader_by_suffix (f : upload) :
  let suffix := after_last_dot (lower (up_name f)) in
  let read := λ h,
    if String.eqb suffix "csv"
    then read_csv (up_value f) h (detect_csv_delimiter (up_value f))
    else read_excel (up_value f) h in
  (∀ stem ext, contains_chr "." ext = false → after_last_dot (stem +:+ String "." ext) = ext)
  ∧ (∀ s, contains_chr "." s = false → after_last_dot s = s)
  ∧ (suffix ∉ ["csv"; "xlsx"; "xls"] →
     read_table read_csv read_excel f
     = Raise (ValueError "Formato nao suportado. Use CSV, XLSX ou XLS."))
  ∧ (∀ df, read_table read_csv read_excel f = Ok df →
       suffix ∈ ["csv"; "xlsx"; "xls"]
       ∧ (∀ c, c ∈ df_columns df → strip c = c)
       ∧ ∃ h raw, read h = Ok raw ∧ map snd df = map snd raw
                  ∧ (h = header_first → df_columns df = map strip (df_columns raw)))
  ∧ (∀ e, read_table read_csv read_excel f = Raise e →
       suffix ∈ ["csv"; "xlsx"; "xls"] → ∃ h, read h = Raise e)
  ∧ after_last_dot (lower "Clientes.2026.CSV") = "csv"
  ∧ after_last_dot (lower "csv") = "csv"
  ∧ after_last_dot (lower "clientes.csv.bak") = "bak".
Proof.
  intros suffix read.
  assert (suffix ∉ ["csv"; "xlsx"; "xls"] →
          read_table read_csv read_excel f
          = Raise (ValueError "Formato nao suportado. Use CSV, XLSX ou XLS.")) as Hbad.
  { intros Hnot. unfold read_table. fold suffix.
    destruct (String.eqb_spec suffix "csv") as [Heq|_]; [rewrite Heq in Hnot; set_solver|].
    destruct (String.eqb_spec suffix "xlsx") as [Heq|_]; [rewrite Heq in Hnot; set_solver|].
    destruct (String.eqb_spec suffix "xls") as [Heq|_]; [rewrite Heq in Hnot; set_solver|].
    done. }
  assert (∀ raw, map snd (strip_names raw) = map snd raw
                 ∧ df_columns (strip_names raw) = map strip (df_columns raw)) as Hstrip.
  { intros raw. split; [apply strip_names_cells|].
    unfold df_columns, strip_names. by rewrite !map_map. }
  assert (∀ (r : header_opt → result DataFrame) x,
            (df ←r r header_first ;
             if looks_like_no_header (df_columns df)
             then df' ←r r header_none ; Ok (strip_names (synthetic_names df'))
             else Ok (strip_names df)) = x →
            match x with
            | Ok df =>
                (∀ c, c ∈ df_columns df → strip c = c)
                ∧ ∃ h raw, r h = Ok raw ∧ map snd df = map snd raw
                           ∧ (h = header_first → df_columns df = map strip (df_columns raw))
            | Raise e => ∃ h, r h = Raise e
            end) as Hread.
  { intros r x <-. destruct (r header_first) as [df0|e0] eqn:H0; simpl; [|eauto].
    destruct (looks_like_no_header (df_columns df0)).
    - destruct (r header_none) as [df1|e1] eqn:H1; simpl; [|eauto].
      split; [apply strip_names_columns|]. exists header_none, df1.
      split_and!; [done| |done].
      by rewrite strip_names_cells, synthetic_names_cells.
    - split; [apply strip_names_columns|]. exists header_first, df0.
      split_and!; [done|apply Hstrip|]. intros _. apply Hstrip. }
  assert (suffix ∈ ["csv"; "xlsx"; "xls"] →
          match read_table read_csv read_excel f with
          | Ok df =>
              (∀ c, c ∈ df_columns df → strip c = c)
              ∧ ∃ h raw, read h = Ok raw ∧ map snd df = map snd raw
                         ∧ (h = header_first → df_columns df = map strip (df_columns raw))
          | Raise e => ∃ h, read h = Raise e
          end) as Hgood.
  { intros Hin. unfold read_table, read. fold suffix.
    destruct (String.eqb_spec suffix "csv") as [Heq|Hne].
    - by apply (Hread (λ h, read_csv (up_value f) h (detect_csv_delimiter (up_value f)))).
    - assert (String.eqb suffix "xlsx" || String.eqb suffix "xls" = true) as ->.
      { apply orb_true_iff. rewrite !String.eqb_eq. set_solver. }
      by apply (Hread (λ h, read_excel (up_value f) h)). }
  split_and!.
  - apply after_last_dot_app.
  - apply after_last_dot_no_dot.
  - exact Hbad.
  - intros df Hdf. destruct (decide (suffix ∈ ["csv"; "xlsx"; "xls"])) as [Hin|Hnot].
    + split; [done|]. pose proof (Hgood Hin) as H. by rewrite Hdf in H.
    + by rewrite (Hbad Hnot) in Hdf.
  - intros e He Hin. pose proof (Hgood Hin) as H. by rewrite He in H.
  - reflexivity.
  - reflexivity.
  - reflexivity.
Qed.
End readers.

End ReadFacts.

(** ** The texts the page shows *)

Module FormatFacts.
Import Text Regex Ranking RankingFacts TextFacts RegexFacts App Report Page Props PageProps
  ReadFacts.

Lemma grouped_small (s : string) : String.length s ≤ 3 → grouped s = s.
Proof.
  induction s as [|c s IH]; [done|]. simpl. intros Hlen.
  rewrite IH by lia.
  destruct (String.length s) as [|[|[|n]]]; [done..|lia].
Qed.

Lemma grouped_app (a b : string) :
  a ≠ "" → String.length b = 3 → grouped (a +:+ b) = grouped a +:+ "," +:+ b.
Proof.
  intros Ha Hb. induction a as [|c a IH]; [done|]. clear Ha.
  rewrite sapp_cons. cbn [grouped]. rewrite sapp_cons. f_equal.
  rewrite sapp_length, Hb.
  assert ((String.length a + 3) mod 3 = String.length a mod 3) as ->.
  { replace (String.length a + 3) with (String.length a + 1 * 3) by lia.
    apply Nat.Div0.mod_add. }
  assert ((0 <? String.length a + 3) = true) as -> by (apply Nat.ltb_lt; lia).
  destruct a as [|d a].
  - rewrite sapp_nil_l, grouped_small by lia. done.
  - rewrite IH by done. cbn [String.length]. cbn [Nat.ltb Nat.leb andb].
    by rewrite sapp_assoc.
Qed.

Lemma sfilter_grouped (p : ascii → bool) (s : string) :
  p ","%char = false → sall p s = true → sfilter p (grouped s) = s.
Proof.
  intros Hcomma. induction s as [|c s IH]; [done|]. simpl.
  intros [Hc Hs]%andb_true_iff. rewrite Hc. f_equal.
  destruct (_ && _); rewrite ?sapp_nil_l; [|by apply IH].
  change ("," +:+ grouped s) with (String "," (grouped s)). simpl.
  rewrite Hcomma. by apply IH.
Qed.

Lemma string_of_uint_no_comma (d : Decimal.uint) :
  sall (λ c, negb (Ascii.eqb c ",")) (NilEmpty.string_of_uint d) = true.
Proof. induction d; simpl; done. Qed.

Lemma length_stake (n : nat) (s : string) :
  String.length (stake n s) = n `min` String.length s.
Proof.
  revert n. induction s as [|c s IH]; intros n; [by destruct n|].
  destruct n as [|n]; [done|]. simpl. by rewrite IH.
Qed.

(** X24.  [format_number] writes the decimal digits of the number, a
    minus sign before them when it is negative, and a comma before every
    group of three digits counted from the right: a text of at most three
    digits is left as it is, and a longer one is the grouping of all but its
    last three digits, a comma, and the last three.  Without its commas the
    text of a number that is not negative reads back as the number. *)
Theorem format_number_groups_the_digits_in_threes (value : Z) :
  let digits := NilEmpty.string_of_uint (N.to_uint (Z.abs_N value)) in
  let no_comma := sfilter (λ c, negb (Ascii.eqb c ",")) in
  format_number value = (if (value <? 0)%Z then "-" else "") +:+ grouped digits
  ∧ no_comma (grouped digits) = digits
  ∧ ((0 ≤ value)%Z →
     (λ d, Z.of_N (N.of_uint d)) <$> NilEmpty.uint_of_string (no_comma (format_number value))
     = Some value)
  ∧ ((value < 0)%Z → format_number value = "-" +:+ format_number (- value))
  ∧ (∀ s, String.length s ≤ 3 → grouped s = s)
  ∧ (∀ a b, a ≠ "" → String.length b = 3 → grouped (a +:+ b) = grouped a +:+ "," +:+ b)
  ∧ format_number 0 = "0"
  ∧ format_number 999 = "999"
  ∧ format_number 1000 = "1,000"
  ∧ format_number 1234567 = "1,234,567"
  ∧ format_number (-1234) = "-1,234".
Proof.
  intros digits no_comma.
  assert (no_comma (grouped digits) = digits) as Hdigits.
  { apply sfilter_grouped; [done|apply string_of_uint_no_comma]. }
  split_and!.
  - done.
  - exact Hdigits.
  - intros Hpos. unfold format_number. fold digits.
    rewrite (proj2 (Z.ltb_ge value 0)) by done. rewrite sapp_nil_l, Hdigits.
    unfold digits. rewrite NilEmpty.usu. simpl. f_equal.
    rewrite DecimalN.Unsigned.of_to, N2Z.inj_abs_N. lia.
  - intros Hneg. unfold format_number.
    rewrite (proj2 (Z.ltb_lt value 0)) by done.
    rewrite (proj2 (Z.ltb_ge (- value) 0)) by lia.
    rewrite sapp_nil_l. do 4 f_equal. lia.
  - apply grouped_small.
  - apply grouped_app.
  - reflexivity.
  - reflexivity.
  - reflexivity.
  - reflexivity.
  - reflexivity.
Qed.

(** X25.  The label of an email in the chart of repeated emails has at
    most 44 characters: an email of at most 44 characters is shown whole, a
    longer one as its first 41 characters and three dots.  So two long emails
    that agree on their first 41 characters get the same label. *)
Theorem email_label_has_at_most_44_characters (x : string) :
  String.length (EMAIL_EXIBICAO x) ≤ 44
  ∧ (EMAIL_EXIBICAO x = x ↔ String.length x ≤ 44)
  ∧ (44 < String.length x →
     EMAIL_EXIBICAO x = stake 41 x +:+ "..." ∧ String.length (EMAIL_EXIBICAO x) = 44)
  ∧ (∀ y, 44 < String.length x → 44 < String.length y → stake 41 x = stake 41 y →
          EMAIL_EXIBICAO x = EMAIL_EXIBICAO y)
  ∧ (∀ p a b, String.length p = 41 → 3 < String.length a → 3 < String.length b →
              EMAIL_EXIBICAO (p +:+ a) = EMAIL_EXIBICAO (p +:+ b)).
Proof.
  assert (∀ z, 44 < String.length z →
            EMAIL_EXIBICAO z = stake 41 z +:+ "..."
            ∧ String.length (EMAIL_EXIBICAO z) = 44) as Hlong.
  { intros z Hz. unfold EMAIL_EXIBICAO.
    rewrite (proj2 (Nat.leb_gt (String.length z) 44)) by done.
    split; [done|]. rewrite sapp_length, length_stake. cbn [String.length]. lia. }
  split_and!.
  - unfold EMAIL_EXIBICAO. destruct (String.length x <=? 44) eqn:H.
    + by apply Nat.leb_le in H.
    + rewrite sapp_length, length_stake. cbn [String.length]. lia.
  - split.
    + intros Heq. destruct (decide (String.length x ≤ 44)) as [|Hgt]; [done|].
      destruct (Hlong x ltac:(lia)) as [_ Hlen]. rewrite Heq in Hlen. lia.
    + intros Hle. unfold EMAIL_EXIBICAO. by rewrite (proj2 (Nat.leb_le _ _) Hle).
  - apply Hlong.
  - intros y Hx Hy Heq. destruct (Hlong x Hx) as [-> _]. destruct (Hlong y Hy) as [-> _].
    by rewrite Heq.
  - intros p a b Hp Ha Hb.
    destruct (Hlong (p +:+ a)) as [-> _]; [rewrite sapp_length; lia|].
    destruct (Hlong (p +:+ b)) as [-> _]; [rewrite sapp_length; lia|].
    by rewrite !stake_app.
Qed.

End FormatFacts.

(** ** Telling a header from a first record of data *)

Module HeaderRowFacts.
Import Text Regex Ranking RankingFacts TextFacts RegexFacts App Report Page Props PageProps.

Lemma sfilter_smap (f : ascii → ascii) (q : ascii → bool) s :
  (∀ d, q (f d) = q d) → (∀ d, q d = true → f d = d) →
  sfilter q (smap f s) = sfilter q s.
Proof.
  intros H1 H2. induction s as [|d s IH]; [done|]. simpl. rewrite H1, IH.
  destruct (q d) eqn:Hd; [|done]. by rewrite H2.
Qed.

Lemma digit_lower_chr d : is_digit (lower_chr d) = is_digit d.
Proof. revert d. intros [[] [] [] [] [] [] [] []]; reflexivity. Qed.

Lemma lower_chr_digit d : is_digit d = true → lower_chr d = d.
Proof. revert d. intros [[] [] [] [] [] [] [] []]; vm_compute; intros; (reflexivity || discriminate). Qed.

(** Lower case and the trim change neither the at signs nor the digits
    of a cell. *)
Lemma at_sign_of_text col :
  contains_chr "@" (lower (normalize_text col)) = contains_chr "@" col.
Proof. apply ScoreFacts.contains_at_normalized. Qed.

Lemma digits_of_text col :
  digits_of (lower (normalize_text col)) = sfilter is_digit col.
Proof.
  rewrite ScoreFacts.digits_of_filter. unfold lower, normalize_text, strip.
  rewrite (sfilter_smap _ _ _ digit_lower_chr lower_chr_digit).
  by rewrite ScoreFacts.sfilter_strip_by by apply ScoreFacts.space_not_digit.
Qed.

Lemma suspicious_pos (columns : list string) (n : nat) :
  0 < foldl (λ n col,
               let text := lower (normalize_text col) in
               let n1 := if contains_chr "@" text then S n else n in
               let d := String.length (digits_of text) in
               if (d =? 11) || (d =? 14) then S n1 else n1) n columns
  ↔ 0 < n ∨ ∃ col, col ∈ columns ∧ looks_like_data col = true.
Proof.
  revert n. induction columns as [|col columns IH]; intros n; simpl.
  - split; [auto|]. intros [?|(? & []%elem_of_nil & _)]. done.
  - rewrite IH. unfold looks_like_data at 2. setoid_rewrite elem_of_cons.
    rewrite at_sign_of_text, digits_of_text.
    destruct (contains_chr "@" col) eqn:Hat;
      destruct ((String.length (sfilter is_digit col) =? 11)
                || (String.length (sfilter is_digit col) =? 14)) eqn:Hd.
    all: split; [intros [Hn|(c & Hc & Hdata)]|intros [Hn|(c & [->|Hc] & Hdata)]].
    all: try (right; exists col; split; [by left|]; unfold looks_like_data;
              rewrite Hat, Hd; done).
    all: try (left; lia).
    all: try (right; exists c; split; [by right|done]).
    all: try (left; done).
    all: try (unfold looks_like_data in Hdata; rewrite Hat, Hd in Hdata; done).
    all: try (right; eauto).
Qed.

(** X26.  [read_table] reads a CSV or Excel file again without a header,
    and names the columns col_1, col_2 and so on, exactly when, of the
    column labels the reader gives with the first record read as the header,
    none is a known column name once normalised and some label holds an at
    sign or has 11 or 14 digits in all.  The labels are those of the reader
    and not the cells as they stand in the file: a cell that comes a second
    time is labelled with the suffix ".1", whose digit counts.  A first
    record of data whose labels have neither, as one whose email is empty and
    whose document is missing, is kept as the header; and so is every first
    record with a label that is a known column name. *)
Theorem table_is_read_again_iff_the_labels_look_like_data
  (read_csv : string → header_opt → ascii → result DataFrame)
  (read_excel : string → header_opt → result DataFrame)
  (f : upload) (df0 : DataFrame) :
  let suffix := after_last_dot (lower (up_name f)) in
  let labels := df_columns df0 in
  (looks_like_no_header labels = true
   ↔ (∀ col, col ∈ labels → normalize_header col ∉ known_headers)
     ∧ ∃ col, col ∈ labels ∧ looks_like_data col = true)
  ∧ (suffix = "csv" →
     read_csv (up_value f) header_first (detect_csv_delimiter (up_value f)) = Ok df0 →
     read_table read_csv read_excel f
     = if looks_like_no_header labels
       then match read_csv (up_value f) header_none (detect_csv_delimiter (up_value f)) with
            | Ok df' => Ok (strip_names (synthetic_names df'))
            | Raise e => Raise e
            end
       else Ok (strip_names df0))
  ∧ (suffix = "xlsx" ∨ suffix = "xls" →
     read_excel (up_value f) header_first = Ok df0 →
     read_table read_csv read_excel f
     = if looks_like_no_header labels
       then match read_excel (up_value f) header_none with
            | Ok df' => Ok (strip_names (synthetic_names df'))
            | Raise e => Raise e
            end
       else Ok (strip_names df0))
  ∧ (∀ col, looks_like_data col = true
            ↔ contains_chr "@" col = true
              ∨ String.length (sfilter is_digit col) = 11
              ∨ String.length (sfilter is_digit col) = 14)
  ∧ looks_like_no_header [] = false
  ∧ looks_like_no_header ["Acme"; "123.456.789-01"; "Joao"; "joao@gmail.com"] = true
  ∧ looks_like_no_header ["Acme"; "Unnamed: 1"; "Joao"; "Unnamed: 3"; "Sao Paulo/SP"] = false
  ∧ looks_like_no_header ["E-mail"; "joao@gmail.com"] = false
  ∧ looks_like_no_header ["1234567890"; "1234567890.1"] = true
  ∧ looks_like_no_header ["1234567890"; "Ana"] = false
  ∧ read_table
      (λ _ h _, Ok (match h with
                    | header_first => Spec.headerless_as_header
                    | header_none => Spec.headerless_as_data
                    end))
      read_excel {| up_name := "Clientes.CSV"; up_value := "" |}
    = Ok [ ("col_1", ["Acme"; "Beta"]); ("col_2", ["12345678901"; "222"]);
           ("col_3", ["Joao"; "Ana"]);
           ("col_4", ["joao@gmail.com"; "ana@uol.com.br"]) ].
Proof.
  intros suffix labels. split_and!.
  - unfold looks_like_no_header.
    destruct (existsb _ labels) eqn:Hknown.
    + split; [done|]. intros [Hnone _]. apply existsb_exists in Hknown as (col & Hcol & Hk).
      apply list_elem_of_In in Hcol. unfold mem in Hk. apply bool_decide_eq_true in Hk.
      by destruct (Hnone col Hcol).
    + rewrite Nat.ltb_lt, suspicious_pos. split.
      * intros [?|Hdata]; [lia|]. split; [|done]. intros col Hcol Hk.
        assert (existsb (λ col, mem (normalize_header col) known_headers) labels = true)
          as Hex; [|congruence].
        apply existsb_exists. exists col. split; [by apply list_elem_of_In|].
        unfold mem. by apply bool_decide_eq_true.
      * intros [_ Hdata]. by right.
  - intros Hcsv Hread. unfold read_table. fold suffix. rewrite Hcsv.
    cbn [String.eqb Ascii.eqb Bool.eqb]. cbn zeta. rewrite Hread. cbn [rbind].
    fold labels. destruct (looks_like_no_header labels); [|done].
    by destruct (read_csv _ header_none _).
  - intros Hx Hread. unfold read_table. fold suffix.
    assert (String.eqb suffix "csv" = false) as ->
      by (by destruct Hx as [-> | ->]).
    assert (String.eqb suffix "xlsx" || String.eqb suffix "xls" = true) as ->
      by (by destruct Hx as [-> | ->]).
    cbn zeta. rewrite Hread. cbn [rbind].
    fold labels. destruct (looks_like_no_header labels); [|done].
    by destruct (read_excel _ header_none).
  - intros col. unfold looks_like_data.
    rewrite !orb_true_iff, !Nat.eqb_eq. done.
  - reflexivity.
  - reflexivity.
  - reflexivity.
  - reflexivity.
  - reflexivity.
  - reflexivity.
  - reflexivity.
Qed.

End HeaderRowFacts.
